(** * CMetaInterval: the nested-interval compiler and playback engine

    A shallow embedding of [direct/src/interval/cMetaInterval.cxx].

    The C++ object is a record of its members, threaded explicitly through
    every method.  Three extra members record what the methods do to the
    outside world: [_calls] is the trace of [set_t] calls made on the child
    intervals, [_registered] the children whose [_parents] list currently
    holds this object, and [_diag] the notify output (warnings and failed
    assertions).

    Times are [int] ticks; they are modelled as [Z] (signed overflow is
    undefined behaviour in the source and is not modelled).  Indices that the
    source holds in [int] or [size_t] and that are never negative are [nat];
    the indices returned by the append methods can be [-1] and are [Z]. *)

From Stdlib Require Import String.
From Stdlib Require Import List ZArith Lia Bool Arith QArith Qround.
From Stdlib Require Import Sorted Permutation.
Import ListNotations.
Open Scope Z_scope.

(** ** Time

    Modelled from the spec: [double_to_int_time] and [int_to_double_time]
    are declared in the header, which is not part of the sources.  The spec
    says "time values are stored as the nearest representable integer at a
    configurable precision (ticks per time unit)".  The development is
    generic in the floating-point type and the two conversions. *)
Class TimeModel := {
  double : Type;
  double_zero : double;
  double_to_int_time : double -> Z;
  int_to_double_time : Z -> double }.

(** ** Enumerations *)

Inductive RelativeStart := RS_previous_end | RS_previous_begin | RS_level_begin.

Inductive DefType := DT_c_interval | DT_ext_index | DT_push_level | DT_pop_level.

Inductive PlaybackEventType := PET_begin | PET_end | PET_instant.

(** Modelled from the spec: [CInterval::EventType] is declared in a header
    that is not part of the sources; the spec lists its seven values. *)
Inductive EventType :=
| ET_initialize | ET_instant | ET_step | ET_finalize
| ET_reverse_initialize | ET_reverse_instant | ET_reverse_finalize.

Inductive Diag :=
| D_warning (msg : string)
| D_assert (cond : string)
| D_invalid_pointer.

Definition DefType_eqb (a b : DefType) : bool :=
  match a, b with
  | DT_c_interval, DT_c_interval | DT_ext_index, DT_ext_index
  | DT_push_level, DT_push_level | DT_pop_level, DT_pop_level => true
  | _, _ => false
  end.

Definition PET_eqb (a b : PlaybackEventType) : bool :=
  match a, b with
  | PET_begin, PET_begin | PET_end, PET_end | PET_instant, PET_instant => true
  | _, _ => false
  end.

Definition is_instant_type (event_type : EventType) : bool :=
  match event_type with
  | ET_instant | ET_reverse_instant => true
  | _ => false
  end.

(** ** Data *)

Section Model.
Context {TM : TimeModel}.

(** A native timed action, as far as this engine looks at it: its identity,
    [get_duration()] and [get_open_ended()]. *)
Record CInterval := mkCInterval {
  ci_id : nat;
  ci_duration : double;
  ci_open_ended : bool }.

(** [IntervalDef].  [_c_interval] is a nullable pointer. *)
Record IntervalDef := mkDef {
  _type : DefType;
  _c_interval : option CInterval;
  _ext_index : Z;
  _ext_name : string;
  _ext_duration : double;
  _ext_open_ended : bool;
  _rel_time : double;
  _rel_to : RelativeStart;
  _actual_begin_time : Z }.

(** [PlaybackEvent].  Events are heap objects handled through pointers:
    [ev_addr] is the address of the object, and [ev_begin_event] the address
    held in its [_begin_event] member.  [ev_time], [ev_n] and [ev_type] are
    the members [_time], [_n] and [_type]. *)
Record PlaybackEvent := mkEvent {
  ev_addr : nat;
  ev_time : Z;
  ev_n : nat;
  ev_type : PlaybackEventType;
  ev_begin_event : nat }.

(** [EventQueueEntry]: the members [_n], [_event_type] and [_time]. *)
Record EventQueueEntry := mkEntry {
  q_n : nat;
  q_event_type : EventType;
  q_time : Z }.

(** One call [_defs[n]._c_interval->set_t(t, event_type)]. *)
Record SetTCall := mkCall {
  call_n : nat;
  call_target : CInterval;
  call_t : double;
  call_event : EventType }.

(** [ActiveEvents] is a set of event pointers: a list of addresses, kept in
    increasing order and without duplicates. *)
Definition ActiveEvents := list nat.

Record CMetaInterval := mkMeta {
  _defs : list IntervalDef;
  _events : list PlaybackEvent;
  _active : ActiveEvents;
  _event_queue : list EventQueueEntry;
  _current_nesting_level : Z;
  _next_event_index : nat;
  _curr_t : double;
  _duration : double;
  _end_time : Z;
  _dirty : bool;
  _calls : list SetTCall;
  _registered : list nat;
  _diag : list Diag }.

Definition set_defs v s := mkMeta v (_events s) (_active s) (_event_queue s)
  (_current_nesting_level s) (_next_event_index s) (_curr_t s) (_duration s)
  (_end_time s) (_dirty s) (_calls s) (_registered s) (_diag s).
Definition set_events v s := mkMeta (_defs s) v (_active s) (_event_queue s)
  (_current_nesting_level s) (_next_event_index s) (_curr_t s) (_duration s)
  (_end_time s) (_dirty s) (_calls s) (_registered s) (_diag s).
Definition set_active v s := mkMeta (_defs s) (_events s) v (_event_queue s)
  (_current_nesting_level s) (_next_event_index s) (_curr_t s) (_duration s)
  (_end_time s) (_dirty s) (_calls s) (_registered s) (_diag s).
Definition set_event_queue v s := mkMeta (_defs s) (_events s) (_active s) v
  (_current_nesting_level s) (_next_event_index s) (_curr_t s) (_duration s)
  (_end_time s) (_dirty s) (_calls s) (_registered s) (_diag s).
Definition set_current_nesting_level v s := mkMeta (_defs s) (_events s)
  (_active s) (_event_queue s) v (_next_event_index s) (_curr_t s)
  (_duration s) (_end_time s) (_dirty s) (_calls s) (_registered s) (_diag s).
Definition set_next_event_index v s := mkMeta (_defs s) (_events s)
  (_active s) (_event_queue s) (_current_nesting_level s) v (_curr_t s)
  (_duration s) (_end_time s) (_dirty s) (_calls s) (_registered s) (_diag s).
Definition set_curr_t v s := mkMeta (_defs s) (_events s) (_active s)
  (_event_queue s) (_current_nesting_level s) (_next_event_index s) v
  (_duration s) (_end_time s) (_dirty s) (_calls s) (_registered s) (_diag s).
Definition set_duration v s := mkMeta (_defs s) (_events s) (_active s)
  (_event_queue s) (_current_nesting_level s) (_next_event_index s)
  (_curr_t s) v (_end_time s) (_dirty s) (_calls s) (_registered s) (_diag s).
Definition set_end_time v s := mkMeta (_defs s) (_events s) (_active s)
  (_event_queue s) (_current_nesting_level s) (_next_event_index s)
  (_curr_t s) (_duration s) v (_dirty s) (_calls s) (_registered s) (_diag s).
Definition set_dirty v s := mkMeta (_defs s) (_events s) (_active s)
  (_event_queue s) (_current_nesting_level s) (_next_event_index s)
  (_curr_t s) (_duration s) (_end_time s) v (_calls s) (_registered s)
  (_diag s).
Definition set_calls v s := mkMeta (_defs s) (_events s) (_active s)
  (_event_queue s) (_current_nesting_level s) (_next_event_index s)
  (_curr_t s) (_duration s) (_end_time s) (_dirty s) v (_registered s)
  (_diag s).
Definition set_registered v s := mkMeta (_defs s) (_events s) (_active s)
  (_event_queue s) (_current_nesting_level s) (_next_event_index s)
  (_curr_t s) (_duration s) (_end_time s) (_dirty s) (_calls s) v (_diag s).
Definition set_diag v s := mkMeta (_defs s) (_events s) (_active s)
  (_event_queue s) (_current_nesting_level s) (_next_event_index s)
  (_curr_t s) (_duration s) (_end_time s) (_dirty s) (_calls s)
  (_registered s) v.

(** ** Diagnostics

    [nassertv(c)] and [nassertr(c, v)]: when [c] fails the failure is
    reported and the enclosing method returns at once.  The report is the
    only effect. *)
Definition assert_failed (cond : string) (s : CMetaInterval) : CMetaInterval :=
  set_diag (_diag s ++ [D_assert cond]) s.

Definition warning (msg : string) (s : CMetaInterval) : CMetaInterval :=
  set_diag (_diag s ++ [D_warning msg]) s.

(** Dereferencing a null [_c_interval] or a dangling event pointer.  The
    append methods never store a null pointer in a [DT_c_interval] entry,
    and [clear_events] empties [_active] together with [_events]. *)
Definition invalid_pointer (s : CMetaInterval) : CMetaInterval :=
  set_diag (_diag s ++ [D_invalid_pointer]) s.

(** ** The set of active events *)

Fixpoint pset_insert (a : nat) (l : ActiveEvents) : ActiveEvents * bool :=
  match l with
  | [] => ([a], true)
  | b :: l' =>
      if (a <? b)%nat then (a :: b :: l', true)
      else if (a =? b)%nat then (l, false)
      else let (l'', ok) := pset_insert a l' in (b :: l'', ok)
  end.

Definition pset_mem (a : nat) (l : ActiveEvents) : bool :=
  existsb (Nat.eqb a) l.

(** [erase] returns the number of elements removed. *)
Definition pset_erase (a : nat) (l : ActiveEvents) : ActiveEvents * nat :=
  (filter (fun b => negb (a =? b)%nat) l,
   List.length (filter (Nat.eqb a) l)).

(** Following an event pointer: the objects live in [_events]. *)
Definition deref (events : list PlaybackEvent) (a : nat) : option PlaybackEvent :=
  find (fun e => (ev_addr e =? a)%nat) events.

(** ** The append methods *)

(** Modelled from the spec: [mark_dirty] is declared in the header of the
    base class, which is not part of the sources; "caller mutates the
    Definition List -> marks the compiled state dirty". *)
Definition mark_dirty (s : CMetaInterval) : CMetaInterval := set_dirty true s.

(** [IntervalDef()]: the members the caller does not assign are left as the
    constructor leaves them; the pointer is null. *)
Definition IntervalDef_new : IntervalDef :=
  mkDef DT_pop_level None 0 EmptyString double_zero false double_zero
        RS_previous_end 0.

Definition push_level (rel_time : double) (rel_to : RelativeStart)
  (s : CMetaInterval) : CMetaInterval * Z :=
  let def := mkDef DT_push_level None (_ext_index IntervalDef_new)
               (_ext_name IntervalDef_new) (_ext_duration IntervalDef_new)
               (_ext_open_ended IntervalDef_new) rel_time rel_to
               (_actual_begin_time IntervalDef_new) in
  let s := set_defs (_defs s ++ [def]) s in
  let s := set_current_nesting_level (_current_nesting_level s + 1) s in
  let s := mark_dirty s in
  (s, Z.of_nat (length (_defs s)) - 1).

Definition add_c_interval (c_interval : option CInterval) (rel_time : double)
  (rel_to : RelativeStart) (s : CMetaInterval) : CMetaInterval * Z :=
  match c_interval with
  | None => (assert_failed "c_interval != (CInterval *)NULL" s, -1)
  | Some ci =>
      let s := set_registered (_registered s ++ [ci_id ci]) s in
      let def := mkDef DT_c_interval (Some ci) (_ext_index IntervalDef_new)
                   (_ext_name IntervalDef_new) (_ext_duration IntervalDef_new)
                   (_ext_open_ended IntervalDef_new) rel_time rel_to
                   (_actual_begin_time IntervalDef_new) in
      let s := set_defs (_defs s ++ [def]) s in
      let s := mark_dirty s in
      (s, Z.of_nat (length (_defs s)) - 1)
  end.

Definition add_ext_index (ext_index : Z) (name : string) (duration : double)
  (open_ended : bool) (rel_time : double) (rel_to : RelativeStart)
  (s : CMetaInterval) : CMetaInterval * Z :=
  let def := mkDef DT_ext_index None ext_index name duration open_ended
               rel_time rel_to (_actual_begin_time IntervalDef_new) in
  let s := set_defs (_defs s ++ [def]) s in
  let s := mark_dirty s in
  (s, Z.of_nat (length (_defs s)) - 1).

Definition pop_level (s : CMetaInterval) : CMetaInterval * Z :=
  if 0 <? _current_nesting_level s then
    let def := mkDef DT_pop_level None (_ext_index IntervalDef_new)
                 (_ext_name IntervalDef_new) (_ext_duration IntervalDef_new)
                 (_ext_open_ended IntervalDef_new) (_rel_time IntervalDef_new)
                 (_rel_to IntervalDef_new) (_actual_begin_time IntervalDef_new) in
    let s := set_defs (_defs s ++ [def]) s in
    let s := set_current_nesting_level (_current_nesting_level s - 1) s in
    let s := mark_dirty s in
    (s, Z.of_nat (length (_defs s)) - 1)
  else (assert_failed "_current_nesting_level > 0" s, -1).

Definition clear_events (s : CMetaInterval) : CMetaInterval :=
  set_active [] (set_events [] s).

(** Removing the first occurrence of this object from a child's [_parents]. *)
Fixpoint erase_first (id : nat) (l : list nat) : list nat :=
  match l with
  | [] => []
  | x :: l' => if (x =? id)%nat then l' else x :: erase_first id l'
  end.

(** The loop of [clear_intervals] over [_defs]; [false] when the assertion
    inside the loop failed and the method returned from there. *)
Fixpoint clear_parents (defs : list IntervalDef) (s : CMetaInterval)
  : CMetaInterval * bool :=
  match defs with
  | [] => (s, true)
  | def :: rest =>
      match _c_interval def with
      | None => clear_parents rest s
      | Some ci =>
          if existsb (Nat.eqb (ci_id ci)) (_registered s) then
            clear_parents rest
              (set_registered (erase_first (ci_id ci) (_registered s)) s)
          else (assert_failed "pi != def._c_interval->_parents.end()" s, false)
      end
  end.

Definition clear_intervals (s : CMetaInterval) : CMetaInterval :=
  match _event_queue s with
  | _ :: _ => assert_failed "_event_queue.empty()" s
  | [] =>
      let s := clear_events s in
      let (s, ok) := clear_parents (_defs s) s in
      if ok then
        let s := set_defs [] s in
        let s := set_current_nesting_level 0 s in
        set_next_event_index 0%nat s
      else s
  end.

(** ** The timeline compiler *)

Definition get_begin_time (def : IntervalDef)
  (level_begin previous_begin previous_end : Z) : Z :=
  match _rel_to def with
  | RS_previous_end => previous_end + double_to_int_time (_rel_time def)
  | RS_previous_begin => previous_begin + double_to_int_time (_rel_time def)
  | RS_level_begin => level_begin + double_to_int_time (_rel_time def)
  end.

Definition with_actual_begin_time (t : Z) (def : IntervalDef) : IntervalDef :=
  mkDef (_type def) (_c_interval def) (_ext_index def) (_ext_name def)
        (_ext_duration def) (_ext_open_ended def) (_rel_time def)
        (_rel_to def) t.

(** [_defs[n]._actual_begin_time = t]. *)
Fixpoint set_actual_begin_time (n : nat) (t : Z) (defs : list IntervalDef)
  : list IntervalDef :=
  match defs, n with
  | [], _ => []
  | def :: rest, O => with_actual_begin_time t def :: rest
  | def :: rest, S n' => def :: set_actual_begin_time n' t rest
  end.

(** The events pushed for one action.  [new PlaybackEvent(time, n, type)]
    returns a fresh address, taken here to be the number of events created
    since [clear_events]; the constructor points [_begin_event] at the new
    object itself. *)
Definition push_events (begin_time end_time : Z) (n : nat)
  (events : list PlaybackEvent) : list PlaybackEvent :=
  let a := length events in
  if begin_time =? end_time then
    events ++ [mkEvent a begin_time n PET_instant a]
  else
    events ++ [mkEvent a begin_time n PET_begin a;
               mkEvent (S a) end_time n PET_end a].

(** [recompute_level(n, level_begin, level_end)] and its [while] loop.  The
    result is the state, the returned index and [level_end].  [fuel] bounds
    the number of nested calls and loop iterations; the result is [None]
    when it runs out, and also when a [DT_c_interval] entry with a null
    pointer is reached, where the source dereferences it. *)
Fixpoint recompute_level (fuel : nat) (n : nat) (level_begin : Z)
  (s : CMetaInterval) : option (CMetaInterval * nat * Z) :=
  match fuel with
  | O => None
  | S fuel' =>
      match recompute_loop fuel' n level_begin level_begin level_begin
                           level_begin s with
      | None => None
      | Some (s', n', level_end) =>
          if (n' <? length (_defs s'))%nat then
            Some (set_defs (set_actual_begin_time n' level_end (_defs s')) s',
                  n', level_end)
          else Some (s', n', level_end)
      end
  end
with recompute_loop (fuel : nat) (n : nat)
  (level_begin previous_begin previous_end level_end : Z)
  (s : CMetaInterval) : option (CMetaInterval * nat * Z) :=
  match fuel with
  | O => None
  | S fuel' =>
      match nth_error (_defs s) n with
      | None => Some (s, n, level_end)
      | Some def =>
          let begin_time :=
            get_begin_time def level_begin previous_begin previous_end in
          match _type def with
          | DT_pop_level => Some (s, n, level_end)
          | DT_c_interval =>
              let s := set_defs (set_actual_begin_time n begin_time (_defs s)) s in
              match _c_interval def with
              | None => None
              | Some ci =>
                  let end_time :=
                    begin_time + double_to_int_time (ci_duration ci) in
                  let s := set_events
                             (push_events begin_time end_time n (_events s)) s in
                  recompute_loop fuel' (S n) level_begin begin_time end_time
                                 (Z.max level_end end_time) s
              end
          | DT_ext_index =>
              let s := set_defs (set_actual_begin_time n begin_time (_defs s)) s in
              let end_time :=
                begin_time + double_to_int_time (_ext_duration def) in
              let s := set_events
                         (push_events begin_time end_time n (_events s)) s in
              recompute_loop fuel' (S n) level_begin begin_time end_time
                             (Z.max level_end end_time) s
          | DT_push_level =>
              let s := set_defs (set_actual_begin_time n begin_time (_defs s)) s in
              match recompute_level fuel' (S n) begin_time s with
              | None => None
              | Some (s, n', end_time) =>
                  recompute_loop fuel' (S n') level_begin begin_time end_time
                                 (Z.max level_end end_time) s
              end
          end
      end
  end.

(** Modelled from the spec: [std::stable_sort] with
    [IndirectLess<PlaybackEvent>], whose [operator <] is declared in the
    header; "stably sorts the flat list by time, preserving declaration
    order for ties".  An insertion sort that puts an event before the
    first one that is not earlier than it. *)
Fixpoint insert_event (e : PlaybackEvent) (l : list PlaybackEvent)
  : list PlaybackEvent :=
  match l with
  | [] => [e]
  | x :: l' => if ev_time x <? ev_time e then x :: insert_event e l' else e :: l
  end.

Definition stable_sort (l : list PlaybackEvent) : list PlaybackEvent :=
  fold_right insert_event [] l.

Definition pushes_dont_match_pops : string :=
  "CMetaInterval pushes don't match pops.".

Definition recompute_fuel (s : CMetaInterval) : nat :=
  (2 * length (_defs s) + 2)%nat.

Definition do_recompute (s : CMetaInterval) : CMetaInterval :=
  let s := set_dirty false s in
  let s := clear_events s in
  match recompute_level (recompute_fuel s) 0 0 s with
  | None => invalid_pointer s
  | Some (s, n, level_end) =>
      let s := set_end_time level_end s in
      let s := if (n =? length (_defs s))%nat then s
               else warning pushes_dont_match_pops s in
      let s := set_events (stable_sort (_events s)) s in
      set_duration (int_to_double_time (_end_time s)) s
  end.

(** Modelled from the spec: [recompute] is declared in the header of the
    base class; "compile() rebuilds the Events list from the Definition
    List whenever dirty; idempotent if not dirty". *)
Definition recompute (s : CMetaInterval) : CMetaInterval :=
  if _dirty s then do_recompute s else s.

(** [get_duration] is an accessor of the base class, declared in its
    header, which is not part of the sources; the specification leaves
    the "generic duration accessors" out.  It is taken to read the
    duration the last compilation stored.  On an object that is not dirty
    an accessor that recompiles on demand returns the same and changes
    nothing; [instant] calls it right after [recompute], [finalize] calls
    it on whatever object it is given, and what is stated about [finalize]
    and rests on this accessor is stated for an object that is not
    dirty. *)
Definition get_duration (s : CMetaInterval) : double := _duration s.

(** ** The external event bridge *)

Definition set_t (n : nat) (ci : CInterval) (t : double)
  (event_type : EventType) (s : CMetaInterval) : CMetaInterval :=
  set_calls (_calls s ++ [mkCall n ci t event_type]) s.

Definition push_back_event (n : nat) (event_type : EventType) (time : Z)
  (s : CMetaInterval) : CMetaInterval :=
  set_event_queue (_event_queue s ++ [mkEntry n event_type time]) s.

Definition queue_empty (s : CMetaInterval) : bool :=
  match _event_queue s with [] => true | _ :: _ => false end.

Definition enqueue_event (n : nat) (event_type : EventType)
  (is_initial : bool) (time : Z) (s : CMetaInterval) : CMetaInterval :=
  match nth_error (_defs s) n with
  | None => assert_failed "n >= 0 && n < (int)_defs.size()" s
  | Some def =>
      let skipped := is_initial && is_instant_type event_type in
      match _type def with
      | DT_c_interval =>
          match _c_interval def with
          | Some ci =>
              if skipped && negb (ci_open_ended ci) then s
              else if queue_empty s then
                set_t n ci (int_to_double_time time) event_type s
              else push_back_event n event_type time s
          | None =>
              if skipped || queue_empty s then invalid_pointer s
              else push_back_event n event_type time s
          end
      | DT_ext_index =>
          if skipped && negb (_ext_open_ended def) then s
          else push_back_event n event_type time s
      | _ => assert_failed "false" s
      end
  end.

(** The loop of [service_event_queue]; [queue] is [_event_queue]. *)
Fixpoint service_loop (queue : list EventQueueEntry) (s : CMetaInterval)
  : CMetaInterval * bool :=
  match queue with
  | [] => (s, false)
  | entry :: rest =>
      match nth_error (_defs s) (q_n entry) with
      | None =>
          (assert_failed "entry._n >= 0 && entry._n < (int)_defs.size()" s,
           false)
      | Some def =>
          match _type def with
          | DT_c_interval =>
              match _c_interval def with
              | None => (invalid_pointer s, false)
              | Some ci =>
                  let s := set_t (q_n entry) ci
                             (int_to_double_time (q_time entry))
                             (q_event_type entry) s in
                  let s := set_event_queue rest s in
                  service_loop rest s
              end
          | DT_ext_index => (s, true)
          | _ => (assert_failed "false" s, false)
          end
      end
  end.

Definition service_event_queue (s : CMetaInterval) : CMetaInterval * bool :=
  service_loop (_event_queue s) s.

(** Modelled from the spec: the host's removal of the external entry it has
    serviced is declared in the header; "leaving it at the head for the
    host to service out-of-band", "the host drains the external entry". *)
Definition pop_event (s : CMetaInterval) : CMetaInterval :=
  match _event_queue s with
  | [] => s
  | entry :: rest =>
      match nth_error (_defs s) (q_n entry) with
      | Some def =>
          match _type def with
          | DT_ext_index => set_event_queue rest s
          | _ => s
          end
      | None => s
      end
  end.

(** ** The playback engine *)

Definition do_event_forward (event : PlaybackEvent) (new_active : ActiveEvents)
  (is_initial : bool) (s : CMetaInterval) : CMetaInterval * ActiveEvents :=
  match ev_type event with
  | PET_begin =>
      if negb (ev_begin_event event =? ev_addr event)%nat then
        (assert_failed "event->_begin_event == event" s, new_active)
      else if pset_mem (ev_addr event) (_active s) then
        (assert_failed "_active.find(event) == _active.end()" s, new_active)
      else
        let (new_active, okflag) := pset_insert (ev_addr event) new_active in
        if okflag then (s, new_active)
        else (assert_failed "okflag" s, new_active)
  | PET_end =>
      let (new_active', erase_count) :=
        pset_erase (ev_begin_event event) new_active in
      if negb (erase_count =? 0)%nat then
        let s := enqueue_event (ev_n event) ET_instant is_initial 0 s in
        if (erase_count =? 1)%nat then (s, new_active')
        else (assert_failed "erase_count == 1" s, new_active')
      else
        let (active', erase_count) :=
          pset_erase (ev_begin_event event) (_active s) in
        let s := set_active active' s in
        let s := enqueue_event (ev_n event) ET_finalize is_initial 0 s in
        if (erase_count =? 1)%nat then (s, new_active')
        else (assert_failed "erase_count == 1" s, new_active')
  | PET_instant =>
      if negb (ev_begin_event event =? ev_addr event)%nat then
        (assert_failed "event->_begin_event == event" s, new_active)
      else if pset_mem (ev_addr event) new_active then
        (assert_failed "new_active.find(event) == new_active.end()" s,
         new_active)
      else if pset_mem (ev_addr event) (_active s) then
        (assert_failed "_active.find(event) == _active.end()" s, new_active)
      else (enqueue_event (ev_n event) ET_instant is_initial 0 s, new_active)
  end.

(** "Do whatever's still active": the first loop of [finish_events_forward]
    and of [finish_events_reverse], over the addresses in [_active]. *)
Fixpoint step_active (now : Z) (l : ActiveEvents) (s : CMetaInterval)
  : CMetaInterval :=
  match l with
  | [] => s
  | a :: l' =>
      match deref (_events s) a with
      | None => invalid_pointer s
      | Some event =>
          step_active now l'
            (enqueue_event (ev_n event) ET_step false (now - ev_time event) s)
      end
  end.

(** The second loop, over [new_active]: [event_type] is [ET_initialize] or
    [ET_reverse_initialize]. *)
Fixpoint init_new_active (event_type : EventType) (now : Z) (l : ActiveEvents)
  (s : CMetaInterval) : CMetaInterval :=
  match l with
  | [] => s
  | a :: l' =>
      match deref (_events s) a with
      | None => invalid_pointer s
      | Some event =>
          let s := enqueue_event (ev_n event) event_type false
                     (now - ev_time event) s in
          let (active', inserted) := pset_insert a (_active s) in
          let s := set_active active' s in
          if inserted then init_new_active event_type now l' s
          else assert_failed "inserted" s
      end
  end.

Definition finish_events_forward (now : Z) (new_active : ActiveEvents)
  (s : CMetaInterval) : CMetaInterval :=
  let s := step_active now (_active s) s in
  init_new_active ET_initialize now new_active s.

Definition do_event_reverse (event : PlaybackEvent) (new_active : ActiveEvents)
  (is_initial : bool) (s : CMetaInterval) : CMetaInterval * ActiveEvents :=
  match ev_type event with
  | PET_begin =>
      if negb (ev_begin_event event =? ev_addr event)%nat then
        (assert_failed "event->_begin_event == event" s, new_active)
      else
        let (new_active', erase_count) :=
          pset_erase (ev_addr event) new_active in
        if negb (erase_count =? 0)%nat then
          let s := enqueue_event (ev_n event) ET_reverse_instant is_initial 0 s in
          if (erase_count =? 1)%nat then (s, new_active')
          else (assert_failed "erase_count == 1" s, new_active')
        else
          let (active', erase_count) :=
            pset_erase (ev_begin_event event) (_active s) in
          let s := set_active active' s in
          let s := enqueue_event (ev_n event) ET_reverse_finalize is_initial 0 s in
          if (erase_count =? 1)%nat then (s, new_active')
          else (assert_failed "erase_count == 1" s, new_active')
  | PET_end =>
      if pset_mem (ev_begin_event event) new_active then
        (assert_failed
           "new_active.find(event->_begin_event) == new_active.end()" s,
         new_active)
      else
        let (new_active, okflag) :=
          pset_insert (ev_begin_event event) new_active in
        if okflag then (s, new_active)
        else (assert_failed "okflag" s, new_active)
  | PET_instant =>
      if negb (ev_begin_event event =? ev_addr event)%nat then
        (assert_failed "event->_begin_event == event" s, new_active)
      else if pset_mem (ev_addr event) (_active s) then
        (assert_failed "_active.find(event) == _active.end()" s, new_active)
      else if pset_mem (ev_addr event) new_active then
        (assert_failed "new_active.find(event) == new_active.end()" s,
         new_active)
      else
        (enqueue_event (ev_n event) ET_reverse_instant is_initial 0 s,
         new_active)
  end.

Definition finish_events_reverse (now : Z) (new_active : ActiveEvents)
  (s : CMetaInterval) : CMetaInterval :=
  let s := step_active now (_active s) s in
  init_new_active ET_reverse_initialize now new_active s.

(** The forward [while] loops of [initialize], [step] and [finalize]:
    [rest] is [_events] from [_next_event_index] on, and [cond] the test on
    the time of the next event. *)
Fixpoint scan_forward (cond : PlaybackEvent -> bool) (is_initial : bool)
  (rest : list PlaybackEvent) (new_active : ActiveEvents) (s : CMetaInterval)
  : CMetaInterval * ActiveEvents :=
  match rest with
  | [] => (s, new_active)
  | event :: rest' =>
      if cond event then
        let (s, new_active) := do_event_forward event new_active is_initial s in
        let s := set_next_event_index (S (_next_event_index s)) s in
        scan_forward cond is_initial rest' new_active s
      else (s, new_active)
  end.

(** The backward [while] loops of [step], [reverse_initialize] and
    [reverse_finalize]: [rest] is [_events] below [_next_event_index], last
    one first. *)
Fixpoint scan_reverse (cond : PlaybackEvent -> bool) (is_initial : bool)
  (rest : list PlaybackEvent) (new_active : ActiveEvents) (s : CMetaInterval)
  : CMetaInterval * ActiveEvents :=
  match rest with
  | [] => (s, new_active)
  | event :: rest' =>
      if cond event then
        let s := set_next_event_index (Nat.pred (_next_event_index s)) s in
        let (s, new_active) := do_event_reverse event new_active is_initial s in
        scan_reverse cond is_initial rest' new_active s
      else (s, new_active)
  end.

Definition events_ahead (s : CMetaInterval) : list PlaybackEvent :=
  skipn (_next_event_index s) (_events s).

Definition events_behind (s : CMetaInterval) : list PlaybackEvent :=
  rev (firstn (_next_event_index s) (_events s)).

Definition initialize (t : double) (s : CMetaInterval) : CMetaInterval :=
  let s := recompute s in
  let s := set_next_event_index 0%nat s in
  let s := set_active [] s in
  let now := double_to_int_time t in
  let (s, new_active) :=
    scan_forward (fun e => ev_time e <=? now) true (events_ahead s) [] s in
  let s := finish_events_forward now new_active s in
  set_curr_t t s.

(** The loop of [instant] and of [reverse_instant] over the events. *)
Fixpoint instant_loop (event_type : EventType) (events : list PlaybackEvent)
  (s : CMetaInterval) : CMetaInterval :=
  match events with
  | [] => s
  | event :: rest =>
      let s := if PET_eqb (ev_type event) PET_begin then s
               else enqueue_event (ev_n event) event_type true 0 s in
      instant_loop event_type rest s
  end.

Definition instant (s : CMetaInterval) : CMetaInterval :=
  let s := recompute s in
  let s := set_active [] s in
  let s := instant_loop ET_instant (_events s) s in
  let s := set_next_event_index (length (_events s)) s in
  set_curr_t (get_duration s) s.

Definition step (t : double) (s : CMetaInterval) : CMetaInterval :=
  let now := double_to_int_time t in
  let increasing :=
    match nth_error (_events s) (_next_event_index s) with
    | Some event => ev_time event <=? now
    | None => false
    end in
  let s :=
    if increasing then
      let (s, new_active) :=
        scan_forward (fun e => ev_time e <=? now) false (events_ahead s) [] s in
      finish_events_forward now new_active s
    else
      let (s, new_active) :=
        scan_reverse (fun e => now <? ev_time e) false (events_behind s) [] s in
      finish_events_reverse now new_active s in
  set_curr_t t s.

Definition finalize (s : CMetaInterval) : CMetaInterval :=
  let (s, new_active) :=
    scan_forward (fun _ => true) false (events_ahead s) [] s in
  let s := set_curr_t (get_duration s) s in
  finish_events_forward (double_to_int_time (_curr_t s)) new_active s.

Definition reverse_initialize (t : double) (s : CMetaInterval) : CMetaInterval :=
  let s := recompute s in
  let s := set_next_event_index (length (_events s)) s in
  let s := set_active [] s in
  let now := double_to_int_time t in
  let (s, new_active) :=
    scan_reverse (fun e => now <? ev_time e) true (events_behind s) [] s in
  let s := finish_events_reverse now new_active s in
  set_curr_t t s.

Definition reverse_instant (s : CMetaInterval) : CMetaInterval :=
  let s := recompute s in
  let s := set_active [] s in
  let s := instant_loop ET_reverse_instant (rev (_events s)) s in
  let s := set_next_event_index 0%nat s in
  set_curr_t double_zero s.

Definition reverse_finalize (s : CMetaInterval) : CMetaInterval :=
  let (s, new_active) :=
    scan_reverse (fun _ => true) false (events_behind s) [] s in
  let s := finish_events_reverse 0 new_active s in
  set_curr_t double_zero s.

(** [write(out, indent_level)] begins with [recompute()]; the text it then
    writes to [out] is not part of the object, and the assertion on the
    number of digits returns without a change. *)
Definition write (s : CMetaInterval) : CMetaInterval := recompute s.

(** The constructor: [CInterval(name, 0.0, true)], no definitions. *)
Definition CMetaInterval_new : CMetaInterval :=
  mkMeta [] [] [] [] 0 0%nat double_zero double_zero 0 false [] [] [].

(** ** Specification vocabulary *)

(** An entry that stands for an action the engine can call back. *)
Definition is_action (def : IntervalDef) : bool :=
  match _type def with
  | DT_c_interval =>
      match _c_interval def with Some _ => true | None => false end
  | DT_ext_index => true
  | _ => false
  end.

Definition valid_action (defs : list IntervalDef) (n : nat) : bool :=
  match nth_error defs n with
  | Some def => is_action def
  | None => false
  end.

Definition def_open_ended (def : IntervalDef) : bool :=
  match _type def with
  | DT_c_interval =>
      match _c_interval def with
      | Some ci => ci_open_ended ci
      | None => false
      end
  | DT_ext_index => _ext_open_ended def
  | _ => false
  end.

(** The quantized duration of an action; [None] for the other entries. *)
Definition def_duration (def : IntervalDef) : option Z :=
  match _type def with
  | DT_c_interval =>
      match _c_interval def with
      | Some ci => Some (double_to_int_time (ci_duration ci))
      | None => None
      end
  | DT_ext_index => Some (double_to_int_time (_ext_duration def))
  | _ => None
  end.

Definition duration_at (defs : list IntervalDef) (n : nat) : option Z :=
  match nth_error defs n with
  | Some def => def_duration def
  | None => None
  end.

Definition open_ended_at (defs : list IntervalDef) (n : nat) : bool :=
  match nth_error defs n with
  | Some def => def_open_ended def
  | None => false
  end.

Definition nesting_step (def : IntervalDef) : Z :=
  match _type def with
  | DT_push_level => 1
  | DT_pop_level => -1
  | _ => 0
  end.

(** Pushes minus pops. *)
Fixpoint nesting (defs : list IntervalDef) : Z :=
  match defs with
  | [] => 0
  | def :: rest => nesting_step def + nesting rest
  end.

(** No prefix pops a group that is not open. *)
Definition well_nested (defs : list IntervalDef) : Prop :=
  forall k, 0 <= nesting (firstn k defs).

Definition child_ids (defs : list IntervalDef) : list nat :=
  flat_map (fun def => match _c_interval def with
                       | Some ci => [ci_id ci]
                       | None => []
                       end) defs.

(** The append methods never store a null child. *)
Definition no_null_children (defs : list IntervalDef) : Prop :=
  forall def, In def defs -> _type def = DT_c_interval ->
              _c_interval def <> None.

(** What an observer of the children and of the queue sees of a callback:
    the entry, the kind and the time passed to [set_t]. *)
Definition Dispatch : Type := nat * EventType * double.

Definition call_dispatch (c : SetTCall) : Dispatch :=
  (call_n c, call_event c, call_t c).

Definition entry_dispatch (q : EventQueueEntry) : Dispatch :=
  (q_n q, q_event_type q, int_to_double_time (q_time q)).

(** Every callback dispatched so far and not yet taken by the host, in
    order: the calls made, then the entries waiting. *)
Definition dispatched (s : CMetaInterval) : list Dispatch :=
  map call_dispatch (_calls s) ++ map entry_dispatch (_event_queue s).

Definition dispatch_n (d : Dispatch) : nat := fst (fst d).
Definition dispatch_event (d : Dispatch) : EventType := snd (fst d).

(** The entry at the head of the queue is for a native action. *)
Definition native_entry (defs : list IntervalDef) (q : EventQueueEntry) : bool :=
  match nth_error defs (q_n q) with
  | Some def => DefType_eqb (_type def) DT_c_interval
  | None => false
  end.

Definition external_entry (defs : list IntervalDef) (q : EventQueueEntry) : bool :=
  match nth_error defs (q_n q) with
  | Some def => DefType_eqb (_type def) DT_ext_index
  | None => false
  end.

(** The call that servicing a queue entry makes. *)
Definition entry_call (defs : list IntervalDef) (q : EventQueueEntry)
  : list SetTCall :=
  match nth_error defs (q_n q) with
  | Some def =>
      match _c_interval def with
      | Some ci => [mkCall (q_n q) ci (int_to_double_time (q_time q))
                           (q_event_type q)]
      | None => []
      end
  | None => []
  end.

(** *** What the compiler emits *)

(** The events of one entry: none for a group marker, one instant event for
    a zero quantized duration, a begin and an end otherwise; [b] is the
    address of the first and [t] its time. *)
Definition events_of (q : option Z) (i b : nat) (t : Z) : list PlaybackEvent :=
  match q with
  | None => []
  | Some q =>
      if q =? 0 then [mkEvent b t i PET_instant b]
      else [mkEvent b t i PET_begin b; mkEvent (S b) (t + q) i PET_end b]
  end.

Definition events_at (i : nat) (l : list PlaybackEvent) : list PlaybackEvent :=
  filter (fun e => (ev_n e =? i)%nat) l.

(** Emitted earlier, for an entry declared no later. *)
Definition emitted_before (x y : PlaybackEvent) : Prop :=
  (ev_addr x < ev_addr y)%nat /\ (ev_n x <= ev_n y)%nat.

(** [X] is what a walk over the entries [n .. n'-1] emits, the first event
    at address [a]: the events of each entry, in the order of the entries,
    at consecutive addresses. *)
Definition emitted_ok (defs : list IntervalDef) (a n n' : nat)
  (X : list PlaybackEvent) : Prop :=
  (forall e, In e X ->
     (n <= ev_n e < n')%nat /\ (a <= ev_addr e < a + length X)%nat) /\
  StronglySorted emitted_before X /\
  (forall i, (n <= i < n')%nat ->
     exists b t, events_at i X = events_of (duration_at defs i) i b t) /\
  map ev_addr X = seq a (length X).

(** The compiled timeline of a definition list. *)
Definition compiled_ok (defs : list IntervalDef) (events : list PlaybackEvent)
  : Prop :=
  exists E n', emitted_ok defs 0 0 n' E /\ (length defs <= n')%nat /\
               events = stable_sort E.

(** Before or at the same time, and then emitted earlier for an entry
    declared earlier. *)
Definition timeline_order (x y : PlaybackEvent) : Prop :=
  ev_time x <= ev_time y /\
  (ev_time x = ev_time y ->
   (ev_addr x < ev_addr y)%nat /\ (ev_n x < ev_n y)%nat).

(** Sorted by time, and in the order [R] among events at the same time. *)
Definition stable_order (R : PlaybackEvent -> PlaybackEvent -> Prop)
  (x y : PlaybackEvent) : Prop :=
  ev_time x <= ev_time y /\ (ev_time x = ev_time y -> R x y).

(** *** The invariant of the object *)

Record Inv (s : CMetaInterval) : Prop := mkInv {
  inv_nested : well_nested (_defs s);
  inv_level : _current_nesting_level s = nesting (_defs s);
  inv_children : no_null_children (_defs s);
  inv_registered : _registered s = child_ids (_defs s);
  inv_queue :
    forall q, In q (_event_queue s) -> valid_action (_defs s) (q_n q) = true;
  inv_events :
    forall e, In e (_events s) ->
      valid_action (_defs s) (ev_n e) = true /\
      exists b, In b (_events s) /\ ev_addr b = ev_begin_event e;
  inv_active :
    forall a, In a (_active s) -> exists e, In e (_events s) /\ ev_addr e = a;
  inv_index : (_next_event_index s <= length (_events s))%nat;
  inv_compiled : _dirty s = false -> compiled_ok (_defs s) (_events s) }.

(** The states the public methods lead to from a new object. *)
Inductive reachable : CMetaInterval -> Prop :=
| R_new : reachable CMetaInterval_new
| R_push_level s rel_time rel_to :
    reachable s -> reachable (fst (push_level rel_time rel_to s))
| R_add_c_interval s c_interval rel_time rel_to :
    reachable s -> reachable (fst (add_c_interval c_interval rel_time rel_to s))
| R_add_ext_index s ext_index name duration open_ended rel_time rel_to :
    reachable s ->
    reachable (fst (add_ext_index ext_index name duration open_ended
                                  rel_time rel_to s))
| R_pop_level s : reachable s -> reachable (fst (pop_level s))
| R_clear_intervals s : reachable s -> reachable (clear_intervals s)
| R_initialize s t : reachable s -> reachable (initialize t s)
| R_instant s : reachable s -> reachable (instant s)
| R_step s t : reachable s -> reachable (step t s)
| R_finalize s : reachable s -> reachable (finalize s)
| R_reverse_initialize s t : reachable s -> reachable (reverse_initialize t s)
| R_reverse_instant s : reachable s -> reachable (reverse_instant s)
| R_reverse_finalize s : reachable s -> reachable (reverse_finalize s)
| R_service_event_queue s :
    reachable s -> reachable (fst (service_event_queue s))
| R_pop_event s : reachable s -> reachable (pop_event s)
| R_write s : reachable s -> reachable (write s).

(** *** The walk of the compiler *)

(** A definition list without the times the last compilation wrote. *)
Definition statics (defs : list IntervalDef) : list IntervalDef :=
  map (with_actual_begin_time 0) defs.

(** The nesting level in front of entry [k]; past the end of the list every
    position closes a level, as [recompute_level] has it. *)
Definition lvl (defs : list IntervalDef) (k : nat) : Z :=
  nesting (firstn k defs) - Z.of_nat (k - length defs).

(** Only [_defs] and [_events] differ. *)
Definition frame_timeline (s s' : CMetaInterval) : Prop :=
  s' = set_defs (_defs s') (set_events (_events s') s).

(** What a walk from entry [n] in state [s] that returns [n'] in state [s']
    has done. *)
Definition walk_post (s : CMetaInterval) (n : nat) (s' : CMetaInterval)
  (n' : nat) : Prop :=
  frame_timeline s s' /\
  statics (_defs s') = statics (_defs s) /\
  (n <= n')%nat /\
  lvl (statics (_defs s)) n' = lvl (statics (_defs s)) n /\
  (forall d, nth_error (statics (_defs s)) n' = Some d ->
             _type d = DT_pop_level) /\
  exists X, _events s' = _events s ++ X /\
            emitted_ok (statics (_defs s)) (length (_events s)) n n' X.

(** *** What playback may change *)

(** The callback of entry [n] is dropped: a cold start skips the instant
    of an action that is not open-ended. *)
Definition suppressed_at (defs : list IntervalDef) (n : nat)
  (is_initial : bool) (event_type : EventType) : bool :=
  is_initial && is_instant_type event_type && negb (open_ended_at defs n).

(** The members playback never writes. *)
Definition playback_frame (s s' : CMetaInterval) : Prop :=
  _defs s' = _defs s /\ _events s' = _events s /\ _dirty s' = _dirty s /\
  _current_nesting_level s' = _current_nesting_level s /\
  _registered s' = _registered s /\ _duration s' = _duration s /\
  _end_time s' = _end_time s.

(** From [s] to [s'] playback has only appended to the queue, dispatched
    callbacks that satisfy [P], and put addresses of events into the
    active set. *)
Definition plays (P : Dispatch -> Prop) (s s' : CMetaInterval) : Prop :=
  playback_frame s s' /\
  (exists l, _event_queue s' = _event_queue s ++ l /\
             (no_null_children (_defs s) ->
              forall q, In q l -> valid_action (_defs s) (q_n q) = true)) /\
  (exists l, dispatched s' = dispatched s ++ l /\ Forall P l) /\
  (forall a, In a (_active s') ->
             In a (_active s) \/ exists e, In e (_events s) /\ ev_addr e = a).

(** The members the event handlers leave alone besides those of
    [playback_frame]. *)
Definition cursor_frame (s s' : CMetaInterval) : Prop :=
  _next_event_index s' = _next_event_index s /\ _events s' = _events s /\
  _curr_t s' = _curr_t s.

Definition any_dispatch : Dispatch -> Prop := fun _ => True.

(** The invariant but for the cursor, which the playback methods set
    after they recompile. *)
Definition Inv_off (s : CMetaInterval) : Prop :=
  Inv (set_next_event_index 0%nat s).

(** The kind of callback [do_event_forward] asks for. *)
Definition forward_dispatch (event : PlaybackEvent) (new_active : ActiveEvents)
  : option EventType :=
  match ev_type event with
  | PET_begin => None
  | PET_end =>
      if pset_mem (ev_begin_event event) new_active then Some ET_instant
      else Some ET_finalize
  | PET_instant => Some ET_instant
  end.

(** The kind of callback [do_event_reverse] asks for. *)
Definition reverse_dispatch (event : PlaybackEvent) (new_active : ActiveEvents)
  : option EventType :=
  match ev_type event with
  | PET_begin =>
      if pset_mem (ev_addr event) new_active then Some ET_reverse_instant
      else Some ET_reverse_finalize
  | PET_end => None
  | PET_instant => Some ET_reverse_instant
  end.

(** *** The claims of the specification *)

(** The queue of [s'] is the queue of [s] with entries appended. *)
Definition queue_extends (s s' : CMetaInterval) : Prop :=
  exists l, _event_queue s' = _event_queue s ++ l.

(** The method refused the call: nothing changed but the report of the
    failed precondition. *)
Definition rejected (s s' : CMetaInterval) : Prop :=
  exists cond, s' = set_diag (_diag s ++ [D_assert cond]) s.


(** C2 as the specification states it: [instant] dispatches an instant
    callback for every event that is not a begin. *)
Definition instant_claim : Prop :=
  forall s : CMetaInterval,
    reachable s ->
    exists l,
      dispatched (instant s) = dispatched s ++ l /\
      (forall e, In e (_events (instant s)) -> ev_type e <> PET_begin ->
                 In (ev_n e, ET_instant, int_to_double_time 0) l) /\
      _active (instant s) = [] /\
      _curr_t (instant s) = _duration (instant s).

(** The events [instant] visits: those that are not a begin. *)
Definition not_begin (e : PlaybackEvent) : bool :=
  negb (PET_eqb (ev_type e) PET_begin).



(** The cursor stands where a [step] to the time [now] leaves it: the next
    event is later than [now], the one before is not. *)
Definition cursor_settled (now : Z) (s : CMetaInterval) : Prop :=
  match nth_error (_events s) (_next_event_index s) with
  | Some e => (ev_time e <=? now) = false
  | None => True
  end /\
  match events_behind s with
  | [] => True
  | e :: _ => (now <? ev_time e) = false
  end.

(** C3 as the specification states it: an action that is not open-ended
    and whose events are all at or before the target of [initialize] gets
    no callback from it. *)
Definition skip_suppression_claim : Prop :=
  forall (s : CMetaInterval) (t : double) (i : nat) (q : Z),
    reachable s ->
    duration_at (_defs (recompute s)) i = Some q ->
    open_ended_at (_defs (recompute s)) i = false ->
    (forall e, In e (_events (recompute s)) -> ev_n e = i ->
               ev_time e <= double_to_int_time t) ->
    exists l,
      dispatched (initialize t s) = dispatched s ++ l /\
      forall d, In d l -> dispatch_n d <> i.

(** An event that belongs to another entry than [i], whose begin is at
    address [a]. *)
Definition other_event (i a : nat) (e : PlaybackEvent) : Prop :=
  ev_n e <> i /\ ev_addr e <> a /\ ev_begin_event e <> a.

(** No callback for entry [i]. *)
Definition not_for (i : nat) : Dispatch -> Prop :=
  fun d => dispatch_n d <> i.

(** Every address in the set is the address of a begin event. *)
Definition begins_only (events : list PlaybackEvent) (new_active : ActiveEvents)
  : Prop :=
  forall x, In x new_active ->
            exists e, In e events /\ ev_type e = PET_begin /\ ev_addr e = x.

End Model.

(** ** A concrete time model

    Rational time at the default precision of 1000 ticks per unit: a time
    is rounded to the nearest tick. *)
Definition Q_time : TimeModel := {|
  double := Q;
  double_zero := 0%Q;
  double_to_int_time := fun t => Qfloor (t * 1000 + (1 # 2))%Q;
  int_to_double_time := fun time => (time # 1000)%Q |}.

(** ** Schedules used as examples *)

Section Scenarios.
#[local] Existing Instance Q_time.

(** An open-ended native action of duration 2. *)
Definition open_action : CInterval := mkCInterval 1 2%Q true.

(** A native action of duration 1 that is not open-ended. *)
Definition closed_action : CInterval := mkCInterval 2 1%Q false.

(** A native action of duration 0. *)
Definition instant_action : CInterval := mkCInterval 3 0%Q true.

Definition one_open_action : CMetaInterval :=
  fst (add_c_interval (Some open_action) 0%Q RS_previous_end
         CMetaInterval_new).

Definition one_closed_action : CMetaInterval :=
  fst (add_c_interval (Some closed_action) 0%Q RS_previous_end
         CMetaInterval_new).

(** Scenario A: a group of two native actions of duration 1, the second
    starting where the first ends. *)
Definition two_in_a_row : CMetaInterval :=
  fst (pop_level
    (fst (add_c_interval (Some (mkCInterval 5 1%Q true)) 0%Q RS_previous_end
    (fst (add_c_interval (Some (mkCInterval 4 1%Q true)) 0%Q RS_level_begin
    (fst (push_level 0%Q RS_previous_end CMetaInterval_new))))))).

(** Scenario B: a native action of duration 0 at time 0.5 in a group that
    starts at 0. *)
Definition instant_in_group : CMetaInterval :=
  fst (pop_level
    (fst (add_c_interval (Some instant_action) (1 # 2)%Q RS_level_begin
    (fst (push_level 0%Q RS_previous_end CMetaInterval_new))))).

(** Scenario D: a group that is never closed. *)
Definition open_group : CMetaInterval :=
  fst (add_c_interval (Some open_action) 0%Q RS_previous_end
    (fst (push_level 0%Q RS_previous_end CMetaInterval_new))).

(** Scenario E: an external action at time 0 and a native action at time 0
    declared after it. *)
Definition external_then_native : CMetaInterval :=
  fst (add_c_interval (Some open_action) 0%Q RS_level_begin
    (fst (add_ext_index 7 "ext" 0%Q true 0%Q RS_previous_end
            CMetaInterval_new))).

(** The entry of the native action of scenario E. *)
Definition native_def : IntervalDef :=
  mkDef DT_c_interval (Some open_action) 0 "" 0%Q false 0%Q RS_level_begin 0.

(** An external action with a negative duration, not open-ended. *)
Definition negative_external : CMetaInterval :=
  fst (add_ext_index 7 "ext" (-1)%Q false 0%Q RS_previous_end
         CMetaInterval_new).



End Scenarios.

(** ** Vocabulary of the further properties *)

Section Further.
Context {TM : TimeModel}.

(** A callback of playback forwards: an instant or a finalize, both at
    time zero, a step or an initialize. *)
Definition forward_callback (d : Dispatch) : Prop :=
  match dispatch_event d with
  | ET_instant | ET_finalize => snd d = int_to_double_time 0
  | ET_step | ET_initialize => True
  | _ => False
  end.

(** A callback of playback backwards. *)
Definition reverse_callback (d : Dispatch) : Prop :=
  match dispatch_event d with
  | ET_reverse_instant | ET_reverse_finalize => snd d = int_to_double_time 0
  | ET_step | ET_reverse_initialize => True
  | _ => False
  end.

(** A callback of a cold start forwards: no step. *)
Definition forward_start_callback (d : Dispatch) : Prop :=
  forward_callback d /\ dispatch_event d <> ET_step.

(** A callback of a cold start backwards: no step. *)
Definition reverse_start_callback (d : Dispatch) : Prop :=
  reverse_callback d /\ dispatch_event d <> ET_step.

(** The events are the compiled timeline of the definitions the list held
    when it was last compiled; entries may have been appended since. *)
Definition compiled_prefix (defs : list IntervalDef)
  (events : list PlaybackEvent) : Prop :=
  exists defs0 rest,
    compiled_ok defs0 events /\ statics defs = statics defs0 ++ rest.

(** The number of events an entry compiles to: none for a group marker,
    one for a zero quantized duration, two otherwise. *)
Definition events_per_entry (def : IntervalDef) : nat :=
  match def_duration def with
  | None => 0
  | Some q => if q =? 0 then 1 else 2
  end.

(** The number of events a definition list compiles to. *)
Definition event_count (defs : list IntervalDef) : nat :=
  list_sum (map events_per_entry defs).

(** In order of time. *)
Definition time_order (x y : PlaybackEvent) : Prop := ev_time x <= ev_time y.

(** The events at or before the time [now]. *)
Definition events_until (now : Z) (events : list PlaybackEvent)
  : list PlaybackEvent :=
  filter (fun e => ev_time e <=? now) events.

(** *** The reports *)






(** Every event refers to an action, its begin pointer is the address of
    an event of the list, and of the event itself unless it is an end. *)
Definition events_wf (defs : list IntervalDef) (events : list PlaybackEvent)
  : Prop :=
  forall e, In e events ->
    valid_action defs (ev_n e) = true /\
    (exists b, In b events /\ ev_addr b = ev_begin_event e) /\
    (ev_type e <> PET_end -> ev_begin_event e = ev_addr e).

(** Every address of the set is the address of an event. *)
Definition addrs_ok (events : list PlaybackEvent) (l : ActiveEvents) : Prop :=
  forall a, In a l -> exists e, In e events /\ ev_addr e = a.

(** *** The begin times the compiler records *)

(** The offset of an entry, in ticks. *)
Definition offset (def : IntervalDef) : Z := double_to_int_time (_rel_time def).

(** The begin time recorded for entry [i]. *)
Definition begin_time_at (defs : list IntervalDef) (i : nat) : option Z :=
  option_map _actual_begin_time (nth_error defs i).

(** What an entry hands to the next one as the previous end: an action
    its begin time plus its quantized duration, the push of a group the
    begin of the group, the pop of a group the end of the group. *)
Definition end_of_entry (def : IntervalDef) : option Z :=
  match _type def with
  | DT_push_level | DT_pop_level => Some (_actual_begin_time def)
  | _ => option_map (Z.add (_actual_begin_time def)) (def_duration def)
  end.

(** What an entry hands to the next one as the previous begin; after the
    pop of a group it is the begin of that group, which the pop does not
    record. *)
Definition begin_of_entry (def : IntervalDef) : option Z :=
  match _type def with
  | DT_pop_level => None
  | _ => Some (_actual_begin_time def)
  end.

Definition previous_end (defs : list IntervalDef) (i : nat) : option Z :=
  match i with
  | O => Some 0
  | S m => match nth_error defs m with
           | Some p => end_of_entry p
           | None => None
           end
  end.

Definition previous_begin (defs : list IntervalDef) (i : nat) : option Z :=
  match i with
  | O => Some 0
  | S m => match nth_error defs m with
           | Some p => begin_of_entry p
           | None => None
           end
  end.

(** The entry is the first one of the list or of a group. *)
Definition first_in_level (defs : list IntervalDef) (i : nat) : bool :=
  match i with
  | O => true
  | S m => match nth_error defs m with
           | Some p => DefType_eqb (_type p) DT_push_level
           | None => false
           end
  end.

(** The begin time of the entry [def] at index [i] follows from the entry
    before it. *)
Definition begin_rule (defs : list IntervalDef) (i : nat) (def : IntervalDef)
  : Prop :=
  (_rel_to def = RS_previous_end ->
   forall x, previous_end defs i = Some x ->
             _actual_begin_time def = x + offset def) /\
  (_rel_to def = RS_previous_begin ->
   forall x, previous_begin defs i = Some x ->
             _actual_begin_time def = x + offset def) /\
  (_rel_to def = RS_level_begin -> first_in_level defs i = true ->
   forall x, previous_begin defs i = Some x ->
             _actual_begin_time def = x + offset def).

(** The arguments of the loop of [recompute_level] at entry [n] agree
    with the entry before it. *)
Definition prev_ok (defs : list IntervalDef) (n : nat)
  (level_begin previous_begin_time previous_end_time : Z) : Prop :=
  (forall x, previous_end defs n = Some x -> previous_end_time = x) /\
  (forall x, previous_begin defs n = Some x -> previous_begin_time = x) /\
  (first_in_level defs n = true -> level_begin = previous_begin_time).

(** What a walk from entry [n] that returns [n'] and the end time [le]
    has recorded; [lo] is the end time it started from. *)
Definition times_post (s : CMetaInterval) (n : nat) (lo : Z)
  (s' : CMetaInterval) (n' : nat) (le : Z) : Prop :=
  lo <= le /\
  (forall i, (i < n)%nat -> nth_error (_defs s') i = nth_error (_defs s) i) /\
  (forall X, _events s' = _events s ++ X ->
     forall e, In e X ->
       (ev_type e <> PET_begin -> ev_time e <= le) /\
       (ev_type e <> PET_end ->
        begin_time_at (_defs s') (ev_n e) = Some (ev_time e))) /\
  (forall i d, (n <= i < n')%nat -> nth_error (_defs s') i = Some d ->
               _type d <> DT_pop_level -> begin_rule (_defs s') i d).

End Further.

(** ** Further schedules used as examples *)

Section FurtherScenarios.
#[local] Existing Instance Q_time.

(** The entry of the external action of scenario E. *)
Definition external_def : IntervalDef :=
  mkDef DT_ext_index None 7 "ext" 0%Q true 0%Q RS_previous_end 0.

End FurtherScenarios.

(** ** Vocabulary of the active set *)

Section ActiveVocabulary.
Context {TM : TimeModel}.

(** No action has a negative quantized duration. *)
Definition nonneg_durations (defs : list IntervalDef) : Prop :=
  forall i q, duration_at defs i = Some q -> 0 <= q.

(** [b] is the begin event at address [a]. *)
Definition begin_at (a : nat) (b : PlaybackEvent) : Prop :=
  ev_type b = PET_begin /\ ev_addr b = a.

(** [e] is the end event of the action begun at address [a]. *)
Definition end_at (a : nat) (e : PlaybackEvent) : Prop :=
  ev_type e = PET_end /\ ev_begin_event e = a.

(** The action begun at address [a] begins among the events [L] and ends
    among the events [R]. *)
Definition spans (L R : list PlaybackEvent) (a : nat) : Prop :=
  (exists b, In b L /\ begin_at a b) /\ (exists e, In e R /\ end_at a e).

(** The action begun at address [a] is in progress at the cursor [k]: its
    begin event is before the cursor and its end event is not. *)
Definition in_progress (events : list PlaybackEvent) (k : nat) (a : nat)
  : Prop :=
  spans (firstn k events) (skipn k events) a.

(** The events have distinct addresses, every end event comes after the
    begin event it points to, every begin event is followed by an end
    event that points to it, and no two end events point to the same
    begin. *)
Definition paired (events : list PlaybackEvent) : Prop :=
  NoDup (map ev_addr events) /\
  (forall L R e, events = L ++ e :: R -> ev_type e = PET_end ->
                 exists b, In b L /\ begin_at (ev_begin_event e) b) /\
  (forall L R b, events = L ++ b :: R -> ev_type b = PET_begin ->
                 exists e, In e R /\ end_at (ev_addr b) e) /\
  (forall e e', In e events -> In e' events ->
                ev_type e = PET_end -> ev_type e' = PET_end ->
                ev_begin_event e = ev_begin_event e' -> e = e').

(** The set holds exactly the addresses that satisfy [P], each once and in
    increasing order. *)
Definition holds (l : ActiveEvents) (P : nat -> Prop) : Prop :=
  StronglySorted lt l /\ forall a, In a l <-> P a.

(** The active set is the set of the actions in progress at the cursor. *)
Definition active_ok (s : CMetaInterval) : Prop :=
  holds (_active s) (in_progress (_events s) (_next_event_index s)).

(** From [s] to [s'] nothing was reported, and the schedule and the cursor
    are the same. *)
Definition quiet (s s' : CMetaInterval) : Prop :=
  _diag s' = _diag s /\ _defs s' = _defs s /\ _events s' = _events s /\
  _next_event_index s' = _next_event_index s.

(** *** The callbacks of a playback method *)

(** The events from the cursor [k0] up to the cursor [k1]. *)
Definition events_between (events : list PlaybackEvent) (k0 k1 : nat)
  : list PlaybackEvent :=
  firstn (k1 - k0) (skipn k0 events).

(** The events at the addresses of a set, in the order of the set. *)
Definition events_at_addrs (events : list PlaybackEvent) (l : ActiveEvents)
  : list PlaybackEvent :=
  flat_map (fun a => match deref events a with
                     | Some e => [e]
                     | None => []
                     end) l.

(** The callback of kind [ty] for the event [x], at time zero, unless it
    is suppressed. *)
Definition event_callback (defs : list IntervalDef) (is_initial : bool)
  (ty : option EventType) (x : PlaybackEvent) : list Dispatch :=
  match ty with
  | None => []
  | Some event_type =>
      if suppressed_at defs (ev_n x) is_initial event_type then []
      else [(ev_n x, event_type, int_to_double_time 0)]
  end.

(** Going forwards over the event [x], with [old] the active set at the
    start of the method: nothing for a begin, an instant callback for an
    instant event and for the end of an action that was not active, a
    finalize callback for the end of an action that was. *)
Definition forward_event_type (old : ActiveEvents) (x : PlaybackEvent)
  : option EventType :=
  match ev_type x with
  | PET_begin => None
  | PET_end =>
      Some (if pset_mem (ev_begin_event x) old then ET_finalize
            else ET_instant)
  | PET_instant => Some ET_instant
  end.

(** Going backwards over the event [x]: nothing for an end, a
    reverse-instant callback for an instant event and for the begin of an
    action that was not active, a reverse-finalize callback for the begin
    of an action that was. *)
Definition reverse_event_type (old : ActiveEvents) (x : PlaybackEvent)
  : option EventType :=
  match ev_type x with
  | PET_begin =>
      Some (if pset_mem (ev_addr x) old then ET_reverse_finalize
            else ET_reverse_instant)
  | PET_end => None
  | PET_instant => Some ET_reverse_instant
  end.

Definition forward_callbacks (defs : list IntervalDef) (is_initial : bool)
  (old : ActiveEvents) (done : list PlaybackEvent) : list Dispatch :=
  flat_map (fun x => event_callback defs is_initial
                       (forward_event_type old x) x) done.

Definition reverse_callbacks (defs : list IntervalDef) (is_initial : bool)
  (old : ActiveEvents) (done : list PlaybackEvent) : list Dispatch :=
  flat_map (fun x => event_callback defs is_initial
                       (reverse_event_type old x) x) done.

(** The callback of kind [event_type] at the time [now] for the action
    begun at the event [e]: the time is counted from the begin. *)
Definition start_dispatch (event_type : EventType) (now : Z)
  (e : PlaybackEvent) : Dispatch :=
  (ev_n e, event_type, int_to_double_time (now - ev_time e)).

(** The callbacks of the loops that end a scan, with [old] the active set
    at the start of the method and [new] the one at its end: a step for
    each action that stayed active, then a callback of kind [event_type]
    for each action that became active, both in the order of the set. *)
Definition finish_callbacks (event_type : EventType) (now : Z)
  (events : list PlaybackEvent) (old new : ActiveEvents) : list Dispatch :=
  map (start_dispatch ET_step now)
    (events_at_addrs events (filter (fun a => pset_mem a new) old)) ++
  map (start_dispatch event_type now)
    (events_at_addrs events (filter (fun a => negb (pset_mem a old)) new)).

(** *** The group an entry is in *)

(** The pushes that are open in front of entry [n], innermost first. *)
Fixpoint open_groups (defs : list IntervalDef) (n : nat) : list nat :=
  match n with
  | O => []
  | S m =>
      match nth_error defs m with
      | Some def =>
          match _type def with
          | DT_push_level => m :: open_groups defs m
          | DT_pop_level => tl (open_groups defs m)
          | _ => open_groups defs m
          end
      | None => open_groups defs m
      end
  end.

(** The begin time recorded for the group entry [n] is in; zero outside
    every group. *)
Definition level_begin_at (defs : list IntervalDef) (n : nat) : Z :=
  match open_groups defs n with
  | [] => 0
  | p :: _ => match nth_error defs p with
              | Some push => _actual_begin_time push
              | None => 0
              end
  end.

(** The entry [def] at index [i], if it is placed relative to the begin
    of its level, begins at its offset after the begin of the group it is
    in. *)
Definition level_rule (defs : list IntervalDef) (i : nat) (def : IntervalDef)
  : Prop :=
  _rel_to def = RS_level_begin ->
  _actual_begin_time def = level_begin_at defs i + offset def.

(** The argument [level_begin] of the loop of [recompute_level] at entry
    [n] is the begin of the group the entry is in. *)
Definition level_ok (defs : list IntervalDef) (n : nat) (level_begin : Z)
  : Prop :=
  (n < length defs)%nat -> level_begin = level_begin_at defs n.

(** What a walk from entry [n] that returns [n'] has recorded about the
    levels: the entries it went over follow [level_rule], and it closed
    every group it opened if it stopped inside the list. *)
Definition levels_post (n : nat) (s' : CMetaInterval) (n' : nat) : Prop :=
  (forall i d, (n <= i < n')%nat -> nth_error (_defs s') i = Some d ->
               _type d <> DT_pop_level -> level_rule (_defs s') i d) /\
  ((n' <= length (_defs s'))%nat ->
   open_groups (_defs s') n' = open_groups (_defs s') n).

(** *** Two compilations side by side *)

(** What two walks over lists with the same static members, from the
    same entry and with the same events so far, have in common. *)
Definition in_step (n : nat) (s1 s2 s1' s2' : CMetaInterval) (n' : nat)
  (upto : nat) : Prop :=
  statics (_defs s2') = statics (_defs s1') /\
  _events s2' = _events s1' /\
  (n <= n')%nat /\
  (forall i, (n <= i < upto)%nat ->
             nth_error (_defs s2') i = nth_error (_defs s1') i) /\
  (forall i, (i < n)%nat -> nth_error (_defs s1') i = nth_error (_defs s1) i) /\
  (forall i, (i < n)%nat -> nth_error (_defs s2') i = nth_error (_defs s2) i).

End ActiveVocabulary.

(** ** The entries of scenario A *)

Section ActiveScenarios.
#[local] Existing Instance Q_time.

(** The begin event of the action of scenario C. *)
Definition open_begin : PlaybackEvent := mkEvent 0 0 0 PET_begin 0.

(** The entry of the second action of scenario A, once compiled. *)
Definition second_def : IntervalDef :=
  mkDef DT_c_interval (Some (mkCInterval 5 1%Q true)) 0 EmptyString 0%Q false
        0%Q RS_previous_end 1000.

(** Scenario F: a group that begins at 2 with two native actions of
    duration 1, the second placed half a unit after the begin of the
    group. *)
Definition staggered_group : CMetaInterval :=
  fst (pop_level
    (fst (add_c_interval (Some (mkCInterval 5 1%Q true)) (1 # 2)%Q
            RS_level_begin
    (fst (add_c_interval (Some (mkCInterval 4 1%Q true)) 0%Q RS_previous_end
    (fst (push_level 2%Q RS_previous_end CMetaInterval_new))))))).

(** The entry of the second action of scenario F, once compiled. *)
Definition staggered_def : IntervalDef :=
  mkDef DT_c_interval (Some (mkCInterval 5 1%Q true)) 0 EmptyString 0%Q false
        (1 # 2)%Q RS_level_begin 2500.

(** Scenario G: one open-ended action of duration 2 begun at 1, then an
    external action appended and the object written out, which
    recompiles it in mid-playback. *)
Definition recompiled_in_flight : CMetaInterval :=
  write (fst (add_ext_index 7 "ext" 1%Q true 0%Q RS_previous_end
                (initialize 1%Q one_open_action))).

End ActiveScenarios.

(** * Proofs *)

Ltac unfold_setters :=
  unfold assert_failed, warning, invalid_pointer, set_t, push_back_event,
    mark_dirty, clear_events, queue_empty, get_duration,
    set_defs, set_events, set_active, set_event_queue,
    set_current_nesting_level, set_next_event_index, set_curr_t,
    set_duration, set_end_time, set_dirty, set_calls, set_registered,
    set_diag in *.

Ltac destruct_matches :=
  repeat match goal with
         | |- context [match ?x with _ => _ end] => destruct x eqn:?
         end.

(** ** Lists *)

Section ListFacts.
Context {A : Type}.

Lemma firstn_S_nth_error (l : list A) k d :
  nth_error l k = Some d -> firstn (S k) l = firstn k l ++ [d].
Proof.
  revert k; induction l as [|x l IH]; intros [|k] H; simpl in *;
    try discriminate.
  - now inversion H.
  - now rewrite (IH _ H).
Qed.

Lemma skipn_cons_nth_error (l : list A) k x r :
  skipn k l = x :: r -> nth_error l k = Some x /\ skipn (S k) l = r.
Proof.
  revert k; induction l as [|y l IH]; intros [|k] H; simpl in *;
    try discriminate.
  - inversion H; auto.
  - apply IH in H. destruct l; simpl in *; auto.
Qed.


Lemma StronglySorted_app (R : A -> A -> Prop) l1 l2 :
  StronglySorted R l1 -> StronglySorted R l2 ->
  (forall x y, In x l1 -> In y l2 -> R x y) ->
  StronglySorted R (l1 ++ l2).
Proof.
  induction 1 as [|x l1 H1 IH Hx]; intros H2 Hc; simpl; auto.
  constructor.
  - apply IH; auto. intros; apply Hc; simpl; auto.
  - apply Forall_app; split; auto.
    apply Forall_forall; intros y Hy. apply Hc; simpl; auto.
Qed.

Lemma filter_nil_iff (p : A -> bool) l :
  filter p l = [] <-> forall x, In x l -> p x = false.
Proof.
  induction l as [|y l IH]; simpl.
  - split; auto. intros _ x [].
  - destruct (p y) eqn:E; split.
    + discriminate.
    + intros H. specialize (H y (or_introl eq_refl)). congruence.
    + intros H x [->|Hx]; auto. apply IH; auto.
    + intros H. apply IH. intros; apply H; auto.
Qed.

End ListFacts.

(** ** The walk of the compiler *)

Section WalkProofs.
Context {TM : TimeModel}.

Lemma nesting_app l1 l2 : nesting (l1 ++ l2) = nesting l1 + nesting l2.
Proof. induction l1; simpl; lia. Qed.

Lemma statics_length defs : length (statics defs) = length defs.
Proof. apply length_map. Qed.

Lemma nth_error_statics defs n :
  nth_error (statics defs) n =
  option_map (with_actual_begin_time 0) (nth_error defs n).
Proof. apply nth_error_map. Qed.

Lemma statics_idem defs : statics (statics defs) = statics defs.
Proof.
  unfold statics. rewrite map_map. now apply map_ext.
Qed.

Lemma statics_set_actual n t defs :
  statics (set_actual_begin_time n t defs) = statics defs.
Proof.
  revert n; induction defs as [|d defs IH]; intros [|n]; simpl; auto.
  now rewrite IH.
Qed.

Lemma set_actual_length n t defs :
  length (set_actual_begin_time n t defs) = length defs.
Proof.
  revert n; induction defs as [|d defs IH]; intros [|n]; simpl; auto.
Qed.

Lemma statics_app l1 l2 : statics (l1 ++ l2) = statics l1 ++ statics l2.
Proof. apply map_app. Qed.

Lemma nesting_statics defs : nesting (statics defs) = nesting defs.
Proof. induction defs; simpl; auto. now rewrite IHdefs. Qed.

Lemma duration_at_statics defs n :
  duration_at (statics defs) n = duration_at defs n.
Proof.
  unfold duration_at. rewrite nth_error_statics.
  now destruct (nth_error defs n).
Qed.

Lemma open_ended_at_statics defs n :
  open_ended_at (statics defs) n = open_ended_at defs n.
Proof.
  unfold open_ended_at. rewrite nth_error_statics.
  now destruct (nth_error defs n).
Qed.

Lemma valid_action_statics defs n :
  valid_action (statics defs) n = valid_action defs n.
Proof.
  unfold valid_action. rewrite nth_error_statics.
  now destruct (nth_error defs n).
Qed.

Lemma lvl_statics defs k : lvl (statics defs) k = lvl defs k.
Proof.
  unfold lvl. rewrite statics_length. unfold statics. rewrite firstn_map.
  fold (statics (firstn k defs)). now rewrite nesting_statics.
Qed.

Lemma lvl_0 defs : lvl defs 0 = 0.
Proof. unfold lvl. simpl. lia. Qed.

Lemma lvl_S_some defs k d :
  nth_error defs k = Some d -> lvl defs (S k) = lvl defs k + nesting_step d.
Proof.
  intros H. unfold lvl.
  assert (k < length defs)%nat by (apply nth_error_Some; congruence).
  rewrite (firstn_S_nth_error _ _ _ H), nesting_app.
  replace (S k - length defs)%nat with 0%nat by lia.
  replace (k - length defs)%nat with 0%nat by lia.
  change (nesting [d]) with (nesting_step d + 0). lia.
Qed.

Lemma lvl_S_none defs k :
  nth_error defs k = None -> lvl defs (S k) = lvl defs k - 1.
Proof.
  intros H. unfold lvl.
  assert (length defs <= k)%nat by (now apply nth_error_None).
  rewrite !firstn_all2 by lia. lia.
Qed.

Lemma lvl_past_end defs k :
  (length defs <= k)%nat ->
  lvl defs k = nesting defs - Z.of_nat (k - length defs).
Proof. intros H. unfold lvl. now rewrite firstn_all2 by lia. Qed.

Lemma lvl_inside defs k :
  (k <= length defs)%nat -> lvl defs k = nesting (firstn k defs).
Proof.
  intros H. unfold lvl. replace (k - length defs)%nat with 0%nat by lia. lia.
Qed.

(** *** Emitted events *)

Lemma events_at_app i X1 X2 :
  events_at i (X1 ++ X2) = events_at i X1 ++ events_at i X2.
Proof. apply filter_app. Qed.

Lemma events_at_none i X :
  (forall e, In e X -> ev_n e <> i) -> events_at i X = [].
Proof.
  intros H. apply filter_nil_iff. intros e He.
  apply Nat.eqb_neq. now apply H.
Qed.

Lemma events_at_events_of q i b t :
  events_at i (events_of q i b t) = events_of q i b t.
Proof.
  unfold events_of, events_at. destruct q as [q|]; simpl; auto.
  destruct (q =? 0); simpl; now rewrite !Nat.eqb_refl.
Qed.

Lemma events_of_In q i b t e :
  In e (events_of q i b t) ->
  ev_n e = i /\ (b <= ev_addr e < b + length (events_of q i b t))%nat.
Proof.
  unfold events_of. destruct q as [q|]; simpl; [|tauto].
  destruct (q =? 0); simpl; intros H;
    repeat (destruct H as [<-|H]; [simpl; lia|]); tauto.
Qed.

Lemma emitted_ok_nil D a n : emitted_ok D a n n [].
Proof.
  split; [|split; [|split]].
  - intros e [].
  - constructor.
  - intros i Hi; lia.
  - reflexivity.
Qed.

Lemma emitted_ok_skip D a n n' X :
  duration_at D n = None ->
  emitted_ok D a (S n) n' X -> emitted_ok D a n n' X.
Proof.
  intros Hd (Hr & Hs & Hi & Ha). split; [|split; [|split]]; auto.
  - intros e He. destruct (Hr e He). lia.
  - intros i Hin. destruct (Nat.eq_dec i n) as [->|Hne].
    + exists 0%nat, 0. rewrite Hd. simpl. apply events_at_none.
      intros e He. destruct (Hr e He). lia.
    + apply Hi. lia.
Qed.

Lemma emitted_ok_app D a n m n' X1 X2 :
  (n <= m <= n')%nat ->
  emitted_ok D a n m X1 -> emitted_ok D (a + length X1) m n' X2 ->
  emitted_ok D a n n' (X1 ++ X2).
Proof.
  intros Hm (Hr1 & Hs1 & Hi1 & Ha1) (Hr2 & Hs2 & Hi2 & Ha2).
  split; [|split; [|split]].
  - intros e He. rewrite length_app. apply in_app_or in He as [He|He].
    + destruct (Hr1 e He). lia.
    + destruct (Hr2 e He). lia.
  - apply StronglySorted_app; auto. intros x y Hx Hy.
    destruct (Hr1 x Hx), (Hr2 y Hy). unfold emitted_before. lia.
  - intros i Hin. rewrite events_at_app.
    destruct (Nat.lt_ge_cases i m) as [Hlt|Hge].
    + rewrite (events_at_none i X2), app_nil_r.
      * apply Hi1. lia.
      * intros e He. destruct (Hr2 e He). lia.
    + rewrite (events_at_none i X1). simpl.
      * apply Hi2. lia.
      * intros e He. destruct (Hr1 e He). lia.
  - now rewrite map_app, length_app, seq_app, Ha1, Ha2.
Qed.

Lemma emitted_ok_action D a n q t :
  duration_at D n = Some q ->
  emitted_ok D a n (S n) (events_of (Some q) n a t).
Proof.
  intros Hd. split; [|split; [|split]].
  - intros e He. apply events_of_In in He. lia.
  - unfold events_of. destruct (q =? 0).
    + repeat constructor.
    + repeat constructor; simpl; lia.
  - intros i Hi. assert (i = n) by lia. subst i.
    exists a, t. now rewrite Hd, events_at_events_of.
  - unfold events_of. now destruct (q =? 0).
Qed.

Lemma push_events_spec b e n events :
  push_events b e n events =
  events ++ events_of (Some (e - b)) n (length events) b.
Proof.
  unfold push_events, events_of.
  destruct (Z.eqb_spec b e) as [->|Hne].
  - now rewrite Z.sub_diag.
  - destruct (Z.eqb_spec (e - b) 0); [lia|].
    now replace (b + (e - b)) with e by lia.
Qed.

End WalkProofs.

Section WalkCorrect.
Context {TM : TimeModel}.

Lemma frame_timeline_refl s : frame_timeline s s.
Proof. unfold frame_timeline. now destruct s. Qed.

Lemma frame_timeline_step s defs events s' :
  frame_timeline (set_events events (set_defs defs s)) s' ->
  frame_timeline s s'.
Proof. unfold frame_timeline. intros ->. reflexivity. Qed.

Lemma frame_timeline_trans s1 s2 s3 :
  frame_timeline s1 s2 -> frame_timeline s2 s3 -> frame_timeline s1 s3.
Proof. unfold frame_timeline. intros -> ->. reflexivity. Qed.

(** The walk stops at [n]: past the end, or at a pop. *)
Lemma walk_post_stop s n :
  (forall d, nth_error (_defs s) n = Some d -> _type d = DT_pop_level) ->
  walk_post s n s n.
Proof.
  intros Hstop.
  split; [|split; [|split; [|split; [|split]]]];
    auto using frame_timeline_refl.
  - intros d Hd. rewrite nth_error_statics in Hd.
    destruct (nth_error (_defs s) n) as [d0|] eqn:E; [|discriminate].
    inversion Hd; subst. simpl. now apply Hstop.
  - exists []. split; [now rewrite app_nil_r | apply emitted_ok_nil].
Qed.

(** One action at [n], then a walk from [n + 1]. *)
Lemma walk_post_action s n def q bt s' n' :
  nth_error (_defs s) n = Some def ->
  def_duration def = Some q ->
  nesting_step def = 0 ->
  walk_post
    (set_events (_events s ++ events_of (Some q) n (length (_events s)) bt)
       (set_defs (set_actual_begin_time n bt (_defs s)) s)) (S n) s' n' ->
  walk_post s n s' n'.
Proof.
  intros Hn Hq Hstep (Hf & Hst & Hle & Hlvl & Hstop & X & HX & Hem).
  cbn [_defs _events set_defs set_events] in *.
  rewrite statics_set_actual in *.
  assert (Hsn : nth_error (statics (_defs s)) n
                = Some (with_actual_begin_time 0 def))
    by (now rewrite nth_error_statics, Hn).
  split; [|split; [|split; [|split; [|split]]]].
  - eapply frame_timeline_trans; [|exact Hf]. unfold frame_timeline.
    reflexivity.
  - exact Hst.
  - lia.
  - rewrite Hlvl, (lvl_S_some _ _ _ Hsn).
    change (nesting_step (with_actual_begin_time 0 def))
      with (nesting_step def). lia.
  - exact Hstop.
  - eexists. split; [rewrite HX, <- app_assoc; reflexivity|].
    apply emitted_ok_app with (m := S n); [lia| |].
    + apply emitted_ok_action. now rewrite duration_at_statics; unfold duration_at; rewrite Hn.
    + now rewrite length_app in Hem.
Qed.

(** A group opened at [n]: the walk of the group returns [n1], and the walk
    of the enclosing level goes on from [n1 + 1]. *)
Lemma walk_post_push s n def bt s2 n1 s' n' :
  nth_error (_defs s) n = Some def ->
  _type def = DT_push_level ->
  walk_post (set_defs (set_actual_begin_time n bt (_defs s)) s) (S n) s2 n1 ->
  walk_post s2 (S n1) s' n' ->
  walk_post s n s' n'.
Proof.
  intros Hn Hty (Hf1 & Hst1 & Hle1 & Hlvl1 & Hstop1 & X1 & HX1 & Hem1)
         (Hf2 & Hst2 & Hle2 & Hlvl2 & Hstop2 & X2 & HX2 & Hem2).
  cbn [_defs _events set_defs set_events] in *.
  rewrite statics_set_actual in *. rewrite Hst1 in *.
  assert (Hsn : nth_error (statics (_defs s)) n
                = Some (with_actual_begin_time 0 def))
    by (now rewrite nth_error_statics, Hn).
  assert (Hdn : duration_at (statics (_defs s)) n = None).
  { unfold duration_at. rewrite Hsn. unfold def_duration. simpl.
    now rewrite Hty. }
  assert (Hdn1 : duration_at (statics (_defs s)) n1 = None).
  { unfold duration_at.
    destruct (nth_error (statics (_defs s)) n1) as [d1|] eqn:E; auto.
    unfold def_duration. now rewrite (Hstop1 d1 eq_refl). }
  assert (Hl1 : lvl (statics (_defs s)) (S n1)
                = lvl (statics (_defs s)) n1 - 1).
  { destruct (nth_error (statics (_defs s)) n1) as [d1|] eqn:E.
    - rewrite (lvl_S_some _ _ _ E). unfold nesting_step.
      rewrite (Hstop1 d1 eq_refl). lia.
    - now apply lvl_S_none. }
  split; [|split; [|split; [|split; [|split]]]].
  - eapply frame_timeline_trans; [|exact Hf2].
    eapply frame_timeline_trans; [|exact Hf1]. unfold frame_timeline.
    reflexivity.
  - congruence.
  - lia.
  - rewrite Hlvl2, Hl1, Hlvl1, (lvl_S_some _ _ _ Hsn).
    unfold nesting_step. simpl. rewrite Hty. lia.
  - exact Hstop2.
  - exists (X1 ++ X2). split.
    + rewrite HX2, HX1, <- app_assoc. reflexivity.
    + apply emitted_ok_skip; auto.
      apply emitted_ok_app with (m := n1); [lia|exact Hem1|].
      apply emitted_ok_skip; auto.
      rewrite HX1, length_app in Hem2. exact Hem2.
Qed.

(** The epilogue of [recompute_level] only writes a begin time. *)
Lemma walk_post_epilogue s n s' n' t :
  walk_post s n s' n' ->
  walk_post s n (set_defs (set_actual_begin_time n' t (_defs s')) s') n'.
Proof.
  intros (Hf & Hst & Hle & Hlvl & Hstop & X & HX & Hem).
  split; [|split; [|split; [|split; [|split]]]]; auto.
  - eapply frame_timeline_trans; [exact Hf|]. unfold frame_timeline.
    reflexivity.
  - cbn [_defs set_defs]. now rewrite statics_set_actual.
  - exists X. split; auto.
Qed.

Lemma walk_correct fuel :
  (forall n lb s s' n' le,
      recompute_level fuel n lb s = Some (s', n', le) ->
      walk_post s n s' n') /\
  (forall n lb pb pe le0 s s' n' le,
      recompute_loop fuel n lb pb pe le0 s = Some (s', n', le) ->
      walk_post s n s' n').
Proof.
  induction fuel as [|fuel [IHlevel IHloop]]; [split; discriminate|].
  split.
  - intros n lb s s' n' le H. simpl in H.
    destruct (recompute_loop fuel n lb lb lb lb s) as [[[s1 n1] le1]|] eqn:E;
      [|discriminate].
    apply IHloop in E.
    destruct (n1 <? length (_defs s1))%nat; inversion H; subst; auto.
    now apply walk_post_epilogue.
  - intros n lb pb pe le0 s s' n' le H. simpl in H.
    destruct (nth_error (_defs s) n) as [def|] eqn:En.
    2:{ inversion H; subst. apply walk_post_stop. congruence. }
    destruct (_type def) eqn:Ety.
    + destruct (_c_interval def) as [ci|] eqn:Eci; [|discriminate].
      rewrite push_events_spec in H.
      match type of H with
      | context [events_of (Some ?x)] =>
          replace x with (double_to_int_time (ci_duration ci)) in H by lia
      end.
      apply IHloop in H.
      eapply walk_post_action; eauto.
      * unfold def_duration. now rewrite Ety, Eci.
      * unfold nesting_step. now rewrite Ety.
    + rewrite push_events_spec in H.
      match type of H with
      | context [events_of (Some ?x)] =>
          replace x with (double_to_int_time (_ext_duration def)) in H by lia
      end.
      apply IHloop in H.
      eapply walk_post_action; eauto.
      * unfold def_duration. now rewrite Ety.
      * unfold nesting_step. now rewrite Ety.
    + match type of H with
      | match ?r with _ => _ end = _ =>
          destruct r as [[[s2 n1] et]|] eqn:E; [|discriminate]
      end.
      apply IHlevel in E. apply IHloop in H.
      eapply walk_post_push; eauto.
    + inversion H; subst. apply walk_post_stop. congruence.
Qed.

Lemma no_null_children_statics defs defs' :
  statics defs' = statics defs ->
  no_null_children defs -> no_null_children defs'.
Proof.
  intros Hst Hnn def Hin Hty.
  apply In_nth_error in Hin as [k Hk].
  assert (H : nth_error (statics defs) k
              = Some (with_actual_begin_time 0 def))
    by (now rewrite <- Hst, nth_error_statics, Hk).
  rewrite nth_error_statics in H.
  destruct (nth_error defs k) as [d0|] eqn:E; [|discriminate].
  apply nth_error_In in E. inversion H.
  intros Hnone. apply (Hnn d0); auto; congruence.
Qed.

(** With the fuel [do_recompute] gives, the walk returns. *)
Lemma walk_total fuel :
  (forall n lb s,
      no_null_children (_defs s) ->
      (2 * (length (_defs s) - n) + 2 <= fuel)%nat ->
      exists r, recompute_level fuel n lb s = Some r) /\
  (forall n lb pb pe le0 s,
      no_null_children (_defs s) ->
      (2 * (length (_defs s) - n) + 1 <= fuel)%nat ->
      exists r, recompute_loop fuel n lb pb pe le0 s = Some r).
Proof.
  induction fuel as [|fuel [IHlevel IHloop]]; [split; intros; lia|].
  assert (Hsame : forall s n t,
             no_null_children (_defs s) ->
             no_null_children
               (_defs (set_defs (set_actual_begin_time n t (_defs s)) s))).
  { intros s n t. simpl. apply no_null_children_statics.
    apply statics_set_actual. }
  split.
  - intros n lb s Hnn Hfuel. simpl.
    destruct (IHloop n lb lb lb lb s Hnn) as [[[s1 n1] le1] ->]; [lia|].
    destruct (n1 <? length (_defs s1))%nat; eauto.
  - intros n lb pb pe le0 s Hnn Hfuel. simpl.
    destruct (nth_error (_defs s) n) as [def|] eqn:En; eauto.
    assert (n < length (_defs s))%nat by (apply nth_error_Some; congruence).
    destruct (_type def) eqn:Ety; eauto.
    + destruct (_c_interval def) as [ci|] eqn:Eci.
      * apply IHloop; [apply (Hsame s); auto|].
        simpl. rewrite set_actual_length. lia.
      * exfalso. apply (Hnn def); auto. eapply nth_error_In; eauto.
    + apply IHloop; [apply (Hsame s); auto|].
      simpl. rewrite set_actual_length. lia.
    + match goal with
      | |- exists r, match ?c with _ => _ end = _ =>
          destruct c as [[[s2 n1] et]|] eqn:E
      end.
      * pose proof E as Ew. apply (proj1 (walk_correct fuel)) in Ew.
        destruct Ew as (_ & Hst & Hle & _). simpl in Hst.
        rewrite statics_set_actual in Hst.
        apply IHloop.
        -- eapply no_null_children_statics; eauto.
        -- assert (length (_defs s2) = length (_defs s))
             by (now rewrite <- (statics_length (_defs s2)), Hst,
                   statics_length).
           lia.
      * destruct (IHlevel (S n) (get_begin_time def lb pb pe)
                    (set_defs (set_actual_begin_time n
                       (get_begin_time def lb pb pe) (_defs s)) s))
          as [r Hr]; [apply (Hsame s); auto| |congruence].
        simpl. rewrite set_actual_length. lia.
Qed.

End WalkCorrect.

(** ** The stable sort *)

Section SortProofs.

Lemma insert_event_perm e l : Permutation (e :: l) (insert_event e l).
Proof.
  induction l as [|x l IH]; simpl; auto.
  destruct (ev_time x <? ev_time e); auto.
  rewrite perm_swap. now constructor.
Qed.

Lemma stable_sort_perm l : Permutation l (stable_sort l).
Proof.
  induction l as [|e l IH]; simpl; auto.
  rewrite <- insert_event_perm. now constructor.
Qed.

Lemma stable_sort_In l e : In e (stable_sort l) <-> In e l.
Proof.
  split; apply Permutation_in;
    [symmetry|]; apply stable_sort_perm.
Qed.

Lemma stable_sort_length l : length (stable_sort l) = length l.
Proof. symmetry. apply Permutation_length, stable_sort_perm. Qed.

Lemma insert_event_sorted R e l :
  StronglySorted (stable_order R) l -> Forall (R e) l ->
  StronglySorted (stable_order R) (insert_event e l).
Proof.
  induction 1 as [|x l Hs IH Hx]; intros HR; simpl.
  - repeat constructor.
  - inversion HR as [|? ? Hex HRl]; subst.
    destruct (Z.ltb_spec (ev_time x) (ev_time e)) as [Hlt|Hge].
    + constructor; auto.
      apply Forall_forall. intros y Hy.
      apply (Permutation_in _ (Permutation_sym (insert_event_perm e l)))
        in Hy.
      destruct Hy as [<-|Hy].
      * split; lia.
      * rewrite Forall_forall in Hx. now apply Hx.
    + constructor; [constructor; auto|].
      constructor.
      * split; [lia|auto].
      * rewrite Forall_forall in *. intros y Hy.
        destruct (Hx y Hy) as [Hxy _]. split; [lia|].
        intros _. now apply HRl.
Qed.

Lemma stable_sort_sorted R l :
  StronglySorted R l -> StronglySorted (stable_order R) (stable_sort l).
Proof.
  induction 1 as [|e l Hs IH He]; simpl; [constructor|].
  apply insert_event_sorted; auto.
  rewrite Forall_forall in *. intros y Hy. apply He.
  now apply stable_sort_In.
Qed.

Lemma StronglySorted_weaken {A} (P Q : A -> A -> Prop) l :
  (forall x y, In x l -> In y l -> P x y -> Q x y) ->
  StronglySorted P l -> StronglySorted Q l.
Proof.
  intros HPQ H. induction H as [|x l Hs IH Hx]; constructor.
  - apply IH. intros; apply HPQ; simpl; auto.
  - rewrite Forall_forall in *. intros y Hy.
    apply HPQ; simpl; auto.
Qed.

Lemma StronglySorted_filter {A} (R : A -> A -> Prop) p l :
  StronglySorted R l -> StronglySorted R (filter p l).
Proof.
  induction 1 as [|x l Hs IH Hx]; simpl; [constructor|].
  destruct (p x); auto. constructor; auto.
  rewrite Forall_forall in *. intros y Hy.
  apply filter_In in Hy as [Hy _]. auto.
Qed.

Lemma Permutation_filter' {A} (p : A -> bool) l l' :
  Permutation l l' -> Permutation (filter p l) (filter p l').
Proof.
  induction 1; simpl; auto.
  - destruct (p x); auto.
  - destruct (p x), (p y); auto. apply perm_swap.
  - etransitivity; eauto.
Qed.

(** In a strongly sorted list, the order of positions is the order [R]. *)
Lemma StronglySorted_nth {A} (R : A -> A -> Prop) l i j x y :
  StronglySorted R l -> (i < j)%nat ->
  nth_error l i = Some x -> nth_error l j = Some y -> R x y.
Proof.
  intros H. revert i j. induction H as [|z l Hs IH Hz]; intros i j Hij Hi Hj.
  - destruct i; discriminate.
  - destruct j as [|j]; [lia|]. simpl in Hj.
    destruct i as [|i]; simpl in Hi.
    + inversion Hi; subst. rewrite Forall_forall in Hz.
      apply Hz. eapply nth_error_In; eauto.
    + apply (IH i j); auto; lia.
Qed.

End SortProofs.

(** ** The compiled timeline *)

Section CompileProofs.
Context {TM : TimeModel}.

Lemma emitted_ok_ext D D' a n n' X :
  (forall i, duration_at D' i = duration_at D i) ->
  emitted_ok D a n n' X -> emitted_ok D' a n n' X.
Proof.
  intros Hd (Hr & Hs & Hi & Ha). split; [|split; [|split]]; auto.
  intros i Hin. rewrite Hd. auto.
Qed.

Lemma duration_at_same_statics defs defs' i :
  statics defs' = statics defs -> duration_at defs' i = duration_at defs i.
Proof.
  intros H. now rewrite <- (duration_at_statics defs'), H, duration_at_statics.
Qed.

Lemma valid_action_same_statics defs defs' i :
  statics defs' = statics defs -> valid_action defs' i = valid_action defs i.
Proof.
  intros H. now rewrite <- (valid_action_statics defs'), H, valid_action_statics.
Qed.

Lemma open_ended_at_same_statics defs defs' i :
  statics defs' = statics defs -> open_ended_at defs' i = open_ended_at defs i.
Proof.
  intros H.
  now rewrite <- (open_ended_at_statics defs'), H, open_ended_at_statics.
Qed.

Lemma length_same_statics defs defs' :
  statics defs' = statics defs -> length defs' = length defs.
Proof.
  intros H. now rewrite <- (statics_length defs'), H, statics_length.
Qed.

Lemma compiled_ok_same_statics defs defs' events :
  statics defs' = statics defs ->
  compiled_ok defs events -> compiled_ok defs' events.
Proof.
  intros Hst (E & n' & Hem & Hn & ->). exists E, n'.
  split; [|split; [|reflexivity]].
  - eapply emitted_ok_ext; [|exact Hem].
    intros i. now apply duration_at_same_statics.
  - now rewrite (length_same_statics _ _ Hst).
Qed.

Lemma well_nested_statics defs : well_nested defs -> well_nested (statics defs).
Proof.
  intros H k. unfold statics. rewrite firstn_map.
  fold (statics (firstn k defs)). rewrite nesting_statics. apply H.
Qed.

Lemma nesting_nonneg defs : well_nested defs -> 0 <= nesting defs.
Proof.
  intros H. specialize (H (length defs)). now rewrite firstn_all in H.
Qed.

Lemma duration_at_valid defs i q :
  duration_at defs i = Some q -> valid_action defs i = true.
Proof.
  unfold duration_at, valid_action, def_duration, is_action.
  destruct (nth_error defs i) as [d|]; [|discriminate].
  destruct (_type d); try discriminate; auto.
  destruct (_c_interval d); auto; discriminate.
Qed.

Lemma valid_action_duration defs i :
  valid_action defs i = true -> exists q, duration_at defs i = Some q.
Proof.
  unfold duration_at, valid_action, def_duration, is_action.
  destruct (nth_error defs i) as [d|]; [|discriminate].
  destruct (_type d); try discriminate; eauto.
  destruct (_c_interval d); eauto; discriminate.
Qed.

Lemma duration_at_past_end defs i :
  (length defs <= i)%nat -> duration_at defs i = None.
Proof.
  intros H. unfold duration_at.
  now rewrite (proj2 (nth_error_None defs i) H).
Qed.

(** The result of a walk from the first entry. *)
Lemma top_walk_index s0 s1 n' :
  walk_post s0 0 s1 n' -> well_nested (_defs s0) ->
  Z.of_nat n' = Z.of_nat (length (_defs s0)) + nesting (_defs s0).
Proof.
  intros (_ & _ & _ & Hlvl & Hstop & _) Hwn.
  rewrite lvl_0 in Hlvl.
  pose proof (well_nested_statics _ Hwn) as Hwn'.
  destruct (Nat.lt_ge_cases n' (length (_defs s0))) as [Hlt|Hge].
  - exfalso.
    destruct (nth_error (statics (_defs s0)) n') as [d|] eqn:E.
    + pose proof (lvl_S_some _ _ _ E) as HS.
      unfold nesting_step in HS. rewrite (Hstop d eq_refl) in HS.
      rewrite lvl_inside in HS by (rewrite statics_length; lia).
      specialize (Hwn' (S n')). lia.
    + apply nth_error_None in E. rewrite statics_length in E. lia.
  - rewrite lvl_past_end in Hlvl by (now rewrite statics_length).
    rewrite nesting_statics, statics_length in Hlvl. lia.
Qed.

(** [do_recompute] either meets a null child or ends a walk of the whole
    list, sorts what the walk emitted and stores the duration. *)
Lemma do_recompute_cases s :
  let s0 := clear_events (set_dirty false s) in
  (recompute_level (recompute_fuel s0) 0 0 s0 = None /\
   do_recompute s = invalid_pointer s0) \/
  exists s1 n' le,
    recompute_level (recompute_fuel s0) 0 0 s0 = Some (s1, n', le) /\
    walk_post s0 0 s1 n' /\
    do_recompute s =
    mkMeta (_defs s1) (stable_sort (_events s1)) [] (_event_queue s)
      (_current_nesting_level s) (_next_event_index s) (_curr_t s)
      (int_to_double_time le) le false (_calls s) (_registered s)
      (_diag s ++ if (n' =? length (_defs s1))%nat then []
                  else [D_warning pushes_dont_match_pops]).
Proof.
  intros s0. unfold do_recompute. fold s0.
  destruct (recompute_level (recompute_fuel s0) 0 0 s0)
    as [[[s1 n'] le]|] eqn:E; [right|left; auto].
  exists s1, n', le. split; auto.
  pose proof (proj1 (walk_correct _) _ _ _ _ _ _ E) as Hw.
  split; auto.
  destruct Hw as (Hf & _). clear E.
  assert (Hfields :
            _event_queue s1 = _event_queue s /\
            _current_nesting_level s1 = _current_nesting_level s /\
            _next_event_index s1 = _next_event_index s /\
            _curr_t s1 = _curr_t s /\ _calls s1 = _calls s /\
            _registered s1 = _registered s /\ _diag s1 = _diag s /\
            _dirty s1 = false /\ _active s1 = [])
    by (rewrite Hf; repeat split; reflexivity).
  clear Hf. subst s0. unfold pushes_dont_match_pops.
  destruct s1 as [d1 e1 a1 q1 l1 i1 c1 du1 et1 di1 ca1 r1 dg1].
  cbn in Hfields.
  destruct Hfields as (-> & -> & -> & -> & -> & -> & -> & -> & ->).
  cbn [_defs]. destruct (n' =? _)%nat; cbn; now rewrite ?app_nil_r.
Qed.

Lemma do_recompute_ok s :
  no_null_children (_defs s) ->
  exists s1 n' le,
    walk_post (clear_events (set_dirty false s)) 0 s1 n' /\
    do_recompute s =
    mkMeta (_defs s1) (stable_sort (_events s1)) [] (_event_queue s)
      (_current_nesting_level s) (_next_event_index s) (_curr_t s)
      (int_to_double_time le) le false (_calls s) (_registered s)
      (_diag s ++ if (n' =? length (_defs s1))%nat then []
                  else [D_warning pushes_dont_match_pops]).
Proof.
  intros Hnn. destruct (do_recompute_cases s) as [[Hnone _]|H].
  - exfalso.
    destruct (proj1 (walk_total (recompute_fuel (clear_events (set_dirty false s))))
                0%nat 0 (clear_events (set_dirty false s))) as [r Hr].
    + exact Hnn.
    + unfold recompute_fuel. lia.
    + congruence.
  - destruct H as (s1 & n' & le & _ & Hw & Heq). eauto.
Qed.

(** *** Facts about a compiled timeline *)

Lemma emitted_addr_NoDup X :
  StronglySorted emitted_before X -> NoDup (map ev_addr X).
Proof.
  induction 1 as [|x l Hs IH Hx]; simpl; constructor; auto.
  intros Hin. apply in_map_iff in Hin as (y & Hy & Hin).
  rewrite Forall_forall in Hx. destruct (Hx y Hin). lia.
Qed.

Lemma compiled_perm defs events :
  compiled_ok defs events ->
  exists E n', emitted_ok defs 0 0 n' E /\ (length defs <= n')%nat /\
               Permutation E events /\
               StronglySorted (stable_order emitted_before) events.
Proof.
  intros (E & n' & Hem & Hn & ->). exists E, n'.
  split; [|split; [|split]]; auto.
  - apply stable_sort_perm.
  - apply stable_sort_sorted. apply Hem.
Qed.

Lemma compiled_addr_NoDup defs events :
  compiled_ok defs events -> NoDup (map ev_addr events).
Proof.
  intros H. apply compiled_perm in H as (E & n' & Hem & _ & Hp & _).
  eapply Permutation_NoDup; [apply Permutation_map; exact Hp|].
  apply emitted_addr_NoDup, Hem.
Qed.

(** The events of entry [i], up to order. *)
Lemma compiled_events_at defs events i :
  compiled_ok defs events ->
  exists b t, Permutation (events_of (duration_at defs i) i b t)
                          (events_at i events).
Proof.
  intros H. apply compiled_perm in H as (E & n' & Hem & Hn & Hp & _).
  destruct Hem as (Hr & _ & Hi & _).
  destruct (Nat.lt_ge_cases i n') as [Hlt|Hge].
  - destruct (Hi i) as (b & t & Heq); [lia|]. exists b, t.
    rewrite <- Heq. now apply Permutation_filter'.
  - exists 0%nat, 0. rewrite duration_at_past_end by lia. simpl.
    replace (events_at i events) with (@nil PlaybackEvent); auto.
    symmetry. apply events_at_none. intros e He.
    apply (Permutation_in _ (Permutation_sym Hp)) in He.
    destruct (Hr e He). lia.
Qed.

Lemma events_at_In i l e : In e (events_at i l) <-> In e l /\ ev_n e = i.
Proof.
  unfold events_at. rewrite filter_In. now rewrite Nat.eqb_eq.
Qed.

Lemma compiled_event_shape defs events e :
  compiled_ok defs events -> In e events ->
  exists b t, In e (events_of (duration_at defs (ev_n e)) (ev_n e) b t) /\
              incl (events_of (duration_at defs (ev_n e)) (ev_n e) b t) events.
Proof.
  intros H He. destruct (compiled_events_at _ _ (ev_n e) H) as (b & t & Hp).
  exists b, t. split.
  - apply (Permutation_in _ (Permutation_sym Hp)).
    now apply events_at_In.
  - intros x Hx. apply (Permutation_in _ Hp) in Hx.
    now apply events_at_In in Hx.
Qed.

Lemma compiled_events_valid defs events e :
  compiled_ok defs events -> In e events ->
  valid_action defs (ev_n e) = true /\
  exists b, In b events /\ ev_addr b = ev_begin_event e.
Proof.
  intros H He.
  destruct (compiled_event_shape _ _ e H He) as (b & t & Hin & Hincl).
  unfold events_of in *.
  destruct (duration_at defs (ev_n e)) as [q|] eqn:Eq; [|destruct Hin].
  split; [eapply duration_at_valid; eauto|].
  destruct (q =? 0).
  - destruct Hin as [<-|[]]. eexists. split; [apply Hincl; left; eauto|].
    reflexivity.
  - destruct Hin as [<-|[<-|[]]];
      (eexists; split; [apply Hincl; left; eauto|]; reflexivity).
Qed.

End CompileProofs.

(** ** The set of active events *)

Section PsetProofs.

Lemma pset_mem_In a l : pset_mem a l = true <-> In a l.
Proof.
  unfold pset_mem. rewrite existsb_exists. split.
  - intros (x & Hx & E). apply Nat.eqb_eq in E. now subst.
  - intros H. exists a. split; auto. apply Nat.eqb_refl.
Qed.

Lemma pset_mem_false a l : pset_mem a l = false <-> ~ In a l.
Proof.
  rewrite <- pset_mem_In. destruct (pset_mem a l); split; congruence.
Qed.

Lemma pset_insert_In a l x :
  In x (fst (pset_insert a l)) <-> x = a \/ In x l.
Proof.
  induction l as [|b l IH]; simpl.
  - intuition.
  - destruct (a <? b)%nat; [simpl; intuition|].
    destruct (Nat.eqb_spec a b) as [->|Hne]; [simpl; intuition|].
    destruct (pset_insert a l) as [l' ok]. simpl in *. intuition.
Qed.

Lemma pset_erase_In a l x :
  In x (fst (pset_erase a l)) <-> In x l /\ x <> a.
Proof.
  unfold pset_erase. simpl. rewrite filter_In.
  destruct (Nat.eqb_spec a x); simpl; intuition congruence.
Qed.

Lemma pset_erase_count a l :
  pset_mem a l = negb (snd (pset_erase a l) =? 0)%nat.
Proof.
  unfold pset_erase, pset_mem. simpl.
  induction l as [|b l IH]; simpl; auto.
  destruct (a =? b)%nat; simpl; auto.
Qed.

End PsetProofs.

(** ** What playback changes *)

Section PlaysProofs.
Context {TM : TimeModel}.

Lemma playback_frame_refl s : playback_frame s s.
Proof. repeat split. Qed.

Lemma playback_frame_trans s1 s2 s3 :
  playback_frame s1 s2 -> playback_frame s2 s3 -> playback_frame s1 s3.
Proof.
  unfold playback_frame. intros (? & ? & ? & ? & ? & ? & ?)
    (? & ? & ? & ? & ? & ? & ?). repeat split; congruence.
Qed.

Lemma plays_refl P s : plays P s s.
Proof.
  split; [apply playback_frame_refl|]. split; [|split].
  - exists []. split; [now rewrite app_nil_r|]. intros _ q [].
  - exists []. split; [now rewrite app_nil_r|constructor].
  - auto.
Qed.

Lemma plays_trans P s1 s2 s3 : plays P s1 s2 -> plays P s2 s3 -> plays P s1 s3.
Proof.
  intros (Hf1 & (l1 & Hq1 & Hv1) & (d1 & Hd1 & HP1) & Ha1)
         (Hf2 & (l2 & Hq2 & Hv2) & (d2 & Hd2 & HP2) & Ha2).
  pose proof Hf1 as (Hdefs & Hev & _).
  split; [eapply playback_frame_trans; eauto|]. split; [|split].
  - exists (l1 ++ l2). split; [now rewrite Hq2, Hq1, app_assoc|].
    intros Hnn q Hq. apply in_app_or in Hq as [Hq|Hq]; auto.
    rewrite <- Hdefs. apply Hv2; auto. now rewrite Hdefs.
  - exists (d1 ++ d2). split; [now rewrite Hd2, Hd1, app_assoc|].
    apply Forall_app; auto.
  - intros a Ha. destruct (Ha2 a Ha) as [H|H]; auto.
    right. now rewrite <- Hev.
Qed.

Lemma plays_weaken (P Q : Dispatch -> Prop) s s' :
  (forall d, P d -> Q d) -> plays P s s' -> plays Q s s'.
Proof.
  intros HPQ (Hf & Hq & (d & Hd & HP) & Ha).
  split; [|split; [|split]]; auto.
  exists d. split; auto. eapply Forall_impl; eauto.
Qed.

(** The basic effects. *)

Lemma plays_set_diag P v s : plays P s (set_diag v s).
Proof.
  split; [repeat split|]. split; [|split].
  - exists []. split; [now rewrite app_nil_r|]. intros _ q [].
  - exists []. split; [now rewrite app_nil_r|constructor].
  - auto.
Qed.

Lemma plays_set_next_event_index P v s : plays P s (set_next_event_index v s).
Proof.
  split; [repeat split|]. split; [|split].
  - exists []. split; [now rewrite app_nil_r|]. intros _ q [].
  - exists []. split; [now rewrite app_nil_r|constructor].
  - auto.
Qed.

Lemma plays_set_curr_t P v s : plays P s (set_curr_t v s).
Proof.
  split; [repeat split|]. split; [|split].
  - exists []. split; [now rewrite app_nil_r|]. intros _ q [].
  - exists []. split; [now rewrite app_nil_r|constructor].
  - auto.
Qed.

Lemma plays_set_active P v s :
  (forall a, In a v ->
             In a (_active s) \/ exists e, In e (_events s) /\ ev_addr e = a) ->
  plays P s (set_active v s).
Proof.
  intros Hv. split; [repeat split|]. split; [|split].
  - exists []. split; [now rewrite app_nil_r|]. intros _ q [].
  - exists []. split; [now rewrite app_nil_r|constructor].
  - auto.
Qed.

Lemma plays_set_t P n ci t event_type s :
  _event_queue s = [] -> P (n, event_type, t) ->
  plays P s (set_t n ci t event_type s).
Proof.
  intros Hq HP. split; [repeat split|]. split; [|split].
  - exists []. split; [now rewrite app_nil_r|]. intros _ q [].
  - exists [(n, event_type, t)]. split; [|now repeat constructor].
    unfold dispatched, set_t. cbn [_calls _event_queue set_calls].
    rewrite Hq, map_app. simpl. now rewrite !app_nil_r.
  - auto.
Qed.

Lemma plays_push_back_event P n event_type time s :
  P (n, event_type, int_to_double_time time) ->
  (no_null_children (_defs s) -> valid_action (_defs s) n = true) ->
  plays P s (push_back_event n event_type time s).
Proof.
  intros HP Hv. split; [repeat split|]. split; [|split].
  - eexists. split; [reflexivity|].
    intros Hnn q [<-|[]]. simpl. auto.
  - exists [(n, event_type, int_to_double_time time)].
    split; [|now repeat constructor].
    unfold dispatched, push_back_event.
    cbn [_calls _event_queue set_event_queue].
    now rewrite map_app, app_assoc.
  - auto.
Qed.

Lemma queue_empty_true s : queue_empty s = true -> _event_queue s = [].
Proof. unfold queue_empty. now destruct (_event_queue s). Qed.

Lemma enqueue_event_plays P n event_type is_initial time s :
  (suppressed_at (_defs s) n is_initial event_type = false ->
   P (n, event_type, int_to_double_time time)) ->
  plays P s (enqueue_event n event_type is_initial time s).
Proof.
  intros HP. unfold enqueue_event.
  unfold suppressed_at, open_ended_at, def_open_ended in HP.
  destruct (nth_error (_defs s) n) as [def|] eqn:En;
    [|apply plays_set_diag].
  assert (Hin : In def (_defs s)) by (eapply nth_error_In; eauto).
  destruct (_type def) eqn:Ety; try apply plays_set_diag.
  - destruct (_c_interval def) as [ci|] eqn:Eci.
    + destruct (is_initial && is_instant_type event_type
                && negb (ci_open_ended ci)) eqn:Es; [apply plays_refl|].
      destruct (queue_empty s) eqn:Eq.
      * apply plays_set_t; auto using queue_empty_true.
      * apply plays_push_back_event; auto.
        intros _. unfold valid_action, is_action. now rewrite En, Ety, Eci.
    + destruct (is_initial && is_instant_type event_type) eqn:Es;
        [apply plays_set_diag|].
      destruct (queue_empty s); [apply plays_set_diag|].
      apply plays_push_back_event; auto.
      intros Hnn. exfalso. now apply (Hnn def).
  - destruct (is_initial && is_instant_type event_type
              && negb (_ext_open_ended def)) eqn:Es; [apply plays_refl|].
    apply plays_push_back_event; auto.
    intros _. unfold valid_action, is_action. now rewrite En, Ety.
Qed.

End PlaysProofs.

Section PlaybackProofs.
Context {TM : TimeModel}.

Lemma deref_Some events a e :
  deref events a = Some e -> In e events /\ ev_addr e = a.
Proof.
  unfold deref. intros H. apply find_some in H as [Hin E].
  now apply Nat.eqb_eq in E.
Qed.

Lemma deref_In events a e :
  In e events -> ev_addr e = a -> exists e', deref events a = Some e'.
Proof.
  intros Hin <-. unfold deref.
  destruct (find (fun e0 => (ev_addr e0 =? ev_addr e)%nat) events) eqn:E;
    eauto.
  exfalso. apply (find_none _ _ E) in Hin. now rewrite Nat.eqb_refl in Hin.
Qed.


Lemma suppressed_at_not_instant defs n is_initial event_type :
  is_instant_type event_type = false ->
  suppressed_at defs n is_initial event_type = false.
Proof.
  intros H. unfold suppressed_at. rewrite H. now rewrite andb_false_r.
Qed.

Lemma do_event_forward_plays P event new_active is_initial s :
  (forall event_type,
      forward_dispatch event new_active = Some event_type ->
      suppressed_at (_defs s) (ev_n event) is_initial event_type = false ->
      P (ev_n event, event_type, int_to_double_time 0)) ->
  plays P s (fst (do_event_forward event new_active is_initial s)).
Proof.
  intros HP. unfold do_event_forward. unfold forward_dispatch in HP.
  destruct (ev_type event).
  - destruct (negb _); [apply plays_set_diag|].
    destruct (pset_mem _ _); [apply plays_set_diag|].
    destruct (pset_insert _ _) as [na ok].
    destruct ok; [apply plays_refl|apply plays_set_diag].
  - rewrite pset_erase_count in HP.
    destruct (pset_erase (ev_begin_event event) new_active) as [na c].
    cbn [snd] in HP.
    destruct (negb (c =? 0)%nat).
    + assert (Hp : plays P s (enqueue_event (ev_n event) ET_instant
                                 is_initial 0 s))
        by (apply enqueue_event_plays; auto).
      destruct (c =? 1)%nat; exact Hp.
    + destruct (pset_erase (ev_begin_event event) (_active s))
        as [active' c'] eqn:Ee.
      assert (Hp : plays P s
                (enqueue_event (ev_n event) ET_finalize is_initial 0
                   (set_active active' s))).
      { apply plays_trans with (s2 := set_active active' s).
        - apply plays_set_active. intros a Ha. left.
          assert (Hact : active' =
                         fst (pset_erase (ev_begin_event event) (_active s)))
            by (now rewrite Ee).
          rewrite Hact in Ha.
          exact (proj1 (proj1 (pset_erase_In _ _ _) Ha)).
        - apply enqueue_event_plays. cbn [_defs set_active]. auto. }
      destruct (c' =? 1)%nat; exact Hp.
  - destruct (negb _); [apply plays_set_diag|].
    destruct (pset_mem _ new_active); [apply plays_set_diag|].
    destruct (pset_mem _ (_active s)); [apply plays_set_diag|].
    apply enqueue_event_plays; auto.
Qed.

Lemma do_event_reverse_plays P event new_active is_initial s :
  (forall event_type,
      reverse_dispatch event new_active = Some event_type ->
      suppressed_at (_defs s) (ev_n event) is_initial event_type = false ->
      P (ev_n event, event_type, int_to_double_time 0)) ->
  plays P s (fst (do_event_reverse event new_active is_initial s)).
Proof.
  intros HP. unfold do_event_reverse. unfold reverse_dispatch in HP.
  destruct (ev_type event).
  - destruct (negb (ev_begin_event event =? ev_addr event)%nat);
      [apply plays_set_diag|].
    rewrite pset_erase_count in HP.
    destruct (pset_erase (ev_addr event) new_active) as [na c].
    cbn [snd] in HP.
    destruct (negb (c =? 0)%nat).
    + assert (Hp : plays P s (enqueue_event (ev_n event) ET_reverse_instant
                                 is_initial 0 s))
        by (apply enqueue_event_plays; auto).
      destruct (c =? 1)%nat; exact Hp.
    + destruct (pset_erase (ev_begin_event event) (_active s))
        as [active' c'] eqn:Ee.
      assert (Hp : plays P s
                (enqueue_event (ev_n event) ET_reverse_finalize is_initial 0
                   (set_active active' s))).
      { apply plays_trans with (s2 := set_active active' s).
        - apply plays_set_active. intros a Ha. left.
          assert (Hact : active' =
                         fst (pset_erase (ev_begin_event event) (_active s)))
            by (now rewrite Ee).
          rewrite Hact in Ha.
          exact (proj1 (proj1 (pset_erase_In _ _ _) Ha)).
        - apply enqueue_event_plays. cbn [_defs set_active]. auto. }
      destruct (c' =? 1)%nat; exact Hp.
  - destruct (pset_mem _ _); [apply plays_set_diag|].
    destruct (pset_insert _ _) as [na ok].
    destruct ok; [apply plays_refl|apply plays_set_diag].
  - destruct (negb _); [apply plays_set_diag|].
    destruct (pset_mem _ (_active s)); [apply plays_set_diag|].
    destruct (pset_mem _ new_active); [apply plays_set_diag|].
    apply enqueue_event_plays; auto.
Qed.

Lemma plays_events P s s' : plays P s s' -> _events s' = _events s.
Proof. intros ((_ & H & _) & _). exact H. Qed.

Lemma plays_defs P s s' : plays P s s' -> _defs s' = _defs s.
Proof. intros ((H & _) & _). exact H. Qed.

Lemma step_active_plays P now l s :
  (forall a e, In a l -> deref (_events s) a = Some e ->
               P (ev_n e, ET_step, int_to_double_time (now - ev_time e))) ->
  plays P s (step_active now l s).
Proof.
  revert s. induction l as [|a l IH]; intros s HP; simpl.
  - apply plays_refl.
  - destruct (deref (_events s) a) as [e|] eqn:E; [|apply plays_set_diag].
    assert (Hp : plays P s (enqueue_event (ev_n e) ET_step false
                              (now - ev_time e) s)).
    { apply enqueue_event_plays. intros _. apply (HP a); simpl; auto. }
    eapply plays_trans; [exact Hp|]. apply IH.
    intros a' e' Ha' He'. rewrite (plays_events _ _ _ Hp) in He'.
    apply (HP a'); simpl; auto.
Qed.

Lemma init_new_active_plays P event_type now l s :
  (forall a e, In a l -> deref (_events s) a = Some e ->
               P (ev_n e, event_type, int_to_double_time (now - ev_time e))) ->
  plays P s (init_new_active event_type now l s).
Proof.
  revert s. induction l as [|a l IH]; intros s HP; simpl.
  - apply plays_refl.
  - destruct (deref (_events s) a) as [e|] eqn:E; [|apply plays_set_diag].
    pose proof (deref_Some _ _ _ E) as [Hin Haddr].
    set (s1 := enqueue_event (ev_n e) event_type false (now - ev_time e) s).
    assert (Hp : plays P s s1).
    { apply enqueue_event_plays.
      intros _. apply (HP a); simpl; auto. }
    destruct (pset_insert a (_active s1)) as [active' inserted] eqn:Ei.
    assert (Hp2 : plays P s (set_active active' s1)).
    { eapply plays_trans; [exact Hp|]. apply plays_set_active.
      intros x Hx.
      assert (Hact : active' = fst (pset_insert a (_active s1)))
        by (now rewrite Ei).
      rewrite Hact in Hx. apply pset_insert_In in Hx as [->|Hx]; auto.
      right. exists e. rewrite (plays_events _ _ _ Hp). auto. }
    destruct inserted.
    + eapply plays_trans; [exact Hp2|]. apply IH.
      intros a' e' Ha' He'. rewrite (plays_events _ _ _ Hp2) in He'.
      apply (HP a'); simpl; auto.
    + eapply plays_trans; [exact Hp2|apply plays_set_diag].
Qed.

Lemma finish_events_forward_plays P now new_active s :
  (forall a e, deref (_events s) a = Some e ->
     (In a (_active s) ->
      P (ev_n e, ET_step, int_to_double_time (now - ev_time e))) /\
     (In a new_active ->
      P (ev_n e, ET_initialize, int_to_double_time (now - ev_time e)))) ->
  plays P s (finish_events_forward now new_active s).
Proof.
  intros HP. unfold finish_events_forward.
  assert (Hp : plays P s (step_active now (_active s) s)).
  { apply step_active_plays. intros a e Ha He. now apply (HP a e). }
  eapply plays_trans; [exact Hp|]. apply init_new_active_plays.
  intros a e Ha He. rewrite (plays_events _ _ _ Hp) in He.
  now apply (HP a e).
Qed.

Lemma finish_events_reverse_plays P now new_active s :
  (forall a e, deref (_events s) a = Some e ->
     (In a (_active s) ->
      P (ev_n e, ET_step, int_to_double_time (now - ev_time e))) /\
     (In a new_active ->
      P (ev_n e, ET_reverse_initialize,
         int_to_double_time (now - ev_time e)))) ->
  plays P s (finish_events_reverse now new_active s).
Proof.
  intros HP. unfold finish_events_reverse.
  assert (Hp : plays P s (step_active now (_active s) s)).
  { apply step_active_plays. intros a e Ha He. now apply (HP a e). }
  eapply plays_trans; [exact Hp|]. apply init_new_active_plays.
  intros a e Ha He. rewrite (plays_events _ _ _ Hp) in He.
  now apply (HP a e).
Qed.

Lemma scan_forward_plays cond is_initial rest new_active s :
  plays any_dispatch s
    (fst (scan_forward cond is_initial rest new_active s)).
Proof.
  revert new_active s. induction rest as [|e rest IH]; intros na s; simpl.
  - apply plays_refl.
  - destruct (cond e); [|apply plays_refl].
    pose proof (do_event_forward_plays any_dispatch e na is_initial s) as Hp.
    destruct (do_event_forward e na is_initial s) as [s1 na1].
    eapply plays_trans; [apply Hp; now intros|]. cbn [fst].
    eapply plays_trans; [apply plays_set_next_event_index|]. apply IH.
Qed.

Lemma scan_reverse_plays cond is_initial rest new_active s :
  plays any_dispatch s
    (fst (scan_reverse cond is_initial rest new_active s)).
Proof.
  revert new_active s. induction rest as [|e rest IH]; intros na s; simpl.
  - apply plays_refl.
  - destruct (cond e); [|apply plays_refl].
    eapply plays_trans; [apply plays_set_next_event_index|].
    pose proof (do_event_reverse_plays any_dispatch e na is_initial
                  (set_next_event_index (Nat.pred (_next_event_index s)) s))
      as Hp.
    destruct (do_event_reverse e na is_initial _) as [s1 na1].
    eapply plays_trans; [apply Hp; now intros|]. cbn [fst]. apply IH.
Qed.

Lemma instant_loop_plays event_type events s :
  plays any_dispatch s (instant_loop event_type events s).
Proof.
  revert s. induction events as [|e events IH]; intros s; simpl.
  - apply plays_refl.
  - eapply plays_trans; [|apply IH].
    destruct (PET_eqb _ _); [apply plays_refl|].
    apply enqueue_event_plays. now intros.
Qed.

End PlaybackProofs.

(** ** The cursor *)

Section CursorProofs.
Context {TM : TimeModel}.

Lemma cursor_frame_refl s : cursor_frame s s.
Proof. repeat split. Qed.

Lemma cursor_frame_trans s1 s2 s3 :
  cursor_frame s1 s2 -> cursor_frame s2 s3 -> cursor_frame s1 s3.
Proof.
  unfold cursor_frame. intros (? & ? & ?) (? & ? & ?).
  repeat split; congruence.
Qed.

Lemma enqueue_event_cursor n event_type is_initial time s :
  cursor_frame s (enqueue_event n event_type is_initial time s).
Proof.
  unfold enqueue_event. destruct_matches; repeat split.
Qed.

Lemma do_event_forward_cursor event new_active is_initial s :
  cursor_frame s (fst (do_event_forward event new_active is_initial s)).
Proof.
  unfold do_event_forward.
  destruct_matches; cbn [fst];
    try apply cursor_frame_refl;
    try (eapply cursor_frame_trans; [|apply enqueue_event_cursor]);
    repeat split;
    try apply (enqueue_event_cursor _ _ _ _ s).
Qed.

Lemma do_event_reverse_cursor event new_active is_initial s :
  cursor_frame s (fst (do_event_reverse event new_active is_initial s)).
Proof.
  unfold do_event_reverse.
  destruct_matches; cbn [fst];
    try apply cursor_frame_refl;
    try (eapply cursor_frame_trans; [|apply enqueue_event_cursor]);
    repeat split;
    try apply (enqueue_event_cursor _ _ _ _ s).
Qed.

Lemma step_active_cursor now l s : cursor_frame s (step_active now l s).
Proof.
  revert s. induction l as [|a l IH]; intros s; simpl.
  - apply cursor_frame_refl.
  - destruct (deref (_events s) a); [|repeat split].
    eapply cursor_frame_trans; [apply enqueue_event_cursor|apply IH].
Qed.

Lemma init_new_active_cursor event_type now l s :
  cursor_frame s (init_new_active event_type now l s).
Proof.
  revert s. induction l as [|a l IH]; intros s; simpl.
  - apply cursor_frame_refl.
  - destruct (deref (_events s) a); [|repeat split].
    destruct (pset_insert _ _) as [active' inserted].
    eapply cursor_frame_trans; [apply enqueue_event_cursor|].
    destruct inserted.
    + eapply cursor_frame_trans; [|apply IH]. repeat split.
    + repeat split.
Qed.

Lemma finish_events_forward_cursor now new_active s :
  cursor_frame s (finish_events_forward now new_active s).
Proof.
  eapply cursor_frame_trans;
    [apply step_active_cursor|apply init_new_active_cursor].
Qed.

Lemma finish_events_reverse_cursor now new_active s :
  cursor_frame s (finish_events_reverse now new_active s).
Proof.
  eapply cursor_frame_trans;
    [apply step_active_cursor|apply init_new_active_cursor].
Qed.

Lemma instant_loop_cursor event_type events s :
  cursor_frame s (instant_loop event_type events s).
Proof.
  revert s. induction events as [|e events IH]; intros s; simpl.
  - apply cursor_frame_refl.
  - eapply cursor_frame_trans; [|apply IH].
    destruct (PET_eqb _ _);
      [apply cursor_frame_refl|apply enqueue_event_cursor].
Qed.

(** What a forward scan has done to the cursor: it went over [done], all of
    which satisfy the loop condition, and stands in front of [rest'],
    whose head does not. *)
Lemma scan_forward_cursor cond is_initial rest new_active s s' new_active' :
  skipn (_next_event_index s) (_events s) = rest ->
  scan_forward cond is_initial rest new_active s = (s', new_active') ->
  exists done rest',
    rest = done ++ rest' /\ forallb cond done = true /\
    match rest' with [] => True | e :: _ => cond e = false end /\
    _events s' = _events s /\
    _next_event_index s' = (_next_event_index s + length done)%nat /\
    skipn (_next_event_index s') (_events s') = rest'.
Proof.
  revert new_active s. induction rest as [|e rest IH]; intros na s Hsk H.
  - simpl in H. inversion H; subst. exists [], [].
    repeat split; auto.
  - simpl in H. destruct (cond e) eqn:Ec.
    + pose proof (do_event_forward_cursor e na is_initial s) as (Hi & He & _).
      destruct (do_event_forward e na is_initial s) as [s1 na1].
      cbn [fst] in *.
      apply skipn_cons_nth_error in Hsk as [Hn Hsk].
      apply IH in H.
      * destruct H as (done & rest' & -> & Hall & Hhd & Hev & Hidx & Hsk').
        exists (e :: done), rest'. cbn [_events _next_event_index
          set_next_event_index] in *.
        repeat split; auto.
        -- simpl. now rewrite Ec.
        -- congruence.
        -- rewrite Hidx, Hi. simpl. lia.
      * cbn [_events _next_event_index set_next_event_index].
        now rewrite Hi, He.
    + inversion H; subst. exists [], (e :: rest). repeat split; auto.
Qed.

Lemma firstn_skipn_rev {A} (l : list A) k x r :
  (k <= length l)%nat -> rev (firstn k l) = x :: r ->
  exists k', k = S k' /\ nth_error l k' = Some x /\ rev (firstn k' l) = r.
Proof.
  intros Hk H. destruct k as [|k].
  - simpl in H. discriminate.
  - exists k. split; auto.
    destruct (nth_error l k) as [y|] eqn:E.
    + rewrite (firstn_S_nth_error _ _ _ E), rev_app_distr in H.
      simpl in H. inversion H; subst. auto.
    + apply nth_error_None in E. lia.
Qed.

Lemma scan_reverse_cursor cond is_initial rest new_active s s' new_active' :
  (_next_event_index s <= length (_events s))%nat ->
  rev (firstn (_next_event_index s) (_events s)) = rest ->
  scan_reverse cond is_initial rest new_active s = (s', new_active') ->
  exists done rest',
    rest = done ++ rest' /\ forallb cond done = true /\
    match rest' with [] => True | e :: _ => cond e = false end /\
    _events s' = _events s /\
    _next_event_index s = (_next_event_index s' + length done)%nat /\
    rev (firstn (_next_event_index s') (_events s')) = rest' /\
    match rev done with
    | [] => True
    | e :: _ => nth_error (_events s') (_next_event_index s') = Some e
    end.
Proof.
  revert new_active s. induction rest as [|e rest IH]; intros na s Hle Hrv H.
  - simpl in H. inversion H; subst. exists [], [].
    repeat split; auto.
  - simpl in H. destruct (cond e) eqn:Ec.
    + apply firstn_skipn_rev in Hrv as (k & Hk & Hn & Hrv); auto.
      set (s0 := set_next_event_index (Nat.pred (_next_event_index s)) s) in *.
      pose proof (do_event_reverse_cursor e na is_initial s0) as (Hi & He & _).
      destruct (do_event_reverse e na is_initial s0) as [s1 na1].
      cbn [fst] in *.
      assert (Hi0 : _next_event_index s0 = k)
        by (unfold s0; cbn; rewrite Hk; reflexivity).
      assert (He0 : _events s0 = _events s) by reflexivity.
      apply IH in H.
      * destruct H as (done & rest' & -> & Hall & Hhd & Hev & Hidx & Hsk'
                       & Hlast).
        exists (e :: done), rest'.
        repeat split; auto.
        -- simpl. now rewrite Ec.
        -- congruence.
        -- simpl. lia.
        -- simpl. destruct (rev done) as [|x r] eqn:Er.
           ++ simpl. apply (f_equal (@rev _)) in Er.
              rewrite rev_involutive in Er. subst done. simpl in *.
              rewrite Hev, He. change (_events s0) with (_events s).
              replace (_next_event_index s') with k by lia. exact Hn.
           ++ simpl. exact Hlast.
      * rewrite He, Hi, Hi0. change (_events s0) with (_events s).
        assert (k < length (_events s))%nat
          by (apply nth_error_Some; congruence).
        lia.
      * rewrite Hi, He, Hi0. exact Hrv.
    + inversion H; subst. exists [], (e :: rest). repeat split; auto.
Qed.

End CursorProofs.

(** ** Compilation of a well-formed definition list *)

Section RecomputeProofs.
Context {TM : TimeModel}.

Lemma nesting_same_statics defs defs' :
  statics defs' = statics defs -> nesting defs' = nesting defs.
Proof.
  intros H. now rewrite <- (nesting_statics defs'), H, nesting_statics.
Qed.

Lemma well_nested_same_statics defs defs' :
  statics defs' = statics defs -> well_nested defs -> well_nested defs'.
Proof.
  intros H Hw k.
  rewrite <- (nesting_statics (firstn k defs')). unfold statics.
  rewrite <- firstn_map. fold (statics defs'). rewrite H.
  unfold statics. rewrite firstn_map. fold (statics (firstn k defs)).
  rewrite nesting_statics. apply Hw.
Qed.

Lemma child_ids_statics defs : child_ids (statics defs) = child_ids defs.
Proof.
  induction defs as [|d defs IH]; simpl; auto. now rewrite IH.
Qed.

Lemma child_ids_same_statics defs defs' :
  statics defs' = statics defs -> child_ids defs' = child_ids defs.
Proof.
  intros H. now rewrite <- (child_ids_statics defs'), H, child_ids_statics.
Qed.

(** The whole of [do_recompute] on a list built by the append methods. *)
Lemma do_recompute_full s :
  no_null_children (_defs s) -> well_nested (_defs s) ->
  exists defs' E le,
    statics defs' = statics (_defs s) /\
    emitted_ok defs' 0 0
      (length (_defs s) + Z.to_nat (nesting (_defs s))) E /\
    do_recompute s =
    mkMeta defs' (stable_sort E) [] (_event_queue s)
      (_current_nesting_level s) (_next_event_index s) (_curr_t s)
      (int_to_double_time le) le false (_calls s) (_registered s)
      (_diag s ++ if nesting (_defs s) =? 0 then []
                  else [D_warning pushes_dont_match_pops]).
Proof.
  intros Hnn Hwn.
  destruct (do_recompute_ok s Hnn) as (s1 & n' & le & Hw & Heq).
  pose proof (top_walk_index _ _ _ Hw Hwn) as Hn'.
  destruct Hw as (_ & Hst & _ & _ & _ & X & HX & Hem).
  cbn [_defs _events clear_events set_dirty set_active set_events] in *.
  pose proof (nesting_nonneg _ Hwn) as Hnonneg.
  exists (_defs s1), X, le. split; [exact Hst|]. split.
  - replace (length (_defs s) + Z.to_nat (nesting (_defs s)))%nat with n'
      by lia.
    eapply emitted_ok_ext; [|exact Hem].
    intros i. rewrite duration_at_statics.
    now apply duration_at_same_statics.
  - rewrite Heq. simpl in HX. rewrite HX.
    rewrite (length_same_statics _ _ Hst).
    destruct (Nat.eqb_spec n' (length (_defs s))) as [Hq|Hq];
      destruct (Z.eqb_spec (nesting (_defs s)) 0); auto; lia.
Qed.

Lemma do_recompute_compiled s :
  no_null_children (_defs s) -> well_nested (_defs s) ->
  compiled_ok (_defs (do_recompute s)) (_events (do_recompute s)) /\
  statics (_defs (do_recompute s)) = statics (_defs s).
Proof.
  intros Hnn Hwn.
  destruct (do_recompute_full s Hnn Hwn) as (defs' & E & le & Hst & Hem & ->).
  cbn [_defs _events]. split; auto.
  eexists E, _. split; [exact Hem|]. split; [|reflexivity].
  rewrite (length_same_statics _ _ Hst). lia.
Qed.

End RecomputeProofs.

(** ** The invariant *)

Section InvProofs.
Context {TM : TimeModel}.

Lemma compiled_ok_nil : compiled_ok [] [].
Proof.
  exists [], 0%nat. split; [apply emitted_ok_nil|]. split; auto.
Qed.

Lemma Inv_new : Inv CMetaInterval_new.
Proof.
  constructor; simpl;
    [ intros k; now destruct k | reflexivity | intros d [] | reflexivity
    | intros q [] | intros e [] | intros a [] | lia
    | intros _; apply compiled_ok_nil ].
Qed.

Lemma Inv_off_of_Inv s : Inv s -> Inv_off s.
Proof.
  intros [H1 H2 H3 H4 H5 H6 H7 H8 H9]. constructor; auto. simpl. lia.
Qed.

Lemma Inv_of_off s :
  Inv_off s -> (_next_event_index s <= length (_events s))%nat -> Inv s.
Proof.
  intros [H1 H2 H3 H4 H5 H6 H7 H8 H9] Hi. constructor; auto.
Qed.

Lemma Inv_set_diag v s : Inv s -> Inv (set_diag v s).
Proof. intros [H1 H2 H3 H4 H5 H6 H7 H8 H9]. constructor; auto. Qed.

Lemma plays_Inv_off P s s' : plays P s s' -> Inv_off s -> Inv_off s'.
Proof.
  intros ((Hdefs & Hev & Hdirty & Hlvl & Hreg & _) & (l & Hq & Hv) & _ & Ha)
         [H1 H2 H3 H4 H5 H6 H7 H8 H9].
  cbn [_defs _events _active _event_queue _current_nesting_level
       _next_event_index _dirty _registered set_next_event_index] in *.
  constructor;
    cbn [_defs _events _active _event_queue _current_nesting_level
         _next_event_index _dirty _registered set_next_event_index];
    rewrite ?Hdefs, ?Hev, ?Hdirty, ?Hlvl, ?Hreg; auto.
  - intros q Hin. rewrite Hq in Hin. apply in_app_or in Hin as [Hin|Hin]; auto.
  - intros a Hin. destruct (Ha a Hin); auto.
Qed.

Lemma plays_Inv P s s' :
  plays P s s' -> Inv s ->
  (_next_event_index s' <= length (_events s'))%nat -> Inv s'.
Proof.
  intros Hp Hi Hidx. apply Inv_of_off; auto.
  eapply plays_Inv_off; eauto. now apply Inv_off_of_Inv.
Qed.

Lemma valid_action_app defs def n :
  valid_action defs n = true -> valid_action (defs ++ [def]) n = true.
Proof.
  unfold valid_action. intros H.
  destruct (nth_error defs n) as [d|] eqn:E; [|discriminate].
  rewrite nth_error_app1 by (apply nth_error_Some; congruence).
  now rewrite E.
Qed.

Lemma well_nested_app defs def :
  well_nested defs -> 0 <= nesting defs + nesting_step def ->
  well_nested (defs ++ [def]).
Proof.
  intros Hw Hd k. rewrite firstn_app, nesting_app.
  destruct (Nat.le_gt_cases k (length defs)) as [Hle|Hgt].
  - replace (k - length defs)%nat with 0%nat by lia. simpl.
    specialize (Hw k). lia.
  - rewrite firstn_all2 by lia.
    destruct (k - length defs)%nat as [|j] eqn:Ej; [lia|]. simpl.
    rewrite firstn_nil. simpl. lia.
Qed.

Lemma child_ids_app l1 l2 : child_ids (l1 ++ l2) = child_ids l1 ++ child_ids l2.
Proof. apply flat_map_app. Qed.

(** Appending one entry. *)
Lemma Inv_append_def s def level registered :
  Inv s ->
  0 <= nesting (_defs s) + nesting_step def ->
  (_type def = DT_c_interval -> _c_interval def <> None) ->
  level = _current_nesting_level s + nesting_step def ->
  registered = _registered s ++ child_ids [def] ->
  Inv (mkMeta (_defs s ++ [def]) (_events s) (_active s) (_event_queue s)
         level (_next_event_index s) (_curr_t s) (_duration s) (_end_time s)
         true (_calls s) registered (_diag s)).
Proof.
  intros [H1 H2 H3 H4 H5 H6 H7 H8 H9] Hn Hc -> ->. constructor; simpl; auto.
  - now apply well_nested_app.
  - rewrite nesting_app. simpl. lia.
  - intros d Hin. apply in_app_or in Hin as [Hin|[<-|[]]]; auto.
  - now rewrite child_ids_app, H4.
  - intros q Hq. apply valid_action_app; auto.
  - intros e He. destruct (H6 e He). split; auto. now apply valid_action_app.
  - discriminate.
Qed.

Lemma push_level_Inv rel_time rel_to s :
  Inv s -> Inv (fst (push_level rel_time rel_to s)).
Proof.
  intros H. unfold push_level. cbn [fst].
  eapply (Inv_append_def s _ _ _ H); try reflexivity.
  - pose proof (nesting_nonneg _ (inv_nested _ H)). simpl.
    unfold nesting_step. simpl. lia.
  - discriminate.
  - simpl. now rewrite app_nil_r.
Qed.

Lemma add_c_interval_Inv c_interval rel_time rel_to s :
  Inv s -> Inv (fst (add_c_interval c_interval rel_time rel_to s)).
Proof.
  intros H. unfold add_c_interval. destruct c_interval as [ci|]; cbn [fst].
  - eapply (Inv_append_def s _ _ _ H); try reflexivity.
    + pose proof (nesting_nonneg _ (inv_nested _ H)).
      unfold nesting_step. simpl. lia.
    + discriminate.
    + unfold nesting_step. simpl. lia.
  - now apply Inv_set_diag.
Qed.

Lemma add_ext_index_Inv ext_index name duration open_ended rel_time rel_to s :
  Inv s ->
  Inv (fst (add_ext_index ext_index name duration open_ended rel_time
                          rel_to s)).
Proof.
  intros H. unfold add_ext_index. cbn [fst].
  eapply (Inv_append_def s _ _ _ H); try reflexivity.
  - pose proof (nesting_nonneg _ (inv_nested _ H)).
    unfold nesting_step. simpl. lia.
  - discriminate.
  - unfold nesting_step. simpl. lia.
  - simpl. now rewrite app_nil_r.
Qed.

Lemma pop_level_Inv s : Inv s -> Inv (fst (pop_level s)).
Proof.
  intros H. unfold pop_level.
  destruct (Z.ltb_spec 0 (_current_nesting_level s)) as [Hlt|Hge]; cbn [fst].
  - eapply (Inv_append_def s _ _ _ H); try reflexivity.
    + rewrite (inv_level _ H) in Hlt. unfold nesting_step. simpl. lia.
    + discriminate.
    + simpl. now rewrite app_nil_r.
  - now apply Inv_set_diag.
Qed.

Lemma clear_parents_ok defs s :
  _registered s = child_ids defs ->
  clear_parents defs s = (set_registered [] s, true).
Proof.
  revert s. induction defs as [|d defs IH]; intros s Hr; simpl in *.
  - rewrite <- Hr. now destruct s.
  - destruct (_c_interval d) as [ci|]; simpl in Hr; auto.
    rewrite Hr. cbn [existsb erase_first]. rewrite !Nat.eqb_refl.
    cbn [orb]. rewrite IH; reflexivity.
Qed.

Lemma clear_intervals_Inv s : Inv s -> Inv (clear_intervals s).
Proof.
  intros H. unfold clear_intervals.
  destruct (_event_queue s) eqn:Eq; [|now apply Inv_set_diag].
  rewrite clear_parents_ok by (apply (inv_registered _ H)).
  cbv beta iota zeta.
  constructor; simpl; rewrite ?Eq;
    [ intros k; now destruct k | reflexivity | intros d [] | reflexivity
    | intros q [] | intros e [] | intros a [] | lia
    | intros _; apply compiled_ok_nil ].
Qed.

Lemma do_recompute_Inv_off s : Inv_off s -> Inv_off (do_recompute s).
Proof.
  intros [H1 H2 H3 H4 H5 H6 H7 H8 H9].
  cbn [_defs _events _active _event_queue _current_nesting_level
       _next_event_index _dirty _registered set_next_event_index] in *.
  pose proof (do_recompute_compiled s H3 H1) as [Hc Hst].
  destruct (do_recompute_full s H3 H1) as (defs' & E & le & _ & _ & Heq).
  rewrite Heq in *. cbn [_defs _events] in *.
  constructor;
    cbn [_defs _events _active _event_queue _current_nesting_level
         _next_event_index _dirty _registered set_next_event_index]; auto.
  - eapply well_nested_same_statics; eauto.
  - now rewrite (nesting_same_statics _ _ Hst).
  - eapply no_null_children_statics; eauto.
  - now rewrite (child_ids_same_statics _ _ Hst).
  - intros q Hq. rewrite (valid_action_same_statics _ _ _ Hst). auto.
  - intros e He. eapply compiled_events_valid; eauto.
  - intros a [].
  - lia.
Qed.

Lemma recompute_Inv_off s : Inv_off s -> Inv_off (recompute s).
Proof.
  intros H. unfold recompute.
  destruct (_dirty s); auto using do_recompute_Inv_off.
Qed.

End InvProofs.

Section ReachableProofs.
Context {TM : TimeModel}.

Lemma Inv_set_curr_t v s : Inv s -> Inv (set_curr_t v s).
Proof. intros [H1 H2 H3 H4 H5 H6 H7 H8 H9]. constructor; auto. Qed.

Lemma Inv_reset s k :
  Inv_off s -> (k <= length (_events s))%nat ->
  Inv (set_active [] (set_next_event_index k s)).
Proof.
  intros [H1 H2 H3 H4 H5 H6 H7 H8 H9] Hk. constructor; auto.
  intros a [].
Qed.

Lemma finish_events_forward_Inv now new_active s :
  Inv s -> Inv (finish_events_forward now new_active s).
Proof.
  intros H.
  pose proof (finish_events_forward_cursor now new_active s) as (Hi & He & _).
  eapply (plays_Inv any_dispatch); eauto.
  - apply finish_events_forward_plays. intros; split; intros; exact I.
  - rewrite Hi, He. apply (inv_index _ H).
Qed.

Lemma finish_events_reverse_Inv now new_active s :
  Inv s -> Inv (finish_events_reverse now new_active s).
Proof.
  intros H.
  pose proof (finish_events_reverse_cursor now new_active s) as (Hi & He & _).
  eapply (plays_Inv any_dispatch); eauto.
  - apply finish_events_reverse_plays. intros; split; intros; exact I.
  - rewrite Hi, He. apply (inv_index _ H).
Qed.

Lemma scan_forward_Inv cond is_initial new_active s :
  Inv s ->
  Inv (fst (scan_forward cond is_initial (events_ahead s) new_active s)).
Proof.
  intros H.
  pose proof (scan_forward_plays cond is_initial (events_ahead s)
                new_active s) as Hp.
  destruct (scan_forward cond is_initial (events_ahead s) new_active s)
    as [s1 na] eqn:E.
  apply scan_forward_cursor in E; [|reflexivity].
  destruct E as (done & rest' & Hsplit & _ & _ & Hev & Hidx & _).
  cbn [fst] in *. eapply plays_Inv; eauto.
  rewrite Hidx, Hev.
  assert (length (events_ahead s)
          = length (_events s) - _next_event_index s)%nat
    by (unfold events_ahead; apply length_skipn).
  rewrite Hsplit, length_app in H0. pose proof (inv_index _ H). lia.
Qed.

Lemma scan_reverse_Inv cond is_initial new_active s :
  Inv s ->
  Inv (fst (scan_reverse cond is_initial (events_behind s) new_active s)).
Proof.
  intros H.
  pose proof (scan_reverse_plays cond is_initial (events_behind s)
                new_active s) as Hp.
  destruct (scan_reverse cond is_initial (events_behind s) new_active s)
    as [s1 na] eqn:E.
  apply scan_reverse_cursor in E;
    [|apply (inv_index _ H)|reflexivity].
  destruct E as (done & rest' & Hsplit & _ & _ & Hev & Hidx & _).
  cbn [fst] in *. eapply plays_Inv; eauto.
  rewrite Hev. pose proof (inv_index _ H). lia.
Qed.

Lemma instant_loop_Inv event_type events s :
  Inv s -> Inv (instant_loop event_type events s).
Proof.
  intros H.
  pose proof (instant_loop_cursor event_type events s) as (Hi & He & _).
  eapply (plays_Inv any_dispatch); eauto using instant_loop_plays.
  rewrite Hi, He. apply (inv_index _ H).
Qed.

Lemma Inv_set_next_event_index k s :
  Inv s -> (k <= length (_events s))%nat -> Inv (set_next_event_index k s).
Proof. intros [H1 H2 H3 H4 H5 H6 H7 H8 H9] Hk. constructor; auto. Qed.

Lemma initialize_Inv t s : Inv s -> Inv (initialize t s).
Proof.
  intros H. unfold initialize.
  assert (H2 : Inv (set_active [] (set_next_event_index 0 (recompute s)))).
  { apply Inv_reset; [|lia]. now apply recompute_Inv_off, Inv_off_of_Inv. }
  pose proof (scan_forward_Inv (fun e => ev_time e <=? double_to_int_time t)
                true [] _ H2) as H3.
  destruct (scan_forward _ _ _ _ _) as [s3 na].
  apply Inv_set_curr_t. now apply finish_events_forward_Inv.
Qed.

Lemma instant_Inv s : Inv s -> Inv (instant s).
Proof.
  intros H. unfold instant.
  assert (H2 : Inv (set_active [] (set_next_event_index 0 (recompute s)))).
  { apply Inv_reset; [|lia]. now apply recompute_Inv_off, Inv_off_of_Inv. }
  apply Inv_set_curr_t.
  pose proof (instant_loop_cursor ET_instant (_events (set_active [] (recompute s)))
                (set_active [] (recompute s))) as (_ & He & _).
  eapply Inv_of_off; [|cbn; lia].
  eapply plays_Inv_off;
    [eapply plays_trans;
     [apply (instant_loop_plays ET_instant
               (_events (set_active [] (recompute s))))
     |apply plays_set_next_event_index]|].
  eapply plays_Inv_off; [apply (plays_set_active any_dispatch [])|].
  - intros a [].
  - now apply recompute_Inv_off, Inv_off_of_Inv.
Qed.

Lemma step_Inv t s : Inv s -> Inv (step t s).
Proof.
  intros H. unfold step. apply Inv_set_curr_t.
  destruct (match nth_error (_events s) (_next_event_index s) with
            | Some event => ev_time event <=? double_to_int_time t
            | None => false
            end).
  - pose proof (scan_forward_Inv (fun e => ev_time e <=? double_to_int_time t)
                  false [] _ H) as H3.
    destruct (scan_forward _ _ _ _ _) as [s3 na].
    now apply finish_events_forward_Inv.
  - pose proof (scan_reverse_Inv (fun e => double_to_int_time t <? ev_time e)
                  false [] _ H) as H3.
    destruct (scan_reverse _ _ _ _ _) as [s3 na].
    now apply finish_events_reverse_Inv.
Qed.

Lemma finalize_Inv s : Inv s -> Inv (finalize s).
Proof.
  intros H. unfold finalize.
  pose proof (scan_forward_Inv (fun _ => true) false [] _ H) as H3.
  destruct (scan_forward _ _ _ _ _) as [s3 na].
  now apply finish_events_forward_Inv, Inv_set_curr_t.
Qed.

Lemma reverse_initialize_Inv t s : Inv s -> Inv (reverse_initialize t s).
Proof.
  intros H. unfold reverse_initialize.
  assert (H2 : Inv (set_active []
                      (set_next_event_index (length (_events (recompute s)))
                         (recompute s)))).
  { apply Inv_reset; [|lia]. now apply recompute_Inv_off, Inv_off_of_Inv. }
  pose proof (scan_reverse_Inv (fun e => double_to_int_time t <? ev_time e)
                true [] _ H2) as H3.
  destruct (scan_reverse _ _ _ _ _) as [s3 na].
  apply Inv_set_curr_t. now apply finish_events_reverse_Inv.
Qed.

Lemma reverse_instant_Inv s : Inv s -> Inv (reverse_instant s).
Proof.
  intros H. unfold reverse_instant.
  assert (H2 : Inv (set_active [] (set_next_event_index 0 (recompute s)))).
  { apply Inv_reset; [|lia]. now apply recompute_Inv_off, Inv_off_of_Inv. }
  apply Inv_set_curr_t.
  eapply Inv_of_off; [|cbn; lia].
  eapply plays_Inv_off;
    [eapply plays_trans;
     [apply (instant_loop_plays ET_reverse_instant
               (rev (_events (set_active [] (recompute s)))))
     |apply plays_set_next_event_index]|].
  eapply plays_Inv_off; [apply (plays_set_active any_dispatch [])|].
  - intros a [].
  - now apply recompute_Inv_off, Inv_off_of_Inv.
Qed.

Lemma reverse_finalize_Inv s : Inv s -> Inv (reverse_finalize s).
Proof.
  intros H. unfold reverse_finalize.
  pose proof (scan_reverse_Inv (fun _ => true) false [] _ H) as H3.
  destruct (scan_reverse _ _ _ _ _) as [s3 na].
  now apply Inv_set_curr_t, finish_events_reverse_Inv.
Qed.

(** *** Servicing the queue *)

Lemma native_entry_call defs q :
  no_null_children defs -> native_entry defs q = true ->
  exists def ci,
    nth_error defs (q_n q) = Some def /\ _type def = DT_c_interval /\
    _c_interval def = Some ci /\
    entry_call defs q =
    [mkCall (q_n q) ci (int_to_double_time (q_time q)) (q_event_type q)].
Proof.
  intros Hnn. unfold native_entry, entry_call.
  destruct (nth_error defs (q_n q)) as [def|] eqn:E; [|discriminate].
  intros Hty. assert (_type def = DT_c_interval)
    by (destruct (_type def); auto; discriminate).
  destruct (_c_interval def) as [ci|] eqn:Eci.
  - exists def, ci. auto.
  - exfalso. apply (Hnn def); auto. eapply nth_error_In; eauto.
Qed.

Lemma service_loop_spec natives rest s :
  no_null_children (_defs s) ->
  _event_queue s = natives ++ rest ->
  forallb (native_entry (_defs s)) natives = true ->
  match rest with
  | [] => True
  | q :: _ => external_entry (_defs s) q = true
  end ->
  service_loop (natives ++ rest) s =
  (set_event_queue rest
     (set_calls (_calls s ++ flat_map (entry_call (_defs s)) natives) s),
   match rest with [] => false | _ :: _ => true end).
Proof.
  intros Hnn. revert s Hnn.
  induction natives as [|q natives IH]; intros s Hnn Hq Hall Hrest.
  - simpl in *. rewrite app_nil_r.
    assert (Hs : set_event_queue rest (set_calls (_calls s) s) = s)
      by (rewrite <- Hq; now destruct s).
    rewrite Hs. destruct rest as [|q rest]; simpl; auto.
    unfold external_entry in Hrest.
    destruct (nth_error (_defs s) (q_n q)) as [def|]; [|discriminate].
    destruct (_type def); try discriminate. reflexivity.
  - simpl in Hall. apply andb_prop in Hall as [Hq1 Hall].
    destruct (native_entry_call _ _ Hnn Hq1) as (def & ci & En & Ety & Eci & Ec).
    cbn [app service_loop]. rewrite En, Ety, Eci.
    rewrite IH; auto.
    cbn [flat_map]. rewrite Ec. cbn [_calls _defs set_event_queue set_t
                                      set_calls].
    rewrite <- app_assoc. reflexivity.
Qed.

Lemma queue_split defs (queue : list EventQueueEntry) :
  (forall q, In q queue -> valid_action defs (q_n q) = true) ->
  exists natives rest,
    queue = natives ++ rest /\
    forallb (native_entry defs) natives = true /\
    match rest with
    | [] => True
    | q :: _ => external_entry defs q = true
    end.
Proof.
  induction queue as [|q queue IH]; intros Hv.
  - exists [], []. auto.
  - destruct (native_entry defs q) eqn:En.
    + destruct IH as (natives & rest & -> & Hall & Hrest).
      { intros; apply Hv; simpl; auto. }
      exists (q :: natives), rest. simpl. rewrite En. auto.
    + exists [], (q :: queue). repeat split; auto.
      specialize (Hv q (or_introl eq_refl)).
      unfold valid_action, is_action, native_entry, external_entry in *.
      destruct (nth_error defs (q_n q)) as [def|]; [|discriminate].
      destruct (_type def); try discriminate; auto.
Qed.

Lemma service_event_queue_Inv s : Inv s -> Inv (fst (service_event_queue s)).
Proof.
  intros H. unfold service_event_queue.
  destruct (queue_split _ _ (inv_queue _ H))
    as (natives & rest & Hq & Hall & Hrest).
  rewrite Hq, (service_loop_spec natives rest s (inv_children _ H) Hq Hall
                 Hrest).
  destruct H as [H1 H2 H3 H4 H5 H6 H7 H8 H9]. constructor; auto.
  cbn. intros q Hin. apply H5. rewrite Hq. apply in_or_app. auto.
Qed.

Lemma pop_event_Inv s : Inv s -> Inv (pop_event s).
Proof.
  intros H. unfold pop_event.
  destruct (_event_queue s) as [|q rest] eqn:Eq; auto.
  destruct (nth_error (_defs s) (q_n q)) as [def|]; auto.
  destruct (_type def); auto.
  destruct H as [H1 H2 H3 H4 H5 H6 H7 H8 H9]. constructor; auto.
  cbn. intros x Hin. apply H5. rewrite Eq. simpl. auto.
Qed.

End ReachableProofs.

(** * The claims *)

Section AppendClaims.
Context {TM : TimeModel}.

(** C9.  Each violation of the caller's contract is refused on the spot:
    [add_c_interval] with a null child and [pop_level] with no open group
    return the index -1, [clear_intervals] with a non-empty queue returns,
    and in all three the object is as before but for the report of the
    failed precondition; the definition list and the nesting level are
    unchanged. *)
Theorem caller_contract_violations_rejected
  (s1 s2 s3 : CMetaInterval) (rel_time : double) (rel_to : RelativeStart) :
  _current_nesting_level s2 <= 0 ->
  _event_queue s3 <> [] ->
  (rejected s1 (fst (add_c_interval None rel_time rel_to s1)) /\
   snd (add_c_interval None rel_time rel_to s1) = -1 /\
   _defs (fst (add_c_interval None rel_time rel_to s1)) = _defs s1) /\
  (rejected s2 (fst (pop_level s2)) /\
   snd (pop_level s2) = -1 /\
   _defs (fst (pop_level s2)) = _defs s2 /\
   _current_nesting_level (fst (pop_level s2)) = _current_nesting_level s2) /\
  (rejected s3 (clear_intervals s3) /\
   _defs (clear_intervals s3) = _defs s3 /\
   _events (clear_intervals s3) = _events s3 /\
   _event_queue (clear_intervals s3) = _event_queue s3).
Proof.
  intros Hlevel Hqueue. split; [|split].
  - simpl. repeat split. eexists. reflexivity.
  - unfold pop_level.
    destruct (Z.ltb_spec 0 (_current_nesting_level s2)); [lia|].
    simpl. repeat split. eexists. reflexivity.
  - unfold clear_intervals. destruct (_event_queue s3) eqn:E; [congruence|].
    simpl. repeat split; auto. eexists. reflexivity.
Qed.

End AppendClaims.

Section QueueClaims.
Context {TM : TimeModel}.

Lemma do_recompute_event_queue s :
  _event_queue (do_recompute s) = _event_queue s.
Proof.
  destruct (do_recompute_cases s) as [[_ ->]|(s1 & n' & le & _ & _ & ->)];
    reflexivity.
Qed.

Lemma recompute_event_queue s : _event_queue (recompute s) = _event_queue s.
Proof.
  unfold recompute. destruct (_dirty s); auto using do_recompute_event_queue.
Qed.

Lemma do_recompute_calls s : _calls (do_recompute s) = _calls s.
Proof.
  destruct (do_recompute_cases s) as [[_ ->]|(s1 & n' & le & _ & _ & ->)];
    reflexivity.
Qed.

Lemma recompute_calls s : _calls (recompute s) = _calls s.
Proof.
  unfold recompute. destruct (_dirty s); auto using do_recompute_calls.
Qed.

Lemma recompute_dispatched s : dispatched (recompute s) = dispatched s.
Proof.
  unfold dispatched. now rewrite recompute_calls, recompute_event_queue.
Qed.

Lemma plays_queue_extends P s s' : plays P s s' -> queue_extends s s'.
Proof. intros (_ & (l & Hq & _) & _). now exists l. Qed.

Lemma plays_reset P k s :
  plays P s (set_active [] (set_next_event_index k s)).
Proof.
  eapply plays_trans; [apply plays_set_next_event_index|].
  apply plays_set_active. intros a [].
Qed.

Lemma finish_events_forward_plays_any now new_active s :
  plays any_dispatch s (finish_events_forward now new_active s).
Proof.
  apply finish_events_forward_plays. intros; split; intros; exact I.
Qed.

Lemma finish_events_reverse_plays_any now new_active s :
  plays any_dispatch s (finish_events_reverse now new_active s).
Proof.
  apply finish_events_reverse_plays. intros; split; intros; exact I.
Qed.

Lemma initialize_plays t s : plays any_dispatch (recompute s) (initialize t s).
Proof.
  unfold initialize.
  eapply plays_trans; [apply (plays_reset _ 0%nat)|].
  pose proof (scan_forward_plays
                (fun e => ev_time e <=? double_to_int_time t) true
                (events_ahead (set_active []
                                 (set_next_event_index 0 (recompute s))))
                [] (set_active [] (set_next_event_index 0 (recompute s))))
    as Hp.
  destruct (scan_forward _ _ _ _ _) as [s3 na]. cbn [fst] in Hp.
  eapply plays_trans; [exact Hp|].
  eapply plays_trans; [apply finish_events_forward_plays_any|].
  apply plays_set_curr_t.
Qed.

Lemma reverse_initialize_plays t s :
  plays any_dispatch (recompute s) (reverse_initialize t s).
Proof.
  unfold reverse_initialize.
  eapply plays_trans; [apply (plays_reset _ (length (_events (recompute s))))|].
  pose proof (scan_reverse_plays
                (fun e => double_to_int_time t <? ev_time e) true
                (events_behind
                   (set_active []
                      (set_next_event_index (length (_events (recompute s)))
                         (recompute s))))
                [] (set_active []
                      (set_next_event_index (length (_events (recompute s)))
                         (recompute s))))
    as Hp.
  destruct (scan_reverse _ _ _ _ _) as [s3 na]. cbn [fst] in Hp.
  eapply plays_trans; [exact Hp|].
  eapply plays_trans; [apply finish_events_reverse_plays_any|].
  apply plays_set_curr_t.
Qed.

Lemma step_plays t s : plays any_dispatch s (step t s).
Proof.
  unfold step.
  destruct (match nth_error (_events s) (_next_event_index s) with
            | Some event => ev_time event <=? double_to_int_time t
            | None => false
            end).
  - pose proof (scan_forward_plays
                  (fun e => ev_time e <=? double_to_int_time t) false
                  (events_ahead s) [] s) as Hp.
    destruct (scan_forward _ _ _ _ _) as [s3 na]. cbn [fst] in Hp.
    eapply plays_trans; [exact Hp|].
    eapply plays_trans; [apply finish_events_forward_plays_any|].
    apply plays_set_curr_t.
  - pose proof (scan_reverse_plays
                  (fun e => double_to_int_time t <? ev_time e) false
                  (events_behind s) [] s) as Hp.
    destruct (scan_reverse _ _ _ _ _) as [s3 na]. cbn [fst] in Hp.
    eapply plays_trans; [exact Hp|].
    eapply plays_trans; [apply finish_events_reverse_plays_any|].
    apply plays_set_curr_t.
Qed.

Lemma finalize_plays s : plays any_dispatch s (finalize s).
Proof.
  unfold finalize.
  pose proof (scan_forward_plays (fun _ => true) false (events_ahead s) [] s)
    as Hp.
  destruct (scan_forward _ _ _ _ _) as [s3 na]. cbn [fst] in Hp.
  eapply plays_trans; [exact Hp|].
  eapply plays_trans; [apply plays_set_curr_t|].
  apply finish_events_forward_plays_any.
Qed.

Lemma reverse_finalize_plays s : plays any_dispatch s (reverse_finalize s).
Proof.
  unfold reverse_finalize.
  pose proof (scan_reverse_plays (fun _ => true) false (events_behind s) [] s)
    as Hp.
  destruct (scan_reverse _ _ _ _ _) as [s3 na]. cbn [fst] in Hp.
  eapply plays_trans; [exact Hp|].
  eapply plays_trans; [apply finish_events_reverse_plays_any|].
  apply plays_set_curr_t.
Qed.

Lemma instant_plays s : plays any_dispatch (recompute s) (instant s).
Proof.
  unfold instant.
  eapply plays_trans; [apply (plays_set_active _ []); intros a []|].
  eapply plays_trans; [apply instant_loop_plays|].
  eapply plays_trans; [apply plays_set_next_event_index|].
  apply plays_set_curr_t.
Qed.

Lemma reverse_instant_plays s :
  plays any_dispatch (recompute s) (reverse_instant s).
Proof.
  unfold reverse_instant.
  eapply plays_trans; [apply (plays_set_active _ []); intros a []|].
  eapply plays_trans; [apply instant_loop_plays|].
  eapply plays_trans; [apply plays_set_next_event_index|].
  apply plays_set_curr_t.
Qed.

Lemma queue_extends_recompute s s' :
  queue_extends (recompute s) s' -> queue_extends s s'.
Proof.
  unfold queue_extends. now rewrite recompute_event_queue.
Qed.

(** C10.  No playback method removes an entry from the deferred queue:
    after each of them the queue is the queue before the call with zero
    or more entries appended. *)
Theorem playback_keeps_queue_entries (s : CMetaInterval) (t : double) :
  queue_extends s (initialize t s) /\
  queue_extends s (reverse_initialize t s) /\
  queue_extends s (step t s) /\
  queue_extends s (finalize s) /\
  queue_extends s (instant s) /\
  queue_extends s (reverse_instant s) /\
  queue_extends s (reverse_finalize s).
Proof.
  split; [|split; [|split; [|split; [|split; [|split]]]]].
  - apply queue_extends_recompute.
    eapply plays_queue_extends, initialize_plays.
  - apply queue_extends_recompute.
    eapply plays_queue_extends, reverse_initialize_plays.
  - eapply plays_queue_extends, step_plays.
  - eapply plays_queue_extends, finalize_plays.
  - apply queue_extends_recompute.
    eapply plays_queue_extends, instant_plays.
  - apply queue_extends_recompute.
    eapply plays_queue_extends, reverse_instant_plays.
  - eapply plays_queue_extends, reverse_finalize_plays.
Qed.

End QueueClaims.

(** * The states the methods lead to *)

Section GroundFacts.
Context {TM : TimeModel}.

Lemma service_loop_frame queue s :
  _defs (fst (service_loop queue s)) = _defs s /\
  _events (fst (service_loop queue s)) = _events s /\
  _active (fst (service_loop queue s)) = _active s /\
  _next_event_index (fst (service_loop queue s)) = _next_event_index s.
Proof.
  revert s. induction queue as [|q queue IH]; intros s; simpl; auto.
  destruct (nth_error (_defs s) (q_n q)) as [def|]; simpl; auto.
  destruct (_type def); simpl; auto.
  destruct (_c_interval def); simpl; auto.
  destruct (IH (set_event_queue queue
                  (set_t (q_n q) c (int_to_double_time (q_time q))
                     (q_event_type q) s))) as (-> & -> & -> & ->).
  auto.
Qed.

Lemma pop_event_frame s :
  _defs (pop_event s) = _defs s /\ _events (pop_event s) = _events s /\
  _active (pop_event s) = _active s /\
  _next_event_index (pop_event s) = _next_event_index s.
Proof. unfold pop_event. destruct_matches; auto. Qed.

Lemma compiled_prefix_nil defs : compiled_prefix defs [].
Proof. exists [], (statics defs). split; [apply compiled_ok_nil|reflexivity]. Qed.

Lemma compiled_prefix_app defs def events :
  compiled_prefix defs events -> compiled_prefix (defs ++ [def]) events.
Proof.
  intros (defs0 & rest & Hc & Hs). exists defs0, (rest ++ statics [def]).
  split; auto. now rewrite statics_app, Hs, app_assoc.
Qed.

Lemma compiled_prefix_same_statics defs defs' events :
  statics defs' = statics defs ->
  compiled_prefix defs events -> compiled_prefix defs' events.
Proof.
  intros He (defs0 & rest & Hc & Hs). exists defs0, rest. split; auto.
  congruence.
Qed.

Lemma recompute_compiled_prefix s :
  Inv s -> compiled_prefix (_defs s) (_events s) ->
  compiled_prefix (_defs (recompute s)) (_events (recompute s)).
Proof.
  intros HI Hp. unfold recompute. destruct (_dirty s); auto.
  destruct (do_recompute_compiled s (inv_children s HI) (inv_nested s HI))
    as [Hc _].
  exists (_defs (do_recompute s)), []. split; auto. now rewrite app_nil_r.
Qed.

Lemma plays_compiled_prefix P s s' :
  plays P s s' -> compiled_prefix (_defs s) (_events s) ->
  compiled_prefix (_defs s') (_events s').
Proof. intros ((-> & -> & _) & _). auto. Qed.

Lemma clear_intervals_events s :
  _events (clear_intervals s) = [] \/
  (_events (clear_intervals s) = _events s /\
   _defs (clear_intervals s) = _defs s).
Proof.
  unfold clear_intervals. destruct (_event_queue s); [|right; auto].
  left. destruct (clear_parents _ _) as [s1 ok] eqn:E.
  assert (H : forall defs s0 s2 b,
             clear_parents defs s0 = (s2, b) -> _events s2 = _events s0).
  { induction defs as [|d defs IH]; intros s0 s2 b; simpl.
    - now intros [= <- <-].
    - destruct (_c_interval d); [|apply IH].
      destruct (existsb _ _).
      + intros H. now apply IH in H.
      + now intros [= <- <-]. }
  apply H in E. destruct ok; cbn; rewrite E; reflexivity.
Qed.

(** *** The size of a timeline *)

Lemma events_of_length q i b t :
  length (events_of q i b t)
  = match q with
    | None => 0%nat
    | Some q => if q =? 0 then 1%nat else 2%nat
    end.
Proof. destruct q as [q|]; simpl; auto. now destruct (q =? 0). Qed.

Lemma event_count_app l1 l2 :
  event_count (l1 ++ l2) = (event_count l1 + event_count l2)%nat.
Proof. unfold event_count. now rewrite map_app, list_sum_app. Qed.

Lemma event_count_statics defs : event_count (statics defs) = event_count defs.
Proof.
  unfold event_count, statics. now rewrite map_map.
Qed.

Lemma event_count_prefix defs defs0 rest :
  statics defs = statics defs0 ++ rest ->
  (event_count defs0 <= event_count defs)%nat.
Proof.
  intros H. rewrite <- (event_count_statics defs), H, event_count_app,
    event_count_statics. lia.
Qed.

(** The events of the entries below [S n] are those of the entries below
    [n] and those of entry [n]. *)
Lemma events_below_S n (l : list PlaybackEvent) :
  length (filter (fun e => (ev_n e <? S n)%nat) l)
  = (length (filter (fun e => (ev_n e <? n)%nat) l)
     + length (events_at n l))%nat.
Proof.
  unfold events_at. induction l as [|e l IH]; simpl; auto.
  destruct (Nat.ltb_spec (ev_n e) (S n)), (Nat.ltb_spec (ev_n e) n),
    (Nat.eqb_spec (ev_n e) n); simpl; lia.
Qed.

Lemma emitted_below defs n' X n :
  emitted_ok defs 0 0 n' X -> (n <= n')%nat ->
  length (filter (fun e => (ev_n e <? n)%nat) X)
  = event_count (firstn n defs).
Proof.
  intros (_ & _ & Hat & _). induction n as [|n IH]; intros Hn.
  - simpl. rewrite (proj2 (filter_nil_iff _ X)); auto.
  - rewrite events_below_S, IH by lia.
    destruct (Hat n) as (b & t & ->); [lia|].
    rewrite events_of_length. unfold duration_at.
    destruct (nth_error defs n) as [d|] eqn:En.
    + rewrite (firstn_S_nth_error _ _ _ En), event_count_app.
      unfold event_count at 3, events_per_entry. simpl. lia.
    + apply nth_error_None in En.
      rewrite !firstn_all2 by lia. lia.
Qed.

Lemma compiled_length defs events :
  compiled_ok defs events -> length events = event_count defs.
Proof.
  intros (E & n' & Hem & Hn & ->). rewrite stable_sort_length.
  rewrite <- (firstn_all2 defs Hn).
  rewrite <- (emitted_below defs n' E n' Hem (Nat.le_refl _)).
  f_equal. symmetry. apply forallb_filter_id.
  apply forallb_forall. intros e He.
  destruct Hem as (Hin & _). apply Nat.ltb_lt. now apply Hin.
Qed.

(** A compilation does not shorten the timeline of an object in use. *)
Lemma recompute_length s :
  Inv s -> compiled_prefix (_defs s) (_events s) ->
  (length (_events s) <= length (_events (recompute s)))%nat.
Proof.
  intros HI (defs0 & rest & Hc & Hst). unfold recompute.
  destruct (_dirty s); auto.
  destruct (do_recompute_compiled s (inv_children s HI) (inv_nested s HI))
    as [Hc' Hst'].
  rewrite (compiled_length _ _ Hc), (compiled_length _ _ Hc').
  apply (event_count_prefix _ _ rest). congruence.
Qed.

(** [write] keeps the invariant: the cursor is still inside the
    timeline. *)
Lemma write_Inv s :
  Inv s -> compiled_prefix (_defs s) (_events s) -> Inv (write s).
Proof.
  intros HI Hc. unfold write. apply Inv_of_off.
  - apply recompute_Inv_off, Inv_off_of_Inv, HI.
  - pose proof (recompute_length s HI Hc) as Hlen.
    pose proof (inv_index s HI) as Hi.
    replace (_next_event_index (recompute s)) with (_next_event_index s);
      [lia|].
    unfold recompute. destruct (_dirty s); auto.
    destruct (do_recompute_cases s) as [[_ ->]|(s1 & n' & le & _ & _ & ->)];
      reflexivity.
Qed.

(** Every state the methods lead to satisfies the invariant, and what it
    holds as its timeline was compiled from the definitions it had at the
    time, which are still the first entries of its definition list. *)
Lemma reachable_ground s :
  reachable s -> Inv s /\ compiled_prefix (_defs s) (_events s).
Proof.
  induction 1 as [|s rel_time rel_to Hr [HI IH]
                  |s c_interval rel_time rel_to Hr [HI IH]
                  |s ext_index name duration open_ended rel_time rel_to Hr
                     [HI IH]
                  |s Hr [HI IH]|s Hr [HI IH]|s t Hr [HI IH]|s Hr [HI IH]
                  |s t Hr [HI IH]|s Hr [HI IH]|s t Hr [HI IH]|s Hr [HI IH]
                  |s Hr [HI IH]|s Hr [HI IH]|s Hr [HI IH]|s Hr [HI IH]].
  - split; [apply Inv_new|apply compiled_prefix_nil].
  - split; [now apply push_level_Inv|]. apply compiled_prefix_app. exact IH.
  - split; [now apply add_c_interval_Inv|].
    destruct c_interval; cbn; [apply compiled_prefix_app|]; exact IH.
  - split; [now apply add_ext_index_Inv|].
    apply compiled_prefix_app. exact IH.
  - split; [now apply pop_level_Inv|].
    unfold pop_level. destruct (0 <? _current_nesting_level s); cbn;
      [apply compiled_prefix_app|]; exact IH.
  - split; [now apply clear_intervals_Inv|].
    destruct (clear_intervals_events s) as [->|[-> ->]]; auto.
    apply compiled_prefix_nil.
  - split; [now apply initialize_Inv|].
    eapply plays_compiled_prefix; [apply initialize_plays|].
    now apply recompute_compiled_prefix.
  - split; [now apply instant_Inv|].
    eapply plays_compiled_prefix; [apply instant_plays|].
    now apply recompute_compiled_prefix.
  - split; [now apply step_Inv|].
    eapply plays_compiled_prefix; [apply step_plays|]. exact IH.
  - split; [now apply finalize_Inv|].
    eapply plays_compiled_prefix; [apply finalize_plays|]. exact IH.
  - split; [now apply reverse_initialize_Inv|].
    eapply plays_compiled_prefix; [apply reverse_initialize_plays|].
    now apply recompute_compiled_prefix.
  - split; [now apply reverse_instant_Inv|].
    eapply plays_compiled_prefix; [apply reverse_instant_plays|].
    now apply recompute_compiled_prefix.
  - split; [now apply reverse_finalize_Inv|].
    eapply plays_compiled_prefix; [apply reverse_finalize_plays|]. exact IH.
  - split; [now apply service_event_queue_Inv|].
    unfold service_event_queue.
    destruct (service_loop_frame (_event_queue s) s) as (-> & -> & _).
    exact IH.
  - split; [now apply pop_event_Inv|].
    destruct (pop_event_frame s) as (-> & -> & _). exact IH.
  - split; [now apply write_Inv|].
    now apply recompute_compiled_prefix.
Qed.

Lemma reachable_Inv s : reachable s -> Inv s.
Proof. intros Hr. exact (proj1 (reachable_ground s Hr)). Qed.

Lemma reachable_compiled_prefix s :
  reachable s -> compiled_prefix (_defs s) (_events s).
Proof. intros Hr. exact (proj2 (reachable_ground s Hr)). Qed.

End GroundFacts.

Section BridgeClaims.
Context {TM : TimeModel}.

Lemma entry_calls_dispatch defs natives :
  no_null_children defs ->
  forallb (native_entry defs) natives = true ->
  map call_dispatch (flat_map (entry_call defs) natives)
  = map entry_dispatch natives.
Proof.
  intros Hnn. induction natives as [|q natives IH]; simpl; auto.
  intros H. apply andb_prop in H as [Hq Hall].
  destruct (native_entry_call _ _ Hnn Hq) as (def & ci & _ & _ & _ & ->).
  simpl. now rewrite IH.
Qed.

(** Every queue of a reachable state is a run of native entries followed
    by nothing or by a queue with an external entry at its head. *)
Lemma reachable_queue_split s :
  reachable s ->
  exists natives rest,
    _event_queue s = natives ++ rest /\
    forallb (native_entry (_defs s)) natives = true /\
    match rest with
    | [] => True
    | q :: _ => external_entry (_defs s) q = true
    end.
Proof.
  intros H. apply reachable_Inv in H. apply queue_split, (inv_queue _ H).
Qed.

(** C4.  [service_event_queue] pops the native entries at the head of the
    queue and calls each of them, in the order of the queue; it stops in
    front of the first external entry, which stays at the head, and
    returns true; with no external entry the queue is drained and it
    returns false. *)
Theorem service_event_queue_head_natives
  (s : CMetaInterval) (natives rest : list EventQueueEntry) :
  reachable s ->
  _event_queue s = natives ++ rest ->
  forallb (native_entry (_defs s)) natives = true ->
  match rest with
  | [] => True
  | q :: _ => external_entry (_defs s) q = true
  end ->
  service_event_queue s =
  (set_event_queue rest
     (set_calls (_calls s ++ flat_map (entry_call (_defs s)) natives) s),
   match rest with [] => false | _ :: _ => true end) /\
  map call_dispatch (flat_map (entry_call (_defs s)) natives)
  = map entry_dispatch natives.
Proof.
  intros Hr Hq Hall Hrest. apply reachable_Inv in Hr.
  pose proof (inv_children _ Hr) as Hnn. split.
  - unfold service_event_queue. rewrite Hq.
    now apply service_loop_spec.
  - now apply entry_calls_dispatch.
Qed.

(** C5.  A callback for a native action that is not suppressed is made at
    once when the queue is empty, and nothing is queued; otherwise its entry
    goes to the back of the queue.  Behind an external entry it is not
    serviced until the host has taken that entry, and then it is called
    after the native entries that were ahead of it. *)
Theorem enqueue_event_native
  (s : CMetaInterval) (n : nat) (def : IntervalDef) (ci : CInterval)
  (event_type : EventType) (is_initial : bool) (time : Z) :
  nth_error (_defs s) n = Some def ->
  _type def = DT_c_interval ->
  _c_interval def = Some ci ->
  let s' := enqueue_event n event_type is_initial time s in
  let suppressed :=
    is_initial && is_instant_type event_type && negb (ci_open_ended ci) in
  let call := mkCall n ci (int_to_double_time time) event_type in
  (suppressed = true -> s' = s) /\
  (suppressed = false -> _event_queue s = [] ->
   s' = set_calls (_calls s ++ [call]) s) /\
  (suppressed = false -> _event_queue s <> [] ->
   s' = set_event_queue (_event_queue s ++ [mkEntry n event_type time]) s) /\
  (suppressed = false ->
   forall q rest,
     _event_queue s = q :: rest ->
     external_entry (_defs s) q = true ->
     service_event_queue s' = (s', true) /\
     (no_null_children (_defs s) ->
      forallb (native_entry (_defs s)) rest = true ->
      service_event_queue (pop_event s') =
      (set_event_queue []
         (set_calls
            (_calls s ++ flat_map (entry_call (_defs s)) rest ++ [call]) s),
       false))).
Proof.
  intros En Ety Eci s' suppressed call.
  assert (Hs' : s' = if suppressed then s
                     else if queue_empty s
                          then set_t n ci (int_to_double_time time)
                                 event_type s
                          else push_back_event n event_type time s).
  { unfold s', enqueue_event. now rewrite En, Ety, Eci. }
  split; [|split; [|split]].
  - intros Hsup. now rewrite Hs', Hsup.
  - intros Hsup Hq. rewrite Hs', Hsup. unfold queue_empty. now rewrite Hq.
  - intros Hsup Hq. rewrite Hs', Hsup. unfold queue_empty, push_back_event.
    destruct (_event_queue s); [congruence|reflexivity].
  - intros Hsup q rest Hq Hext.
    assert (Hpush : s' = push_back_event n event_type time s).
    { rewrite Hs', Hsup. unfold queue_empty. now rewrite Hq. }
    assert (Hhead : exists d, nth_error (_defs s) (q_n q) = Some d /\
                              _type d = DT_ext_index).
    { unfold external_entry in Hext.
      destruct (nth_error (_defs s) (q_n q)) as [d|]; [|discriminate].
      exists d. split; auto. destruct (_type d); auto; discriminate. }
    destruct Hhead as (d & Ed & Edty).
    split.
    + rewrite Hpush. unfold service_event_queue, push_back_event.
      cbn [_event_queue set_event_queue]. rewrite Hq. cbn [app service_loop].
      cbn [_defs set_event_queue]. now rewrite Ed, Edty.
    + intros Hnn Hall.
      assert (Hpop : pop_event s' =
                     set_event_queue (rest ++ [mkEntry n event_type time]) s).
      { rewrite Hpush. unfold pop_event, push_back_event.
        cbn [_event_queue set_event_queue _defs]. rewrite Hq.
        cbn [app]. now rewrite Ed, Edty. }
      rewrite Hpop. unfold service_event_queue.
      cbn [_event_queue set_event_queue].
      rewrite <- (app_nil_r (rest ++ [mkEntry n event_type time])).
      rewrite service_loop_spec; auto.
      * cbn [_defs _calls set_event_queue]. rewrite flat_map_app.
        cbn [flat_map]. unfold entry_call at 2. cbn [q_n q_time q_event_type].
        rewrite En, Eci, ?app_nil_r. reflexivity.
      * cbn [_defs set_event_queue]. rewrite forallb_app, Hall. simpl.
        unfold native_entry. cbn [q_n]. now rewrite En, Ety.
Qed.

End BridgeClaims.

Section CompilerClaims.
Context {TM : TimeModel}.


Lemma emitted_same_time D a n n' X x y :
  emitted_ok D a n n' X -> In x X -> In y X ->
  ev_n x = ev_n y -> ev_time x = ev_time y -> ev_addr x = ev_addr y.
Proof.
  intros (Hr & _ & Hi & _) Hx Hy Hn Ht.
  remember (ev_n x) as i eqn:Ei.
  destruct (Hi i) as (b & t & He); [rewrite Ei; apply (Hr x Hx)|].
  assert (Hx' : In x (events_at i X)) by (now apply events_at_In).
  assert (Hy' : In y (events_at i X)) by (now apply events_at_In).
  rewrite He in Hx', Hy'. unfold events_of in Hx', Hy'.
  clear Ei Hn He.
  destruct (duration_at D i) as [q|]; [|destruct Hx'].
  destruct (q =? 0) eqn:Eq0.
  - destruct Hx' as [<-|[]], Hy' as [<-|[]]. reflexivity.
  - apply Z.eqb_neq in Eq0.
    destruct Hx' as [<-|[<-|[]]], Hy' as [<-|[<-|[]]]; simpl in *;
      auto; lia.
Qed.

Lemma emitted_timeline_order D n' X :
  emitted_ok D 0 0 n' X -> StronglySorted timeline_order (stable_sort X).
Proof.
  intros Hem.
  apply StronglySorted_weaken with (P := stable_order emitted_before).
  - intros x y Hx Hy [Hle Heq]. split; auto. intros Ht.
    destruct (Heq Ht) as [Ha Hn]. split; auto.
    destruct (Nat.eq_dec (ev_n x) (ev_n y)) as [E|E]; [|lia].
    apply (proj1 (stable_sort_In _ _)) in Hx.
    apply (proj1 (stable_sort_In _ _)) in Hy.
    pose proof (emitted_same_time _ _ _ _ _ _ _ Hem Hx Hy E Ht). lia.
  - apply stable_sort_sorted, Hem.
Qed.

(** C7.  After compilation the events are in non-decreasing order of time,
    and of two events at the same time the one that comes first was
    emitted first, for an entry declared earlier: the list is the stable
    sort of the emitted list, in which the events stand at their addresses
    in the order of the entries. *)
Theorem compiled_events_stably_sorted (s : CMetaInterval) :
  StronglySorted timeline_order (_events (do_recompute s)) /\
  (forall i j x y,
      (i < j)%nat ->
      nth_error (_events (do_recompute s)) i = Some x ->
      nth_error (_events (do_recompute s)) j = Some y ->
      ev_time x <= ev_time y /\
      (ev_time x = ev_time y ->
       (ev_addr x < ev_addr y)%nat /\ (ev_n x < ev_n y)%nat)) /\
  exists E,
    _events (do_recompute s) = stable_sort E /\
    map ev_addr E = seq 0 (length E) /\
    StronglySorted (fun x y => (ev_n x <= ev_n y)%nat) E.
Proof.
  assert (H : StronglySorted timeline_order (_events (do_recompute s)) /\
              exists E,
                _events (do_recompute s) = stable_sort E /\
                map ev_addr E = seq 0 (length E) /\
                StronglySorted (fun x y => (ev_n x <= ev_n y)%nat) E).
  { destruct (do_recompute_cases s)
      as [[_ ->]|(s1 & n' & le & _ & Hw & ->)].
    - cbn. split; [constructor|]. exists []. repeat split; constructor.
    - destruct Hw as (_ & _ & _ & _ & _ & X & HX & Hem).
      cbn [_events _defs clear_events set_dirty set_active set_events
           app length] in *.
      rewrite HX. split; [eapply emitted_timeline_order; eauto|].
      exists X. split; [reflexivity|]. split; [apply Hem|].
      apply StronglySorted_weaken with (P := emitted_before);
        [|apply Hem].
      intros x y _ _ [_ Hn]. exact Hn. }
  destruct H as [Hs HE]. split; [exact Hs|]. split; [|exact HE].
  intros i j x y Hij Hi Hj.
  exact (StronglySorted_nth _ _ _ _ _ _ Hs Hij Hi Hj).
Qed.

(** C8.  When a group is still open at the end of the definition list the
    compilation completes all the same: the walk runs to the end of the
    list and closes the open groups there, every action has its events in
    the sorted timeline, the duration is stored, and the only report is
    the warning. *)
Theorem unmatched_push_compiles_with_warning (s : CMetaInterval) :
  reachable s ->
  0 < nesting (_defs s) ->
  exists defs' E le,
    (exists s1,
        recompute_level
          (recompute_fuel (clear_events (set_dirty false s))) 0 0
          (clear_events (set_dirty false s))
        = Some (s1,
                (length (_defs s) + Z.to_nat (nesting (_defs s)))%nat, le)) /\
    do_recompute s =
    mkMeta defs' (stable_sort E) [] (_event_queue s)
      (_current_nesting_level s) (_next_event_index s) (_curr_t s)
      (int_to_double_time le) le false (_calls s) (_registered s)
      (_diag s ++ [D_warning pushes_dont_match_pops]) /\
    statics defs' = statics (_defs s) /\
    emitted_ok defs' 0 0
      (length (_defs s) + Z.to_nat (nesting (_defs s))) E /\
    forall i q,
      duration_at (_defs s) i = Some q ->
      exists b t,
        Permutation (events_of (Some q) i b t)
                    (events_at i (stable_sort E)).
Proof.
  intros Hr Hopen. apply reachable_Inv in Hr.
  pose proof (inv_children _ Hr) as Hnn.
  pose proof (inv_nested _ Hr) as Hwn.
  destruct (do_recompute_full s Hnn Hwn) as (defs' & E & le & Hst & Hem & Heq).
  exists defs', E, le.
  destruct (Z.eqb_spec (nesting (_defs s)) 0) as [Hz|_]; [lia|].
  split; [|split; [exact Heq|split; [exact Hst|split; [exact Hem|]]]].
  - destruct (do_recompute_cases s)
      as [[Hnone _]|(s1 & n' & le' & Hrun & Hw & Heq')].
    + exfalso.
      destruct (proj1 (walk_total
                         (recompute_fuel (clear_events (set_dirty false s))))
                  0%nat 0 (clear_events (set_dirty false s))) as [r Hr'];
        [exact Hnn|unfold recompute_fuel; lia|congruence].
    + exists s1. rewrite Hrun.
      pose proof (top_walk_index _ _ _ Hw Hwn) as Hn'.
      cbn [_defs clear_events set_dirty set_active set_events] in Hn'.
      rewrite Heq in Heq'. inversion Heq'; subst.
      repeat f_equal. pose proof (nesting_nonneg _ Hwn). lia.
  - intros i q Hq.
    assert (Hc : compiled_ok defs' (stable_sort E)).
    { exists E, (length (_defs s) + Z.to_nat (nesting (_defs s)))%nat.
      split; [exact Hem|]. split; [|reflexivity].
      rewrite (length_same_statics _ _ Hst). lia. }
    destruct (compiled_events_at _ _ i Hc) as (b & t & Hp).
    rewrite (duration_at_same_statics _ _ i Hst), Hq in Hp. eauto.
Qed.

End CompilerClaims.

Section InstantClaims.
Context {TM : TimeModel}.

Lemma dispatched_set_t n ci t event_type s :
  _event_queue s = [] ->
  dispatched (set_t n ci t event_type s)
  = dispatched s ++ [(n, event_type, t)].
Proof.
  intros Hq. unfold dispatched, set_t. cbn [_calls _event_queue set_calls].
  rewrite Hq, map_app. simpl. now rewrite !app_nil_r.
Qed.

Lemma dispatched_push_back_event n event_type time s :
  dispatched (push_back_event n event_type time s)
  = dispatched s ++ [(n, event_type, int_to_double_time time)].
Proof.
  unfold dispatched, push_back_event.
  cbn [_calls _event_queue set_event_queue].
  now rewrite map_app, app_assoc.
Qed.

(** What [enqueue_event] dispatches for an entry that stands for an
    action. *)
Lemma enqueue_event_dispatched n event_type is_initial time s :
  valid_action (_defs s) n = true ->
  dispatched (enqueue_event n event_type is_initial time s)
  = dispatched s ++
    if suppressed_at (_defs s) n is_initial event_type then []
    else [(n, event_type, int_to_double_time time)].
Proof.
  unfold valid_action, is_action, enqueue_event, suppressed_at,
    open_ended_at, def_open_ended.
  destruct (nth_error (_defs s) n) as [def|]; [|discriminate].
  destruct (_type def); try discriminate.
  - destruct (_c_interval def) as [ci|]; [|discriminate]. intros _.
    destruct (is_initial && is_instant_type event_type
              && negb (ci_open_ended ci)); [now rewrite app_nil_r|].
    destruct (queue_empty s) eqn:Eq.
    + apply dispatched_set_t. now apply queue_empty_true.
    + apply dispatched_push_back_event.
  - intros _.
    destruct (is_initial && is_instant_type event_type
              && negb (_ext_open_ended def)); [now rewrite app_nil_r|].
    apply dispatched_push_back_event.
Qed.

Lemma enqueue_event_active n event_type is_initial time s :
  _active (enqueue_event n event_type is_initial time s) = _active s.
Proof. unfold enqueue_event. destruct_matches; reflexivity. Qed.

Lemma instant_loop_active event_type events s :
  _active (instant_loop event_type events s) = _active s.
Proof.
  revert s. induction events as [|e events IH]; intros s; simpl; auto.
  rewrite IH. destruct (PET_eqb _ _); auto using enqueue_event_active.
Qed.

Lemma instant_loop_dispatched event_type events s :
  (forall e, In e events -> valid_action (_defs s) (ev_n e) = true) ->
  dispatched (instant_loop event_type events s)
  = dispatched s ++
    map (fun e => (ev_n e, event_type, int_to_double_time 0))
      (filter (fun e => not_begin e &&
                        negb (suppressed_at (_defs s) (ev_n e) true
                                event_type))
         events).
Proof.
  revert s. induction events as [|e events IH]; intros s Hv; simpl.
  - now rewrite app_nil_r.
  - unfold not_begin at 1.
    destruct (PET_eqb (ev_type e) PET_begin); simpl.
    + apply IH. intros; apply Hv; simpl; auto.
    + pose proof (enqueue_event_plays any_dispatch (ev_n e) event_type true 0
                    s (fun _ => I)) as Hp.
      rewrite IH.
      * rewrite (plays_defs _ _ _ Hp).
        rewrite enqueue_event_dispatched by (apply Hv; simpl; auto).
        destruct (suppressed_at _ _ _ _); simpl.
        -- now rewrite app_nil_r.
        -- now rewrite <- app_assoc.
      * intros x Hx. rewrite (plays_defs _ _ _ Hp). apply Hv; simpl; auto.
Qed.

Lemma suppressed_at_instant defs n :
  negb (suppressed_at defs n true ET_instant) = open_ended_at defs n.
Proof. unfold suppressed_at. simpl. apply negb_involutive. Qed.

(** C2 (amended).  [instant] dispatches one instant callback, in the order
    of the timeline, for every event that is not a begin and whose action
    is open-ended; the events of the other actions get no callback.  The
    active set is empty all along, the cursor ends past the last event and
    the current time is the total duration. *)
Theorem instant_dispatches_open_ended (s : CMetaInterval) :
  reachable s ->
  dispatched (instant s)
  = dispatched s ++
    map (fun e => (ev_n e, ET_instant, int_to_double_time 0))
      (filter (fun e => not_begin e &&
                        open_ended_at (_defs (instant s)) (ev_n e))
         (_events (instant s))) /\
  (forall k,
      _active (instant_loop ET_instant (firstn k (_events (instant s)))
                 (set_active [] (recompute s))) = []) /\
  _active (instant s) = [] /\
  _next_event_index (instant s) = length (_events (instant s)) /\
  _curr_t (instant s) = _duration (instant s).
Proof.
  intros Hr. apply reachable_Inv in Hr.
  pose proof (recompute_Inv_off _ (Inv_off_of_Inv _ Hr)) as Hi.
  pose proof (instant_plays s) as ((Hdefs & Hev & _ & _ & _ & Hdur & _) & _).
  pose proof (instant_loop_plays ET_instant
                (_events (set_active [] (recompute s)))
                (set_active [] (recompute s)))
    as ((Hdefs' & Hev' & _ & _ & _ & Hdur' & _) & _).
  rewrite Hdefs, Hev.
  split; [|split; [|split; [|split]]].
  - unfold instant, dispatched.
    cbn [_calls _event_queue set_curr_t set_next_event_index].
    fold (dispatched (instant_loop ET_instant
                        (_events (set_active [] (recompute s)))
                        (set_active [] (recompute s)))).
    rewrite instant_loop_dispatched.
    + cbn [_defs _events set_active].
      replace (dispatched (set_active [] (recompute s)))
        with (dispatched s) by (symmetry; apply recompute_dispatched).
      do 2 f_equal. apply filter_ext. intros e.
      now rewrite suppressed_at_instant.
    + cbn [_defs _events set_active]. intros e He.
      apply (inv_events _ Hi). exact He.
  - intros k. now rewrite instant_loop_active.
  - unfold instant. cbn [_active set_curr_t set_next_event_index].
    now rewrite instant_loop_active.
  - unfold instant. cbn [_next_event_index _events set_curr_t
                          set_next_event_index].
    now rewrite Hev'.
  - reflexivity.
Qed.

End InstantClaims.

Section StepClaims.
Context {TM : TimeModel}.

Lemma step_active_active now l s : _active (step_active now l s) = _active s.
Proof.
  revert s. induction l as [|a l IH]; intros s; simpl; auto.
  destruct (deref (_events s) a); auto.
  now rewrite IH, enqueue_event_active.
Qed.







End StepClaims.

Section SkipLemmas.
Context {TM : TimeModel}.

Lemma NoDup_map_inj {A B} (f : A -> B) l x y :
  NoDup (map f l) -> In x l -> In y l -> f x = f y -> x = y.
Proof.
  induction l as [|z l IH]; simpl; intros Hnd Hx Hy Hf; [destruct Hx|].
  inversion Hnd as [|? ? Hnotin Hnd']; subst.
  destruct Hx as [->|Hx], Hy as [->|Hy]; auto.
  - exfalso. apply Hnotin. rewrite Hf. now apply in_map.
  - exfalso. apply Hnotin. rewrite <- Hf. now apply in_map.
Qed.

Lemma filter_one_split {A} (p : A -> bool) l x :
  filter p l = [x] ->
  exists l1 l3, l = l1 ++ x :: l3 /\
                (forall y, In y l1 -> p y = false) /\
                (forall y, In y l3 -> p y = false).
Proof.
  induction l as [|z l IH]; simpl; [discriminate|].
  destruct (p z) eqn:Ez; intros H.
  - inversion H as [[Hz Hrest]]. exists [], l. repeat split; auto.
    + intros y [].
    + now apply filter_nil_iff.
  - destruct (IH H) as (l1 & l3 & -> & H1 & H3).
    exists (z :: l1), l3. repeat split; auto.
    intros y [<-|Hy]; auto.
Qed.

Lemma filter_two_split {A} (p : A -> bool) l x y :
  filter p l = [x; y] ->
  exists l1 l2 l3, l = l1 ++ x :: l2 ++ y :: l3 /\
                   (forall z, In z l1 -> p z = false) /\
                   (forall z, In z l2 -> p z = false) /\
                   (forall z, In z l3 -> p z = false).
Proof.
  induction l as [|z l IH]; simpl; [discriminate|].
  destruct (p z) eqn:Ez; intros H.
  - inversion H as [[Hz Hrest]].
    destruct (filter_one_split _ _ _ Hrest) as (l2 & l3 & -> & H2 & H3).
    exists [], l2, l3. repeat split; auto. intros ? [].
  - destruct (IH H) as (l1 & l2 & l3 & -> & H1 & H2 & H3).
    exists (z :: l1), l2, l3. repeat split; auto.
    intros w [<-|Hw]; auto.
Qed.

Lemma StronglySorted_before {A} (R : A -> A -> Prop) l y l' :
  StronglySorted R (l ++ y :: l') -> forall x, In x l -> R x y.
Proof.
  induction l as [|z l IH]; simpl; intros H x Hx; [destruct Hx|].
  inversion H as [|? ? Hs Hall]; subst. destruct Hx as [<-|Hx]; auto.
  rewrite Forall_forall in Hall. apply Hall, in_or_app. simpl. auto.
Qed.

Lemma scan_forward_app cond is_initial l1 l2 new_active s :
  forallb cond l1 = true ->
  scan_forward cond is_initial (l1 ++ l2) new_active s =
  let (s1, na1) := scan_forward cond is_initial l1 new_active s in
  scan_forward cond is_initial l2 na1 s1.
Proof.
  revert new_active s. induction l1 as [|e l1 IH]; intros na s H; simpl.
  - reflexivity.
  - simpl in H. apply andb_prop in H as [He Hl]. rewrite He.
    destruct (do_event_forward e na is_initial s) as [s1 na1].
    now apply IH.
Qed.

Lemma do_event_forward_active_nil event new_active is_initial s :
  _active s = [] ->
  _active (fst (do_event_forward event new_active is_initial s)) = [].
Proof.
  intros H. unfold do_event_forward. rewrite H.
  destruct_matches; cbn [fst];
    try match goal with
        | Hp : pset_erase _ [] = _ |- _ => inversion Hp; subst
        end;
    unfold_setters; cbn [_active]; rewrite ?enqueue_event_active; auto.
Qed.

(** The addresses in [new_active] after one event. *)
Lemma do_event_forward_snd_In event new_active is_initial s x :
  In x (snd (do_event_forward event new_active is_initial s)) ->
  In x new_active \/ (ev_type event = PET_begin /\ x = ev_addr event).
Proof.
  unfold do_event_forward. destruct (ev_type event).
  - destruct (negb _); [auto|].
    destruct (pset_mem _ _); [auto|].
    destruct (pset_insert (ev_addr event) new_active) as [na ok] eqn:E.
    assert (Hna : na = fst (pset_insert (ev_addr event) new_active))
      by (now rewrite E).
    intros H. assert (Hx : In x na) by (destruct ok; exact H).
    rewrite Hna in Hx. apply pset_insert_In in Hx as [->|Hx]; auto.
  - destruct (pset_erase (ev_begin_event event) new_active) as [na c] eqn:E.
    assert (Hna : na = fst (pset_erase (ev_begin_event event) new_active))
      by (now rewrite E).
    intros H. assert (Hx : In x na).
    { destruct (negb _); [destruct (c =? 1)%nat; exact H|].
      destruct (pset_erase _ (_active s)) as [a' c'].
      destruct (c' =? 1)%nat; exact H. }
    rewrite Hna in Hx. apply pset_erase_In in Hx. tauto.
  - destruct (negb _); [auto|]. destruct (pset_mem _ _); [auto|].
    destruct (pset_mem _ _); auto.
Qed.

Lemma do_event_forward_snd_keep event new_active is_initial s x :
  In x new_active ->
  (ev_type event = PET_end -> x <> ev_begin_event event) ->
  In x (snd (do_event_forward event new_active is_initial s)).
Proof.
  intros Hx Hne. unfold do_event_forward. destruct (ev_type event).
  - destruct (negb _); [auto|].
    destruct (pset_mem _ _); [auto|].
    destruct (pset_insert (ev_addr event) new_active) as [na ok] eqn:E.
    assert (Hna : na = fst (pset_insert (ev_addr event) new_active))
      by (now rewrite E).
    assert (In x na) by (rewrite Hna; apply pset_insert_In; auto).
    destruct ok; auto.
  - destruct (pset_erase (ev_begin_event event) new_active) as [na c] eqn:E.
    assert (Hna : na = fst (pset_erase (ev_begin_event event) new_active))
      by (now rewrite E).
    assert (In x na) by (rewrite Hna; apply pset_erase_In; auto).
    destruct (negb _); [destruct (c =? 1)%nat; auto|].
    destruct (pset_erase _ (_active s)) as [a' c'].
    destruct (c' =? 1)%nat; auto.
  - destruct (negb _); [auto|]. destruct (pset_mem _ _); [auto|].
    destruct (pset_mem _ _); auto.
Qed.

Lemma do_event_forward_snd_erased event new_active is_initial s :
  ev_type event = PET_end ->
  ~ In (ev_begin_event event)
       (snd (do_event_forward event new_active is_initial s)).
Proof.
  intros Hty Hin. apply do_event_forward_snd_In in Hin as Hold.
  revert Hin. unfold do_event_forward. rewrite Hty.
  destruct (pset_erase (ev_begin_event event) new_active) as [na c] eqn:E.
  assert (Hna : na = fst (pset_erase (ev_begin_event event) new_active))
    by (now rewrite E).
  intros H. assert (Hx : In (ev_begin_event event) na).
  { destruct (negb _); [destruct (c =? 1)%nat; exact H|].
    destruct (pset_erase _ (_active s)) as [a' c'].
    destruct (c' =? 1)%nat; exact H. }
  rewrite Hna in Hx. apply pset_erase_In in Hx. tauto.
Qed.

End SkipLemmas.

Section SkipScan.
Context {TM : TimeModel}.
Variables (i a : nat) (events : list PlaybackEvent).

Lemma begins_only_step event new_active is_initial s :
  In event events -> begins_only events new_active ->
  begins_only events (snd (do_event_forward event new_active is_initial s)).
Proof.
  intros Hin Hb x Hx.
  apply do_event_forward_snd_In in Hx as [Hx|[Hty ->]]; eauto.
Qed.

(** An event of another entry: no callback for [i], and the begin of [i]
    stays in or out of the set. *)
Lemma do_event_forward_other event new_active is_initial s s' new_active' :
  other_event i a event -> In event events ->
  _active s = [] -> begins_only events new_active ->
  do_event_forward event new_active is_initial s = (s', new_active') ->
  plays (not_for i) s s' /\ _active s' = [] /\
  (In a new_active' <-> In a new_active) /\ begins_only events new_active'.
Proof.
  intros (Hn & Ha & Hb) Hin Hact Hbeg E.
  assert (Hs : s' = fst (do_event_forward event new_active is_initial s))
    by (now rewrite E).
  assert (Hna : new_active' =
                snd (do_event_forward event new_active is_initial s))
    by (now rewrite E).
  subst s' new_active'. split; [|split; [|split]].
  - apply do_event_forward_plays. intros et _ _. exact Hn.
  - now apply do_event_forward_active_nil.
  - split; intros H.
    + apply do_event_forward_snd_In in H as [H|[_ H]]; auto.
      now symmetry in H.
    + apply do_event_forward_snd_keep; auto.
  - now apply begins_only_step.
Qed.

Lemma scan_forward_others cond is_initial l :
  forall new_active s s' new_active',
    (forall e, In e l -> other_event i a e /\ In e events) ->
    _active s = [] -> begins_only events new_active ->
    scan_forward cond is_initial l new_active s = (s', new_active') ->
    plays (not_for i) s s' /\ _active s' = [] /\
    (In a new_active' <-> In a new_active) /\ begins_only events new_active'.
Proof.
  induction l as [|e l IH]; intros na s s' na' Hl Hact Hbeg E; simpl in E.
  - inversion E; subst.
    split; [apply plays_refl|split; [auto|split; [tauto|auto]]].
  - destruct (cond e).
    2:{ inversion E; subst.
        split; [apply plays_refl|split; [auto|split; [tauto|auto]]]. }
    destruct (do_event_forward e na is_initial s) as [s1 na1] eqn:E1.
    destruct (Hl e (or_introl eq_refl)) as [Ho Hin].
    destruct (do_event_forward_other _ _ _ _ _ _ Ho Hin Hact Hbeg E1)
      as (Hp1 & Hact1 & Hmem1 & Hbeg1).
    apply IH in E; auto.
    + destruct E as (Hp & Hact' & Hmem & Hbeg').
      split; [|split; [|split]]; auto.
      * eapply plays_trans; [exact Hp1|].
        eapply plays_trans; [apply plays_set_next_event_index|exact Hp].
      * rewrite Hmem. exact Hmem1.
    + intros x Hx. apply Hl. simpl. auto.
Qed.

(** The begin of [i]. *)
Lemma do_event_forward_begin event new_active is_initial s s' new_active' :
  ev_type event = PET_begin -> ev_begin_event event = ev_addr event ->
  In event events ->
  _active s = [] -> begins_only events new_active ->
  do_event_forward event new_active is_initial s = (s', new_active') ->
  plays (not_for i) s s' /\ _active s' = [] /\
  In (ev_addr event) new_active' /\ begins_only events new_active'.
Proof.
  intros Hty Hbe Hin Hact Hbeg E.
  assert (Hs : s' = fst (do_event_forward event new_active is_initial s))
    by (now rewrite E).
  assert (Hna : new_active' =
                snd (do_event_forward event new_active is_initial s))
    by (now rewrite E).
  split; [|split; [|split]].
  - subst s'. apply do_event_forward_plays.
    unfold forward_dispatch. rewrite Hty. discriminate.
  - subst s'. now apply do_event_forward_active_nil.
  - clear Hs Hna. unfold do_event_forward in E.
    rewrite Hty, Hbe, Nat.eqb_refl, Hact in E. simpl in E.
    destruct (pset_insert (ev_addr event) new_active) as [na ok] eqn:Ei.
    assert (Hna : na = fst (pset_insert (ev_addr event) new_active))
      by (now rewrite Ei).
    assert (In (ev_addr event) na)
      by (rewrite Hna; apply pset_insert_In; auto).
    destruct ok; inversion E; subst; auto.
  - subst new_active'. now apply begins_only_step.
Qed.

(** The end of [i], its begin being in the set, on a cold start. *)
Lemma do_event_forward_end event new_active s s' new_active' :
  ev_type event = PET_end -> ev_n event = i ->
  In (ev_begin_event event) new_active ->
  suppressed_at (_defs s) i true ET_instant = true ->
  In event events ->
  _active s = [] -> begins_only events new_active ->
  do_event_forward event new_active true s = (s', new_active') ->
  plays (not_for i) s s' /\ _active s' = [] /\
  ~ In (ev_begin_event event) new_active' /\ begins_only events new_active'.
Proof.
  intros Hty Hn Hmem Hsup Hin Hact Hbeg E.
  assert (Hs : s' = fst (do_event_forward event new_active true s))
    by (now rewrite E).
  assert (Hna : new_active' =
                snd (do_event_forward event new_active true s))
    by (now rewrite E).
  subst s' new_active'. split; [|split; [|split]].
  - apply do_event_forward_plays.
    unfold forward_dispatch. rewrite Hty.
    rewrite (proj2 (pset_mem_In _ _) Hmem).
    intros et Het. inversion Het; subst et. rewrite Hn. congruence.
  - now apply do_event_forward_active_nil.
  - now apply do_event_forward_snd_erased.
  - now apply begins_only_step.
Qed.

(** The instant of [i] on a cold start. *)
Lemma do_event_forward_instant event new_active s s' new_active' :
  ev_type event = PET_instant -> ev_n event = i ->
  suppressed_at (_defs s) i true ET_instant = true ->
  _active s = [] ->
  do_event_forward event new_active true s = (s', new_active') ->
  plays (not_for i) s s' /\ _active s' = [] /\ new_active' = new_active.
Proof.
  intros Hty Hn Hsup Hact E.
  assert (Hs : s' = fst (do_event_forward event new_active true s))
    by (now rewrite E).
  split; [|split].
  - subst s'. apply do_event_forward_plays.
    unfold forward_dispatch. rewrite Hty.
    intros et Het. inversion Het; subst et. rewrite Hn. congruence.
  - subst s'. now apply do_event_forward_active_nil.
  - clear Hs. unfold do_event_forward in E. rewrite Hty in E.
    destruct (negb _); [now inversion E|].
    destruct (pset_mem _ _); [now inversion E|].
    destruct (pset_mem _ _); now inversion E.
Qed.

End SkipScan.

Section SkipClaim.
Context {TM : TimeModel}.

Lemma compiled_time_sorted defs events :
  compiled_ok defs events ->
  StronglySorted (fun x y => ev_time x <= ev_time y) events.
Proof.
  intros H. apply compiled_perm in H as (E & n' & _ & _ & _ & Hs).
  eapply StronglySorted_weaken; [|exact Hs]. now intros x y _ _ [Hle _].
Qed.

(** The events of an entry with a non-negative quantized duration, as they
    stand in the timeline. *)
Lemma compiled_entry_shape defs events i q :
  compiled_ok defs events -> duration_at defs i = Some q -> 0 <= q ->
  (exists x l1 l3,
      events = l1 ++ x :: l3 /\ ev_type x = PET_instant /\ ev_n x = i /\
      (forall y, In y (l1 ++ l3) -> ev_n y <> i)) \/
  (exists b e l1 l2 l3,
      events = l1 ++ b :: l2 ++ e :: l3 /\
      ev_type b = PET_begin /\ ev_begin_event b = ev_addr b /\ ev_n b = i /\
      ev_type e = PET_end /\ ev_begin_event e = ev_addr b /\ ev_n e = i /\
      (forall y, In y (l1 ++ l2 ++ l3) -> ev_n y <> i)).
Proof.
  intros Hc Hq Hpos.
  destruct (compiled_events_at _ _ i Hc) as (b & t & Hp).
  rewrite Hq in Hp. unfold events_of in Hp.
  destruct (Z.eqb_spec q 0) as [->|Hne].
  - left. apply Permutation_length_1_inv in Hp.
    destruct (filter_one_split _ _ _ Hp) as (l1 & l3 & Hev & H1 & H3).
    eexists _, l1, l3. split; [exact Hev|]. repeat split.
    intros y Hy Hn. apply in_app_or in Hy as [Hy|Hy];
      [specialize (H1 y Hy)|specialize (H3 y Hy)];
      apply Nat.eqb_neq in H1 || apply Nat.eqb_neq in H3; contradiction.
  - right.
    assert (Hsorted : StronglySorted (fun x y => ev_time x <= ev_time y)
                        (events_at i events))
      by (apply StronglySorted_filter, (compiled_time_sorted _ _ Hc)).
    apply Permutation_length_2_inv in Hp as [Hp|Hp]; rewrite Hp in Hsorted.
    + destruct (filter_two_split _ _ _ _ Hp)
        as (l1 & l2 & l3 & Hev & H1 & H2 & H3).
      eexists _, _, l1, l2, l3. split; [exact Hev|]. repeat split.
      intros y Hy Hn.
      assert (Hf : (ev_n y =? i)%nat = false).
      { apply in_app_or in Hy as [Hy|Hy]; auto.
        apply in_app_or in Hy as [Hy|Hy]; auto. }
      apply Nat.eqb_neq in Hf. contradiction.
    + exfalso. inversion Hsorted as [|? ? _ Hall]; subst.
      inversion Hall as [|? ? Hle _]; subst. simpl in Hle. lia.
Qed.

Lemma compiled_begin_target defs events y :
  compiled_ok defs events -> In y events ->
  exists z, In z events /\ ev_addr z = ev_begin_event y /\ ev_n z = ev_n y.
Proof.
  intros Hc Hy.
  destruct (compiled_event_shape _ _ y Hc Hy) as (b & t & Hin & Hincl).
  unfold events_of in *.
  destruct (duration_at defs (ev_n y)) as [q|]; [|destruct Hin].
  destruct (q =? 0).
  - destruct Hin as [<-|[]]. eexists. split; [apply Hincl; left; eauto|].
    split; reflexivity.
  - destruct Hin as [<-|[<-|[]]];
      (eexists; split; [apply Hincl; left; eauto|]; split; reflexivity).
Qed.

Lemma compiled_others defs events b y :
  compiled_ok defs events -> In b events -> In y events ->
  ev_n y <> ev_n b -> other_event (ev_n b) (ev_addr b) y.
Proof.
  intros Hc Hb Hy Hn.
  pose proof (compiled_addr_NoDup _ _ Hc) as Hnd.
  split; [exact Hn|]. split.
  - intros Ha. apply Hn. f_equal.
    now apply (NoDup_map_inj ev_addr events).
  - destruct (compiled_begin_target _ _ y Hc Hy) as (z & Hz & Hza & Hzn).
    intros Ha. apply Hn. rewrite <- Hzn. f_equal.
    apply (NoDup_map_inj ev_addr events); auto. congruence.
Qed.

Lemma recompute_clean s : _dirty (recompute s) = false.
Proof.
  unfold recompute. destruct (_dirty s) eqn:E; auto.
  destruct (do_recompute_cases s) as [[_ ->]|(s1 & n' & le & _ & _ & ->)];
    reflexivity.
Qed.

Lemma deref_unique defs events a e e' :
  compiled_ok defs events -> deref events a = Some e ->
  In e' events -> ev_addr e' = a -> e = e'.
Proof.
  intros Hc He He' Ha. apply deref_Some in He as [Hin Haddr].
  apply (NoDup_map_inj ev_addr events); auto.
  - now apply (compiled_addr_NoDup defs).
  - congruence.
Qed.

End SkipClaim.

Section SkipTheorem.
Context {TM : TimeModel}.

Lemma begins_only_nil events : begins_only events [].
Proof. intros x []. Qed.

(** A cold-start scan over a begin and its end, both within reach. *)
Lemma skip_scan_pair i events cond b e l1 l2 l3 s0 s3 na3 :
  events = l1 ++ b :: l2 ++ e :: l3 ->
  (forall y, In y (l1 ++ l2 ++ l3) -> other_event i (ev_addr b) y) ->
  ev_type b = PET_begin -> ev_begin_event b = ev_addr b ->
  ev_type e = PET_end -> ev_begin_event e = ev_addr b -> ev_n e = i ->
  forallb cond (l1 ++ b :: l2 ++ [e]) = true ->
  suppressed_at (_defs s0) i true ET_instant = true ->
  _active s0 = [] ->
  scan_forward cond true events [] s0 = (s3, na3) ->
  plays (not_for i) s0 s3 /\ _active s3 = [] /\
  ~ In (ev_addr b) na3 /\ begins_only events na3.
Proof.
  intros Hev Hoth Htb Hbb Hte Hbe Hne Hcond Hsup Hact E.
  rewrite forallb_app in Hcond. apply andb_prop in Hcond as [Hc1 Hc].
  cbn [forallb] in Hc. apply andb_prop in Hc as [Hcb Hc].
  rewrite forallb_app in Hc. apply andb_prop in Hc as [Hc2 Hce].
  cbn [forallb] in Hce. rewrite andb_true_r in Hce.
  assert (Hin1 : forall y, In y l1 ->
                           other_event i (ev_addr b) y /\ In y events).
  { intros y Hy. split; [apply Hoth|rewrite Hev]; apply in_or_app; auto. }
  assert (Hin2 : forall y, In y l2 ->
                           other_event i (ev_addr b) y /\ In y events).
  { intros y Hy. split.
    - apply Hoth. apply in_or_app. right. apply in_or_app. auto.
    - rewrite Hev. apply in_or_app. right. right. apply in_or_app. auto. }
  assert (Hin3 : forall y, In y l3 ->
                           other_event i (ev_addr b) y /\ In y events).
  { intros y Hy. split.
    - apply Hoth. apply in_or_app. right. apply in_or_app. auto.
    - rewrite Hev. apply in_or_app. right. right. apply in_or_app.
      right. right. auto. }
  assert (Hinb : In b events)
    by (rewrite Hev; apply in_or_app; right; left; auto).
  assert (Hine : In e events).
  { rewrite Hev. apply in_or_app. right. right. apply in_or_app.
    right. left. auto. }
  rewrite Hev in E. rewrite scan_forward_app in E by exact Hc1.
  destruct (scan_forward cond true l1 [] s0) as [sA naA] eqn:EA.
  destruct (scan_forward_others i (ev_addr b) events cond true l1 _ _ _ _
              Hin1 Hact (begins_only_nil events) EA)
    as (HpA & HactA & HmemA & HbegA).
  cbn [scan_forward] in E. rewrite Hcb in E.
  destruct (do_event_forward b naA true sA) as [sB naB] eqn:EB.
  destruct (do_event_forward_begin i events b naA true sA sB naB
              Htb Hbb Hinb HactA HbegA EB) as (HpB & HactB & HmemB & HbegB).
  assert (Hp0B : plays (not_for i) s0
                   (set_next_event_index (S (_next_event_index sB)) sB)).
  { eapply plays_trans; [exact HpA|]. eapply plays_trans; [exact HpB|].
    apply plays_set_next_event_index. }
  rewrite scan_forward_app in E by exact Hc2.
  destruct (scan_forward cond true l2 naB
              (set_next_event_index (S (_next_event_index sB)) sB))
    as [sC naC] eqn:EC.
  destruct (scan_forward_others i (ev_addr b) events cond true l2 naB
              (set_next_event_index (S (_next_event_index sB)) sB) sC naC
              Hin2 HactB HbegB EC) as (HpC & HactC & HmemC & HbegC).
  assert (Hp0C : plays (not_for i) s0 sC)
    by (eapply plays_trans; eauto).
  cbn [scan_forward] in E. rewrite Hce in E.
  destruct (do_event_forward e naC true sC) as [sD naD] eqn:ED.
  assert (HsupC : suppressed_at (_defs sC) i true ET_instant = true)
    by (now rewrite (plays_defs _ _ _ Hp0C)).
  assert (HmemE : In (ev_begin_event e) naC)
    by (rewrite Hbe; apply HmemC; exact HmemB).
  destruct (do_event_forward_end i events e naC sC sD naD
              Hte Hne HmemE HsupC Hine HactC HbegC ED)
    as (HpD & HactD & HmemD & HbegD).
  assert (Hp0D : plays (not_for i) s0
                   (set_next_event_index (S (_next_event_index sD)) sD)).
  { eapply plays_trans; [exact Hp0C|]. eapply plays_trans; [exact HpD|].
    apply plays_set_next_event_index. }
  destruct (scan_forward_others i (ev_addr b) events cond true l3 naD
              (set_next_event_index (S (_next_event_index sD)) sD) s3 na3
              Hin3 HactD HbegD E) as (HpE & HactE & HmemE' & HbegE).
  split; [eapply plays_trans; eauto|]. split; [exact HactE|].
  split; [|exact HbegE].
  rewrite HmemE'. rewrite <- Hbe. exact HmemD.
Qed.

(** A cold-start scan over an instant within reach. *)
Lemma skip_scan_instant i a events cond x l1 l3 s0 s3 na3 :
  events = l1 ++ x :: l3 ->
  (forall y, In y (l1 ++ l3) -> other_event i a y) ->
  ev_type x = PET_instant -> ev_n x = i ->
  forallb cond (l1 ++ [x]) = true ->
  suppressed_at (_defs s0) i true ET_instant = true ->
  _active s0 = [] ->
  scan_forward cond true events [] s0 = (s3, na3) ->
  plays (not_for i) s0 s3 /\ _active s3 = [] /\ begins_only events na3.
Proof.
  intros Hev Hoth Htx Hnx Hcond Hsup Hact E.
  rewrite forallb_app in Hcond. apply andb_prop in Hcond as [Hc1 Hcx].
  cbn [forallb] in Hcx. rewrite andb_true_r in Hcx.
  assert (Hin1 : forall y, In y l1 -> other_event i a y /\ In y events).
  { intros y Hy. split; [apply Hoth|rewrite Hev]; apply in_or_app; auto. }
  assert (Hin3 : forall y, In y l3 -> other_event i a y /\ In y events).
  { intros y Hy. split; [apply Hoth|rewrite Hev]; apply in_or_app; auto.
    right. right. auto. }
  rewrite Hev in E. rewrite scan_forward_app in E by exact Hc1.
  destruct (scan_forward cond true l1 [] s0) as [sA naA] eqn:EA.
  destruct (scan_forward_others i a events cond true l1 _ _ _ _
              Hin1 Hact (begins_only_nil events) EA)
    as (HpA & HactA & HmemA & HbegA).
  cbn [scan_forward] in E. rewrite Hcx in E.
  destruct (do_event_forward x naA true sA) as [sB naB] eqn:EB.
  assert (HsupA : suppressed_at (_defs sA) i true ET_instant = true)
    by (now rewrite (plays_defs _ _ _ HpA)).
  destruct (do_event_forward_instant i x naA sA sB naB Htx Hnx HsupA HactA EB)
    as (HpB & HactB & ->).
  destruct (scan_forward_others i a events cond true l3 naA
              (set_next_event_index (S (_next_event_index sB)) sB) s3 na3
              Hin3 HactB HbegA E) as (HpE & HactE & _ & HbegE).
  split; [|split; auto].
  eapply plays_trans; [exact HpA|]. eapply plays_trans; [exact HpB|].
  eapply plays_trans; [apply plays_set_next_event_index|exact HpE].
Qed.

(** C3 where the duration is not negative.  [initialize] dispatches no
    callback, at once or through the queue, for an action that is not
    open-ended, whose quantized duration is not negative and whose events
    are all at or before the target time. *)
Theorem initialize_skips_completed_action
  (s : CMetaInterval) (t : double) (i : nat) (q : Z) :
  reachable s ->
  duration_at (_defs (recompute s)) i = Some q ->
  0 <= q ->
  open_ended_at (_defs (recompute s)) i = false ->
  (forall e, In e (_events (recompute s)) -> ev_n e = i ->
             ev_time e <= double_to_int_time t) ->
  exists l,
    dispatched (initialize t s) = dispatched s ++ l /\
    forall d, In d l -> dispatch_n d <> i.
Proof.
  intros Hr Hq Hpos Hoe Hreach. apply reachable_Inv in Hr.
  set (now := double_to_int_time t) in *.
  set (s0 := set_active [] (set_next_event_index 0 (recompute s))).
  assert (Hi0 : Inv s0).
  { apply Inv_reset; [|lia]. now apply recompute_Inv_off, Inv_off_of_Inv. }
  assert (Hc : compiled_ok (_defs s0) (_events s0))
    by (apply (inv_compiled _ Hi0), recompute_clean).
  change (_defs s0) with (_defs (recompute s)) in Hc.
  change (_events s0) with (_events (recompute s)) in Hc.
  assert (Hsup : suppressed_at (_defs s0) i true ET_instant = true).
  { unfold suppressed_at. change (_defs s0) with (_defs (recompute s)).
    now rewrite Hoe. }
  assert (Hsorted := compiled_time_sorted _ _ Hc).
  assert (Hgoal : plays (not_for i) s0 (initialize t s)).
  { unfold initialize. fold now. fold s0.
    destruct (scan_forward (fun e => ev_time e <=? now) true
                (events_ahead s0) [] s0) as [s3 na3] eqn:E.
    change (events_ahead s0) with (_events (recompute s)) in E.
    assert (Hscan : plays (not_for i) s0 s3 /\ _active s3 = [] /\
                    forall x e, In x na3 ->
                                deref (_events (recompute s)) x = Some e ->
                                ev_n e <> i).
    { destruct (compiled_entry_shape _ _ i q Hc Hq Hpos)
        as [(x & l1 & l3 & Hev & Htx & Hnx & Hoth)
           |(b & e & l1 & l2 & l3 & Hev & Htb & Hbb & Hnb & Hte & Hbe & Hne
             & Hoth)].
      - assert (Hinx : In x (_events (recompute s)))
          by (rewrite Hev; apply in_or_app; right; left; auto).
        destruct (skip_scan_instant i (ev_addr x) (_events (recompute s))
                    (fun e => ev_time e <=? now) x l1 l3 s0 s3 na3)
          as (Hp & Hact & Hbeg); auto.
        + intros y Hy. rewrite <- Hnx.
          apply (compiled_others _ _ x y Hc Hinx).
          * rewrite Hev. apply in_app_or in Hy as [Hy|Hy];
              apply in_or_app; auto. right. right. auto.
          * rewrite Hnx. now apply Hoth.
        + rewrite forallb_app. apply andb_true_intro. split.
          * apply forallb_forall. intros y Hy. apply Z.leb_le.
            rewrite Hev in Hsorted.
            pose proof (StronglySorted_before _ _ _ _ Hsorted y Hy).
            specialize (Hreach x Hinx Hnx). simpl in *. lia.
          * simpl. rewrite andb_true_r. apply Z.leb_le. now apply Hreach.
        + split; [exact Hp|]. split; [exact Hact|].
          intros a e Ha He Hn.
          destruct (Hbeg a Ha) as (e0 & Hin0 & Hty0 & Ha0).
          pose proof (deref_unique _ _ _ _ _ Hc He Hin0 Ha0) as <-.
          assert (Hat : In e (events_at i (_events (recompute s))))
            by (now apply events_at_In).
          rewrite Hev in Hat. unfold events_at in Hat.
          rewrite filter_app in Hat. simpl in Hat.
          rewrite Hnx, Nat.eqb_refl in Hat.
          apply in_app_or in Hat as [Hat|[Hat|Hat]].
          -- apply filter_In in Hat as [Hat _].
             apply (Hoth e); auto. apply in_or_app. auto.
          -- subst e. congruence.
          -- apply filter_In in Hat as [Hat _].
             apply (Hoth e); auto. apply in_or_app. auto.
      - assert (Hinb : In b (_events (recompute s)))
          by (rewrite Hev; apply in_or_app; right; left; auto).
        assert (Hine : In e (_events (recompute s))).
        { rewrite Hev. apply in_or_app. right. right. apply in_or_app.
          right. left. auto. }
        destruct (skip_scan_pair i (_events (recompute s))
                    (fun e => ev_time e <=? now) b e l1 l2 l3 s0 s3 na3)
          as (Hp & Hact & Hmem & Hbeg); auto.
        + intros y Hy. rewrite <- Hnb.
          apply (compiled_others _ _ b y Hc Hinb).
          * rewrite Hev. apply in_app_or in Hy as [Hy|Hy].
            -- apply in_or_app. auto.
            -- apply in_or_app. right. right.
               apply in_app_or in Hy as [Hy|Hy]; apply in_or_app; auto.
               right. right. auto.
          * rewrite Hnb. now apply Hoth.
        + replace (l1 ++ b :: l2 ++ [e]) with ((l1 ++ b :: l2) ++ [e])
            by (now rewrite <- app_assoc).
          rewrite forallb_app. apply andb_true_intro. split.
          * apply forallb_forall. intros y Hy. apply Z.leb_le.
            replace (l1 ++ b :: l2 ++ e :: l3)
              with ((l1 ++ b :: l2) ++ e :: l3) in Hev
              by (now rewrite <- app_assoc).
            rewrite Hev in Hsorted.
            pose proof (StronglySorted_before _ _ _ _ Hsorted y Hy).
            specialize (Hreach e Hine Hne). simpl in *. lia.
          * simpl. rewrite andb_true_r. apply Z.leb_le. now apply Hreach.
        + split; [exact Hp|]. split; [exact Hact|].
          intros a e' Ha He Hn.
          destruct (Hbeg a Ha) as (e0 & Hin0 & Hty0 & Ha0).
          pose proof (deref_unique _ _ _ _ _ Hc He Hin0 Ha0) as <-.
          assert (Hat : In e' (events_at i (_events (recompute s))))
            by (now apply events_at_In).
          rewrite Hev in Hat. unfold events_at in Hat.
          rewrite filter_app in Hat. simpl in Hat.
          rewrite Hnb, Nat.eqb_refl, filter_app in Hat. simpl in Hat.
          rewrite Hne, Nat.eqb_refl in Hat.
          apply in_app_or in Hat as [Hat|[Hat|Hat]].
          -- apply filter_In in Hat as [Hat _].
             apply (Hoth e'); auto. apply in_or_app. auto.
          -- subst e'. apply Hmem. rewrite Ha0. exact Ha.
          -- apply in_app_or in Hat as [Hat|[Hat|Hat]].
             ++ apply filter_In in Hat as [Hat _].
                apply (Hoth e'); auto. apply in_or_app. right.
                apply in_or_app. auto.
             ++ subst e'. congruence.
             ++ apply filter_In in Hat as [Hat _].
                apply (Hoth e'); auto. apply in_or_app. right.
                apply in_or_app. auto. }
    destruct Hscan as (Hp & Hact & Hfin).
    eapply plays_trans; [exact Hp|].
    eapply plays_trans; [|apply plays_set_curr_t].
    apply finish_events_forward_plays. intros a e He.
    rewrite (plays_events _ _ _ Hp) in He.
    change (_events s0) with (_events (recompute s)) in He.
    split.
    - rewrite Hact. intros [].
    - intros Ha. unfold not_for, dispatch_n. simpl. eapply Hfin; eauto. }
  destruct Hgoal as (_ & _ & (l & Hd & HP) & _).
  exists l. split.
  - rewrite Hd. f_equal.
    change (dispatched s0) with (dispatched (recompute s)).
    apply recompute_dispatched.
  - intros d Hin. rewrite Forall_forall in HP. now apply HP.
Qed.

End SkipTheorem.

(** * The scenarios of the specification, at 1000 ticks per unit *)

Section Concrete.
#[local] Existing Instance Q_time.


Lemma reachable_one_closed_action : reachable one_closed_action.
Proof. apply R_add_c_interval, R_new. Qed.

Lemma reachable_open_group : reachable open_group.
Proof. apply R_add_c_interval, R_push_level, R_new. Qed.

Lemma reachable_external_then_native : reachable external_then_native.
Proof. apply R_add_c_interval, R_add_ext_index, R_new. Qed.

Lemma reachable_negative_external : reachable negative_external.
Proof. apply R_add_ext_index, R_new. Qed.

(** Scenario A: stepping to 1.5 ends the first action and starts the
    second one half a unit in. *)
Example scenario_A :
  map ev_time (_events (do_recompute two_in_a_row)) = [0; 1000; 1000; 2000] /\
  map call_dispatch (_calls (step (3 # 2)%Q (initialize 0%Q two_in_a_row)))
  = [(1%nat, ET_initialize, (0 # 1000)%Q); (1%nat, ET_finalize, (0 # 1000)%Q);
     (2%nat, ET_initialize, (500 # 1000)%Q)].
Proof. split; vm_compute; reflexivity. Qed.

(** Scenario B: one instant event at 0.5, one instant callback. *)
Example scenario_B :
  _events (do_recompute instant_in_group)
  = [mkEvent 0 500 1 PET_instant 0] /\
  dispatched (step 1%Q (initialize 0%Q instant_in_group))
  = [(1%nat, ET_instant, (0 # 1000)%Q)].
Proof. split; vm_compute; reflexivity. Qed.

(** Scenario C: [instant] on one open-ended action of duration 2. *)
Example scenario_C :
  dispatched (instant one_open_action) = [(0%nat, ET_instant, (0 # 1000)%Q)] /\
  _active (instant one_open_action) = [] /\
  _duration (instant one_open_action) = (2000 # 1000)%Q.
Proof. split; [|split]; vm_compute; reflexivity. Qed.

(** Scenario D: the group that is never closed compiles, with a warning. *)
Example scenario_D :
  _diag (do_recompute open_group) = [D_warning pushes_dont_match_pops] /\
  _events (do_recompute open_group)
  = [mkEvent 0 0 1 PET_begin 0; mkEvent 1 2000 1 PET_end 0].
Proof. split; vm_compute; reflexivity. Qed.

(** Scenario E: the native callback waits behind the external one until
    the host has taken it. *)
Example scenario_E :
  _event_queue (initialize 0%Q external_then_native)
  = [mkEntry 0 ET_instant 0; mkEntry 1 ET_initialize 0] /\
  _calls (initialize 0%Q external_then_native) = [] /\
  service_event_queue (initialize 0%Q external_then_native)
  = (initialize 0%Q external_then_native, true) /\
  map call_dispatch
    (_calls (fst (service_event_queue
                    (pop_event (initialize 0%Q external_then_native)))))
  = [(1%nat, ET_initialize, (0 # 1000)%Q)] /\
  snd (service_event_queue (pop_event (initialize 0%Q external_then_native)))
  = false.
Proof. split; [|split; [|split; [|split]]]; vm_compute; reflexivity. Qed.

(** ** Counterexamples to the claims as stated *)


(** C2 as stated fails: [instant] gives no callback to an action that is
    not open-ended. *)
Lemma instant_skips_closed_action : ~ instant_claim.
Proof.
  intros H.
  destruct (H one_closed_action reachable_one_closed_action)
    as (l & Hd & Hall & _).
  vm_compute in Hd. subst l.
  apply (Hall (mkEvent 1 1000 0 PET_end 0)).
  - vm_compute. auto.
  - discriminate.
Qed.

(** C3 as stated fails: an action with a negative duration has its end
    before its begin, and [initialize] past both finalizes and initializes
    it. *)
Lemma initialize_calls_negative_action : ~ skip_suppression_claim.
Proof.
  intros H.
  destruct (H negative_external 0%Q 0%nat (-1000)
              reachable_negative_external) as (l & Hd & Hl).
  - vm_compute. reflexivity.
  - vm_compute. reflexivity.
  - intros e He _. vm_compute in He.
    destruct He as [<-|[<-|[]]]; vm_compute; discriminate.
  - vm_compute in Hd. subst l.
    apply (Hl (0%nat, ET_finalize, (0 # 1000)%Q)); [simpl; auto|reflexivity].
Qed.

(** C3, a defect of the code.  An external action of duration -1 that is
    not open-ended compiles to an end event at -1000, ahead of its begin
    event at 0.  [initialize(0)] goes over the end first: the action is in
    neither set, so [do_event_forward] asks for its finalize callback and
    fails its own check that one element was erased; going over the begin
    it takes the action for a new one, and [finish_events_forward] asks
    for its initialize callback and puts it in the active set.  The
    action, which is not open-ended and begins and ends at or before the
    target time, gets two callbacks and is left active. *)
Theorem initialize_negative_duration_fails_check :
  _events (recompute negative_external)
  = [mkEvent 1 (-1000) 0 PET_end 0; mkEvent 0 0 0 PET_begin 0] /\
  open_ended_at (_defs negative_external) 0 = false /\
  dispatched (initialize 0%Q negative_external)
  = [(0%nat, ET_finalize, (0 # 1000)%Q);
     (0%nat, ET_initialize, (0 # 1000)%Q)] /\
  _diag (initialize 0%Q negative_external)
  = [D_assert "erase_count == 1"] /\
  _active (initialize 0%Q negative_external) = [0%nat].
Proof. vm_compute. repeat split. Qed.


End Concrete.

(** ** The theorems at the scenarios *)

Section Witnesses.
#[local] Existing Instance Q_time.


(** C2 at scenario C. *)
Lemma instant_dispatches_open_ended_witness :
  reachable one_open_action /\
  (dispatched (instant one_open_action)
   = dispatched one_open_action ++
     map (fun e => (ev_n e, ET_instant, int_to_double_time 0))
       (filter (fun e => not_begin e &&
                         open_ended_at (_defs (instant one_open_action))
                                       (ev_n e))
          (_events (instant one_open_action))) /\
   (forall k,
       _active (instant_loop ET_instant
                  (firstn k (_events (instant one_open_action)))
                  (set_active [] (recompute one_open_action))) = []) /\
   _active (instant one_open_action) = [] /\
   _next_event_index (instant one_open_action)
   = length (_events (instant one_open_action)) /\
   _curr_t (instant one_open_action) = _duration (instant one_open_action)).
Proof.
  split.
  - apply R_add_c_interval, R_new.
  - apply (instant_dispatches_open_ended (TM := Q_time)).
    apply R_add_c_interval, R_new.
Defined.

(** C3 at an action of duration 1 that is not open-ended, initialized at
    time 5. *)
Lemma initialize_skips_completed_action_witness :
  reachable one_closed_action /\
  duration_at (_defs (recompute one_closed_action)) 0 = Some 1000 /\
  0 <= 1000 /\
  open_ended_at (_defs (recompute one_closed_action)) 0 = false /\
  (forall e, In e (_events (recompute one_closed_action)) -> ev_n e = 0%nat ->
             ev_time e <= double_to_int_time 5%Q) /\
  exists l,
    dispatched (initialize 5%Q one_closed_action)
    = dispatched one_closed_action ++ l /\
    forall d, In d l -> dispatch_n d <> 0%nat.
Proof.
  assert (Hr : reachable one_closed_action)
    by (apply R_add_c_interval, R_new).
  assert (Hq : duration_at (_defs (recompute one_closed_action)) 0
               = Some 1000) by (vm_compute; reflexivity).
  assert (Hpos : 0 <= 1000) by lia.
  assert (Hoe : open_ended_at (_defs (recompute one_closed_action)) 0 = false)
    by (vm_compute; reflexivity).
  assert (Hreach : forall e,
             In e (_events (recompute one_closed_action)) -> ev_n e = 0%nat ->
             ev_time e <= double_to_int_time 5%Q).
  { intros e He _. vm_compute in He.
    destruct He as [<-|[<-|[]]]; vm_compute; discriminate. }
  repeat (split; [eassumption|]).
  apply (initialize_skips_completed_action (TM := Q_time) _ _ _ _
           Hr Hq Hpos Hoe Hreach).
Defined.

(** C4 at scenario E once the host has taken the external entry. *)
Lemma service_event_queue_head_natives_witness :
  reachable (pop_event (initialize 0%Q external_then_native)) /\
  _event_queue (pop_event (initialize 0%Q external_then_native))
  = [mkEntry 1 ET_initialize 0] ++ [] /\
  forallb (native_entry
             (_defs (pop_event (initialize 0%Q external_then_native))))
    [mkEntry 1 ET_initialize 0] = true /\
  service_event_queue (pop_event (initialize 0%Q external_then_native)) =
  (set_event_queue []
     (set_calls
        (_calls (pop_event (initialize 0%Q external_then_native)) ++
         flat_map
           (entry_call
              (_defs (pop_event (initialize 0%Q external_then_native))))
           [mkEntry 1 ET_initialize 0])
        (pop_event (initialize 0%Q external_then_native))),
   false) /\
  map call_dispatch
    (flat_map
       (entry_call (_defs (pop_event (initialize 0%Q external_then_native))))
       [mkEntry 1 ET_initialize 0])
  = map entry_dispatch [mkEntry 1 ET_initialize 0].
Proof.
  assert (Hr : reachable (pop_event (initialize 0%Q external_then_native)))
    by (apply R_pop_event, R_initialize, R_add_c_interval, R_add_ext_index,
          R_new).
  assert (Hq : _event_queue (pop_event (initialize 0%Q external_then_native))
               = [mkEntry 1 ET_initialize 0] ++ [])
    by (vm_compute; reflexivity).
  assert (Hall : forallb
                   (native_entry
                      (_defs (pop_event
                                (initialize 0%Q external_then_native))))
                   [mkEntry 1 ET_initialize 0] = true)
    by (vm_compute; reflexivity).
  repeat (split; [eassumption|]).
  apply (service_event_queue_head_natives (TM := Q_time) _ _ _ Hr Hq Hall I).
Defined.

(** C5 at the native action of scenario E, its queue pending. *)
Lemma enqueue_event_native_witness :
  nth_error (_defs (initialize 0%Q external_then_native)) 1 = Some native_def /\
  _type native_def = DT_c_interval /\
  _c_interval native_def = Some open_action /\
  let s := initialize 0%Q external_then_native in
  let s' := enqueue_event 1 ET_step false 1000 s in
  let suppressed :=
    false && is_instant_type ET_step && negb (ci_open_ended open_action) in
  let call := mkCall 1 open_action (int_to_double_time 1000) ET_step in
  (suppressed = true -> s' = s) /\
  (suppressed = false -> _event_queue s = [] ->
   s' = set_calls (_calls s ++ [call]) s) /\
  (suppressed = false -> _event_queue s <> [] ->
   s' = set_event_queue (_event_queue s ++ [mkEntry 1 ET_step 1000]) s) /\
  (suppressed = false ->
   forall q rest,
     _event_queue s = q :: rest ->
     external_entry (_defs s) q = true ->
     service_event_queue s' = (s', true) /\
     (no_null_children (_defs s) ->
      forallb (native_entry (_defs s)) rest = true ->
      service_event_queue (pop_event s') =
      (set_event_queue []
         (set_calls
            (_calls s ++ flat_map (entry_call (_defs s)) rest ++ [call]) s),
       false))).
Proof.
  assert (Hn : nth_error (_defs (initialize 0%Q external_then_native)) 1
               = Some native_def) by (vm_compute; reflexivity).
  assert (Hty : _type native_def = DT_c_interval) by reflexivity.
  assert (Hci : _c_interval native_def = Some open_action) by reflexivity.
  split; [exact Hn|]. split; [exact Hty|]. split; [exact Hci|].
  exact (enqueue_event_native (TM := Q_time) _ _ _ _ ET_step false 1000
           Hn Hty Hci).
Defined.


(** C8 at scenario D. *)
Lemma unmatched_push_compiles_with_warning_witness :
  reachable open_group /\
  0 < nesting (_defs open_group) /\
  exists defs' E le,
    (exists s1,
        recompute_level
          (recompute_fuel (clear_events (set_dirty false open_group))) 0 0
          (clear_events (set_dirty false open_group))
        = Some (s1,
                (length (_defs open_group)
                 + Z.to_nat (nesting (_defs open_group)))%nat, le)) /\
    do_recompute open_group =
    mkMeta defs' (stable_sort E) [] (_event_queue open_group)
      (_current_nesting_level open_group) (_next_event_index open_group)
      (_curr_t open_group) (int_to_double_time le) le false
      (_calls open_group) (_registered open_group)
      (_diag open_group ++ [D_warning pushes_dont_match_pops]) /\
    statics defs' = statics (_defs open_group) /\
    emitted_ok defs' 0 0
      (length (_defs open_group) + Z.to_nat (nesting (_defs open_group))) E /\
    forall i q,
      duration_at (_defs open_group) i = Some q ->
      exists b t,
        Permutation (events_of (Some q) i b t)
                    (events_at i (stable_sort E)).
Proof.
  assert (Hr : reachable open_group)
    by (apply R_add_c_interval, R_push_level, R_new).
  assert (Hopen : 0 < nesting (_defs open_group))
    by (vm_compute; reflexivity).
  repeat (split; [eassumption|]).
  apply (unmatched_push_compiles_with_warning (TM := Q_time) _ Hr Hopen).
Defined.

(** C9 at a new object and at scenario E with its queue pending. *)
Lemma caller_contract_violations_rejected_witness :
  _current_nesting_level CMetaInterval_new <= 0 /\
  _event_queue (initialize 0%Q external_then_native) <> [] /\
  (rejected one_open_action
     (fst (add_c_interval None 0%Q RS_previous_end one_open_action)) /\
   snd (add_c_interval None 0%Q RS_previous_end one_open_action) = -1 /\
   _defs (fst (add_c_interval None 0%Q RS_previous_end one_open_action))
   = _defs one_open_action) /\
  (rejected CMetaInterval_new (fst (pop_level CMetaInterval_new)) /\
   snd (pop_level CMetaInterval_new) = -1 /\
   _defs (fst (pop_level CMetaInterval_new)) = _defs CMetaInterval_new /\
   _current_nesting_level (fst (pop_level CMetaInterval_new))
   = _current_nesting_level CMetaInterval_new) /\
  (rejected (initialize 0%Q external_then_native)
     (clear_intervals (initialize 0%Q external_then_native)) /\
   _defs (clear_intervals (initialize 0%Q external_then_native))
   = _defs (initialize 0%Q external_then_native) /\
   _events (clear_intervals (initialize 0%Q external_then_native))
   = _events (initialize 0%Q external_then_native) /\
   _event_queue (clear_intervals (initialize 0%Q external_then_native))
   = _event_queue (initialize 0%Q external_then_native)).
Proof.
  assert (Hlevel : _current_nesting_level CMetaInterval_new <= 0)
    by (vm_compute; discriminate).
  assert (Hqueue : _event_queue (initialize 0%Q external_then_native) <> [])
    by (vm_compute; discriminate).
  repeat (split; [eassumption|]).
  apply (caller_contract_violations_rejected (TM := Q_time) _ _ _ _ _
           Hlevel Hqueue).
Defined.

End Witnesses.

(** * Further properties of the code *)

(** ** The schedule and the append methods *)

Section ScheduleFacts.
Context {TM : TimeModel}.

Lemma do_recompute_statics s :
  statics (_defs (do_recompute s)) = statics (_defs s).
Proof.
  destruct (do_recompute_cases s)
    as [[_ ->]|(s1 & n' & le & _ & (_ & Hst & _) & ->)]; auto.
Qed.

Lemma recompute_statics s : statics (_defs (recompute s)) = statics (_defs s).
Proof.
  unfold recompute. destruct (_dirty s); auto using do_recompute_statics.
Qed.

Lemma do_recompute_members s :
  _registered (do_recompute s) = _registered s /\
  _current_nesting_level (do_recompute s) = _current_nesting_level s /\
  _next_event_index (do_recompute s) = _next_event_index s /\
  _curr_t (do_recompute s) = _curr_t s.
Proof.
  destruct (do_recompute_cases s) as [[_ ->]|(s1 & n' & le & _ & _ & ->)];
    repeat split.
Qed.

(** Playback does not edit the schedule.  [step] and [reverse_finalize]
    leave the definitions, the compiled events, the duration and the
    dirty flag as they are: they do not recompile, even when the schedule
    is dirty; so does [finalize] on an object that is not dirty.  The four
    methods that begin with [recompute()] change these members through
    that call only, and a recompile keeps every definition but for the
    begin time it records. *)
Theorem playback_keeps_schedule (s : CMetaInterval) (t : double) :
  playback_frame s (step t s) /\
  playback_frame s (reverse_finalize s) /\
  (_dirty s = false -> playback_frame s (finalize s)) /\
  playback_frame (recompute s) (initialize t s) /\
  playback_frame (recompute s) (reverse_initialize t s) /\
  playback_frame (recompute s) (instant s) /\
  playback_frame (recompute s) (reverse_instant s) /\
  statics (_defs (recompute s)) = statics (_defs s) /\
  _registered (recompute s) = _registered s /\
  _current_nesting_level (recompute s) = _current_nesting_level s.
Proof.
  split; [apply (step_plays t s)|].
  split; [apply (reverse_finalize_plays s)|].
  split; [intros _; apply (finalize_plays s)|].
  split; [apply (initialize_plays t s)|].
  split; [apply (reverse_initialize_plays t s)|].
  split; [apply (instant_plays s)|].
  split; [apply (reverse_instant_plays s)|].
  split; [apply recompute_statics|].
  unfold recompute. destruct (_dirty s); auto.
  split; apply do_recompute_members.
Qed.

(** On every object the nesting level is the number of pushes minus the
    number of pops in the definition list and is not negative, so that
    [pop_level] is refused exactly when every group is closed; otherwise
    it returns the index of the entry it appends and closes one group. *)
Theorem pop_level_refused_iff_balanced (s : CMetaInterval) :
  reachable s ->
  _current_nesting_level s = nesting (_defs s) /\
  0 <= nesting (_defs s) /\
  (snd (pop_level s) = -1 <-> nesting (_defs s) = 0) /\
  (0 < nesting (_defs s) ->
   snd (pop_level s) = Z.of_nat (length (_defs s)) /\
   nth_error (_defs (fst (pop_level s))) (length (_defs s))
   = Some IntervalDef_new /\
   nesting (_defs (fst (pop_level s))) = nesting (_defs s) - 1).
Proof.
  intros Hr. pose proof (reachable_Inv s Hr) as HI.
  pose proof (inv_level s HI) as Hl.
  pose proof (nesting_nonneg _ (inv_nested s HI)) as Hn.
  split; auto. split; auto. unfold pop_level. rewrite Hl.
  destruct (Z.ltb_spec 0 (nesting (_defs s))) as [Hpos|Hle]; cbn.
  - rewrite length_app, nesting_app. cbn [length nesting nesting_step _type].
    split; [split; intros; lia|].
    intros _. split; [lia|]. split; [|lia].
    rewrite nth_error_app2, Nat.sub_diag by lia. reflexivity.
  - split; [split; intros; auto; lia|lia].
Qed.

(** The parents lists of the children hold this object once for every
    entry that refers to the child, in the order of the entries. *)
Theorem children_registered_once_per_entry (s : CMetaInterval) :
  reachable s -> _registered s = child_ids (_defs s).
Proof. intros Hr. exact (inv_registered s (reachable_Inv s Hr)). Qed.

(** [clear_intervals] on an object whose queue is empty removes every
    definition, every compiled event and every registration with a child,
    and puts the nesting level and the cursor back to zero; the assertion
    inside its loop does not fail.  It leaves the dirty flag, the duration
    and the end time of the last compilation as they are. *)
Theorem clear_intervals_resets (s : CMetaInterval) :
  reachable s -> _event_queue s = [] ->
  clear_intervals s =
  mkMeta [] [] [] [] 0 0%nat (_curr_t s) (_duration s) (_end_time s)
         (_dirty s) (_calls s) [] (_diag s).
Proof.
  intros Hr Hq. pose proof (reachable_Inv s Hr) as HI.
  unfold clear_intervals. rewrite Hq.
  rewrite (clear_parents_ok (_defs (clear_events s)) (clear_events s))
    by exact (inv_registered s HI).
  unfold_setters. cbn. now rewrite Hq.
Qed.

(** A schedule whose pushes match its pops compiles without a diagnostic:
    the walk returns the size of the definition list, no warning is
    issued, and the schedule is clean afterwards. *)
Theorem balanced_schedule_compiles_silently (s : CMetaInterval) :
  reachable s -> nesting (_defs s) = 0 ->
  (exists s1 le,
      recompute_level (recompute_fuel (clear_events (set_dirty false s))) 0 0
        (clear_events (set_dirty false s))
      = Some (s1, length (_defs s), le) /\
      _end_time (do_recompute s) = le) /\
  _diag (do_recompute s) = _diag s /\
  _dirty (do_recompute s) = false /\
  _duration (do_recompute s) = int_to_double_time (_end_time (do_recompute s)).
Proof.
  intros Hr Hn. pose proof (reachable_Inv s Hr) as HI.
  destruct (do_recompute_cases s)
    as [[Hnone _]|(s1 & n' & le & Hw & Hpost & Heq)].
  - exfalso.
    destruct (proj1 (walk_total (recompute_fuel (clear_events (set_dirty false s))))
                0%nat 0 (clear_events (set_dirty false s))) as [r Hr'].
    + exact (inv_children s HI).
    + unfold recompute_fuel. lia.
    + congruence.
  - pose proof (top_walk_index _ _ _ Hpost (inv_nested s HI)) as Hidx.
    cbn [clear_events set_active set_events set_dirty _defs] in Hidx.
    assert (n' = length (_defs s)) by lia. subst n'.
    assert (Hlen : length (_defs s1) = length (_defs s)).
    { destruct Hpost as (_ & Hst & _).
      apply length_same_statics in Hst. exact Hst. }
    rewrite Heq. cbn. rewrite Hlen, Nat.eqb_refl, app_nil_r.
    repeat split. exists s1, le. split; auto.
Qed.

End ScheduleFacts.

(** ** The queue and the callbacks *)

Section QueueFacts.
Context {TM : TimeModel}.

Lemma plays_dispatched P s s' :
  plays P s s' -> exists l, dispatched s' = dispatched s ++ l /\ Forall P l.
Proof. intros (_ & _ & H & _). exact H. Qed.

(** Once the queue has been serviced, servicing it again does nothing and
    gives the same answer.  The answer is [true] exactly when entries are
    left in the queue; the sequence of callbacks, made or waiting, is the
    same before and after, and no assertion fails. *)
Theorem service_event_queue_idempotent (s : CMetaInterval) :
  reachable s ->
  service_event_queue (fst (service_event_queue s)) = service_event_queue s /\
  (snd (service_event_queue s) = true <->
   _event_queue (fst (service_event_queue s)) <> []) /\
  dispatched (fst (service_event_queue s)) = dispatched s /\
  _diag (fst (service_event_queue s)) = _diag s.
Proof.
  intros Hr. pose proof (reachable_Inv s Hr) as HI.
  destruct (reachable_queue_split s Hr) as (natives & rest & Hq & Hn & Hrest).
  pose proof (service_loop_spec natives rest s (inv_children s HI) Hq Hn Hrest)
    as H1.
  assert (Hs : service_event_queue s =
               (set_event_queue rest
                  (set_calls
                     (_calls s ++ flat_map (entry_call (_defs s)) natives) s),
                match rest with [] => false | _ :: _ => true end)).
  { unfold service_event_queue. rewrite Hq. exact H1. }
  rewrite !Hs. cbn [fst snd].
  split; [|split; [|split]].
  - unfold service_event_queue. cbn [_event_queue set_event_queue].
    pose proof (service_loop_spec [] rest
                  (set_event_queue rest
                     (set_calls
                        (_calls s ++ flat_map (entry_call (_defs s)) natives)
                        s))
                  (inv_children s HI) eq_refl eq_refl Hrest) as H2.
    cbn [app] in H2. rewrite H2. f_equal.
    unfold_setters. cbn. now rewrite app_nil_r.
  - cbn [_event_queue set_event_queue]. destruct rest; split; congruence.
  - unfold dispatched. cbn [_calls _event_queue set_event_queue set_calls].
    rewrite Hq, !map_app, <- app_assoc. f_equal. f_equal.
    apply entry_calls_dispatch; auto. exact (inv_children s HI).
  - reflexivity.
Qed.

(** The sequence of callbacks, those made followed by those waiting in
    the queue, is only ever extended at its end by the playback methods:
    a callback is never made ahead of an entry that is still queued, and
    none is dropped or moved. *)
Theorem playback_appends_callbacks (s : CMetaInterval) (t : double) :
  (exists l, dispatched (initialize t s) = dispatched s ++ l) /\
  (exists l, dispatched (reverse_initialize t s) = dispatched s ++ l) /\
  (exists l, dispatched (step t s) = dispatched s ++ l) /\
  (exists l, dispatched (finalize s) = dispatched s ++ l) /\
  (exists l, dispatched (instant s) = dispatched s ++ l) /\
  (exists l, dispatched (reverse_instant s) = dispatched s ++ l) /\
  (exists l, dispatched (reverse_finalize s) = dispatched s ++ l).
Proof.
  assert (Hre : forall s',
             plays any_dispatch (recompute s) s' ->
             exists l, dispatched s' = dispatched s ++ l).
  { intros s' Hp. destruct (plays_dispatched _ _ _ Hp) as (l & Hl & _).
    exists l. now rewrite <- (recompute_dispatched s). }
  assert (Hpl : forall s',
             plays any_dispatch s s' ->
             exists l, dispatched s' = dispatched s ++ l).
  { intros s' Hp. destruct (plays_dispatched _ _ _ Hp) as (l & Hl & _).
    now exists l. }
  split; [apply Hre, initialize_plays|].
  split; [apply Hre, reverse_initialize_plays|].
  split; [apply Hpl, step_plays|].
  split; [apply Hpl, finalize_plays|].
  split; [apply Hre, instant_plays|].
  split; [apply Hre, reverse_instant_plays|].
  apply Hpl, reverse_finalize_plays.
Qed.

(** A callback for an external action is never made by this object: it is
    appended to the queue, whether or not the queue is empty, unless it is
    an instant callback of a cold start for an action that is not
    open-ended, which is dropped.  Queued on an empty queue, it is what
    [service_event_queue] then reports as pending, without a call. *)
Theorem enqueue_event_external
  (s : CMetaInterval) (n : nat) (def : IntervalDef)
  (event_type : EventType) (is_initial : bool) (time : Z) :
  nth_error (_defs s) n = Some def ->
  _type def = DT_ext_index ->
  let s' := enqueue_event n event_type is_initial time s in
  let suppressed :=
    is_initial && is_instant_type event_type && negb (_ext_open_ended def) in
  (suppressed = true -> s' = s) /\
  (suppressed = false ->
   s' = set_event_queue (_event_queue s ++ [mkEntry n event_type time]) s) /\
  _calls s' = _calls s /\
  (suppressed = false -> _event_queue s = [] ->
   service_event_queue s' = (s', true)).
Proof.
  intros Hn Hty s' suppressed. subst s' suppressed.
  unfold enqueue_event. rewrite Hn, Hty.
  destruct (is_initial && is_instant_type event_type
            && negb (_ext_open_ended def)) eqn:E.
  - repeat split; intros; try discriminate; reflexivity.
  - split; [discriminate|]. split; [reflexivity|]. split; [reflexivity|].
    intros _ Hq. unfold service_event_queue, push_back_event.
    cbn [_event_queue set_event_queue]. rewrite Hq. cbn [app service_loop q_n].
    cbn [_defs set_event_queue]. now rewrite Hn, Hty.
Qed.

(** [reverse_instant] mirrors [instant]: it dispatches one reverse-instant
    callback, from the last event of the timeline to the first, for every
    event that is not a begin and whose action is open-ended, and leaves
    the active set empty, the cursor at the first event and the current
    time at zero. *)
Theorem reverse_instant_dispatches_open_ended (s : CMetaInterval) :
  reachable s ->
  dispatched (reverse_instant s)
  = dispatched s ++
    map (fun e => (ev_n e, ET_reverse_instant, int_to_double_time 0))
      (filter (fun e => not_begin e &&
                        open_ended_at (_defs (reverse_instant s)) (ev_n e))
         (rev (_events (reverse_instant s)))) /\
  _active (reverse_instant s) = [] /\
  _next_event_index (reverse_instant s) = 0%nat /\
  _curr_t (reverse_instant s) = double_zero.
Proof.
  intros Hr. apply reachable_Inv in Hr.
  pose proof (recompute_Inv_off _ (Inv_off_of_Inv _ Hr)) as Hi.
  pose proof (reverse_instant_plays s)
    as ((Hdefs & Hev & _ & _ & _ & Hdur & _) & _).
  rewrite Hdefs, Hev.
  split; [|split; [|split]].
  - unfold reverse_instant, dispatched.
    cbn [_calls _event_queue set_curr_t set_next_event_index].
    fold (dispatched (instant_loop ET_reverse_instant
                        (rev (_events (set_active [] (recompute s))))
                        (set_active [] (recompute s)))).
    rewrite instant_loop_dispatched.
    + cbn [_defs _events set_active].
      replace (dispatched (set_active [] (recompute s)))
        with (dispatched s) by (symmetry; apply recompute_dispatched).
      do 2 f_equal. apply filter_ext. intros e.
      unfold suppressed_at. simpl. now rewrite negb_involutive.
    + cbn [_defs _events set_active]. intros e He.
      apply (inv_events _ Hi). apply in_rev. exact He.
  - unfold reverse_instant. cbn [_active set_curr_t set_next_event_index].
    now rewrite instant_loop_active.
  - reflexivity.
  - reflexivity.
Qed.

End QueueFacts.

(** ** The timeline of an object in use *)

Section TimelineFacts.
Context {TM : TimeModel}.

Lemma reachable_time_sorted s :
  reachable s -> StronglySorted time_order (_events s).
Proof.
  intros Hr. destruct (reachable_compiled_prefix s Hr) as (defs0 & _ & Hc & _).
  exact (compiled_time_sorted _ _ Hc).
Qed.

(** *** Where the cursor stands *)

Lemma sorted_app_le {A} (R : A -> A -> Prop) l1 l2 x y :
  StronglySorted R (l1 ++ l2) -> In x l1 -> In y l2 -> R x y.
Proof.
  induction l1 as [|a l1 IH]; simpl; intros Hs Hx Hy; [contradiction|].
  inversion Hs as [|? ? Hs' Hall]; subst. destruct Hx as [->|Hx]; auto.
  rewrite Forall_forall in Hall. apply Hall, in_or_app. auto.
Qed.

Lemma sorted_app_r {A} (R : A -> A -> Prop) (l1 l2 : list A) :
  StronglySorted R (l1 ++ l2) -> StronglySorted R l2.
Proof.
  induction l1 as [|a l1 IH]; simpl; auto.
  intros Hs. inversion Hs; auto.
Qed.

Lemma cursor_settled_frame now s s' :
  cursor_frame s s' -> cursor_settled now s -> cursor_settled now s'.
Proof.
  intros (Hi & He & _). unfold cursor_settled, events_behind.
  now rewrite Hi, He.
Qed.

Lemma settled_count_split now (l1 l2 : list PlaybackEvent) :
  StronglySorted time_order (l1 ++ l2) ->
  match l2 with [] => True | e :: _ => (ev_time e <=? now) = false end ->
  match rev l1 with [] => True | e :: _ => (now <? ev_time e) = false end ->
  length l1 = length (events_until now (l1 ++ l2)).
Proof.
  intros Hs Hahead Hbehind. unfold events_until.
  rewrite filter_app, length_app.
  replace (filter _ l2) with (@nil PlaybackEvent).
  - replace (filter (fun e => ev_time e <=? now) l1) with l1;
      [simpl; lia|].
    symmetry. apply forallb_filter_id. apply forallb_forall. intros x Hx.
    destruct (rev l1) as [|e r] eqn:Er.
    + apply (f_equal (@rev _)) in Er. rewrite rev_involutive in Er.
      rewrite Er in Hx. contradiction.
    + apply Z.ltb_ge in Hbehind. apply Z.leb_le.
      apply (f_equal (@rev _)) in Er. rewrite rev_involutive in Er.
      simpl in Er. rewrite Er in Hx, Hs.
      apply in_app_or in Hx as [Hx|[<-|[]]]; [|lia].
      rewrite <- app_assoc in Hs.
      pose proof (sorted_app_le _ _ _ x e Hs Hx (or_introl eq_refl)) as Hle.
      unfold time_order in Hle. lia.
  - symmetry. apply filter_nil_iff. intros x Hx.
    destruct l2 as [|e r]; [contradiction|].
    apply Z.leb_gt in Hahead. apply Z.leb_gt.
    apply sorted_app_r in Hs. inversion Hs as [|? ? _ Hall]; subst.
    destruct Hx as [<-|Hx]; [lia|].
    rewrite Forall_forall in Hall. specialize (Hall x Hx).
    unfold time_order in Hall. lia.
Qed.


Lemma forallb_rev_head_le now (done : list PlaybackEvent) :
  forallb (fun e => ev_time e <=? now) done = true ->
  match rev done with [] => True | e :: _ => (now <? ev_time e) = false end.
Proof.
  intros H. destruct (rev done) as [|e r] eqn:Er; auto.
  rewrite forallb_forall in H. apply Z.ltb_ge, Z.leb_le, H, in_rev.
  rewrite Er. simpl; auto.
Qed.

Lemma forallb_rev_head_gt now (done : list PlaybackEvent) :
  forallb (fun e => now <? ev_time e) done = true ->
  match rev done with [] => True | e :: _ => (ev_time e <=? now) = false end.
Proof.
  intros H. destruct (rev done) as [|e r] eqn:Er; auto.
  rewrite forallb_forall in H. apply Z.leb_gt, Z.ltb_lt, H, in_rev.
  rewrite Er. simpl; auto.
Qed.

Lemma initialize_cursor t s :
  StronglySorted time_order (_events (recompute s)) ->
  _next_event_index (initialize t s)
  = length (events_until (double_to_int_time t) (_events (recompute s))).
Proof.
  intros Hs. unfold initialize. set (now := double_to_int_time t).
  set (s0 := set_active [] (set_next_event_index 0 (recompute s))).
  destruct (scan_forward (fun e => ev_time e <=? now) true
              (events_ahead s0) [] s0) as [s3 na] eqn:E.
  apply scan_forward_cursor in E; [|reflexivity].
  destruct E as (done & rest' & Hsplit & Hall & Hhd & Hev & Hi3 & Hsk).
  pose proof (finish_events_forward_cursor now na s3) as (Hi & He & _).
  cbn [_next_event_index set_curr_t]. rewrite Hi, Hi3.
  unfold events_ahead in Hsplit. subst s0.
  cbn [_events _next_event_index set_active set_next_event_index skipn]
    in Hsplit |- *.
  rewrite Hsplit in Hs |- *.
  apply settled_count_split; auto.
  apply forallb_rev_head_le. exact Hall.
Qed.

Lemma reverse_initialize_cursor t s :
  StronglySorted time_order (_events (recompute s)) ->
  _next_event_index (reverse_initialize t s)
  = length (events_until (double_to_int_time t) (_events (recompute s))).
Proof.
  intros Hs. unfold reverse_initialize. set (now := double_to_int_time t).
  set (s0 := set_active []
               (set_next_event_index (length (_events (recompute s)))
                  (recompute s))).
  destruct (scan_reverse (fun e => now <? ev_time e) true
              (events_behind s0) [] s0) as [s3 na] eqn:E.
  apply scan_reverse_cursor in E;
    [|subst s0; cbn; lia|reflexivity].
  destruct E as (done & rest' & Hsplit & Hall & Hhd & Hev & Hi3 & Hrv & _).
  pose proof (finish_events_reverse_cursor now na s3) as (Hi & He & _).
  cbn [_next_event_index set_curr_t]. rewrite Hi.
  unfold events_behind in Hsplit. subst s0.
  cbn [_events _next_event_index set_active set_next_event_index]
    in Hsplit, Hi3, Hev.
  rewrite firstn_all in Hsplit.
  assert (Hevs : _events (recompute s) = rev rest' ++ rev done).
  { rewrite <- rev_app_distr, <- Hsplit. now rewrite rev_involutive. }
  assert (Hlen : _next_event_index s3 = length (rev rest')).
  { apply (f_equal (@length _)) in Hevs.
    rewrite length_app, !length_rev in Hevs. rewrite length_rev. lia. }
  rewrite Hlen. rewrite Hevs in Hs |- *.
  apply settled_count_split; auto.
  - apply forallb_rev_head_gt. exact Hall.
  - now rewrite rev_involutive.
Qed.


(** A cold start at a time, forwards or backwards, leaves the cursor after
    exactly the events of the recompiled timeline that are not later than
    that time: both directions arrive at the same place. *)
Theorem cold_start_moves_cursor_to_time (s : CMetaInterval) (t : double) :
  reachable s ->
  _next_event_index (initialize t s)
  = length (events_until (double_to_int_time t) (_events (initialize t s))) /\
  _next_event_index (reverse_initialize t s)
  = length (events_until (double_to_int_time t)
              (_events (reverse_initialize t s))) /\
  _events (initialize t s) = _events (recompute s) /\
  _events (reverse_initialize t s) = _events (recompute s).
Proof.
  intros Hr.
  pose proof (plays_events _ _ _ (initialize_plays t s)) as Hev1.
  pose proof (plays_events _ _ _ (reverse_initialize_plays t s)) as Hev2.
  assert (Hs : StronglySorted time_order (_events (recompute s))).
  { rewrite <- Hev1. apply reachable_time_sorted. now apply R_initialize. }
  rewrite Hev1, Hev2.
  split; [now apply initialize_cursor|].
  split; [now apply reverse_initialize_cursor|]. auto.
Qed.

End TimelineFacts.

(** ** The callbacks of each direction *)

Section DirectionFacts.
Context {TM : TimeModel}.

Lemma scan_forward_plays_P (P : Dispatch -> Prop) cond is_initial rest
  new_active s :
  (forall n, P (n, ET_instant, int_to_double_time 0)) ->
  (forall n, P (n, ET_finalize, int_to_double_time 0)) ->
  plays P s (fst (scan_forward cond is_initial rest new_active s)).
Proof.
  intros Hi Hf.
  revert new_active s. induction rest as [|e rest IH]; intros na s; simpl.
  - apply plays_refl.
  - destruct (cond e); [|apply plays_refl].
    pose proof (do_event_forward_plays P e na is_initial s) as Hp.
    destruct (do_event_forward e na is_initial s) as [s1 na1].
    eapply plays_trans; [apply Hp|].
    + intros ety Hd _. unfold forward_dispatch in Hd.
      destruct (ev_type e); try discriminate.
      * destruct (pset_mem _ _); injection Hd as <-; auto.
      * injection Hd as <-; auto.
    + cbn [fst].
      eapply plays_trans; [apply plays_set_next_event_index|]. apply IH.
Qed.

Lemma scan_reverse_plays_P (P : Dispatch -> Prop) cond is_initial rest
  new_active s :
  (forall n, P (n, ET_reverse_instant, int_to_double_time 0)) ->
  (forall n, P (n, ET_reverse_finalize, int_to_double_time 0)) ->
  plays P s (fst (scan_reverse cond is_initial rest new_active s)).
Proof.
  intros Hi Hf.
  revert new_active s. induction rest as [|e rest IH]; intros na s; simpl.
  - apply plays_refl.
  - destruct (cond e); [|apply plays_refl].
    eapply plays_trans; [apply plays_set_next_event_index|].
    pose proof (do_event_reverse_plays P e na is_initial
                  (set_next_event_index (Nat.pred (_next_event_index s)) s))
      as Hp.
    destruct (do_event_reverse e na is_initial _) as [s1 na1].
    eapply plays_trans; [apply Hp|].
    + intros ety Hd _. unfold reverse_dispatch in Hd.
      destruct (ev_type e); try discriminate.
      * destruct (pset_mem _ _); injection Hd as <-; auto.
      * injection Hd as <-; auto.
    + cbn [fst]. apply IH.
Qed.

Lemma instant_loop_plays_P (P : Dispatch -> Prop) event_type events s :
  (forall n, P (n, event_type, int_to_double_time 0)) ->
  plays P s (instant_loop event_type events s).
Proof.
  intros HP. revert s. induction events as [|e events IH]; intros s; simpl.
  - apply plays_refl.
  - eapply plays_trans; [|apply IH].
    destruct (PET_eqb _ _); [apply plays_refl|].
    apply enqueue_event_plays. intros _. apply HP.
Qed.

Lemma do_event_reverse_active_nil event new_active is_initial s :
  _active s = [] ->
  _active (fst (do_event_reverse event new_active is_initial s)) = [].
Proof.
  intros Ha. unfold do_event_reverse.
  destruct (ev_type event).
  - destruct (negb _); [exact Ha|].
    destruct (pset_erase (ev_addr event) new_active) as [na' c].
    destruct (negb (c =? 0)%nat).
    + destruct (c =? 1)%nat; cbn [fst]; unfold assert_failed;
        cbn [_active set_diag]; now rewrite enqueue_event_active.
    + rewrite Ha. cbn.
      unfold assert_failed; cbn [_active set_diag].
      now rewrite enqueue_event_active.
  - destruct (pset_mem _ _); [exact Ha|].
    destruct (pset_insert _ _) as [na' ok]. destruct ok; exact Ha.
  - destruct (negb _); [exact Ha|].
    destruct (pset_mem _ (_active s)); [exact Ha|].
    destruct (pset_mem _ _); [exact Ha|].
    cbn [fst]. now rewrite enqueue_event_active.
Qed.

Lemma scan_forward_active_nil cond is_initial rest new_active s :
  _active s = [] ->
  _active (fst (scan_forward cond is_initial rest new_active s)) = [].
Proof.
  revert new_active s. induction rest as [|e rest IH]; intros na s Ha; simpl;
    auto.
  destruct (cond e); auto.
  pose proof (do_event_forward_active_nil e na is_initial s Ha) as H1.
  destruct (do_event_forward e na is_initial s) as [s1 na1].
  apply IH. exact H1.
Qed.

Lemma scan_reverse_active_nil cond is_initial rest new_active s :
  _active s = [] ->
  _active (fst (scan_reverse cond is_initial rest new_active s)) = [].
Proof.
  revert new_active s. induction rest as [|e rest IH]; intros na s Ha; simpl;
    auto.
  destruct (cond e); auto.
  pose proof (do_event_reverse_active_nil e na is_initial
                (set_next_event_index (Nat.pred (_next_event_index s)) s) Ha)
    as H1.
  destruct (do_event_reverse e na is_initial _) as [s1 na1].
  apply IH. exact H1.
Qed.

Lemma finish_events_forward_plays_P (P : Dispatch -> Prop) now new_active s :
  (_active s = [] \/ forall n t, P (n, ET_step, t)) ->
  (forall n t, P (n, ET_initialize, t)) ->
  plays P s (finish_events_forward now new_active s).
Proof.
  intros Hs Hi. unfold finish_events_forward.
  apply plays_trans with (s2 := step_active now (_active s) s).
  - apply step_active_plays. intros a e Ha _.
    destruct Hs as [Hs|Hs]; [rewrite Hs in Ha; destruct Ha|apply Hs].
  - apply init_new_active_plays. intros; apply Hi.
Qed.

Lemma finish_events_reverse_plays_P (P : Dispatch -> Prop) now new_active s :
  (_active s = [] \/ forall n t, P (n, ET_step, t)) ->
  (forall n t, P (n, ET_reverse_initialize, t)) ->
  plays P s (finish_events_reverse now new_active s).
Proof.
  intros Hs Hi. unfold finish_events_reverse.
  apply plays_trans with (s2 := step_active now (_active s) s).
  - apply step_active_plays. intros a e Ha _.
    destruct Hs as [Hs|Hs]; [rewrite Hs in Ha; destruct Ha|apply Hs].
  - apply init_new_active_plays. intros; apply Hi.
Qed.

Lemma plays_recompute_dispatched P s s' :
  plays P (recompute s) s' ->
  exists l, dispatched s' = dispatched s ++ l /\ Forall P l.
Proof.
  intros Hp. destruct (plays_dispatched _ _ _ Hp) as (l & Hl & HP).
  exists l. now rewrite <- (recompute_dispatched s).
Qed.

Lemma initialize_plays_start t s :
  plays forward_start_callback (recompute s) (initialize t s).
Proof.
  unfold initialize.
  eapply plays_trans; [apply (plays_reset _ 0%nat)|].
  set (s0 := set_active [] (set_next_event_index 0 (recompute s))).
  pose proof (scan_forward_plays_P forward_start_callback
                (fun e => ev_time e <=? double_to_int_time t) true
                (events_ahead s0) [] s0) as Hp.
  pose proof (scan_forward_active_nil
                (fun e => ev_time e <=? double_to_int_time t) true
                (events_ahead s0) [] s0 eq_refl) as Ha.
  destruct (scan_forward _ _ _ _ _) as [s3 na]. cbn [fst] in Hp, Ha.
  eapply plays_trans;
    [apply Hp; intros n; split; cbn; auto; discriminate|].
  eapply plays_trans; [|apply plays_set_curr_t].
  apply finish_events_forward_plays_P; auto.
  intros n t0; split; cbn; auto; discriminate.
Qed.

Lemma reverse_initialize_plays_start t s :
  plays reverse_start_callback (recompute s) (reverse_initialize t s).
Proof.
  unfold reverse_initialize.
  eapply plays_trans;
    [apply (plays_reset _ (length (_events (recompute s))))|].
  set (s0 := set_active []
               (set_next_event_index (length (_events (recompute s)))
                  (recompute s))).
  pose proof (scan_reverse_plays_P reverse_start_callback
                (fun e => double_to_int_time t <? ev_time e) true
                (events_behind s0) [] s0) as Hp.
  pose proof (scan_reverse_active_nil
                (fun e => double_to_int_time t <? ev_time e) true
                (events_behind s0) [] s0 eq_refl) as Ha.
  destruct (scan_reverse _ _ _ _ _) as [s3 na]. cbn [fst] in Hp, Ha.
  eapply plays_trans;
    [apply Hp; intros n; split; cbn; auto; discriminate|].
  eapply plays_trans; [|apply plays_set_curr_t].
  apply finish_events_reverse_plays_P; auto.
  intros n t0; split; cbn; auto; discriminate.
Qed.

Lemma forward_scan_finish_plays cond s :
  let (s3, na) := scan_forward cond false (events_ahead s) [] s in
  forall now, plays forward_callback s (finish_events_forward now na s3).
Proof.
  pose proof (scan_forward_plays_P forward_callback cond false
                (events_ahead s) [] s) as Hp.
  destruct (scan_forward _ _ _ _ _) as [s3 na]. cbn [fst] in Hp.
  intros now.
  eapply plays_trans; [apply Hp; intros n; reflexivity|].
  apply finish_events_forward_plays_P; [right|]; intros; exact I.
Qed.

Lemma reverse_scan_finish_plays cond s :
  let (s3, na) := scan_reverse cond false (events_behind s) [] s in
  forall now, plays reverse_callback s (finish_events_reverse now na s3).
Proof.
  pose proof (scan_reverse_plays_P reverse_callback cond false
                (events_behind s) [] s) as Hp.
  destruct (scan_reverse _ _ _ _ _) as [s3 na]. cbn [fst] in Hp.
  intros now.
  eapply plays_trans; [apply Hp; intros n; reflexivity|].
  apply finish_events_reverse_plays_P; [right|]; intros; exact I.
Qed.

(** The methods that play forwards issue forward callbacks only.  A cold
    start issues instant, finalize and initialize callbacks and never a
    step; [finalize] may also issue steps; [instant] issues instant
    callbacks only.  Instant and finalize callbacks carry the time zero. *)
Theorem forward_methods_issue_forward_callbacks
  (s : CMetaInterval) (t : double) :
  (exists l, dispatched (initialize t s) = dispatched s ++ l /\
             Forall forward_start_callback l) /\
  (exists l, dispatched (finalize s) = dispatched s ++ l /\
             Forall forward_callback l) /\
  (exists l, dispatched (instant s) = dispatched s ++ l /\
             Forall (fun d => dispatch_event d = ET_instant /\
                              snd d = int_to_double_time 0) l).
Proof.
  split; [|split].
  - apply plays_recompute_dispatched, initialize_plays_start.
  - apply plays_dispatched. unfold finalize.
    pose proof (scan_forward_plays_P forward_callback (fun _ => true) false
                  (events_ahead s) [] s) as Hp.
    destruct (scan_forward _ _ _ _ _) as [s3 na]. cbn [fst] in Hp.
    eapply plays_trans; [apply Hp; intros n; reflexivity|].
    eapply plays_trans; [apply plays_set_curr_t|].
    apply finish_events_forward_plays_P; [right|]; intros; exact I.
  - apply plays_recompute_dispatched. unfold instant.
    eapply plays_trans; [apply (plays_set_active _ []); intros a []|].
    eapply plays_trans; [apply instant_loop_plays_P; intros n; now split|].
    eapply plays_trans; [apply plays_set_next_event_index|].
    apply plays_set_curr_t.
Qed.

(** The methods that play backwards issue reverse callbacks only.  A cold
    start backwards issues reverse-instant, reverse-finalize and
    reverse-initialize callbacks and never a step; [reverse_finalize] may
    also issue steps; [reverse_instant] issues reverse-instant callbacks
    only.  Reverse-instant and reverse-finalize callbacks carry the time
    zero. *)
Theorem reverse_methods_issue_reverse_callbacks
  (s : CMetaInterval) (t : double) :
  (exists l, dispatched (reverse_initialize t s) = dispatched s ++ l /\
             Forall reverse_start_callback l) /\
  (exists l, dispatched (reverse_finalize s) = dispatched s ++ l /\
             Forall reverse_callback l) /\
  (exists l, dispatched (reverse_instant s) = dispatched s ++ l /\
             Forall (fun d => dispatch_event d = ET_reverse_instant /\
                              snd d = int_to_double_time 0) l).
Proof.
  split; [|split].
  - apply plays_recompute_dispatched, reverse_initialize_plays_start.
  - apply plays_dispatched. unfold reverse_finalize.
    pose proof (reverse_scan_finish_plays (fun _ => true) s) as Hp.
    destruct (scan_reverse _ _ _ _ _) as [s3 na].
    eapply plays_trans; [apply (Hp 0)|apply plays_set_curr_t].
  - apply plays_recompute_dispatched. unfold reverse_instant.
    eapply plays_trans; [apply (plays_set_active _ []); intros a []|].
    eapply plays_trans; [apply instant_loop_plays_P; intros n; now split|].
    eapply plays_trans; [apply plays_set_next_event_index|].
    apply plays_set_curr_t.
Qed.

(** One call of [step] plays in one direction: the callbacks it issues
    are all forward callbacks when the event at the cursor is due, and all
    reverse callbacks otherwise; a step callback belongs to both. *)
Theorem step_issues_callbacks_of_one_direction
  (s : CMetaInterval) (t : double) :
  exists l,
    dispatched (step t s) = dispatched s ++ l /\
    match nth_error (_events s) (_next_event_index s) with
    | Some event =>
        if ev_time event <=? double_to_int_time t
        then Forall forward_callback l else Forall reverse_callback l
    | None => Forall reverse_callback l
    end.
Proof.
  unfold step.
  destruct (nth_error (_events s) (_next_event_index s)) as [event|].
  - destruct (ev_time event <=? double_to_int_time t).
    + pose proof (forward_scan_finish_plays
                    (fun e => ev_time e <=? double_to_int_time t) s) as Hp.
      destruct (scan_forward _ _ _ _ _) as [s3 na].
      apply plays_dispatched.
      eapply plays_trans; [apply Hp|apply plays_set_curr_t].
    + pose proof (reverse_scan_finish_plays
                    (fun e => double_to_int_time t <? ev_time e) s) as Hp.
      destruct (scan_reverse _ _ _ _ _) as [s3 na].
      apply plays_dispatched.
      eapply plays_trans; [apply Hp|apply plays_set_curr_t].
  - pose proof (reverse_scan_finish_plays
                  (fun e => double_to_int_time t <? ev_time e) s) as Hp.
    destruct (scan_reverse _ _ _ _ _) as [s3 na].
    apply plays_dispatched.
    eapply plays_trans; [apply Hp|apply plays_set_curr_t].
Qed.

End DirectionFacts.

(** ** The reports of an object in use *)

Section ReportFacts.
Context {TM : TimeModel}.







(** A callback for an action is dispatched without a report. *)
Lemma enqueue_event_diag n event_type is_initial time s :
  valid_action (_defs s) n = true ->
  _diag (enqueue_event n event_type is_initial time s) = _diag s.
Proof.
  unfold valid_action, is_action, enqueue_event.
  destruct (nth_error (_defs s) n) as [def|]; [|discriminate].
  destruct (_type def); try discriminate.
  - destruct (_c_interval def); [|discriminate]. intros _.
    destruct_matches; reflexivity.
  - intros _. destruct_matches; reflexivity.
Qed.





Lemma enqueue_event_frame n event_type is_initial time s :
  _defs (enqueue_event n event_type is_initial time s) = _defs s /\
  _events (enqueue_event n event_type is_initial time s) = _events s.
Proof.
  pose proof (enqueue_event_plays any_dispatch n event_type is_initial time s
                (fun _ => I)) as Hp.
  split; [exact (plays_defs _ _ _ Hp)|exact (plays_events _ _ _ Hp)].
Qed.

Lemma addrs_ok_deref events l a :
  addrs_ok events l -> In a l ->
  exists e, deref events a = Some e /\ In e events /\ ev_addr e = a.
Proof.
  intros H Ha. destruct (H a Ha) as (e & He & Hea).
  destruct (deref_In _ _ _ He Hea) as (e' & Hd).
  exists e'. split; auto. now apply deref_Some.
Qed.

Lemma step_active_diag now l s :
  events_wf (_defs s) (_events s) -> addrs_ok (_events s) l ->
  _diag (step_active now l s) = _diag s.
Proof.
  revert s. induction l as [|a l IH]; intros s Hwf Hl; simpl; auto.
  destruct (addrs_ok_deref _ _ a Hl (or_introl eq_refl)) as (e & -> & He & _).
  destruct (enqueue_event_frame (ev_n e) ET_step false (now - ev_time e) s)
    as [Hd Hv].
  rewrite IH.
  - apply enqueue_event_diag. apply Hwf. exact He.
  - now rewrite Hd, Hv.
  - rewrite Hv. intros x Hx. apply Hl. now right.
Qed.







Lemma instant_loop_diag event_type events s :
  events_wf (_defs s) (_events s) -> incl events (_events s) ->
  _diag (instant_loop event_type events s) = _diag s.
Proof.
  revert s. induction events as [|e events IH]; intros s Hwf Hin; simpl; auto.
  assert (He : In e (_events s)) by (apply Hin; now left).
  destruct (Hwf e He) as (Hv & _).
  destruct (PET_eqb _ _).
  - apply IH; auto. intros x Hx. apply Hin. now right.
  - destruct (enqueue_event_frame (ev_n e) event_type true 0 s) as [Hd Hev].
    rewrite IH.
    + now apply enqueue_event_diag.
    + now rewrite Hd, Hev.
    + rewrite Hev. intros x Hx. apply Hin. now right.
Qed.

Lemma compiled_begin_pointer defs events e :
  compiled_ok defs events -> In e events -> ev_type e <> PET_end ->
  ev_begin_event e = ev_addr e.
Proof.
  intros Hc He Hty.
  destruct (compiled_event_shape _ _ _ Hc He) as (b & t & Hin & _).
  unfold events_of in Hin.
  destruct (duration_at defs (ev_n e)) as [q|]; [|destruct Hin].
  remember (ev_n e) as i eqn:Ei. clear Ei.
  destruct (q =? 0).
  - destruct Hin as [<-|[]]. reflexivity.
  - destruct Hin as [<-|[<-|[]]]; [reflexivity|].
    exfalso. now apply Hty.
Qed.

Lemma Inv_events_wf s :
  Inv_off s -> compiled_prefix (_defs s) (_events s) ->
  events_wf (_defs s) (_events s).
Proof.
  intros HI (defs0 & rest & Hc & _) e He.
  destruct (inv_events _ HI e He) as [Hv Hb].
  split; [exact Hv|]. split; [exact Hb|].
  now apply (compiled_begin_pointer defs0 (_events s)).
Qed.


Lemma addrs_ok_nil events : addrs_ok events [].
Proof. intros a []. Qed.






(** A recompile reports nothing but the warning. *)
Lemma recompute_reports s :
  Inv s ->
  _diag (recompute s)
  = _diag s ++ if _dirty s && negb (nesting (_defs s) =? 0)
               then [D_warning pushes_dont_match_pops] else [].
Proof.
  intros HI. unfold recompute. destruct (_dirty s); simpl;
    [|now rewrite app_nil_r].
  destruct (do_recompute_full s (inv_children s HI) (inv_nested s HI))
    as (defs' & E & le & _ & _ & ->).
  cbn. now destruct (nesting (_defs s) =? 0).
Qed.



(** The ground on which a playback method that recompiles first stands. *)
Lemma recompute_ground s k :
  Inv s -> compiled_prefix (_defs s) (_events s) ->
  let s0 := set_active [] (set_next_event_index k (recompute s)) in
  events_wf (_defs s0) (_events s0) /\ addrs_ok (_events s0) (_active s0).
Proof.
  intros HI Hc. split; [|apply addrs_ok_nil].
  apply (Inv_events_wf (recompute s)).
  - apply recompute_Inv_off, Inv_off_of_Inv, HI.
  - now apply recompute_compiled_prefix.
Qed.

Lemma Inv_ground s :
  Inv s -> compiled_prefix (_defs s) (_events s) ->
  events_wf (_defs s) (_events s) /\ addrs_ok (_events s) (_active s).
Proof.
  intros HI Hc. split.
  - apply Inv_events_wf; auto using Inv_off_of_Inv.
  - exact (inv_active s HI).
Qed.






Lemma instant_diag s :
  Inv s -> compiled_prefix (_defs s) (_events s) ->
  _diag (instant s) = _diag (recompute s).
Proof.
  intros HI Hc. destruct (recompute_ground s 0%nat HI Hc) as [Hwf _].
  unfold instant. cbn [_diag set_curr_t set_next_event_index].
  rewrite instant_loop_diag; auto. apply incl_refl.
Qed.

Lemma reverse_instant_diag s :
  Inv s -> compiled_prefix (_defs s) (_events s) ->
  _diag (reverse_instant s) = _diag (recompute s).
Proof.
  intros HI Hc. destruct (recompute_ground s 0%nat HI Hc) as [Hwf _].
  unfold reverse_instant. cbn [_diag set_curr_t set_next_event_index].
  rewrite instant_loop_diag; auto.
  intros x Hx. now apply in_rev in Hx.
Qed.






End ReportFacts.

(** ** The times the compiler records *)

Section TimeFacts.
Context {TM : TimeModel}.

Lemma nth_error_set_actual_eq n t defs d :
  nth_error defs n = Some d ->
  nth_error (set_actual_begin_time n t defs) n
  = Some (with_actual_begin_time t d).
Proof.
  revert n. induction defs as [|x defs IH]; intros [|n] H; simpl in *;
    try discriminate.
  - now inversion H.
  - now apply IH.
Qed.

Lemma nth_error_set_actual_neq n t defs i :
  i <> n ->
  nth_error (set_actual_begin_time n t defs) i = nth_error defs i.
Proof.
  revert n i. induction defs as [|x defs IH]; intros [|n] [|i] H; simpl;
    auto; try congruence.
Qed.

Lemma same_statics_nth defs defs' i d' :
  statics defs' = statics defs -> nth_error defs' i = Some d' ->
  exists d, nth_error defs i = Some d /\
            with_actual_begin_time 0 d' = with_actual_begin_time 0 d.
Proof.
  intros Hst Hn.
  assert (H : nth_error (statics defs) i
              = Some (with_actual_begin_time 0 d'))
    by (now rewrite <- Hst, nth_error_statics, Hn).
  rewrite nth_error_statics in H.
  destruct (nth_error defs i) as [d|]; [|discriminate].
  exists d. split; auto. simpl in H. congruence.
Qed.

Lemma with_actual_fields d d' :
  with_actual_begin_time 0 d' = with_actual_begin_time 0 d ->
  _type d' = _type d /\ _rel_to d' = _rel_to d /\
  _rel_time d' = _rel_time d /\ def_duration d' = def_duration d.
Proof.
  unfold with_actual_begin_time, def_duration. intros H.
  inversion H as [[H1 H2 H3 H4 H5 H6 H7 H8]].
  rewrite H1, H2, H5, H7, H8. auto.
Qed.

Lemma prev_frame defs defs' i :
  (forall k, (k < i)%nat -> nth_error defs' k = nth_error defs k) ->
  previous_end defs' i = previous_end defs i /\
  previous_begin defs' i = previous_begin defs i /\
  first_in_level defs' i = first_in_level defs i.
Proof.
  intros H. destruct i as [|m]; simpl; auto.
  rewrite (H m) by lia. auto.
Qed.

Lemma begin_rule_frame defs defs' i d :
  (forall k, (k < i)%nat -> nth_error defs' k = nth_error defs k) ->
  begin_rule defs i d -> begin_rule defs' i d.
Proof.
  intros H. destruct (prev_frame defs defs' i H) as (He & Hb & Hf).
  unfold begin_rule. now rewrite He, Hb, Hf.
Qed.

Lemma prev_ok_begin_rule defs n lb pb pe d :
  prev_ok defs n lb pb pe ->
  _actual_begin_time d
  = get_begin_time d lb pb pe ->
  begin_rule defs n d.
Proof.
  intros (He & Hb & Hf) Ht. unfold get_begin_time in Ht.
  unfold begin_rule, offset.
  split; [|split].
  - intros Hr x Hx. rewrite Hr in Ht. now rewrite <- (He x Hx).
  - intros Hr x Hx. rewrite Hr in Ht. now rewrite <- (Hb x Hx).
  - intros Hr Hfirst x Hx. rewrite Hr in Ht.
    now rewrite <- (Hb x Hx), <- (Hf Hfirst).
Qed.

Lemma get_begin_time_actual t d lb pb pe :
  get_begin_time (with_actual_begin_time t d) lb pb pe
  = get_begin_time d lb pb pe.
Proof. reflexivity. Qed.

Lemma begin_time_at_frame defs defs' i :
  nth_error defs' i = nth_error defs i ->
  begin_time_at defs' i = begin_time_at defs i.
Proof. unfold begin_time_at. now intros ->. Qed.

Lemma times_post_stop s n lo : times_post s n lo s n lo.
Proof.
  split; [lia|]. split; [auto|]. split.
  - intros X HX e He. rewrite <- (app_nil_r (_events s)) in HX at 1.
    apply app_inv_head in HX. subst X. destruct He.
  - intros i d Hi. lia.
Qed.

Lemma walk_post_events s n s' n' :
  walk_post s n s' n' ->
  (n <= n')%nat /\ statics (_defs s') = statics (_defs s) /\
  exists X, _events s' = _events s ++ X /\
            forall e, In e X -> (n <= ev_n e < n')%nat.
Proof.
  intros (_ & Hst & Hle & _ & _ & X & HX & (Hin & _)).
  split; auto. split; auto. exists X. split; auto.
  intros e He. now apply Hin.
Qed.

Lemma walk_post_pop s n s' n' d :
  walk_post s n s' n' -> nth_error (_defs s') n' = Some d ->
  _type d = DT_pop_level.
Proof.
  intros (_ & Hst & _ & _ & Hpop & _) Hn.
  assert (H : nth_error (statics (_defs s)) n'
              = Some (with_actual_begin_time 0 d))
    by (now rewrite <- Hst, nth_error_statics, Hn).
  now apply Hpop in H.
Qed.

(** The entry walked over is an action. *)
Lemma times_post_action s n def q lb pb pe le0 s' n' le :
  nth_error (_defs s) n = Some def ->
  def_duration def = Some q ->
  _type def <> DT_push_level -> _type def <> DT_pop_level ->
  prev_ok (_defs s) n lb pb pe ->
  let bt := get_begin_time def lb pb pe in
  let s1 := set_events
              (_events s ++ events_of (Some q) n (length (_events s)) bt)
              (set_defs (set_actual_begin_time n bt (_defs s)) s) in
  walk_post s1 (S n) s' n' ->
  (prev_ok (_defs s1) (S n) lb bt (bt + q) ->
   times_post s1 (S n) (Z.max le0 (bt + q)) s' n' le) ->
  times_post s n le0 s' n' le.
Proof.
  intros Hn Hq Hnpush Hnpop Hprev bt s1 Hw IH.
  assert (Hn1 : nth_error (_defs s1) n = Some (with_actual_begin_time bt def)).
  { subst s1. cbn [_defs set_events set_defs].
    now apply nth_error_set_actual_eq. }
  assert (Hprev1 : prev_ok (_defs s1) (S n) lb bt (bt + q)).
  { unfold prev_ok. cbn [previous_end previous_begin first_in_level].
    rewrite Hn1. unfold end_of_entry, begin_of_entry.
    change (_type (with_actual_begin_time bt def)) with (_type def).
    change (def_duration (with_actual_begin_time bt def))
      with (def_duration def).
    rewrite Hq. cbn [_actual_begin_time with_actual_begin_time option_map].
    destruct (_type def); try congruence; cbn;
      (split; [intros x [= <-]; reflexivity|]);
      (split; [intros x [= <-]; reflexivity|discriminate]). }
  specialize (IH Hprev1). destruct IH as (Hle & Hfr & Hev & Hru).
  destruct (walk_post_events _ _ _ _ Hw) as (Hnn & Hst & X1 & HX1 & HinX1).
  assert (Hfr0 : forall i, (i < n)%nat ->
                           nth_error (_defs s') i = nth_error (_defs s) i).
  { intros i Hi. rewrite Hfr by lia. subst s1.
    cbn [_defs set_events set_defs]. apply nth_error_set_actual_neq. lia. }
  assert (Hn' : nth_error (_defs s') n = Some (with_actual_begin_time bt def)).
  { rewrite Hfr by lia. exact Hn1. }
  split; [lia|]. split; [exact Hfr0|]. split.
  - intros X HX e He.
    assert (HXe : X = events_of (Some q) n (length (_events s)) bt ++ X1).
    { apply (app_inv_head (_events s)). rewrite <- HX, HX1. subst s1.
      cbn [_events set_events]. now rewrite app_assoc. }
    subst X. apply in_app_or in He as [He|He]; [|now apply (Hev X1)].
    unfold events_of in He. destruct (Z.eqb_spec q 0) as [Hq0|Hq0].
    + destruct He as [<-|[]]. cbn [ev_type ev_time ev_n]. split.
      * intros _. lia.
      * intros _. unfold begin_time_at. now rewrite Hn'.
    + destruct He as [<-|[<-|[]]]; cbn [ev_type ev_time ev_n]; split;
        try congruence.
      * intros _. unfold begin_time_at. now rewrite Hn'.
      * intros _. lia.
  - intros i d Hi Hd Hty.
    destruct (Nat.eq_dec i n) as [->|Hne]; [|apply Hru; auto; lia].
    rewrite Hn' in Hd. injection Hd as <-.
    apply (begin_rule_frame (_defs s)); [exact Hfr0|].
    eapply prev_ok_begin_rule; [exact Hprev|]. reflexivity.
Qed.

(** The entry walked over opens a group. *)
Lemma times_post_push s n def lb pb pe le0 s2 n1 et s' n' le :
  nth_error (_defs s) n = Some def ->
  _type def = DT_push_level ->
  prev_ok (_defs s) n lb pb pe ->
  let bt := get_begin_time def lb pb pe in
  let s1 := set_defs (set_actual_begin_time n bt (_defs s)) s in
  walk_post s1 (S n) s2 n1 -> walk_post s2 (S n1) s' n' ->
  (prev_ok (_defs s1) (S n) bt bt bt ->
   times_post s1 (S n) bt s2 n1 et /\
   (forall d, nth_error (_defs s2) n1 = Some d -> _actual_begin_time d = et)) ->
  (prev_ok (_defs s2) (S n1) lb bt et ->
   times_post s2 (S n1) (Z.max le0 et) s' n' le) ->
  times_post s n le0 s' n' le.
Proof.
  intros Hn Hty Hprev bt s1 Hw1 Hw2 IH1 IH2.
  assert (Hn1 : nth_error (_defs s1) n = Some (with_actual_begin_time bt def)).
  { subst s1. cbn [_defs set_defs]. now apply nth_error_set_actual_eq. }
  assert (Hprev1 : prev_ok (_defs s1) (S n) bt bt bt).
  { unfold prev_ok. cbn [previous_end previous_begin first_in_level].
    rewrite Hn1. unfold end_of_entry, begin_of_entry.
    change (_type (with_actual_begin_time bt def)) with (_type def).
    rewrite Hty. cbn.
    split; [intros x [= <-]; reflexivity|].
    split; [intros x [= <-]; reflexivity|reflexivity]. }
  destruct (IH1 Hprev1) as ((Hle1 & Hfr1 & Hev1 & Hru1) & Hpop1).
  destruct (walk_post_events _ _ _ _ Hw1) as (Hnn1 & Hst1 & X1 & HX1 & HinX1).
  destruct (walk_post_events _ _ _ _ Hw2) as (Hnn2 & Hst2 & X2 & HX2 & HinX2).
  assert (Hprev2 : prev_ok (_defs s2) (S n1) lb bt et).
  { unfold prev_ok. cbn [previous_end previous_begin first_in_level].
    destruct (nth_error (_defs s2) n1) as [d|] eqn:Ed;
      [|repeat split; discriminate].
    pose proof (walk_post_pop _ _ _ _ _ Hw1 Ed) as Hdp.
    unfold end_of_entry, begin_of_entry. rewrite Hdp. cbn.
    rewrite (Hpop1 d eq_refl).
    split; [intros x [= <-]; reflexivity|]. split; discriminate. }
  destruct (IH2 Hprev2) as (Hle2 & Hfr2 & Hev2 & Hru2).
  assert (Hfr0 : forall i, (i < n)%nat ->
                           nth_error (_defs s') i = nth_error (_defs s) i).
  { intros i Hi. rewrite Hfr2, Hfr1 by lia. subst s1.
    cbn [_defs set_defs]. apply nth_error_set_actual_neq. lia. }
  assert (Hn' : nth_error (_defs s') n = Some (with_actual_begin_time bt def)).
  { rewrite Hfr2, Hfr1 by lia. exact Hn1. }
  split; [lia|]. split; [exact Hfr0|]. split.
  - intros X HX e He.
    assert (HXe : X = X1 ++ X2).
    { apply (app_inv_head (_events s)). rewrite <- HX, HX2, HX1. subst s1.
      cbn [_events set_defs]. now rewrite app_assoc. }
    subst X. apply in_app_or in He as [He|He]; [|now apply (Hev2 X2)].
    destruct (Hev1 X1 HX1 e He) as [Ha Hb]. split.
    + intros Hne. specialize (Ha Hne). lia.
    + intros Hne. rewrite <- (Hb Hne). apply begin_time_at_frame.
      apply Hfr2. specialize (HinX1 e He). lia.
  - intros i d Hi Hd Htyd.
    destruct (Nat.eq_dec i n) as [->|Hne].
    { rewrite Hn' in Hd. injection Hd as <-.
      apply (begin_rule_frame (_defs s)); [exact Hfr0|].
      eapply prev_ok_begin_rule; [exact Hprev|]. reflexivity. }
    destruct (Nat.lt_ge_cases i n1) as [Hlt|Hge].
    { apply (begin_rule_frame (_defs s2));
        [intros k Hk; apply Hfr2; lia|].
      apply Hru1; [lia| |exact Htyd]. rewrite <- Hfr2 by lia. exact Hd. }
    destruct (Nat.eq_dec i n1) as [->|Hne1].
    { exfalso. apply Htyd. rewrite Hfr2 in Hd by lia.
      exact (walk_post_pop _ _ _ _ _ Hw1 Hd). }
    apply Hru2; auto. lia.
Qed.

(** The end of a level: the pop, if there is one, records the end time. *)
Lemma times_post_epilogue s n lo s1 n1 le :
  walk_post s n s1 n1 -> times_post s n lo s1 n1 le ->
  (n1 < length (_defs s1))%nat ->
  times_post s n lo
    (set_defs (set_actual_begin_time n1 le (_defs s1)) s1) n1 le /\
  (forall d,
      nth_error (set_actual_begin_time n1 le (_defs s1)) n1 = Some d ->
      _actual_begin_time d = le).
Proof.
  intros Hw (Hle & Hfr & Hev & Hru) Hlt.
  destruct (walk_post_events _ _ _ _ Hw) as (Hnn & Hst & X1 & HX1 & HinX1).
  split.
  - split; [exact Hle|]. cbn [_defs _events set_defs]. split; [|split].
    + intros i Hi. rewrite nth_error_set_actual_neq by lia. now apply Hfr.
    + intros X HX e He. destruct (Hev X HX e He) as [Ha Hb].
      split; [exact Ha|]. intros Hne. rewrite <- (Hb Hne).
      apply begin_time_at_frame, nth_error_set_actual_neq.
      assert (X = X1) by (apply (app_inv_head (_events s)); congruence).
      subst X. specialize (HinX1 e He). lia.
    + intros i d Hi Hd Hty.
      rewrite nth_error_set_actual_neq in Hd by lia.
      apply (begin_rule_frame (_defs s1)).
      * intros k Hk. apply nth_error_set_actual_neq. lia.
      * now apply Hru.
  - intros d Hd.
    destruct (nth_error (_defs s1) n1) as [d0|] eqn:E.
    + rewrite (nth_error_set_actual_eq _ _ _ _ E) in Hd. now injection Hd as <-.
    + apply nth_error_None in E. lia.
Qed.

Lemma walk_times fuel :
  (forall n lb s s' n' le,
      recompute_level fuel n lb s = Some (s', n', le) ->
      prev_ok (_defs s) n lb lb lb ->
      times_post s n lb s' n' le /\
      (forall d, nth_error (_defs s') n' = Some d ->
                 _actual_begin_time d = le)) /\
  (forall n lb pb pe le0 s s' n' le,
      recompute_loop fuel n lb pb pe le0 s = Some (s', n', le) ->
      prev_ok (_defs s) n lb pb pe ->
      times_post s n le0 s' n' le).
Proof.
  induction fuel as [|fuel [IHlevel IHloop]]; [split; discriminate|].
  destruct (walk_correct fuel) as [WClevel WCloop].
  split.
  - intros n lb s s' n' le H Hprev. simpl in H.
    destruct (recompute_loop fuel n lb lb lb lb s) as [[[s1 n1] le1]|] eqn:E;
      [|discriminate].
    pose proof (WCloop _ _ _ _ _ _ _ _ _ E) as Hw.
    pose proof (IHloop _ _ _ _ _ _ _ _ _ E Hprev) as Ht.
    destruct (Nat.ltb_spec n1 (length (_defs s1))) as [Hlt|Hge];
      inversion H; subst.
    + now apply times_post_epilogue.
    + split; [exact Ht|]. intros d Hd.
      apply nth_error_None in Hge. congruence.
  - intros n lb pb pe le0 s s' n' le H Hprev. simpl in H.
    destruct (nth_error (_defs s) n) as [def|] eqn:En.
    2:{ inversion H; subst. apply times_post_stop. }
    destruct (_type def) eqn:Ety.
    + destruct (_c_interval def) as [ci|] eqn:Eci; [|discriminate].
      rewrite push_events_spec in H.
      match type of H with
      | context [events_of (Some ?x)] =>
          replace x with (double_to_int_time (ci_duration ci)) in H by lia
      end.
      eapply (times_post_action s n def); eauto.
      * unfold def_duration. now rewrite Ety, Eci.
      * congruence.
      * congruence.
    + rewrite push_events_spec in H.
      match type of H with
      | context [events_of (Some ?x)] =>
          replace x with (double_to_int_time (_ext_duration def)) in H by lia
      end.
      eapply (times_post_action s n def); eauto.
      * unfold def_duration. now rewrite Ety.
      * congruence.
      * congruence.
    + match type of H with
      | match ?r with _ => _ end = _ =>
          destruct r as [[[s2 n1] et]|] eqn:E; [|discriminate]
      end.
      eapply (times_post_push s n def); eauto.
    + inversion H; subst. apply times_post_stop.
Qed.

(** The compilation of an object without a null child: the walk returns,
    and what it returns is what [do_recompute] stores. *)
Lemma do_recompute_some s :
  no_null_children (_defs s) ->
  exists s1 n' le,
    recompute_level (recompute_fuel (clear_events (set_dirty false s))) 0 0
      (clear_events (set_dirty false s)) = Some (s1, n', le) /\
    walk_post (clear_events (set_dirty false s)) 0 s1 n' /\
    _defs (do_recompute s) = _defs s1 /\
    _events (do_recompute s) = stable_sort (_events s1) /\
    _end_time (do_recompute s) = le /\
    _duration (do_recompute s) = int_to_double_time le.
Proof.
  intros Hnn.
  destruct (do_recompute_cases s)
    as [[Hnone _]|(s1 & n' & le & Hw & Hpost & Heq)].
  - exfalso.
    destruct (proj1 (walk_total
                       (recompute_fuel (clear_events (set_dirty false s))))
                0%nat 0 (clear_events (set_dirty false s))) as [r Hr'].
    + exact Hnn.
    + unfold recompute_fuel. lia.
    + congruence.
  - exists s1, n', le. rewrite Heq.
    split; [exact Hw|]. split; [exact Hpost|]. cbn. repeat split.
Qed.

Lemma do_recompute_times s :
  no_null_children (_defs s) -> well_nested (_defs s) ->
  0 <= _end_time (do_recompute s) /\
  (forall e, In e (_events (do_recompute s)) ->
     (ev_type e <> PET_begin -> ev_time e <= _end_time (do_recompute s)) /\
     (ev_type e <> PET_end ->
      begin_time_at (_defs (do_recompute s)) (ev_n e) = Some (ev_time e))) /\
  (forall i d, nth_error (_defs (do_recompute s)) i = Some d ->
               _type d <> DT_pop_level ->
               begin_rule (_defs (do_recompute s)) i d).
Proof.
  intros Hnn Hwn.
  destruct (do_recompute_some s Hnn)
    as (s1 & n' & le & Hrun & Hw & -> & -> & -> & _).
  assert (Hp : prev_ok (_defs (clear_events (set_dirty false s))) 0 0 0 0).
  { unfold prev_ok. cbn. repeat split; congruence. }
  destruct (proj1 (walk_times _) _ _ _ _ _ _ Hrun Hp)
    as ((Hle & _ & Hev & Hru) & _).
  split; [exact Hle|]. split.
  - intros e He. apply (proj1 (stable_sort_In _ _)) in He.
    apply (Hev (_events s1)); auto.
  - intros i d Hd Hty. apply Hru; auto.
    pose proof (top_walk_index _ _ _ Hw Hwn) as Hidx.
    pose proof (nesting_nonneg _ Hwn) as Hpos.
    cbn [clear_events set_active set_events set_dirty _defs] in Hidx.
    destruct (walk_post_events _ _ _ _ Hw) as (_ & Hst & _).
    apply length_same_statics in Hst.
    cbn [clear_events set_active set_events set_dirty _defs] in Hst.
    assert (i < length (_defs s1))%nat by (apply nth_error_Some; congruence).
    lia.
Qed.

(** After a compilation the end time is not negative, no action ends
    later than it (every end event and every instant event is at or
    before it), and the duration is the end time as a time. *)
Theorem compiled_duration_bounds_ends (s : CMetaInterval) :
  reachable s ->
  0 <= _end_time (do_recompute s) /\
  (forall e, In e (_events (do_recompute s)) -> ev_type e <> PET_begin ->
             ev_time e <= _end_time (do_recompute s)) /\
  _duration (do_recompute s) = int_to_double_time (_end_time (do_recompute s)).
Proof.
  intros Hr. pose proof (reachable_Inv s Hr) as HI.
  destruct (do_recompute_times s (inv_children s HI) (inv_nested s HI))
    as (H0 & Hev & _).
  split; [exact H0|]. split; [intros e He; now apply Hev|].
  destruct (do_recompute_some s (inv_children s HI))
    as (s1 & n' & le & _ & _ & _ & _ & -> & ->). reflexivity.
Qed.

(** After a compilation the begin time recorded in the entry of an action
    is the time of its begin event, or of its instant event. *)
Theorem compiled_begin_times_recorded (s : CMetaInterval) :
  reachable s ->
  forall e, In e (_events (do_recompute s)) -> ev_type e <> PET_end ->
            begin_time_at (_defs (do_recompute s)) (ev_n e)
            = Some (ev_time e).
Proof.
  intros Hr e He. pose proof (reachable_Inv s Hr) as HI.
  destruct (do_recompute_times s (inv_children s HI) (inv_nested s HI))
    as (_ & Hev & _).
  now apply Hev.
Qed.

(** After a compilation the begin time of every action and of every group
    follows from the entry before it.  Placed relative to the previous
    end, it is the offset after the end of the action before it, or after
    the end of the group before it; placed relative to the previous
    begin, it is the offset after the begin of the action before it.  The
    first entry of the list begins at its offset from zero and the first
    entry of a group at its offset after the begin of the group, however
    they are placed. *)
Theorem begin_time_follows_previous_entry
  (s : CMetaInterval) (i : nat) (d : IntervalDef) :
  reachable s ->
  nth_error (_defs (do_recompute s)) i = Some d ->
  _type d <> DT_pop_level ->
  begin_rule (_defs (do_recompute s)) i d.
Proof.
  intros Hr Hd Hty. pose proof (reachable_Inv s Hr) as HI.
  destruct (do_recompute_times s (inv_children s HI) (inv_nested s HI))
    as (_ & _ & Hru).
  now apply Hru.
Qed.

End TimeFacts.

(** ** The further properties at the scenarios *)

Section FurtherWitnesses.
#[local] Existing Instance Q_time.

(** The nesting level at scenario D, whose group is open. *)
Lemma pop_level_refused_iff_balanced_witness :
  reachable open_group /\
  (_current_nesting_level open_group = nesting (_defs open_group) /\
   0 <= nesting (_defs open_group) /\
   (snd (pop_level open_group) = -1 <-> nesting (_defs open_group) = 0) /\
   (0 < nesting (_defs open_group) ->
    snd (pop_level open_group) = Z.of_nat (length (_defs open_group)) /\
    nth_error (_defs (fst (pop_level open_group))) (length (_defs open_group))
    = Some IntervalDef_new /\
    nesting (_defs (fst (pop_level open_group)))
    = nesting (_defs open_group) - 1)).
Proof.
  split.
  - apply R_add_c_interval, R_push_level, R_new.
  - apply (pop_level_refused_iff_balanced (TM := Q_time)).
    apply R_add_c_interval, R_push_level, R_new.
Defined.

(** The registrations at scenario A. *)
Lemma children_registered_once_per_entry_witness :
  reachable two_in_a_row /\
  _registered two_in_a_row = child_ids (_defs two_in_a_row).
Proof.
  assert (Hr : reachable two_in_a_row)
    by (apply R_pop_level, R_add_c_interval, R_add_c_interval, R_push_level,
          R_new).
  split; [exact Hr|].
  apply (children_registered_once_per_entry (TM := Q_time) _ Hr).
Defined.

(** Clearing scenario A after it has been played. *)
Lemma clear_intervals_resets_witness :
  reachable (instant two_in_a_row) /\
  _event_queue (instant two_in_a_row) = [] /\
  clear_intervals (instant two_in_a_row) =
  mkMeta [] [] [] [] 0 0%nat (_curr_t (instant two_in_a_row))
         (_duration (instant two_in_a_row))
         (_end_time (instant two_in_a_row))
         (_dirty (instant two_in_a_row)) (_calls (instant two_in_a_row)) []
         (_diag (instant two_in_a_row)).
Proof.
  assert (Hr : reachable (instant two_in_a_row))
    by (apply R_instant, R_pop_level, R_add_c_interval, R_add_c_interval,
          R_push_level, R_new).
  assert (Hq : _event_queue (instant two_in_a_row) = [])
    by (vm_compute; reflexivity).
  split; [exact Hr|]. split; [exact Hq|].
  apply (clear_intervals_resets (TM := Q_time) _ Hr Hq).
Defined.

(** Compiling scenario A, whose group is closed. *)
Lemma balanced_schedule_compiles_silently_witness :
  reachable two_in_a_row /\
  nesting (_defs two_in_a_row) = 0 /\
  (exists s1 le,
      recompute_level
        (recompute_fuel (clear_events (set_dirty false two_in_a_row))) 0 0
        (clear_events (set_dirty false two_in_a_row))
      = Some (s1, length (_defs two_in_a_row), le) /\
      _end_time (do_recompute two_in_a_row) = le) /\
  _diag (do_recompute two_in_a_row) = _diag two_in_a_row /\
  _dirty (do_recompute two_in_a_row) = false /\
  _duration (do_recompute two_in_a_row)
  = int_to_double_time (_end_time (do_recompute two_in_a_row)).
Proof.
  assert (Hr : reachable two_in_a_row)
    by (apply R_pop_level, R_add_c_interval, R_add_c_interval, R_push_level,
          R_new).
  assert (Hn : nesting (_defs two_in_a_row) = 0) by (vm_compute; reflexivity).
  split; [exact Hr|]. split; [exact Hn|].
  apply (balanced_schedule_compiles_silently (TM := Q_time) _ Hr Hn).
Defined.

(** Servicing the queue of scenario E, where the external entry waits. *)
Lemma service_event_queue_idempotent_witness :
  reachable (initialize 0%Q external_then_native) /\
  (service_event_queue
     (fst (service_event_queue (initialize 0%Q external_then_native)))
   = service_event_queue (initialize 0%Q external_then_native) /\
   (snd (service_event_queue (initialize 0%Q external_then_native)) = true <->
    _event_queue
      (fst (service_event_queue (initialize 0%Q external_then_native)))
    <> []) /\
   dispatched
     (fst (service_event_queue (initialize 0%Q external_then_native)))
   = dispatched (initialize 0%Q external_then_native) /\
   _diag (fst (service_event_queue (initialize 0%Q external_then_native)))
   = _diag (initialize 0%Q external_then_native)).
Proof.
  assert (Hr : reachable (initialize 0%Q external_then_native))
    by (apply R_initialize, R_add_c_interval, R_add_ext_index, R_new).
  split; [exact Hr|].
  apply (service_event_queue_idempotent (TM := Q_time) _ Hr).
Defined.

(** A step callback for the external action of scenario E. *)
Lemma enqueue_event_external_witness :
  nth_error (_defs external_then_native) 0 = Some external_def /\
  _type external_def = DT_ext_index /\
  let s := external_then_native in
  let s' := enqueue_event 0 ET_step false 1000 s in
  let suppressed :=
    false && is_instant_type ET_step && negb (_ext_open_ended external_def) in
  (suppressed = true -> s' = s) /\
  (suppressed = false ->
   s' = set_event_queue (_event_queue s ++ [mkEntry 0 ET_step 1000]) s) /\
  _calls s' = _calls s /\
  (suppressed = false -> _event_queue s = [] ->
   service_event_queue s' = (s', true)).
Proof.
  assert (Hn : nth_error (_defs external_then_native) 0 = Some external_def)
    by (vm_compute; reflexivity).
  assert (Hty : _type external_def = DT_ext_index) by reflexivity.
  split; [exact Hn|]. split; [exact Hty|].
  exact (enqueue_event_external (TM := Q_time) _ _ _ ET_step false 1000
           Hn Hty).
Defined.

(** Scenario C played backwards in one go. *)
Lemma reverse_instant_dispatches_open_ended_witness :
  reachable one_open_action /\
  (dispatched (reverse_instant one_open_action)
   = dispatched one_open_action ++
     map (fun e => (ev_n e, ET_reverse_instant, int_to_double_time 0))
       (filter (fun e => not_begin e &&
                         open_ended_at
                           (_defs (reverse_instant one_open_action)) (ev_n e))
          (rev (_events (reverse_instant one_open_action)))) /\
   _active (reverse_instant one_open_action) = [] /\
   _next_event_index (reverse_instant one_open_action) = 0%nat /\
   _curr_t (reverse_instant one_open_action) = double_zero).
Proof.
  split.
  - apply R_add_c_interval, R_new.
  - apply (reverse_instant_dispatches_open_ended (TM := Q_time)).
    apply R_add_c_interval, R_new.
Defined.


(** Scenario A started at 1.5 in either direction. *)
Lemma cold_start_moves_cursor_to_time_witness :
  reachable two_in_a_row /\
  (_next_event_index (initialize (3 # 2)%Q two_in_a_row)
   = length (events_until (double_to_int_time (3 # 2)%Q)
               (_events (initialize (3 # 2)%Q two_in_a_row))) /\
   _next_event_index (reverse_initialize (3 # 2)%Q two_in_a_row)
   = length (events_until (double_to_int_time (3 # 2)%Q)
               (_events (reverse_initialize (3 # 2)%Q two_in_a_row))) /\
   _events (initialize (3 # 2)%Q two_in_a_row)
   = _events (recompute two_in_a_row) /\
   _events (reverse_initialize (3 # 2)%Q two_in_a_row)
   = _events (recompute two_in_a_row)).
Proof.
  assert (Hr : reachable two_in_a_row)
    by (apply R_pop_level, R_add_c_interval, R_add_c_interval, R_push_level,
          R_new).
  split; [exact Hr|].
  apply (cold_start_moves_cursor_to_time (TM := Q_time) _ _ Hr).
Defined.


End FurtherWitnesses.

(** ** The bookkeeping of the active set *)

Section SetFacts.

Lemma sorted_lt_notin a l :
  StronglySorted lt (a :: l) -> ~ In a l.
Proof.
  intros H Hin. inversion H as [|? ? _ Hall]; subst.
  rewrite Forall_forall in Hall. specialize (Hall a Hin). lia.
Qed.

Lemma sorted_lt_NoDup l : StronglySorted lt l -> NoDup l.
Proof.
  induction 1 as [|a l Hs IH Hall]; constructor; auto.
  intros Hin. rewrite Forall_forall in Hall. specialize (Hall a Hin). lia.
Qed.

(** Inserting an address that is not in the set. *)
Lemma pset_insert_new a l :
  StronglySorted lt l -> ~ In a l ->
  snd (pset_insert a l) = true /\
  StronglySorted lt (fst (pset_insert a l)).
Proof.
  induction 1 as [|b l Hs IH Hall]; intros Hnot; simpl.
  - split; auto. repeat constructor.
  - destruct (Nat.ltb_spec a b) as [Hlt|Hge]; simpl.
    + split; auto. constructor; [now constructor|].
      constructor; auto. rewrite Forall_forall in *. intros x Hx.
      specialize (Hall x Hx). lia.
    + destruct (Nat.eqb_spec a b) as [->|Hne];
        [exfalso; apply Hnot; now left|].
      destruct IH as [Hok Hsorted]; [intros Hin; apply Hnot; now right|].
      pose proof (pset_insert_In a l) as HIn.
      destruct (pset_insert a l) as [l' ok]. simpl in *.
      split; auto. constructor; auto.
      rewrite Forall_forall in *. intros x Hx.
      apply HIn in Hx as [->|Hx]; [lia|auto].
Qed.

Lemma pset_erase_sorted a l :
  StronglySorted lt l -> StronglySorted lt (fst (pset_erase a l)).
Proof. intros H. unfold pset_erase. simpl. now apply StronglySorted_filter. Qed.

(** Erasing an address of the set removes one element. *)
Lemma pset_erase_member a l :
  StronglySorted lt l -> In a l -> snd (pset_erase a l) = 1%nat.
Proof.
  unfold pset_erase. simpl.
  induction 1 as [|b l Hs IH Hall]; intros Hin; [destruct Hin|].
  simpl. destruct (Nat.eqb_spec a b) as [->|Hne].
  - simpl. f_equal.
    replace (filter (Nat.eqb b) l) with (@nil nat); auto.
    symmetry. apply filter_nil_iff. intros x Hx.
    rewrite Forall_forall in Hall. specialize (Hall x Hx).
    apply Nat.eqb_neq. lia.
  - destruct Hin as [->|Hin]; [congruence|]. now apply IH.
Qed.

Lemma pset_erase_absent a l :
  ~ In a l -> snd (pset_erase a l) = 0%nat.
Proof.
  unfold pset_erase. simpl. intros Hnot.
  replace (filter (Nat.eqb a) l) with (@nil nat); auto.
  symmetry. apply filter_nil_iff. intros x Hx.
  apply Nat.eqb_neq. intros ->. now apply Hnot.
Qed.

Lemma holds_ext l (P Q : nat -> Prop) :
  (forall a, P a <-> Q a) -> holds l P -> holds l Q.
Proof.
  intros H [Hs Hin]. split; auto. intros a. now rewrite Hin.
Qed.

Lemma holds_nil (P : nat -> Prop) : (forall a, ~ P a) -> holds [] P.
Proof.
  intros H. split; [constructor|]. intros a. split; [intros []|].
  intros Ha. now apply H in Ha.
Qed.

Lemma holds_insert a l (P Q : nat -> Prop) :
  holds l P -> ~ P a -> (forall x, Q x <-> x = a \/ P x) ->
  snd (pset_insert a l) = true /\ holds (fst (pset_insert a l)) Q.
Proof.
  intros [Hs Hin] Hnot HQ.
  destruct (pset_insert_new a l Hs) as [Hok Hs'];
    [now rewrite Hin|].
  split; auto. split; auto. intros x.
  now rewrite pset_insert_In, HQ, Hin.
Qed.

Lemma holds_erase a l (P Q : nat -> Prop) :
  holds l P -> (forall x, Q x <-> P x /\ x <> a) ->
  holds (fst (pset_erase a l)) Q /\
  (P a -> snd (pset_erase a l) = 1%nat) /\
  (~ P a -> snd (pset_erase a l) = 0%nat).
Proof.
  intros [Hs Hin] HQ. split; [|split].
  - split; [now apply pset_erase_sorted|]. intros x.
    now rewrite pset_erase_In, HQ, Hin.
  - intros Ha. apply pset_erase_member; auto. now apply Hin.
  - intros Ha. apply pset_erase_absent. now rewrite Hin.
Qed.

Lemma holds_mem a l (P : nat -> Prop) :
  holds l P -> ~ P a -> pset_mem a l = false.
Proof. intros [_ Hin] Hnot. apply pset_mem_false. now rewrite Hin. Qed.

End SetFacts.

(** *** The timeline of actions that do not run backwards *)

Section PairedFacts.
Context {TM : TimeModel}.

Lemma NoDup_split_unique {A} (L L' R R' : list A) x :
  NoDup (L ++ x :: R) -> L ++ x :: R = L' ++ x :: R' -> L = L' /\ R = R'.
Proof.
  revert L'. induction L as [|y L IH]; intros L' Hnd Heq.
  - destruct L' as [|y' L']; simpl in *.
    + now inversion Heq.
    + inversion Heq; subst. inversion Hnd as [|? ? Hnot _]; subst.
      exfalso. apply Hnot. apply in_or_app. right. now left.
  - destruct L' as [|y' L']; simpl in *.
    + inversion Heq; subst. inversion Hnd as [|? ? Hnot _]; subst.
      exfalso. apply Hnot. apply in_or_app. right. now left.
    + inversion Heq; subst. inversion Hnd; subst.
      destruct (IH L') as [-> ->]; auto.
Qed.

Lemma NoDup_addr_events (events : list PlaybackEvent) :
  NoDup (map ev_addr events) -> NoDup events.
Proof. apply NoDup_map_inv. Qed.

Lemma nonneg_durations_prefix defs defs0 rest :
  statics defs = statics defs0 ++ rest ->
  nonneg_durations defs -> nonneg_durations defs0.
Proof.
  intros Hst Hn i q Hq. apply (Hn i).
  rewrite <- duration_at_statics, Hst. rewrite <- duration_at_statics in Hq.
  unfold duration_at in *.
  destruct (nth_error (statics defs0) i) as [d|] eqn:E; [|discriminate].
  now rewrite nth_error_app1, E by (apply nth_error_Some; congruence).
Qed.

Lemma nonneg_durations_same_statics defs defs' :
  statics defs' = statics defs ->
  nonneg_durations defs -> nonneg_durations defs'.
Proof.
  intros Hst Hn i q Hq. apply (Hn i).
  now rewrite <- (duration_at_same_statics _ _ i Hst).
Qed.

(** The events of the entry of an event, in a timeline whose actions have
    no negative duration. *)
Lemma compiled_event_cases defs events x :
  compiled_ok defs events -> nonneg_durations defs -> In x events ->
  (ev_type x = PET_instant) \/
  (exists b e l1 l2 l3,
      events = l1 ++ b :: l2 ++ e :: l3 /\
      ev_type b = PET_begin /\ ev_begin_event b = ev_addr b /\
      ev_type e = PET_end /\ ev_begin_event e = ev_addr b /\
      ev_n b = ev_n x /\ ev_n e = ev_n x /\ (x = b \/ x = e)).
Proof.
  intros Hc Hn Hx.
  destruct (compiled_events_valid _ _ _ Hc Hx) as [Hv _].
  destruct (valid_action_duration _ _ Hv) as [q Hq].
  destruct (compiled_entry_shape _ _ _ _ Hc Hq (Hn _ _ Hq))
    as [(y & l1 & l3 & -> & Hty & Hny & Hoth)
       |(b & e & l1 & l2 & l3 & -> & Hb & Hbb & Hnb & He & Heb & Hne & Hoth)].
  - left. apply in_app_or in Hx as [Hx|[<-|Hx]]; auto;
      exfalso; apply (Hoth x); auto using in_or_app.
  - right. exists b, e, l1, l2, l3. repeat (split; auto).
    apply in_app_or in Hx as [Hx|[<-|Hx]]; auto.
    + exfalso. apply (Hoth x); auto using in_or_app.
    + apply in_app_or in Hx as [Hx|[<-|Hx]]; auto;
        exfalso; apply (Hoth x); auto using in_or_app.
Qed.

Lemma compiled_paired defs events :
  compiled_ok defs events -> nonneg_durations defs -> paired events.
Proof.
  intros Hc Hn.
  pose proof (compiled_addr_NoDup _ _ Hc) as Hnd.
  pose proof (NoDup_addr_events _ Hnd) as Hnde.
  split; [exact Hnd|]. split; [|split].
  - intros L R x Hsplit Hty.
    assert (Hx : In x events)
      by (rewrite Hsplit; apply in_or_app; right; now left).
    destruct (compiled_event_cases _ _ _ Hc Hn Hx)
      as [Hi|(b & e & l1 & l2 & l3 & Hev & Hb & Hbb & He & Heb & _ & _ & Hxe)];
      [congruence|].
    destruct Hxe as [->| ->]; [congruence|].
    rewrite Hev in Hsplit.
    replace (l1 ++ b :: l2 ++ e :: l3) with ((l1 ++ b :: l2) ++ e :: l3)
      in Hsplit by (now rewrite <- app_assoc).
    apply NoDup_split_unique in Hsplit as [<- _].
    + exists b. split; [apply in_or_app; right; now left|].
      split; auto.
    + rewrite <- app_assoc. simpl. now rewrite <- Hev.
  - intros L R x Hsplit Hty.
    assert (Hx : In x events)
      by (rewrite Hsplit; apply in_or_app; right; now left).
    destruct (compiled_event_cases _ _ _ Hc Hn Hx)
      as [Hi|(b & e & l1 & l2 & l3 & Hev & Hb & Hbb & He & Heb & _ & _ & Hxe)];
      [congruence|].
    destruct Hxe as [->| ->]; [|congruence].
    rewrite Hev in Hsplit.
    apply NoDup_split_unique in Hsplit as [_ <-].
    + exists e. split; [apply in_or_app; right; now left|].
      split; auto.
    + now rewrite <- Hev.
  - intros x x' Hx Hx' Hty Hty' Hsame.
    destruct (compiled_event_cases _ _ _ Hc Hn Hx)
      as [Hi|(b & e & l1 & l2 & l3 & Hev & Hb & Hbb & He & Heb & Hnb & Hne
              & Hxe)]; [congruence|].
    destruct Hxe as [->| ->]; [congruence|].
    destruct (compiled_event_cases _ _ _ Hc Hn Hx')
      as [Hi|(b' & e' & l1' & l2' & l3' & Hev' & Hb' & Hbb' & He' & Heb'
              & Hnb' & Hne' & Hxe')]; [congruence|].
    destruct Hxe' as [->| ->]; [congruence|].
    assert (Hbin : In b events)
      by (rewrite Hev; apply in_or_app; right; now left).
    assert (Hbin' : In b' events)
      by (rewrite Hev'; apply in_or_app; right; now left).
    assert (b = b').
    { apply (NoDup_map_inj ev_addr events); auto. congruence. }
    subst b'.
    (* both are the end event of the entry of [b] *)
    destruct (valid_action_duration _ _
                (proj1 (compiled_events_valid _ _ _ Hc Hx))) as [q Hq].
    destruct (compiled_events_at _ _ (ev_n e) Hc) as (b0 & t0 & Hperm).
    rewrite Hq in Hperm.
    assert (Hin1 : In e (events_at (ev_n e) events))
      by (apply events_at_In; auto).
    assert (Hin2 : In e' (events_at (ev_n e) events))
      by (apply events_at_In; split; auto; congruence).
    apply (Permutation_in _ (Permutation_sym Hperm)) in Hin1, Hin2.
    unfold events_of in Hin1, Hin2.
    destruct (q =? 0).
    + destruct Hin1 as [H1|[]], Hin2 as [H2|[]]. congruence.
    + destruct Hin1 as [H1|[H1|[]]], Hin2 as [H2|[H2|[]]]; try congruence;
        exfalso;
        apply (f_equal ev_type) in H1, H2; simpl in H1, H2; congruence.
Qed.

(** The timeline of an object whose actions have no negative duration. *)
Lemma reachable_paired s :
  reachable s -> nonneg_durations (_defs s) -> paired (_events s).
Proof.
  intros Hr Hn.
  destruct (reachable_compiled_prefix s Hr) as (defs0 & rest & Hc & Hst).
  apply (compiled_paired defs0); auto.
  now apply (nonneg_durations_prefix (_defs s) defs0 rest).
Qed.

(** *** Actions that span two stretches of the timeline *)

Lemma spans_nil_l R a : ~ spans [] R a.
Proof. intros [(b & [] & _) _]. Qed.

Lemma spans_nil_r L a : ~ spans L [] a.
Proof. intros [_ (e & [] & _)]. Qed.

Lemma spans_cons_r L x R a :
  ~ end_at a x -> (spans L (x :: R) a <-> spans L R a).
Proof.
  intros Hx. unfold spans. split; intros [Hb (e & He & Hea)]; split; auto.
  - destruct He as [<-|He]; [contradiction|]. now exists e.
  - exists e. split; auto. now right.
Qed.

Lemma spans_snoc_l L x R a :
  ~ begin_at a x -> (spans (L ++ [x]) R a <-> spans L R a).
Proof.
  intros Hx. unfold spans. split; intros [(b & Hb & Hba) He]; split; auto.
  - apply in_app_or in Hb as [Hb|[<-|[]]]; [|contradiction]. now exists b.
  - exists b. split; auto. apply in_or_app. now left.
Qed.

Lemma spans_app_l L1 L2 R a :
  spans (L1 ++ L2) R a <-> spans L1 R a \/ spans L2 R a.
Proof.
  unfold spans. split.
  - intros [(b & Hb & Hba) He]. apply in_app_or in Hb as [Hb|Hb];
      [left|right]; split; auto; now exists b.
  - intros [[(b & Hb & Hba) He]|[(b & Hb & Hba) He]]; split; auto;
      exists b; split; auto; apply in_or_app; auto.
Qed.

Lemma spans_app_r L R1 R2 a :
  spans L (R1 ++ R2) a <-> spans L R1 a \/ spans L R2 a.
Proof.
  unfold spans. split.
  - intros [Hb (e & He & Hea)]. apply in_app_or in He as [He|He];
      [left|right]; split; auto; now exists e.
  - intros [[Hb (e & He & Hea)]|[Hb (e & He & Hea)]]; split; auto;
      exists e; split; auto; apply in_or_app; auto.
Qed.

End PairedFacts.

(** *** One event of the timeline *)

Section EventFacts.
Context {TM : TimeModel}.

Lemma NoDup_app_disjoint {A} (l1 l2 : list A) y :
  NoDup (l1 ++ l2) -> In y l1 -> In y l2 -> False.
Proof.
  induction l1 as [|x l1 IH]; simpl; intros Hnd H1 H2; [destruct H1|].
  inversion Hnd as [|? ? Hnot Hnd']; subst.
  destruct H1 as [->|H1]; [|now apply IH].
  apply Hnot, in_or_app. now right.
Qed.

Lemma paired_addr_inj E y z :
  paired E -> In y E -> In z E -> ev_addr y = ev_addr z -> y = z.
Proof. intros [Hnd _]. now apply NoDup_map_inj. Qed.

Lemma paired_NoDup E : paired E -> NoDup E.
Proof. intros [Hnd _]. now apply NoDup_addr_events. Qed.

Section AtEvent.
Variables (E L R : list PlaybackEvent) (x : PlaybackEvent).
Hypothesis HP : paired E.
Hypothesis HE : E = L ++ x :: R.

Lemma at_In_L y : In y L -> In y E.
Proof. intros H. rewrite HE. apply in_or_app. now left. Qed.

Lemma at_In_R y : In y R -> In y E.
Proof. intros H. rewrite HE. apply in_or_app. right. now right. Qed.

Lemma at_In_x : In x E.
Proof. rewrite HE. apply in_or_app. right. now left. Qed.

Lemma at_notin_L : ~ In x L.
Proof.
  intros H. pose proof (paired_NoDup E HP) as Hnd. rewrite HE in Hnd.
  apply (NoDup_app_disjoint _ _ x Hnd H). now left.
Qed.

Lemma at_notin_R : ~ In x R.
Proof.
  intros H. pose proof (paired_NoDup E HP) as Hnd. rewrite HE in Hnd.
  apply NoDup_remove_2 in Hnd. apply Hnd, in_or_app. now right.
Qed.

Lemma at_L_R_disjoint y : In y L -> In y R -> False.
Proof.
  intros H1 H2. pose proof (paired_NoDup E HP) as Hnd. rewrite HE in Hnd.
  apply (NoDup_app_disjoint _ _ y Hnd H1). now right.
Qed.

(** No action begun in [L'], a part of [L], begins at the address of [x]. *)
Lemma at_no_begin_L L' R' :
  incl L' L -> ~ spans L' R' (ev_addr x).
Proof.
  intros Hi [(b & Hb & _ & Hba) _].
  assert (b = x)
    by (apply (paired_addr_inj E); auto using at_In_L, at_In_x).
  subst b. now apply at_notin_L, Hi.
Qed.

(** No action that ends in [R'], a part of [R], is the one [x] ends. *)
Lemma at_no_end_R L' R' :
  ev_type x = PET_end -> incl R' R ->
  ~ spans L' R' (ev_begin_event x).
Proof.
  intros Hty Hi [_ (e & He & Hte & Hea)].
  assert (e = x).
  { destruct HP as (_ & _ & _ & Hu).
    apply Hu; auto using at_In_R, at_In_x. }
  subst e. now apply at_notin_R, Hi.
Qed.

(** Going forwards past the end event [x]. *)
Lemma at_end_forward L' y :
  ev_type x = PET_end ->
  spans L' R y <-> spans L' (x :: R) y /\ y <> ev_begin_event x.
Proof.
  intros Hty. split.
  - intros Hs. split.
    + destruct Hs as [Hb (e & He & Hea)]. split; auto.
      exists e. split; auto. now right.
    + intros ->. revert Hs. apply at_no_end_R; auto. apply incl_refl.
  - intros [[Hb (e & [<-|He] & Hte & Hea)] Hne]; [congruence|].
    split; auto. exists e. repeat split; auto.
Qed.

(** Going backwards past the begin event [x]. *)
Lemma at_begin_reverse R' y :
  ev_type x = PET_begin ->
  spans L R' y <-> spans (L ++ [x]) R' y /\ y <> ev_addr x.
Proof.
  intros Hty. split.
  - intros Hs. split.
    + destruct Hs as [(b & Hb & Hba) He]. split; auto.
      exists b. split; auto. apply in_or_app. now left.
    + intros ->. revert Hs. apply at_no_begin_L. apply incl_refl.
  - intros [[(b & Hb & Htb & Hba) He] Hne].
    apply in_app_or in Hb as [Hb|[<-|[]]]; [|congruence].
    split; auto. exists b. repeat split; auto.
Qed.

End AtEvent.

Lemma quiet_refl s : quiet s s.
Proof. repeat split. Qed.

Lemma quiet_trans s1 s2 s3 : quiet s1 s2 -> quiet s2 s3 -> quiet s1 s3.
Proof.
  intros (A1 & B1 & C1 & D1) (A2 & B2 & C2 & D2).
  repeat split; congruence.
Qed.

Lemma quiet_enqueue n event_type is_initial time s :
  valid_action (_defs s) n = true ->
  quiet s (enqueue_event n event_type is_initial time s).
Proof.
  intros Hv. destruct (enqueue_event_frame n event_type is_initial time s).
  destruct (enqueue_event_cursor n event_type is_initial time s) as (Hi & _).
  repeat split; auto. now apply enqueue_event_diag.
Qed.

Lemma quiet_set_active v s : quiet s (set_active v s).
Proof. repeat split. Qed.

(** [do_event_forward] at the event [x], with [pre] the events before the
    cursor at the start of the scan and [done] the events scanned so far:
    nothing is reported, the active set loses the action [x] ends, and the
    new set gains the action [x] begins or loses the one it ends. *)
Lemma do_event_forward_ok E pre done x R new_active is_initial s s'
  new_active' :
  paired E -> E = pre ++ done ++ x :: R ->
  valid_action (_defs s) (ev_n x) = true ->
  (ev_type x <> PET_end -> ev_begin_event x = ev_addr x) ->
  holds (_active s) (spans pre (x :: R)) ->
  holds new_active (spans done (x :: R)) ->
  do_event_forward x new_active is_initial s = (s', new_active') ->
  quiet s s' /\
  holds (_active s') (spans pre R) /\
  holds new_active' (spans (done ++ [x]) R).
Proof.
  intros HP HE Hv Hself Hact Hna Hdo.
  assert (HE' : E = (pre ++ done) ++ x :: R) by (now rewrite <- app_assoc).
  assert (Hpre : incl pre (pre ++ done))
    by (intros y Hy; apply in_or_app; auto).
  assert (Hdone : incl done (pre ++ done))
    by (intros y Hy; apply in_or_app; auto).
  unfold do_event_forward in Hdo. destruct (ev_type x) eqn:Ety.
  - (* a begin event *)
    rewrite Hself, Nat.eqb_refl in Hdo by congruence. cbn [negb] in Hdo.
    rewrite (holds_mem _ _ _ Hact) in Hdo
      by (now apply (at_no_begin_L E (pre ++ done) R x)).
    destruct (holds_insert (ev_addr x) new_active _
                (spans (done ++ [x]) R) Hna) as [Hok Hna'].
    { now apply (at_no_begin_L E (pre ++ done) R x). }
    { intros y. rewrite spans_app_l. split.
      - intros [Hy|[(b & [<-|[]] & _ & Hba) _]]; auto.
        right. apply spans_cons_r; auto. intros [Hte _]. congruence.
      - intros [->|Hy].
        + right. split; [exists x; repeat split; simpl; auto|].
          destruct HP as (_ & _ & Hend & _). now apply (Hend _ _ _ HE').
        + left. apply spans_cons_r in Hy; auto. intros [Hte _]. congruence. }
    destruct (pset_insert (ev_addr x) new_active) as [na1 ok].
    cbn [fst snd] in *. subst ok. injection Hdo as <- <-.
    split; [apply quiet_refl|]. split; auto.
    eapply holds_ext; [|exact Hact].
    intros y. apply spans_cons_r. intros [Hte _]. congruence.
  - (* an end event *)
    assert (Hstep : forall L' y,
               spans L' R y <->
               spans L' (x :: R) y /\ y <> ev_begin_event x)
      by (intros L' y; now apply (at_end_forward E (pre ++ done) R x)).
    assert (Hsnoc : forall y, spans (done ++ [x]) R y <-> spans done R y).
    { intros y. apply spans_snoc_l. intros [Htb _]. congruence. }
    destruct (holds_erase (ev_begin_event x) new_active _
                (spans (done ++ [x]) R) Hna) as (Hna' & Hone & Hzero).
    { intros y. now rewrite Hsnoc, Hstep. }
    destruct (pset_erase (ev_begin_event x) new_active) as [na1 c].
    cbn [fst snd] in *.
    destruct (in_dec Nat.eq_dec (ev_begin_event x) new_active) as [Hin|Hnin].
    + (* begun in this scan *)
      assert (Hsp : spans done (x :: R) (ev_begin_event x))
        by (now apply (proj2 Hna)).
      rewrite (Hone Hsp) in Hdo. cbn [Nat.eqb negb] in Hdo.
      injection Hdo as <- <-.
      split; [now apply quiet_enqueue|].
      rewrite enqueue_event_active. split; auto.
      eapply holds_ext; [|exact Hact].
      intros y. rewrite Hstep. split; [|tauto].
      intros Hy. split; auto. intros ->.
      destruct Hy as [(b & Hb & _ & Hba) _].
      destruct Hsp as [(b' & Hb' & _ & Hba') _].
      assert (b = b').
      { apply (paired_addr_inj E); auto; try congruence;
          rewrite HE'; apply in_or_app; left; apply in_or_app; auto. }
      subst b'. pose proof (paired_NoDup E HP) as Hnd.
      rewrite HE in Hnd.
      apply (NoDup_app_disjoint _ _ b Hnd Hb). apply in_or_app. now left.
    + (* begun before this scan *)
      assert (Hnsp : ~ spans done (x :: R) (ev_begin_event x))
        by (intros Hsp; now apply Hnin, (proj2 Hna)).
      rewrite (Hzero Hnsp) in Hdo. cbn [Nat.eqb negb] in Hdo.
      assert (Hsp : spans pre (x :: R) (ev_begin_event x)).
      { destruct HP as (_ & Hbeg & _).
        destruct (Hbeg _ _ _ HE' Ety) as (b & Hb & Hba).
        assert (Hx : exists e, In e (x :: R) /\ end_at (ev_begin_event x) e)
          by (exists x; repeat split; simpl; auto).
        split; auto. apply in_app_or in Hb as [Hb|Hb]; [now exists b|].
        exfalso. apply Hnsp. split; auto. now exists b. }
      destruct (holds_erase (ev_begin_event x) (_active s) _
                  (spans pre R) Hact) as (Hact' & Hone' & _).
      { intros y. now rewrite Hstep. }
      destruct (pset_erase (ev_begin_event x) (_active s)) as [a1 c'].
      cbn [fst snd] in *. rewrite (Hone' Hsp) in Hdo.
      cbn [Nat.eqb negb] in Hdo.
      injection Hdo as <- <-.
      split.
      * eapply quiet_trans; [apply (quiet_set_active a1)|].
        now apply quiet_enqueue.
      * rewrite enqueue_event_active. split; auto.
  - (* an instant event *)
    rewrite Hself, Nat.eqb_refl in Hdo by congruence. cbn [negb] in Hdo.
    rewrite (holds_mem _ _ _ Hna) in Hdo
      by (now apply (at_no_begin_L E (pre ++ done) R x)).
    rewrite (holds_mem _ _ _ Hact) in Hdo
      by (now apply (at_no_begin_L E (pre ++ done) R x)).
    injection Hdo as <- <-.
    split; [now apply quiet_enqueue|].
    rewrite enqueue_event_active. split.
    + eapply holds_ext; [|exact Hact].
      intros y. apply spans_cons_r. intros [Hte _]. congruence.
    + eapply holds_ext; [|exact Hna]. intros y.
      rewrite spans_snoc_l by (intros [Htb _]; congruence).
      apply spans_cons_r. intros [Hte _]. congruence.
Qed.

(** [do_event_reverse] at the event [x], with [post] the events from the
    cursor at the start of the scan on and [mid] the events scanned so
    far: nothing is reported, the active set loses the action [x] begins,
    and the new set gains the action [x] ends or loses the one it
    begins. *)
Lemma do_event_reverse_ok E Lr x mid post new_active is_initial s s'
  new_active' :
  paired E -> E = Lr ++ x :: mid ++ post ->
  valid_action (_defs s) (ev_n x) = true ->
  (ev_type x <> PET_end -> ev_begin_event x = ev_addr x) ->
  holds (_active s) (spans (Lr ++ [x]) post) ->
  holds new_active (spans (Lr ++ [x]) mid) ->
  do_event_reverse x new_active is_initial s = (s', new_active') ->
  quiet s s' /\
  holds (_active s') (spans Lr post) /\
  holds new_active' (spans Lr (x :: mid)).
Proof.
  intros HP HE Hv Hself Hact Hna Hdo.
  assert (Hmid : incl mid (mid ++ post))
    by (intros y Hy; apply in_or_app; auto).
  assert (Hpost : incl post (mid ++ post))
    by (intros y Hy; apply in_or_app; auto).
  unfold do_event_reverse in Hdo. destruct (ev_type x) eqn:Ety.
  - (* a begin event *)
    rewrite Hself, Nat.eqb_refl in Hdo by congruence. cbn [negb] in Hdo.
    assert (Hstep : forall R' y,
               spans Lr R' y <->
               spans (Lr ++ [x]) R' y /\ y <> ev_addr x)
      by (intros R' y; now apply (at_begin_reverse E Lr (mid ++ post) x)).
    assert (Hcons : forall y, spans Lr (x :: mid) y <-> spans Lr mid y).
    { intros y. apply spans_cons_r. intros [Hte _]. congruence. }
    destruct (holds_erase (ev_addr x) new_active _
                (spans Lr (x :: mid)) Hna) as (Hna' & Hone & Hzero).
    { intros y. now rewrite Hcons, Hstep. }
    destruct (pset_erase (ev_addr x) new_active) as [na1 c].
    cbn [fst snd] in *.
    destruct (in_dec Nat.eq_dec (ev_addr x) new_active) as [Hin|Hnin].
    + (* ended in this scan *)
      assert (Hsp : spans (Lr ++ [x]) mid (ev_addr x))
        by (now apply (proj2 Hna)).
      rewrite (Hone Hsp) in Hdo. cbn [Nat.eqb negb] in Hdo.
      injection Hdo as <- <-.
      split; [now apply quiet_enqueue|].
      rewrite enqueue_event_active. split; auto.
      eapply holds_ext; [|exact Hact].
      intros y. rewrite Hstep. split; [|tauto].
      intros Hy. split; auto. intros ->.
      destruct Hy as [_ (e & He & Hte & Hea)].
      destruct Hsp as [_ (e' & He' & Hte' & Hea')].
      assert (e = e').
      { destruct HP as (_ & _ & _ & Hu).
        apply Hu; auto; try congruence; rewrite HE; apply in_or_app; right;
          right; apply in_or_app; auto. }
      subst e'. pose proof (paired_NoDup E HP) as Hnd.
      rewrite HE in Hnd. apply NoDup_app_remove_l in Hnd.
      inversion Hnd as [|? ? _ Hnd']; subst.
      apply (NoDup_app_disjoint _ _ e Hnd' He' He).
    + (* ended after this scan *)
      assert (Hnsp : ~ spans (Lr ++ [x]) mid (ev_addr x))
        by (intros Hsp; now apply Hnin, (proj2 Hna)).
      rewrite (Hzero Hnsp) in Hdo. cbn [Nat.eqb negb] in Hdo.
      assert (Hsp : spans (Lr ++ [x]) post (ev_addr x)).
      { assert (Hx : exists b, In b (Lr ++ [x]) /\ begin_at (ev_addr x) b).
        { exists x. split; [apply in_or_app; right; now left|].
          split; auto. }
        destruct HP as (_ & _ & Hend & _).
        destruct (Hend _ _ _ HE Ety) as (e & He & Hea).
        split; auto. apply in_app_or in He as [He|He]; [|now exists e].
        exfalso. apply Hnsp. split; auto. now exists e. }
      destruct (holds_erase (ev_addr x) (_active s) _
                  (spans Lr post) Hact) as (Hact' & Hone' & _).
      { intros y. now rewrite Hstep. }
      destruct (pset_erase (ev_addr x) (_active s)) as [a1 c'].
      cbn [fst snd] in *. rewrite (Hone' Hsp) in Hdo.
      cbn [Nat.eqb negb] in Hdo. injection Hdo as <- <-.
      split.
      * eapply quiet_trans; [apply (quiet_set_active a1)|].
        now apply quiet_enqueue.
      * rewrite enqueue_event_active. split; auto.
  - (* an end event *)
    rewrite (holds_mem _ _ _ Hna) in Hdo
      by (now apply (at_no_end_R E Lr (mid ++ post) x)).
    destruct (holds_insert (ev_begin_event x) new_active _
                (spans Lr (x :: mid)) Hna) as [Hok Hna'].
    { now apply (at_no_end_R E Lr (mid ++ post) x). }
    { intros y. rewrite (spans_snoc_l Lr x mid y)
        by (intros [Htb _]; congruence).
      split.
      - intros [Hb (e & [<-|He] & Hte & Hea)]; [now left|].
        right. split; auto. exists e. repeat split; auto.
      - intros [->|[Hb (e & He & Hea)]].
        + split; [|exists x; repeat split; simpl; auto].
          destruct HP as (_ & Hbeg & _). now apply (Hbeg _ _ _ HE).
        + split; auto. exists e. split; auto. now right. }
    destruct (pset_insert (ev_begin_event x) new_active) as [na1 ok].
    cbn [fst snd] in *. subst ok. injection Hdo as <- <-.
    split; [apply quiet_refl|]. split; auto.
    eapply holds_ext; [|exact Hact].
    intros y. apply spans_snoc_l. intros [Htb _]. congruence.
  - (* an instant event *)
    rewrite Hself, Nat.eqb_refl in Hdo by congruence. cbn [negb] in Hdo.
    assert (Hno : forall R', ~ spans (Lr ++ [x]) R' (ev_addr x)).
    { intros R' [(b & Hb & Htb & Hba) _].
      apply in_app_or in Hb as [Hb|[<-|[]]]; [|congruence].
      assert (b = x).
      { apply (paired_addr_inj E); auto; rewrite HE; apply in_or_app;
          [now left|right; now left]. }
      congruence. }
    rewrite (holds_mem _ _ _ Hact) in Hdo by apply Hno.
    rewrite (holds_mem _ _ _ Hna) in Hdo by apply Hno.
    injection Hdo as <- <-.
    split; [now apply quiet_enqueue|].
    rewrite enqueue_event_active. split.
    + eapply holds_ext; [|exact Hact].
      intros y. apply spans_snoc_l. intros [Htb _]. congruence.
    + eapply holds_ext; [|exact Hna]. intros y.
      rewrite (spans_snoc_l Lr x mid y) by (intros [Htb _]; congruence).
      symmetry. apply spans_cons_r. intros [Hte _]. congruence.
Qed.

End EventFacts.

(** *** A scan of the timeline *)

Section ScanFacts.
Context {TM : TimeModel}.

Lemma events_wf_quiet defs E s s' :
  quiet s s' -> _defs s = defs -> events_wf (_defs s') E ->
  events_wf defs E.
Proof. intros (_ & Hd & _) <-. now rewrite Hd. Qed.

Lemma scan_forward_ok E pre cond is_initial todo :
  forall done new_active s s' new_active',
    paired E -> E = pre ++ done ++ todo ->
    events_wf (_defs s) E ->
    holds (_active s) (spans pre todo) ->
    holds new_active (spans done todo) ->
    scan_forward cond is_initial todo new_active s = (s', new_active') ->
    exists done' todo',
      todo = done' ++ todo' /\
      _diag s' = _diag s /\ _defs s' = _defs s /\ _events s' = _events s /\
      _next_event_index s' = (_next_event_index s + length done')%nat /\
      holds (_active s') (spans pre todo') /\
      holds new_active' (spans (done ++ done') todo').
Proof.
  induction todo as [|x todo IH];
    intros done na s s' na' HP HE Hwf Hact Hna Hscan; simpl in Hscan.
  - injection Hscan as <- <-. exists [], []. rewrite !app_nil_r.
    split; [reflexivity|]. do 4 (split; [simpl; auto; lia|]). now split.
  - destruct (cond x).
    2:{ injection Hscan as <- <-. exists [], (x :: todo). rewrite !app_nil_r.
        split; [reflexivity|]. do 4 (split; [simpl; auto; lia|]).
        now split. }
    assert (Hx : In x E).
    { rewrite HE. apply in_or_app. right. apply in_or_app. right. now left. }
    destruct (Hwf x Hx) as (Hv & _ & Hself).
    destruct (do_event_forward x na is_initial s) as [s1 na1] eqn:Edo.
    destruct (do_event_forward_ok E pre done x todo na is_initial s s1 na1
                HP HE Hv Hself Hact Hna Edo)
      as ((Hd1 & Hdefs1 & Hev1 & Hi1) & Hact1 & Hna1).
    destruct (IH (done ++ [x]) na1
                (set_next_event_index (S (_next_event_index s1)) s1) s' na')
      as (done' & todo' & Hsplit & Hd & Hdefs & Hev & Hi & Hact' & Hna');
      auto.
    + now rewrite <- app_assoc.
    + cbn [_defs set_next_event_index]. now rewrite Hdefs1.
    + cbn [_diag _defs _events _next_event_index set_next_event_index] in *.
      exists (x :: done'), todo'. rewrite <- app_assoc in Hna'.
      split; [simpl; now rewrite Hsplit|].
      do 3 (split; [congruence|]). split; [simpl; lia|]. now split.
Qed.

Lemma scan_reverse_ok E post cond is_initial todo :
  forall mid new_active s s' new_active',
    paired E -> E = rev todo ++ mid ++ post ->
    events_wf (_defs s) E ->
    holds (_active s) (spans (rev todo) post) ->
    holds new_active (spans (rev todo) mid) ->
    scan_reverse cond is_initial todo new_active s = (s', new_active') ->
    exists done' todo',
      todo = done' ++ todo' /\
      _diag s' = _diag s /\ _defs s' = _defs s /\ _events s' = _events s /\
      _next_event_index s' = (_next_event_index s - length done')%nat /\
      holds (_active s') (spans (rev todo') post) /\
      holds new_active' (spans (rev todo') (rev done' ++ mid)).
Proof.
  induction todo as [|x todo IH];
    intros mid na s s' na' HP HE Hwf Hact Hna Hscan; simpl in Hscan.
  - injection Hscan as <- <-. exists [], [].
    split; [reflexivity|]. do 4 (split; [simpl; auto; lia|]). now split.
  - destruct (cond x).
    2:{ injection Hscan as <- <-. exists [], (x :: todo).
        split; [reflexivity|]. do 4 (split; [simpl; auto; lia|]).
        now split. }
    simpl in HE, Hact, Hna. rewrite <- app_assoc in HE. simpl in HE.
    assert (Hx : In x E).
    { rewrite HE. apply in_or_app. right. now left. }
    destruct (Hwf x Hx) as (Hv & _ & Hself).
    set (s0 := set_next_event_index (Nat.pred (_next_event_index s)) s) in *.
    destruct (do_event_reverse x na is_initial s0) as [s1 na1] eqn:Edo.
    destruct (do_event_reverse_ok E (rev todo) x mid post na is_initial s0 s1
                na1 HP HE Hv Hself Hact Hna Edo)
      as ((Hd1 & Hdefs1 & Hev1 & Hi1) & Hact1 & Hna1).
    destruct (IH (x :: mid) na1 s1 s' na')
      as (done' & todo' & Hsplit & Hd & Hdefs & Hev & Hi & Hact' & Hna');
      auto.
    + now rewrite Hdefs1.
    + subst s0.
      cbn [_diag _defs _events _next_event_index set_next_event_index] in *.
      exists (x :: done'), todo'.
      split; [simpl; now rewrite Hsplit|].
      do 3 (split; [congruence|]). split; [simpl; lia|].
      split; [exact Hact'|]. simpl. now rewrite <- app_assoc.
Qed.

(** *** The end of a scan *)

Lemma step_active_quiet now l s :
  events_wf (_defs s) (_events s) -> addrs_ok (_events s) l ->
  quiet s (step_active now l s) /\ _active (step_active now l s) = _active s.
Proof.
  intros Hwf Hl.
  pose proof (step_active_plays any_dispatch now l s (fun _ _ _ _ => I)) as Hp.
  destruct (step_active_cursor now l s) as (Hi & _).
  split; [|apply step_active_active].
  repeat split; auto.
  - now apply step_active_diag.
  - exact (plays_defs _ _ _ Hp).
  - exact (plays_events _ _ _ Hp).
Qed.

Lemma init_new_active_ok event_type now l :
  forall s,
    events_wf (_defs s) (_events s) -> addrs_ok (_events s) l ->
    StronglySorted lt l -> StronglySorted lt (_active s) ->
    (forall a, In a l -> ~ In a (_active s)) ->
    quiet s (init_new_active event_type now l s) /\
    StronglySorted lt (_active (init_new_active event_type now l s)) /\
    forall a, In a (_active (init_new_active event_type now l s)) <->
              In a (_active s) \/ In a l.
Proof.
  induction l as [|a l IH]; intros s Hwf Hl Hsl Hsa Hdis; simpl.
  - split; [apply quiet_refl|]. split; auto. intros a. tauto.
  - destruct (addrs_ok_deref _ _ a Hl (or_introl eq_refl))
      as (e & -> & He & _).
    set (s1 := enqueue_event (ev_n e) event_type false (now - ev_time e) s).
    assert (Hq1 : quiet s s1) by (apply quiet_enqueue, Hwf, He).
    assert (Ha1 : _active s1 = _active s) by apply enqueue_event_active.
    destruct (pset_insert_new a (_active s1)) as [Hok Hsorted].
    { now rewrite Ha1. }
    { rewrite Ha1. apply Hdis. now left. }
    pose proof (pset_insert_In a (_active s1)) as HIn.
    destruct (pset_insert a (_active s1)) as [active' inserted].
    cbn [fst snd] in *. subst inserted.
    destruct Hq1 as (Hd1 & Hdefs1 & Hev1 & Hi1).
    inversion Hsl as [|? ? Hsl' Hall]; subst.
    destruct (IH (set_active active' s1)) as (Hq & Hs' & Hin'); auto.
    + cbn [_defs _events set_active]. now rewrite Hdefs1, Hev1.
    + cbn [_events set_active]. rewrite Hev1.
      intros x Hx. apply Hl. now right.
    + cbn [_active set_active]. intros x Hx Hx'.
      apply HIn in Hx' as [->|Hx'].
      * now apply (sorted_lt_notin a l).
      * rewrite Ha1 in Hx'. apply (Hdis x); auto. now right.
    + split; [|split; auto].
      * destruct Hq as (A & B & C & D).
        cbn [_diag _defs _events _next_event_index set_active] in *.
        repeat split; congruence.
      * intros x. rewrite Hin'. cbn [_active set_active].
        rewrite HIn, Ha1. simpl. intuition congruence.
Qed.

Lemma holds_addrs_ok E L R l :
  incl L E -> holds l (spans L R) -> addrs_ok E l.
Proof.
  intros Hi [_ Hin] a Ha. apply Hin in Ha as [(b & Hb & _ & Hba) _].
  exists b. split; auto.
Qed.

(** The two loops that end a scan: nothing is reported, and the active
    set takes the new set in. *)
Lemma finish_ok event_type now new_active s (P Q : nat -> Prop) :
  events_wf (_defs s) (_events s) ->
  addrs_ok (_events s) (_active s) -> addrs_ok (_events s) new_active ->
  holds (_active s) P -> holds new_active Q ->
  (forall a, P a -> Q a -> False) ->
  let s' := init_new_active event_type now new_active
              (step_active now (_active s) s) in
  quiet s s' /\ holds (_active s') (fun a => P a \/ Q a).
Proof.
  intros Hwf Ha Hn [HsP HP] [HsQ HQ] Hdis s'. subst s'.
  destruct (step_active_quiet now (_active s) s Hwf Ha)
    as [(Hd1 & Hdefs1 & Hev1 & Hi1) Hact1].
  destruct (init_new_active_ok event_type now new_active
              (step_active now (_active s) s)) as (Hq & Hs' & Hin'); auto.
  - now rewrite Hdefs1, Hev1.
  - now rewrite Hev1.
  - now rewrite Hact1.
  - rewrite Hact1. intros a Hq Hp. apply (Hdis a); [now apply HP|now apply HQ].
  - split.
    + destruct Hq as (A & B & C & D). repeat split; congruence.
    + split; auto. intros a. rewrite Hin', Hact1, HP, HQ. tauto.
Qed.

End ScanFacts.

(** *** The playback methods *)

Section PassFacts.
Context {TM : TimeModel}.

Lemma firstn_skipn_at {A} (l1 l2 : list A) :
  firstn (length l1) (l1 ++ l2) = l1 /\ skipn (length l1) (l1 ++ l2) = l2.
Proof.
  split.
  - rewrite firstn_app, Nat.sub_diag, firstn_all. simpl. apply app_nil_r.
  - rewrite skipn_app, Nat.sub_diag, skipn_all. reflexivity.
Qed.

Lemma active_ok_frame s s' :
  _active s' = _active s -> _events s' = _events s ->
  _next_event_index s' = _next_event_index s ->
  active_ok s -> active_ok s'.
Proof. unfold active_ok. now intros -> -> ->. Qed.

Lemma active_ok_start s :
  _active s = [] -> _next_event_index s = 0%nat -> active_ok s.
Proof.
  intros Ha Hi. unfold active_ok, in_progress. rewrite Ha, Hi.
  apply holds_nil. intros a. apply spans_nil_l.
Qed.

Lemma active_ok_end s :
  _active s = [] -> _next_event_index s = length (_events s) -> active_ok s.
Proof.
  intros Ha Hi. unfold active_ok, in_progress. rewrite Ha, Hi, skipn_all.
  apply holds_nil. intros a. apply spans_nil_r.
Qed.

(** A forward scan from the cursor and the loops that end it; [f] stands
    for what the method does in between. *)
Lemma forward_pass_ok cond is_initial (f : CMetaInterval -> CMetaInterval)
  now s :
  (forall x, quiet x (f x) /\ _active (f x) = _active x) ->
  paired (_events s) -> events_wf (_defs s) (_events s) ->
  (_next_event_index s <= length (_events s))%nat -> active_ok s ->
  let r := scan_forward cond is_initial (events_ahead s) [] s in
  let s' := finish_events_forward now (snd r) (f (fst r)) in
  _diag s' = _diag s /\ active_ok s'.
Proof.
  intros Hf HP Hwf Hidx Hact r s'. subst r s'.
  unfold events_ahead, active_ok, in_progress in *.
  remember (_events s) as E eqn:HeqE.
  remember (_next_event_index s) as k eqn:Heqk.
  assert (HE : E = firstn k E ++ [] ++ skipn k E)
    by (simpl; now rewrite firstn_skipn).
  destruct (scan_forward cond is_initial (skipn k E) [] s)
    as [s3 na3] eqn:Escan.
  destruct (scan_forward_ok E (firstn k E) cond is_initial (skipn k E) []
              [] s s3 na3 HP HE Hwf Hact)
    as (done' & todo' & Hsplit & Hd & Hdefs & Hev & Hi & Hact3 & Hna3).
  { apply holds_nil. intros a. apply spans_nil_l. }
  { exact Escan. }
  cbn [fst snd app] in *.
  destruct (Hf s3) as ((Hdf & Hdefsf & Hevf & Hif) & Hactf).
  assert (HE' : E = (firstn k E ++ done') ++ todo').
  { rewrite <- app_assoc, <- Hsplit. symmetry. apply firstn_skipn. }
  assert (Hi1 : incl (firstn k E) E).
  { intros y Hy. rewrite <- (firstn_skipn k E). apply in_or_app. now left. }
  assert (Hi2 : incl done' E).
  { intros y Hy. rewrite HE'. apply in_or_app. left. apply in_or_app.
    now right. }
  destruct (finish_ok ET_initialize now na3 (f s3)
              (spans (firstn k E) todo') (spans done' todo'))
    as [(Hd' & Hdefs' & Hev' & Hi') Hact'].
  - now rewrite Hdefsf, Hevf, Hdefs, Hev, <- HeqE.
  - rewrite Hevf, Hev, <- HeqE, Hactf.
    now apply (holds_addrs_ok E (firstn k E) todo').
  - rewrite Hevf, Hev, <- HeqE. now apply (holds_addrs_ok E done' todo').
  - now rewrite Hactf.
  - exact Hna3.
  - intros a [(b & Hb & _ & Hba) _] [(b' & Hb' & _ & Hba') _].
    assert (b = b') by (apply (paired_addr_inj E); auto; congruence).
    subst b'. pose proof (paired_NoDup E HP) as Hnd.
    rewrite HE', <- app_assoc in Hnd.
    apply (NoDup_app_disjoint _ _ b Hnd Hb). apply in_or_app. now left.
  - unfold finish_events_forward. split; [congruence|].
    replace (_events _) with E by congruence.
    replace (_next_event_index _) with (length (firstn k E ++ done')).
    + pose proof (firstn_skipn_at (firstn k E ++ done') todo') as Hfs.
      rewrite <- HE' in Hfs. destruct Hfs as [-> ->].
      eapply holds_ext; [|exact Hact'].
      intros a. cbn beta. now rewrite spans_app_l.
    + rewrite length_app, length_firstn, Hi', Hif, Hi. lia.
Qed.

(** A backward scan from the cursor and the loops that end it. *)
Lemma reverse_pass_ok cond is_initial now s :
  paired (_events s) -> events_wf (_defs s) (_events s) ->
  (_next_event_index s <= length (_events s))%nat -> active_ok s ->
  let r := scan_reverse cond is_initial (events_behind s) [] s in
  let s' := finish_events_reverse now (snd r) (fst r) in
  _diag s' = _diag s /\ active_ok s'.
Proof.
  intros HP Hwf Hidx Hact r s'. subst r s'.
  unfold events_behind, active_ok, in_progress in *.
  remember (_events s) as E eqn:HeqE.
  remember (_next_event_index s) as k eqn:Heqk.
  assert (Hrev : rev (rev (firstn k E)) = firstn k E)
    by apply rev_involutive.
  assert (HE : E = rev (rev (firstn k E)) ++ [] ++ skipn k E)
    by (rewrite Hrev; simpl; now rewrite firstn_skipn).
  destruct (scan_reverse cond is_initial (rev (firstn k E)) [] s)
    as [s3 na3] eqn:Escan.
  destruct (scan_reverse_ok E (skipn k E) cond is_initial (rev (firstn k E))
              [] [] s s3 na3 HP HE Hwf)
    as (done' & todo' & Hsplit & Hd & Hdefs & Hev & Hi & Hact3 & Hna3).
  { rewrite Hrev. exact Hact. }
  { apply holds_nil. intros a. apply spans_nil_r. }
  { exact Escan. }
  cbn [fst snd] in *. rewrite app_nil_r in Hna3.
  assert (HE' : E = rev todo' ++ rev done' ++ skipn k E).
  { rewrite app_assoc, <- rev_app_distr, <- Hsplit, Hrev.
    symmetry. apply firstn_skipn. }
  assert (Hi1 : incl (rev todo') E).
  { intros y Hy. rewrite HE'. apply in_or_app. now left. }
  destruct (finish_ok ET_reverse_initialize now na3 s3
              (spans (rev todo') (skipn k E)) (spans (rev todo') (rev done')))
    as [(Hd' & Hdefs' & Hev' & Hi') Hact'].
  - now rewrite Hdefs, Hev, <- HeqE.
  - rewrite Hev, <- HeqE.
    now apply (holds_addrs_ok E (rev todo') (skipn k E)).
  - rewrite Hev, <- HeqE.
    now apply (holds_addrs_ok E (rev todo') (rev done')).
  - exact Hact3.
  - exact Hna3.
  - intros a [_ (e & He & Hte & Hea)] [_ (e' & He' & Hte' & Hea')].
    assert (e = e').
    { destruct HP as (_ & _ & _ & Hu).
      apply Hu; auto; try congruence; rewrite HE'; apply in_or_app; right;
        apply in_or_app; auto. }
    subst e'. pose proof (paired_NoDup E HP) as Hnd.
    rewrite HE' in Hnd. apply NoDup_app_remove_l in Hnd.
    apply (NoDup_app_disjoint _ _ e Hnd He' He).
  - unfold finish_events_reverse. split; [congruence|].
    replace (_events _) with E by congruence.
    replace (_next_event_index _) with (length (rev todo')).
    + pose proof (firstn_skipn_at (rev todo') (rev done' ++ skipn k E))
        as Hfs.
      rewrite <- HE' in Hfs. destruct Hfs as [-> ->].
      eapply holds_ext; [|exact Hact'].
      intros a. cbn beta. rewrite spans_app_r. tauto.
    + rewrite Hi', Hi.
      assert (Hlen : length (rev (firstn k E)) = k).
      { rewrite length_rev, length_firstn. lia. }
      rewrite Hsplit, length_app in Hlen. rewrite length_rev. lia.
Qed.

End PassFacts.

Section MethodFacts.
Context {TM : TimeModel}.

Lemma prefix_paired defs events :
  compiled_prefix defs events -> nonneg_durations defs -> paired events.
Proof.
  intros (defs0 & rest & Hc & Hst) Hn.
  apply (compiled_paired defs0); auto.
  now apply (nonneg_durations_prefix defs defs0 rest).
Qed.

Lemma nonneg_durations_recompute s :
  nonneg_durations (_defs s) <-> nonneg_durations (_defs (recompute s)).
Proof.
  split; apply nonneg_durations_same_statics;
    [|symmetry]; apply recompute_statics.
Qed.

Lemma id_quiet (x : CMetaInterval) : quiet x x /\ _active x = _active x.
Proof. split; [apply quiet_refl|reflexivity]. Qed.

Lemma step_ok t s :
  Inv s -> compiled_prefix (_defs s) (_events s) ->
  nonneg_durations (_defs s) -> active_ok s ->
  _diag (step t s) = _diag s /\ active_ok (step t s).
Proof.
  intros HI Hc Hn Hact.
  pose proof (prefix_paired _ _ Hc Hn) as HP.
  destruct (Inv_ground s HI Hc) as [Hwf _].
  pose proof (inv_index s HI) as Hidx.
  unfold step.
  destruct (match nth_error (_events s) (_next_event_index s) with
            | Some event => ev_time event <=? double_to_int_time t
            | None => false
            end).
  - pose proof (forward_pass_ok
                  (fun e => ev_time e <=? double_to_int_time t) false
                  (fun x => x) (double_to_int_time t) s id_quiet HP Hwf Hidx
                  Hact) as H.
    destruct (scan_forward _ _ _ _ _) as [s3 na]. cbn [fst snd] in H.
    destruct H as [Hd Ha]. split; [exact Hd|].
    revert Ha. now apply active_ok_frame.
  - pose proof (reverse_pass_ok
                  (fun e => double_to_int_time t <? ev_time e) false
                  (double_to_int_time t) s HP Hwf Hidx Hact) as H.
    destruct (scan_reverse _ _ _ _ _) as [s3 na]. cbn [fst snd] in H.
    destruct H as [Hd Ha]. split; [exact Hd|].
    revert Ha. now apply active_ok_frame.
Qed.

Lemma finalize_ok s :
  Inv s -> compiled_prefix (_defs s) (_events s) ->
  nonneg_durations (_defs s) -> active_ok s ->
  _diag (finalize s) = _diag s /\ active_ok (finalize s).
Proof.
  intros HI Hc Hn Hact.
  pose proof (prefix_paired _ _ Hc Hn) as HP.
  destruct (Inv_ground s HI Hc) as [Hwf _].
  pose proof (inv_index s HI) as Hidx.
  unfold finalize.
  pose proof (fun now =>
                forward_pass_ok (fun _ => true) false
                  (fun x => set_curr_t (get_duration x) x) now s
                  (fun x => conj (conj eq_refl
                                    (conj eq_refl (conj eq_refl eq_refl)))
                                 eq_refl)
                  HP Hwf Hidx Hact) as H.
  destruct (scan_forward _ _ _ _ _) as [s3 na]. cbn [fst snd] in H.
  apply H.
Qed.

Lemma reverse_finalize_ok s :
  Inv s -> compiled_prefix (_defs s) (_events s) ->
  nonneg_durations (_defs s) -> active_ok s ->
  _diag (reverse_finalize s) = _diag s /\ active_ok (reverse_finalize s).
Proof.
  intros HI Hc Hn Hact.
  pose proof (prefix_paired _ _ Hc Hn) as HP.
  destruct (Inv_ground s HI Hc) as [Hwf _].
  pose proof (inv_index s HI) as Hidx.
  unfold reverse_finalize.
  pose proof (reverse_pass_ok (fun _ => true) false 0 s HP Hwf Hidx Hact)
    as H.
  destruct (scan_reverse _ _ _ _ _) as [s3 na]. cbn [fst snd] in H.
  destruct H as [Hd Ha]. split; [exact Hd|].
  revert Ha. now apply active_ok_frame.
Qed.

Lemma initialize_ok t s :
  Inv s -> compiled_prefix (_defs s) (_events s) ->
  nonneg_durations (_defs s) ->
  _diag (initialize t s) = _diag (recompute s) /\
  active_ok (initialize t s).
Proof.
  intros HI Hc Hn.
  destruct (recompute_ground s 0%nat HI Hc) as [Hwf _].
  pose proof (prefix_paired _ _ (recompute_compiled_prefix s HI Hc)
                (proj1 (nonneg_durations_recompute s) Hn)) as HP.
  set (s0 := set_active [] (set_next_event_index 0 (recompute s))) in *.
  pose proof (forward_pass_ok
                (fun e => ev_time e <=? double_to_int_time t) true
                (fun x => x) (double_to_int_time t) s0 id_quiet HP Hwf
                (Nat.le_0_l _) (active_ok_start s0 eq_refl eq_refl)) as H.
  unfold initialize. fold s0.
  destruct (scan_forward _ _ _ _ _) as [s3 na]. cbn [fst snd] in H.
  destruct H as [Hd Ha]. split; [exact Hd|].
  revert Ha. now apply active_ok_frame.
Qed.

Lemma reverse_initialize_ok t s :
  Inv s -> compiled_prefix (_defs s) (_events s) ->
  nonneg_durations (_defs s) ->
  _diag (reverse_initialize t s) = _diag (recompute s) /\
  active_ok (reverse_initialize t s).
Proof.
  intros HI Hc Hn.
  destruct (recompute_ground s (length (_events (recompute s))) HI Hc)
    as [Hwf _].
  pose proof (prefix_paired _ _ (recompute_compiled_prefix s HI Hc)
                (proj1 (nonneg_durations_recompute s) Hn)) as HP.
  set (s0 := set_active []
               (set_next_event_index (length (_events (recompute s)))
                  (recompute s))) in *.
  pose proof (reverse_pass_ok
                (fun e => double_to_int_time t <? ev_time e) true
                (double_to_int_time t) s0 HP Hwf (Nat.le_refl _)
                (active_ok_end s0 eq_refl eq_refl)) as H.
  unfold reverse_initialize. fold s0.
  destruct (scan_reverse _ _ _ _ _) as [s3 na]. cbn [fst snd] in H.
  destruct H as [Hd Ha]. split; [exact Hd|].
  revert Ha. now apply active_ok_frame.
Qed.



Lemma nonneg_durations_app defs def :
  nonneg_durations (defs ++ [def]) -> nonneg_durations defs.
Proof.
  apply (nonneg_durations_prefix _ defs (statics [def])).
  apply statics_app.
Qed.

Lemma plays_nonneg P s s' :
  plays P s s' -> nonneg_durations (_defs s') -> nonneg_durations (_defs s).
Proof. intros Hp. now rewrite (plays_defs _ _ _ Hp). Qed.


Lemma queue_active_ok s :
  active_ok s ->
  active_ok (fst (service_event_queue s)) /\ active_ok (pop_event s).
Proof.
  intros Ha. split.
  - unfold service_event_queue.
    destruct (service_loop_frame (_event_queue s) s) as (Hd & He & Hac & Hi).
    apply (active_ok_frame s); auto.
  - destruct (pop_event_frame s) as (Hd & He & Hac & Hi).
    apply (active_ok_frame s); auto.
Qed.


End MethodFacts.

Section ActiveTheorems.
Context {TM : TimeModel}.

(** When no action has a negative quantized duration, a method that
    begins with [recompute()] reports nothing beyond what that call
    reports, which is the warning about pushes and pops if the schedule
    was dirty and a group is open.  From a state whose active set is in
    step with the cursor, [step] and [reverse_finalize] report nothing:
    none of their checks fails; nor does [finalize] on an object that is
    not dirty. *)
Theorem playback_fails_no_check (s : CMetaInterval) (t : double) :
  reachable s -> nonneg_durations (_defs s) ->
  (_diag (initialize t s) = _diag (recompute s) /\
   _diag (reverse_initialize t s) = _diag (recompute s) /\
   _diag (instant s) = _diag (recompute s) /\
   _diag (reverse_instant s) = _diag (recompute s) /\
   _diag (recompute s)
   = _diag s ++ if _dirty s && negb (nesting (_defs s) =? 0)
                then [D_warning pushes_dont_match_pops] else []) /\
  (active_ok s ->
   _diag (step t s) = _diag s /\
   _diag (reverse_finalize s) = _diag s /\
   (_dirty s = false -> _diag (finalize s) = _diag s)).
Proof.
  intros Hr Hn.
  pose proof (reachable_Inv s Hr) as HI.
  pose proof (reachable_compiled_prefix s Hr) as Hc.
  split.
  - split; [apply initialize_ok; auto|].
    split; [apply reverse_initialize_ok; auto|].
    split; [apply instant_diag; auto|].
    split; [apply reverse_instant_diag; auto|].
    now apply recompute_reports.
  - intros Ha.
    split; [apply step_ok; auto|].
    split; [apply reverse_finalize_ok; auto|].
    intros _. apply finalize_ok; auto.
Qed.


Lemma finalize_cursor s :
  (_next_event_index s <= length (_events s))%nat ->
  _next_event_index (finalize s) = length (_events s) /\
  _events (finalize s) = _events s.
Proof.
  intros Hidx. unfold finalize.
  destruct (scan_forward (fun _ => true) false (events_ahead s) [] s)
    as [s3 na] eqn:E.
  apply scan_forward_cursor in E; [|reflexivity].
  destruct E as (done & rest' & Hsplit & _ & Hhd & Hev & Hi3 & Hsk).
  destruct rest' as [|e r]; [|discriminate].
  rewrite app_nil_r in Hsplit. subst done.
  destruct (finish_events_forward_cursor
              (double_to_int_time (_curr_t (set_curr_t (get_duration s3) s3)))
              na (set_curr_t (get_duration s3) s3)) as (Hi & He & _).
  rewrite Hi, He. cbn [_next_event_index _events set_curr_t].
  split; [|exact Hev]. rewrite Hi3. unfold events_ahead.
  rewrite length_skipn. lia.
Qed.

Lemma reverse_finalize_cursor s :
  (_next_event_index s <= length (_events s))%nat ->
  _next_event_index (reverse_finalize s) = 0%nat.
Proof.
  intros Hidx. unfold reverse_finalize.
  destruct (scan_reverse (fun _ => true) false (events_behind s) [] s)
    as [s3 na] eqn:E.
  apply scan_reverse_cursor in E; [|exact Hidx|reflexivity].
  destruct E as (done & rest' & Hsplit & _ & Hhd & Hev & Hi3 & Hrv & _).
  destruct rest' as [|e r]; [|discriminate].
  destruct (finish_events_reverse_cursor 0 na s3) as (Hi & He & _).
  cbn [_next_event_index set_curr_t]. rewrite Hi.
  apply (f_equal (@length _)) in Hrv.
  rewrite length_rev, length_firstn, Hev in Hrv. simpl in Hrv. lia.
Qed.

Lemma holds_empty l (P : nat -> Prop) :
  holds l P -> (forall a, ~ P a) -> l = [].
Proof.
  intros [_ Hin] Hno. destruct l as [|a l]; auto.
  exfalso. apply (Hno a), Hin. now left.
Qed.


End ActiveTheorems.

Section TimeWitnesses.
#[local] Existing Instance Q_time.

Lemma reachable_two_in_a_row : reachable two_in_a_row.
Proof.
  apply R_pop_level, R_add_c_interval, R_add_c_interval, R_push_level, R_new.
Qed.

Lemma nonneg_two_in_a_row (s : CMetaInterval) :
  statics (_defs s) = statics (_defs two_in_a_row) ->
  nonneg_durations (_defs s).
Proof.
  intros Hst i q Hq. rewrite <- duration_at_statics, Hst in Hq.
  destruct i as [|[|[|[|i]]]]; vm_compute in Hq; try discriminate;
    try (injection Hq as <-; lia).
  destruct i; discriminate.
Qed.

(** The end time of scenario A. *)
Lemma compiled_duration_bounds_ends_witness :
  reachable two_in_a_row /\
  (0 <= _end_time (do_recompute two_in_a_row) /\
   (forall e, In e (_events (do_recompute two_in_a_row)) ->
              ev_type e <> PET_begin ->
              ev_time e <= _end_time (do_recompute two_in_a_row)) /\
   _duration (do_recompute two_in_a_row)
   = int_to_double_time (_end_time (do_recompute two_in_a_row))).
Proof.
  split; [exact reachable_two_in_a_row|].
  apply (compiled_duration_bounds_ends (TM := Q_time)).
  exact reachable_two_in_a_row.
Defined.

(** The begin event of scenario C. *)
Lemma compiled_begin_times_recorded_witness :
  reachable one_open_action /\
  In open_begin (_events (do_recompute one_open_action)) /\
  ev_type open_begin <> PET_end /\
  begin_time_at (_defs (do_recompute one_open_action)) (ev_n open_begin)
  = Some (ev_time open_begin).
Proof.
  assert (Hr : reachable one_open_action) by (apply R_add_c_interval, R_new).
  assert (Hin : In open_begin (_events (do_recompute one_open_action)))
    by (vm_compute; auto).
  assert (Hty : ev_type open_begin <> PET_end) by discriminate.
  split; [exact Hr|]. split; [exact Hin|]. split; [exact Hty|].
  apply (compiled_begin_times_recorded (TM := Q_time) _ Hr _ Hin Hty).
Defined.

(** The second action of scenario A, placed at the end of the first. *)
Lemma begin_time_follows_previous_entry_witness :
  reachable two_in_a_row /\
  nth_error (_defs (do_recompute two_in_a_row)) 2 = Some second_def /\
  _type second_def <> DT_pop_level /\
  begin_rule (_defs (do_recompute two_in_a_row)) 2 second_def.
Proof.
  assert (Hn : nth_error (_defs (do_recompute two_in_a_row)) 2
               = Some second_def) by (vm_compute; reflexivity).
  assert (Hty : _type second_def <> DT_pop_level) by discriminate.
  split; [exact reachable_two_in_a_row|]. split; [exact Hn|].
  split; [exact Hty|].
  apply (begin_time_follows_previous_entry (TM := Q_time) _ _ _
           reachable_two_in_a_row Hn Hty).
Defined.

(** Scenario A begun at 0: the first action is in progress. *)
Lemma active_ok_begun : active_ok (initialize 0%Q two_in_a_row).
Proof.
  apply initialize_ok.
  - exact (reachable_Inv _ reachable_two_in_a_row).
  - exact (reachable_compiled_prefix _ reachable_two_in_a_row).
  - now apply nonneg_two_in_a_row.
Qed.

(** Scenario A begun at 0. *)
Lemma playback_fails_no_check_witness :
  reachable (initialize 0%Q two_in_a_row) /\
  nonneg_durations (_defs (initialize 0%Q two_in_a_row)) /\
  active_ok (initialize 0%Q two_in_a_row) /\
  _dirty (initialize 0%Q two_in_a_row) = false /\
  _diag (initialize (3 # 2)%Q (initialize 0%Q two_in_a_row))
  = _diag (recompute (initialize 0%Q two_in_a_row)) /\
  _diag (step (3 # 2)%Q (initialize 0%Q two_in_a_row))
  = _diag (initialize 0%Q two_in_a_row) /\
  _diag (reverse_finalize (initialize 0%Q two_in_a_row))
  = _diag (initialize 0%Q two_in_a_row) /\
  _diag (finalize (initialize 0%Q two_in_a_row))
  = _diag (initialize 0%Q two_in_a_row).
Proof.
  assert (Hr : reachable (initialize 0%Q two_in_a_row))
    by (apply R_initialize, reachable_two_in_a_row).
  assert (Hn : nonneg_durations (_defs (initialize 0%Q two_in_a_row)))
    by (apply nonneg_two_in_a_row; vm_compute; reflexivity).
  assert (Hd : _dirty (initialize 0%Q two_in_a_row) = false)
    by (vm_compute; reflexivity).
  destruct (playback_fails_no_check (TM := Q_time) _ (3 # 2)%Q Hr Hn)
    as [(Hi & _) Hwarm].
  destruct (Hwarm active_ok_begun) as (Hs & Hrf & Hf).
  split; [exact Hr|]. split; [exact Hn|]. split; [exact active_ok_begun|].
  split; [exact Hd|]. split; [exact Hi|]. split; [exact Hs|].
  split; [exact Hrf|exact (Hf Hd)].
Defined.



(** The precondition on the active set is needed.  In scenario G the
    object was recompiled in mid-playback: [write] found it dirty, built
    the timeline anew and emptied the active set, and left the cursor
    between the begin and the end of the first action.  The active set
    no longer holds the action in progress, and the next [step] over its
    end fails the check of [do_event_forward]. *)
Lemma recompile_in_flight_loses_active_set :
  reachable recompiled_in_flight /\
  nonneg_durations (_defs recompiled_in_flight) /\
  _dirty recompiled_in_flight = false /\
  ~ active_ok recompiled_in_flight /\
  _diag (step 3%Q recompiled_in_flight)
  = _diag recompiled_in_flight ++ [D_assert "erase_count == 1"].
Proof.
  split; [apply R_write, R_add_ext_index, R_initialize, R_add_c_interval,
            R_new|].
  split.
  { intros i q Hq. destruct i as [|[|i]]; vm_compute in Hq;
      try discriminate; try (injection Hq as <-; lia).
    destruct i; discriminate. }
  split; [vm_compute; reflexivity|]. split; [|vm_compute; reflexivity].
  intros [_ Hin].
  assert (H : In 0%nat (_active recompiled_in_flight)).
  { apply Hin. split.
    - exists (mkEvent 0 0 0 PET_begin 0).
      split; [vm_compute; auto|split; reflexivity].
    - exists (mkEvent 1 2000 0 PET_end 0).
      split; [vm_compute; auto|split; reflexivity]. }
  vm_compute in H. exact H.
Qed.

End TimeWitnesses.

(** ** The callbacks of the playback methods *)

Section CallbackFacts.
Context {TM : TimeModel}.

Lemma holds_mem_true a l (P : nat -> Prop) :
  holds l P -> P a -> pset_mem a l = true.
Proof. intros [_ Hin] Ha. apply pset_mem_In. now apply Hin. Qed.

Lemma enqueue_event_callback n event_type is_initial time s :
  valid_action (_defs s) n = true ->
  dispatched (enqueue_event n event_type is_initial time s)
  = dispatched s ++
    if suppressed_at (_defs s) n is_initial event_type then []
    else [(n, event_type, int_to_double_time time)].
Proof. apply enqueue_event_dispatched. Qed.

(** The callback of [do_event_forward] at the event [x]; [old] is the
    active set at the start of the scan. *)
Lemma do_event_forward_callback E pre done x R new_active is_initial s old :
  paired E -> E = pre ++ done ++ x :: R ->
  valid_action (_defs s) (ev_n x) = true ->
  (ev_type x <> PET_end -> ev_begin_event x = ev_addr x) ->
  holds (_active s) (spans pre (x :: R)) ->
  holds new_active (spans done (x :: R)) ->
  holds old (spans pre (done ++ x :: R)) ->
  dispatched (fst (do_event_forward x new_active is_initial s))
  = dispatched s ++
    event_callback (_defs s) is_initial (forward_event_type old x) x.
Proof.
  intros HP HE Hv Hself Hact Hna Hold.
  assert (HE' : E = (pre ++ done) ++ x :: R) by (now rewrite <- app_assoc).
  unfold do_event_forward, forward_event_type.
  destruct (ev_type x) eqn:Ety; cbn [event_callback].
  - rewrite app_nil_r.
    destruct (negb _); [reflexivity|].
    destruct (pset_mem _ _); [reflexivity|].
    destruct (pset_insert _ _) as [na1 ok]. now destruct ok.
  - destruct (in_dec Nat.eq_dec (ev_begin_event x) new_active) as [Hin|Hnin].
    + assert (Hsp : spans done (x :: R) (ev_begin_event x))
        by (now apply (proj2 Hna)).
      pose proof (pset_erase_member _ _ (proj1 Hna) Hin) as Hc.
      destruct (pset_erase (ev_begin_event x) new_active) as [na1 c].
      cbn [snd] in Hc. subst c. cbn [Nat.eqb negb fst].
      rewrite enqueue_event_callback by exact Hv.
      rewrite (holds_mem _ _ _ Hold); [reflexivity|].
      intros [(b & Hb & _ & Hba) _].
      destruct Hsp as [(b' & Hb' & _ & Hba') _].
      assert (b = b').
      { apply (paired_addr_inj E); auto; try congruence;
          rewrite HE'; apply in_or_app; left; apply in_or_app; auto. }
      subst b'. pose proof (paired_NoDup E HP) as Hnd.
      rewrite HE in Hnd.
      apply (NoDup_app_disjoint _ _ b Hnd Hb). apply in_or_app. now left.
    + pose proof (pset_erase_absent _ _ Hnin) as Hc.
      destruct (pset_erase (ev_begin_event x) new_active) as [na1 c].
      cbn [snd] in Hc. subst c. cbn [Nat.eqb negb].
      destruct (pset_erase (ev_begin_event x) (_active s)) as [a1 c'].
      assert (Hd : dispatched
                     (enqueue_event (ev_n x) ET_finalize is_initial 0
                        (set_active a1 s))
                   = dispatched s ++
                     if suppressed_at (_defs s) (ev_n x) is_initial
                          ET_finalize
                     then [] else [(ev_n x, ET_finalize,
                                    int_to_double_time 0)])
        by (now rewrite enqueue_event_callback).
      rewrite (holds_mem_true _ _ _ Hold).
      * now destruct (c' =? 1)%nat.
      * destruct HP as (_ & Hbeg & _).
        destruct (Hbeg _ _ _ HE' Ety) as (b & Hb & Hba).
        split.
        -- apply in_app_or in Hb as [Hb|Hb]; [now exists b|].
           exfalso. apply Hnin, (proj2 Hna). split; [now exists b|].
           exists x. repeat split; simpl; auto.
        -- exists x. split; [apply in_or_app; right; now left|].
           split; auto.
  - assert (Hno : forall L' R', incl L' (pre ++ done) ->
                                ~ spans L' R' (ev_addr x))
      by (intros L' R'; now apply (at_no_begin_L E (pre ++ done) R x)).
    rewrite Hself, Nat.eqb_refl by congruence. cbn [negb].
    rewrite (holds_mem _ _ _ Hna)
      by (apply Hno; intros y Hy; apply in_or_app; auto).
    rewrite (holds_mem _ _ _ Hact)
      by (apply Hno; intros y Hy; apply in_or_app; auto).
    cbn [fst]. now apply enqueue_event_callback.
Qed.

(** The callback of [do_event_reverse] at the event [x]. *)
Lemma do_event_reverse_callback E Lr x mid post new_active is_initial s old :
  paired E -> E = Lr ++ x :: mid ++ post ->
  valid_action (_defs s) (ev_n x) = true ->
  (ev_type x <> PET_end -> ev_begin_event x = ev_addr x) ->
  holds (_active s) (spans (Lr ++ [x]) post) ->
  holds new_active (spans (Lr ++ [x]) mid) ->
  holds old (spans (Lr ++ x :: mid) post) ->
  dispatched (fst (do_event_reverse x new_active is_initial s))
  = dispatched s ++
    event_callback (_defs s) is_initial (reverse_event_type old x) x.
Proof.
  intros HP HE Hv Hself Hact Hna Hold.
  unfold do_event_reverse, reverse_event_type.
  destruct (ev_type x) eqn:Ety; cbn [event_callback].
  - rewrite Hself, Nat.eqb_refl by congruence. cbn [negb].
    destruct (in_dec Nat.eq_dec (ev_addr x) new_active) as [Hin|Hnin].
    + assert (Hsp : spans (Lr ++ [x]) mid (ev_addr x))
        by (now apply (proj2 Hna)).
      pose proof (pset_erase_member _ _ (proj1 Hna) Hin) as Hc.
      destruct (pset_erase (ev_addr x) new_active) as [na1 c].
      cbn [snd] in Hc. subst c. cbn [Nat.eqb negb fst].
      rewrite enqueue_event_callback by exact Hv.
      rewrite (holds_mem _ _ _ Hold); [reflexivity|].
      intros [_ (e & He & Hte & Hea)].
      destruct Hsp as [_ (e' & He' & Hte' & Hea')].
      assert (e = e').
      { destruct HP as (_ & _ & _ & Hu).
        apply Hu; auto; try congruence; rewrite HE; apply in_or_app; right;
          right; apply in_or_app; auto. }
      subst e'. pose proof (paired_NoDup E HP) as Hnd.
      rewrite HE in Hnd. apply NoDup_app_remove_l in Hnd.
      inversion Hnd as [|? ? _ Hnd']; subst.
      apply (NoDup_app_disjoint _ _ e Hnd' He' He).
    + pose proof (pset_erase_absent _ _ Hnin) as Hc.
      destruct (pset_erase (ev_addr x) new_active) as [na1 c].
      cbn [snd] in Hc. subst c. cbn [Nat.eqb negb].
      destruct (pset_erase (ev_addr x) (_active s)) as [a1 c'].
      assert (Hd : dispatched
                     (enqueue_event (ev_n x) ET_reverse_finalize is_initial 0
                        (set_active a1 s))
                   = dispatched s ++
                     if suppressed_at (_defs s) (ev_n x) is_initial
                          ET_reverse_finalize
                     then [] else [(ev_n x, ET_reverse_finalize,
                                    int_to_double_time 0)])
        by (now rewrite enqueue_event_callback).
      rewrite (holds_mem_true _ _ _ Hold).
      * now destruct (c' =? 1)%nat.
      * destruct HP as (_ & _ & Hend & _).
        destruct (Hend _ _ _ HE Ety) as (e & He & Hea).
        split.
        -- exists x. split; [apply in_or_app; right; now left|].
           split; auto.
        -- apply in_app_or in He as [He|He]; [|now exists e].
           exfalso. apply Hnin, (proj2 Hna). split; [|now exists e].
           exists x. split; [apply in_or_app; right; now left|].
           split; auto.
  - rewrite app_nil_r.
    destruct (pset_mem _ _); [reflexivity|].
    destruct (pset_insert _ _) as [na1 ok]. now destruct ok.
  - rewrite Hself, Nat.eqb_refl by congruence. cbn [negb].
    assert (Hno : forall R', ~ spans (Lr ++ [x]) R' (ev_addr x)).
    { intros R' [(b & Hb & Htb & Hba) _].
      apply in_app_or in Hb as [Hb|[<-|[]]]; [|congruence].
      assert (b = x).
      { apply (paired_addr_inj E); auto; rewrite HE; apply in_or_app;
          [now left|right; now left]. }
      congruence. }
    rewrite (holds_mem _ _ _ Hact) by apply Hno.
    rewrite (holds_mem _ _ _ Hna) by apply Hno.
    cbn [fst]. now apply enqueue_event_callback.
Qed.

End CallbackFacts.

(** *** The callbacks of a scan and of the loops that end it *)

Section ScanCallbacks.
Context {TM : TimeModel}.

Lemma forward_callbacks_app defs is_initial old l1 l2 :
  forward_callbacks defs is_initial old (l1 ++ l2)
  = forward_callbacks defs is_initial old l1 ++
    forward_callbacks defs is_initial old l2.
Proof. apply flat_map_app. Qed.

Lemma reverse_callbacks_app defs is_initial old l1 l2 :
  reverse_callbacks defs is_initial old (l1 ++ l2)
  = reverse_callbacks defs is_initial old l1 ++
    reverse_callbacks defs is_initial old l2.
Proof. apply flat_map_app. Qed.

Lemma scan_forward_callbacks E pre cond is_initial old todo :
  forall done new_active s s' new_active',
    paired E -> E = pre ++ done ++ todo ->
    events_wf (_defs s) E ->
    holds (_active s) (spans pre todo) ->
    holds new_active (spans done todo) ->
    holds old (spans pre (done ++ todo)) ->
    scan_forward cond is_initial todo new_active s = (s', new_active') ->
    exists done' todo',
      todo = done' ++ todo' /\
      _diag s' = _diag s /\ _defs s' = _defs s /\ _events s' = _events s /\
      _next_event_index s' = (_next_event_index s + length done')%nat /\
      holds (_active s') (spans pre todo') /\
      holds new_active' (spans (done ++ done') todo') /\
      dispatched s'
      = dispatched s ++ forward_callbacks (_defs s) is_initial old done'.
Proof.
  induction todo as [|x todo IH];
    intros done na s s' na' HP HE Hwf Hact Hna Hold Hscan; simpl in Hscan.
  - injection Hscan as <- <-. exists [], []. rewrite !app_nil_r.
    split; [reflexivity|]. do 4 (split; [simpl; auto; lia|]).
    split; [assumption|]. split; [assumption|]. cbn [forward_callbacks reverse_callbacks flat_map]. now rewrite ?app_nil_r.
  - destruct (cond x).
    2:{ injection Hscan as <- <-. exists [], (x :: todo). rewrite !app_nil_r.
        split; [reflexivity|]. do 4 (split; [simpl; auto; lia|]).
        split; [assumption|]. split; [assumption|].
        cbn [forward_callbacks reverse_callbacks flat_map]. now rewrite ?app_nil_r. }
    assert (Hx : In x E).
    { rewrite HE. apply in_or_app. right. apply in_or_app. right. now left. }
    destruct (Hwf x Hx) as (Hv & _ & Hself).
    pose proof (do_event_forward_callback E pre done x todo na is_initial s
                  old HP HE Hv Hself Hact Hna Hold) as Hcb.
    destruct (do_event_forward x na is_initial s) as [s1 na1] eqn:Edo.
    cbn [fst] in Hcb.
    destruct (do_event_forward_ok E pre done x todo na is_initial s s1 na1
                HP HE Hv Hself Hact Hna Edo)
      as ((Hd1 & Hdefs1 & Hev1 & Hi1) & Hact1 & Hna1).
    destruct (IH (done ++ [x]) na1
                (set_next_event_index (S (_next_event_index s1)) s1) s' na')
      as (done' & todo' & Hsplit & Hd & Hdefs & Hev & Hi & Hact' & Hna'
          & Hdisp); auto.
    + now rewrite <- app_assoc.
    + cbn [_defs set_next_event_index]. now rewrite Hdefs1.
    + now rewrite <- app_assoc.
    + cbn [_diag _defs _events _next_event_index set_next_event_index] in *.
      exists (x :: done'), todo'. rewrite <- app_assoc in Hna'.
      split; [simpl; now rewrite Hsplit|].
      do 3 (split; [congruence|]). split; [simpl; lia|].
      split; [assumption|]. split; [assumption|].
      rewrite Hdisp.
      replace (dispatched (set_next_event_index _ s1)) with (dispatched s1)
        by reflexivity.
      rewrite Hcb, Hdefs1, <- app_assoc. reflexivity.
Qed.

Lemma scan_reverse_callbacks E post cond is_initial old todo :
  forall mid new_active s s' new_active',
    paired E -> E = rev todo ++ mid ++ post ->
    events_wf (_defs s) E ->
    holds (_active s) (spans (rev todo) post) ->
    holds new_active (spans (rev todo) mid) ->
    holds old (spans (rev todo ++ mid) post) ->
    scan_reverse cond is_initial todo new_active s = (s', new_active') ->
    exists done' todo',
      todo = done' ++ todo' /\
      _diag s' = _diag s /\ _defs s' = _defs s /\ _events s' = _events s /\
      _next_event_index s' = (_next_event_index s - length done')%nat /\
      holds (_active s') (spans (rev todo') post) /\
      holds new_active' (spans (rev todo') (rev done' ++ mid)) /\
      dispatched s'
      = dispatched s ++ reverse_callbacks (_defs s) is_initial old done'.
Proof.
  induction todo as [|x todo IH];
    intros mid na s s' na' HP HE Hwf Hact Hna Hold Hscan; simpl in Hscan.
  - injection Hscan as <- <-. exists [], [].
    split; [reflexivity|]. do 4 (split; [simpl; auto; lia|]).
    split; [assumption|]. split; [assumption|]. cbn [forward_callbacks reverse_callbacks flat_map]. now rewrite ?app_nil_r.
  - destruct (cond x).
    2:{ injection Hscan as <- <-. exists [], (x :: todo).
        split; [reflexivity|]. do 4 (split; [simpl; auto; lia|]).
        split; [assumption|]. split; [assumption|].
        cbn [forward_callbacks reverse_callbacks flat_map]. now rewrite ?app_nil_r. }
    simpl in HE, Hact, Hna, Hold. rewrite <- app_assoc in HE, Hold.
    simpl in HE, Hold.
    assert (Hx : In x E).
    { rewrite HE. apply in_or_app. right. now left. }
    destruct (Hwf x Hx) as (Hv & _ & Hself).
    set (s0 := set_next_event_index (Nat.pred (_next_event_index s)) s) in *.
    pose proof (do_event_reverse_callback E (rev todo) x mid post na
                  is_initial s0 old HP HE Hv Hself Hact Hna Hold) as Hcb.
    destruct (do_event_reverse x na is_initial s0) as [s1 na1] eqn:Edo.
    cbn [fst] in Hcb.
    destruct (do_event_reverse_ok E (rev todo) x mid post na is_initial s0 s1
                na1 HP HE Hv Hself Hact Hna Edo)
      as ((Hd1 & Hdefs1 & Hev1 & Hi1) & Hact1 & Hna1).
    destruct (IH (x :: mid) na1 s1 s' na')
      as (done' & todo' & Hsplit & Hd & Hdefs & Hev & Hi & Hact' & Hna'
          & Hdisp); auto.
    + now rewrite Hdefs1.
    + subst s0.
      cbn [_diag _defs _events _next_event_index set_next_event_index] in *.
      exists (x :: done'), todo'.
      split; [simpl; now rewrite Hsplit|].
      do 3 (split; [congruence|]). split; [simpl; lia|].
      split; [exact Hact'|].
      split; [simpl; now rewrite <- app_assoc|].
      rewrite Hdisp, Hcb, Hdefs1, <- app_assoc. reflexivity.
Qed.

(** The events at the addresses of a set. *)
Lemma events_at_addrs_cons E a l e :
  deref E a = Some e ->
  events_at_addrs E (a :: l) = e :: events_at_addrs E l.
Proof. intros H. unfold events_at_addrs. simpl. now rewrite H. Qed.

Lemma step_active_callbacks now l :
  forall s,
    events_wf (_defs s) (_events s) -> addrs_ok (_events s) l ->
    dispatched (step_active now l s)
    = dispatched s ++
      map (start_dispatch ET_step now) (events_at_addrs (_events s) l).
Proof.
  induction l as [|a l IH]; intros s Hwf Hl.
  - simpl. now rewrite app_nil_r.
  - cbn [step_active].
    destruct (addrs_ok_deref _ _ a Hl (or_introl eq_refl))
      as (e & Hde & He & _).
    rewrite (events_at_addrs_cons _ _ _ _ Hde), Hde.
    set (s1 := enqueue_event (ev_n e) ET_step false (now - ev_time e) s).
    destruct (quiet_enqueue (ev_n e) ET_step false (now - ev_time e) s
                (proj1 (Hwf e He))) as (_ & Hdefs1 & Hev1 & _).
    fold s1 in Hdefs1, Hev1.
    rewrite IH.
    + rewrite Hev1. unfold s1.
      rewrite enqueue_event_callback by apply Hwf, He.
      now rewrite <- app_assoc.
    + now rewrite Hdefs1, Hev1.
    + rewrite Hev1. intros x Hx. apply Hl. now right.
Qed.

Lemma init_new_active_callbacks event_type now l :
  forall s,
    events_wf (_defs s) (_events s) -> addrs_ok (_events s) l ->
    StronglySorted lt l -> StronglySorted lt (_active s) ->
    (forall a, In a l -> ~ In a (_active s)) ->
    dispatched (init_new_active event_type now l s)
    = dispatched s ++
      map (start_dispatch event_type now) (events_at_addrs (_events s) l).
Proof.
  induction l as [|a l IH]; intros s Hwf Hl Hsl Hsa Hdis.
  - simpl. now rewrite app_nil_r.
  - cbn [init_new_active].
    destruct (addrs_ok_deref _ _ a Hl (or_introl eq_refl))
      as (e & Hde & He & _).
    rewrite (events_at_addrs_cons _ _ _ _ Hde), Hde.
    set (s1 := enqueue_event (ev_n e) event_type false (now - ev_time e) s).
    assert (Hq1 : quiet s s1) by (apply quiet_enqueue, Hwf, He).
    assert (Ha1 : _active s1 = _active s) by apply enqueue_event_active.
    assert (Hd1 : dispatched s1
                  = dispatched s ++ [start_dispatch event_type now e])
      by (unfold s1; now rewrite enqueue_event_callback by apply Hwf, He).
    destruct (pset_insert_new a (_active s1)) as [Hok Hsorted].
    { now rewrite Ha1. }
    { rewrite Ha1. apply Hdis. now left. }
    pose proof (pset_insert_In a (_active s1)) as HIn.
    destruct (pset_insert a (_active s1)) as [active' inserted].
    cbn [fst snd] in *. subst inserted.
    destruct Hq1 as (_ & Hdefs1 & Hev1 & _).
    inversion Hsl as [|? ? Hsl' Hall]; subst.
    rewrite IH; auto.
    + cbn [_events set_active]. rewrite Hev1.
      replace (dispatched (set_active active' s1)) with (dispatched s1)
        by reflexivity.
      rewrite Hd1, <- app_assoc. reflexivity.
    + cbn [_defs _events set_active]. now rewrite Hdefs1, Hev1.
    + cbn [_events set_active]. rewrite Hev1.
      intros x Hx. apply Hl. now right.
    + cbn [_active set_active]. intros x Hx Hx'.
      apply HIn in Hx' as [->|Hx'].
      * now apply (sorted_lt_notin a l).
      * rewrite Ha1 in Hx'. apply (Hdis x); auto. now right.
Qed.

(** The two loops that end a scan. *)
Lemma finish_dispatched event_type now new_active s (P Q : nat -> Prop) :
  events_wf (_defs s) (_events s) ->
  addrs_ok (_events s) (_active s) -> addrs_ok (_events s) new_active ->
  holds (_active s) P -> holds new_active Q ->
  (forall a, P a -> Q a -> False) ->
  dispatched (init_new_active event_type now new_active
                (step_active now (_active s) s))
  = dispatched s ++
    map (start_dispatch ET_step now)
      (events_at_addrs (_events s) (_active s)) ++
    map (start_dispatch event_type now)
      (events_at_addrs (_events s) new_active).
Proof.
  intros Hwf Ha Hn [HsP HP] [HsQ HQ] Hdis.
  destruct (step_active_quiet now (_active s) s Hwf Ha)
    as [(Hd1 & Hdefs1 & Hev1 & Hi1) Hact1].
  rewrite init_new_active_callbacks; auto.
  - rewrite step_active_callbacks, Hev1, <- app_assoc by auto. reflexivity.
  - now rewrite Hdefs1, Hev1.
  - now rewrite Hev1.
  - now rewrite Hact1.
  - rewrite Hact1. intros a Hq Hp. apply (Hdis a); [now apply HP|now apply HQ].
Qed.

(** Two sets in increasing order with the same elements are the same. *)
Lemma sorted_lt_ext (l l' : list nat) :
  StronglySorted lt l -> StronglySorted lt l' ->
  (forall a, In a l <-> In a l') -> l = l'.
Proof.
  intros Hl. revert l'. induction Hl as [|a l Hs IH Hall];
    intros l' Hl' Hiff.
  - destruct l' as [|b l']; auto. exfalso. apply (Hiff b). now left.
  - destruct Hl' as [|b l' Hs' Hall'].
    + exfalso. apply (Hiff a). now left.
    + rewrite Forall_forall in Hall, Hall'.
      assert (a = b).
      { destruct (proj1 (Hiff a) (or_introl eq_refl)) as [->|Ha]; auto.
        destruct (proj2 (Hiff b) (or_introl eq_refl)) as [->|Hb]; auto.
        specialize (Hall b Hb). specialize (Hall' a Ha). lia. }
      subst b. f_equal. apply IH; auto. intros x. split; intros Hx.
      * destruct (proj1 (Hiff x) (or_intror Hx)) as [->|]; auto.
        specialize (Hall _ Hx). lia.
      * destruct (proj2 (Hiff x) (or_intror Hx)) as [->|]; auto.
        specialize (Hall' _ Hx). lia.
Qed.

Lemma holds_unique l l' (P : nat -> Prop) :
  holds l P -> holds l' P -> l = l'.
Proof.
  intros [Hs Hin] [Hs' Hin']. apply sorted_lt_ext; auto.
  intros a. now rewrite Hin, Hin'.
Qed.

Lemma holds_filter l (f : nat -> bool) (P Q : nat -> Prop) :
  holds l P -> (forall a, Q a <-> P a /\ f a = true) ->
  holds (filter f l) Q.
Proof.
  intros [Hs Hin] HQ. split; [now apply StronglySorted_filter|].
  intros a. now rewrite filter_In, HQ, Hin.
Qed.

End ScanCallbacks.

(** *** The callbacks of a scan with the loops that end it *)

Section PassCallbacks.
Context {TM : TimeModel}.

Lemma events_between_at {A} (l1 l2 l3 : list A) :
  firstn (length (l1 ++ l2) - length l1) (skipn (length l1) (l1 ++ l2 ++ l3))
  = l2.
Proof.
  rewrite length_app, Nat.add_comm, Nat.add_sub.
  rewrite (proj2 (firstn_skipn_at l1 (l2 ++ l3))).
  exact (proj1 (firstn_skipn_at l2 l3)).
Qed.

(** A forward scan from the cursor and the loops that end it; [f] stands
    for what the method does in between. *)
Lemma forward_pass_callbacks cond is_initial
  (f : CMetaInterval -> CMetaInterval) now s :
  (forall x, quiet x (f x) /\ _active (f x) = _active x /\
             dispatched (f x) = dispatched x) ->
  paired (_events s) -> events_wf (_defs s) (_events s) ->
  (_next_event_index s <= length (_events s))%nat -> active_ok s ->
  let r := scan_forward cond is_initial (events_ahead s) [] s in
  let s' := finish_events_forward now (snd r) (f (fst r)) in
  (_next_event_index s <= _next_event_index s')%nat /\
  dispatched s'
  = dispatched s ++
    forward_callbacks (_defs s) is_initial (_active s)
      (events_between (_events s) (_next_event_index s)
         (_next_event_index s')) ++
    finish_callbacks ET_initialize now (_events s) (_active s) (_active s').
Proof.
  intros Hf HP Hwf Hidx Hact r s'. subst r s'.
  unfold events_ahead, active_ok, in_progress in *.
  remember (_events s) as E eqn:HeqE.
  remember (_next_event_index s) as k eqn:Heqk.
  remember (_active s) as A0 eqn:HeqA.
  assert (HE : E = firstn k E ++ [] ++ skipn k E)
    by (simpl; now rewrite firstn_skipn).
  destruct (scan_forward cond is_initial (skipn k E) [] s)
    as [s3 na3] eqn:Escan.
  destruct (scan_forward_callbacks E (firstn k E) cond is_initial A0
              (skipn k E) [] [] s s3 na3 HP HE Hwf)
    as (done' & todo' & Hsplit & Hd & Hdefs & Hev & Hi & Hact3 & Hna3
        & Hdisp).
  { now rewrite <- HeqA. }
  { apply holds_nil. intros a. apply spans_nil_l. }
  { exact Hact. }
  { exact Escan. }
  cbn [fst snd app] in *.
  destruct (Hf s3) as ((Hdf & Hdefsf & Hevf & Hif) & Hactf & Hdispf).
  assert (HE' : E = (firstn k E ++ done') ++ todo').
  { rewrite <- app_assoc, <- Hsplit. symmetry. apply firstn_skipn. }
  assert (Hi1 : incl (firstn k E) E).
  { intros y Hy. rewrite <- (firstn_skipn k E). apply in_or_app. now left. }
  assert (Hi2 : incl done' E).
  { intros y Hy. rewrite HE'. apply in_or_app. left. apply in_or_app.
    now right. }
  assert (Hdis : forall R1 R2 a,
             spans (firstn k E) R1 a -> spans done' R2 a -> False).
  { intros R1 R2 a [(b & Hb & _ & Hba) _] [(b' & Hb' & _ & Hba') _].
    assert (b = b') by (apply (paired_addr_inj E); auto; congruence).
    subst b'. pose proof (paired_NoDup E HP) as Hnd.
    rewrite HE', <- app_assoc in Hnd.
    apply (NoDup_app_disjoint _ _ b Hnd Hb). apply in_or_app. now left. }
  assert (Hwf3 : events_wf (_defs (f s3)) (_events (f s3)))
    by (now rewrite Hdefsf, Hevf, Hdefs, Hev, <- HeqE).
  assert (Ha3 : addrs_ok (_events (f s3)) (_active (f s3))).
  { rewrite Hevf, Hev, <- HeqE, Hactf.
    now apply (holds_addrs_ok E (firstn k E) todo'). }
  assert (Hn3 : addrs_ok (_events (f s3)) na3).
  { rewrite Hevf, Hev, <- HeqE. now apply (holds_addrs_ok E done' todo'). }
  assert (Hact3' : holds (_active (f s3)) (spans (firstn k E) todo'))
    by (now rewrite Hactf).
  destruct (finish_ok ET_initialize now na3 (f s3)
              (spans (firstn k E) todo') (spans done' todo')
              Hwf3 Ha3 Hn3 Hact3' Hna3 (Hdis todo' todo'))
    as [(Hd' & Hdefs' & Hev' & Hi') Hact'].
  pose proof (finish_dispatched ET_initialize now na3 (f s3)
                (spans (firstn k E) todo') (spans done' todo')
                Hwf3 Ha3 Hn3 Hact3' Hna3 (Hdis todo' todo')) as Hfd.
  unfold finish_events_forward.
  set (s' := init_new_active ET_initialize now na3
               (step_active now (_active (f s3)) (f s3))) in *.
  assert (Hk : _next_event_index s' = (k + length done')%nat)
    by (rewrite Hi', Hif, Hi, <- Heqk; reflexivity).
  split; [lia|].
  assert (Hold : holds A0 (spans (firstn k E) (done' ++ todo')))
    by (now rewrite <- Hsplit).
  assert (Hbetween : events_between E k (_next_event_index s') = done').
  { unfold events_between. rewrite Hk, Nat.add_comm, Nat.add_sub, Hsplit.
    exact (proj1 (firstn_skipn_at done' todo')). }
  assert (Hstay : filter (fun a => pset_mem a (_active s')) A0
                  = _active (f s3)).
  { apply (holds_unique _ _ (spans (firstn k E) todo')); auto.
    apply (holds_filter _ _ _ _ Hold). intros a. split.
    - intros Ha. split; [apply spans_app_r; now right|].
      apply (holds_mem_true _ _ _ Hact'). now left.
    - intros [Ha Hm]. apply pset_mem_In, (proj2 Hact') in Hm.
      destruct Hm as [Hm|Hm]; auto.
      exfalso. exact (Hdis _ _ a Ha Hm). }
  assert (Hnew : filter (fun a => negb (pset_mem a A0)) (_active s') = na3).
  { apply (holds_unique _ _ (spans done' todo')); auto.
    apply (holds_filter _ _ _ _ Hact'). intros a. split.
    - intros Ha. split; [now right|].
      rewrite (holds_mem _ _ _ Hold); auto.
      intros Ha'. exact (Hdis _ _ a Ha' Ha).
    - intros [[Ha|Ha] Hm]; auto.
      rewrite (holds_mem_true _ _ _ Hold) in Hm; [discriminate|].
      apply spans_app_r. now right. }
  rewrite Hfd, Hdispf, Hdisp, Hbetween. unfold finish_callbacks.
  rewrite Hstay, Hnew, Hevf, Hev, <- HeqE, <- !app_assoc. reflexivity.
Qed.

(** A backward scan from the cursor and the loops that end it. *)
Lemma reverse_pass_callbacks cond is_initial now s :
  paired (_events s) -> events_wf (_defs s) (_events s) ->
  (_next_event_index s <= length (_events s))%nat -> active_ok s ->
  let r := scan_reverse cond is_initial (events_behind s) [] s in
  let s' := finish_events_reverse now (snd r) (fst r) in
  (_next_event_index s' <= _next_event_index s)%nat /\
  dispatched s'
  = dispatched s ++
    reverse_callbacks (_defs s) is_initial (_active s)
      (rev (events_between (_events s) (_next_event_index s')
              (_next_event_index s))) ++
    finish_callbacks ET_reverse_initialize now (_events s) (_active s)
      (_active s').
Proof.
  intros HP Hwf Hidx Hact r s'. subst r s'.
  unfold events_behind, active_ok, in_progress in *.
  remember (_events s) as E eqn:HeqE.
  remember (_next_event_index s) as k eqn:Heqk.
  remember (_active s) as A0 eqn:HeqA.
  assert (Hrev : rev (rev (firstn k E)) = firstn k E)
    by apply rev_involutive.
  assert (HE : E = rev (rev (firstn k E)) ++ [] ++ skipn k E)
    by (rewrite Hrev; simpl; now rewrite firstn_skipn).
  destruct (scan_reverse cond is_initial (rev (firstn k E)) [] s)
    as [s3 na3] eqn:Escan.
  destruct (scan_reverse_callbacks E (skipn k E) cond is_initial A0
              (rev (firstn k E)) [] [] s s3 na3 HP HE Hwf)
    as (done' & todo' & Hsplit & Hd & Hdefs & Hev & Hi & Hact3 & Hna3
        & Hdisp).
  { rewrite Hrev, <- HeqA. exact Hact. }
  { apply holds_nil. intros a. apply spans_nil_r. }
  { rewrite Hrev, app_nil_r. exact Hact. }
  { exact Escan. }
  cbn [fst snd] in *. rewrite app_nil_r in Hna3.
  assert (Hfirst : firstn k E = rev todo' ++ rev done').
  { rewrite <- rev_app_distr, <- Hsplit. now rewrite Hrev. }
  assert (HE' : E = rev todo' ++ rev done' ++ skipn k E).
  { rewrite app_assoc, <- Hfirst. symmetry. apply firstn_skipn. }
  assert (Hi1 : incl (rev todo') E).
  { intros y Hy. rewrite HE'. apply in_or_app. now left. }
  assert (Hdis : forall L1 L2 a,
             spans L1 (skipn k E) a -> spans L2 (rev done') a -> False).
  { intros L1 L2 a [_ (e & He & Hte & Hea)] [_ (e' & He' & Hte' & Hea')].
    assert (e = e').
    { destruct HP as (_ & _ & _ & Hu).
      apply Hu; auto; try congruence; rewrite HE'; apply in_or_app; right;
        apply in_or_app; auto. }
    subst e'. pose proof (paired_NoDup E HP) as Hnd.
    rewrite HE' in Hnd. apply NoDup_app_remove_l in Hnd.
    apply (NoDup_app_disjoint _ _ e Hnd He' He). }
  assert (Hwf3 : events_wf (_defs s3) (_events s3))
    by (now rewrite Hdefs, Hev, <- HeqE).
  assert (Ha3 : addrs_ok (_events s3) (_active s3)).
  { rewrite Hev, <- HeqE.
    now apply (holds_addrs_ok E (rev todo') (skipn k E)). }
  assert (Hn3 : addrs_ok (_events s3) na3).
  { rewrite Hev, <- HeqE.
    now apply (holds_addrs_ok E (rev todo') (rev done')). }
  destruct (finish_ok ET_reverse_initialize now na3 s3
              (spans (rev todo') (skipn k E)) (spans (rev todo') (rev done'))
              Hwf3 Ha3 Hn3 Hact3 Hna3 (Hdis _ _))
    as [(Hd' & Hdefs' & Hev' & Hi') Hact'].
  pose proof (finish_dispatched ET_reverse_initialize now na3 s3
                (spans (rev todo') (skipn k E))
                (spans (rev todo') (rev done'))
                Hwf3 Ha3 Hn3 Hact3 Hna3 (Hdis _ _)) as Hfd.
  unfold finish_events_reverse.
  set (s' := init_new_active ET_reverse_initialize now na3
               (step_active now (_active s3) s3)) in *.
  assert (Hlen : (length todo' + length done' = k)%nat).
  { assert (H : length (firstn k E) = k)
      by (rewrite length_firstn; lia).
    rewrite Hfirst, length_app, !length_rev in H. exact H. }
  assert (Hk : _next_event_index s' = length (rev todo')).
  { rewrite Hi', Hi, <- Heqk, length_rev. lia. }
  split; [rewrite Hk, length_rev; lia|].
  assert (Hold : holds A0 (spans (rev todo' ++ rev done') (skipn k E)))
    by (now rewrite <- Hfirst).
  assert (Hbetween : rev (events_between E (_next_event_index s') k)
                     = done').
  { unfold events_between. rewrite Hk.
    replace (k - length (rev todo'))%nat with (length (rev done'))
      by (rewrite !length_rev; lia).
    rewrite HE' at 1.
    rewrite (proj2 (firstn_skipn_at (rev todo') (rev done' ++ skipn k E))).
    rewrite (proj1 (firstn_skipn_at (rev done') (skipn k E))).
    apply rev_involutive. }
  assert (Hstay : filter (fun a => pset_mem a (_active s')) A0 = _active s3).
  { apply (holds_unique _ _ (spans (rev todo') (skipn k E))); auto.
    apply (holds_filter _ _ _ _ Hold). intros a. split.
    - intros Ha. split; [apply spans_app_l; now left|].
      apply (holds_mem_true _ _ _ Hact'). now left.
    - intros [Ha Hm]. apply pset_mem_In, (proj2 Hact') in Hm.
      destruct Hm as [Hm|Hm]; auto.
      exfalso. exact (Hdis _ _ a Ha Hm). }
  assert (Hnew : filter (fun a => negb (pset_mem a A0)) (_active s') = na3).
  { apply (holds_unique _ _ (spans (rev todo') (rev done'))); auto.
    apply (holds_filter _ _ _ _ Hact'). intros a. split.
    - intros Ha. split; [now right|].
      rewrite (holds_mem _ _ _ Hold); auto.
      intros Ha'. exact (Hdis _ _ a Ha' Ha).
    - intros [[Ha|Ha] Hm]; auto.
      rewrite (holds_mem_true _ _ _ Hold) in Hm; [discriminate|].
      apply spans_app_l. now left. }
  rewrite Hfd, Hdisp, Hbetween. unfold finish_callbacks.
  rewrite Hstay, Hnew, Hev, <- HeqE, <- !app_assoc. reflexivity.
Qed.

End PassCallbacks.

(** *** The callbacks of each method *)

Section MethodCallbacks.
Context {TM : TimeModel}.

Lemma id_silent (x : CMetaInterval) :
  quiet x x /\ _active x = _active x /\ dispatched x = dispatched x.
Proof. split; [apply quiet_refl|split; reflexivity]. Qed.

Lemma filter_all {A} (f : A -> bool) (l : list A) :
  (forall a, f a = true) -> filter f l = l.
Proof.
  intros H. induction l as [|a l IH]; simpl; auto. now rewrite H, IH.
Qed.

Lemma filter_none {A} (f : A -> bool) (l : list A) :
  (forall a, f a = false) -> filter f l = [].
Proof.
  intros H. induction l as [|a l IH]; simpl; auto. now rewrite H, IH.
Qed.

(** From an empty active set there is nothing to step. *)
Lemma finish_callbacks_nil_l event_type now events new :
  finish_callbacks event_type now events [] new
  = map (start_dispatch event_type now) (events_at_addrs events new).
Proof.
  unfold finish_callbacks. cbn [filter events_at_addrs flat_map map app].
  now rewrite filter_all by reflexivity.
Qed.

(** Into an empty active set nothing stays and nothing enters. *)
Lemma finish_callbacks_nil_r event_type now events old :
  finish_callbacks event_type now events old [] = [].
Proof.
  unfold finish_callbacks. cbn [filter events_at_addrs flat_map map].
  now rewrite filter_none by reflexivity.
Qed.

Lemma events_between_from_start {A} (events : list A) k :
  firstn (k - 0) (skipn 0 events) = firstn k events.
Proof. now rewrite Nat.sub_0_r. Qed.

Lemma events_between_to_end {A} (events : list A) k :
  firstn (length events - k) (skipn k events) = skipn k events.
Proof. apply firstn_all2. rewrite length_skipn. lia. Qed.


Lemma finalize_callbacks_of s :
  Inv s -> compiled_prefix (_defs s) (_events s) ->
  nonneg_durations (_defs s) -> active_ok s ->
  dispatched (finalize s)
  = dispatched s ++
    forward_callbacks (_defs s) false (_active s) (events_ahead s).
Proof.
  intros HI Hc Hn Hact.
  pose proof (prefix_paired _ _ Hc Hn) as HP.
  destruct (Inv_ground s HI Hc) as [Hwf _].
  pose proof (inv_index s HI) as Hidx.
  destruct (finalize_ok s HI Hc Hn Hact) as [_ Hf].
  destruct (finalize_cursor s Hidx) as [Hi He].
  assert (Hnil : _active (finalize s) = []).
  { unfold active_ok, in_progress in Hf. rewrite Hi, He, skipn_all in Hf.
    apply (holds_empty _ _ Hf). intros a. apply spans_nil_r. }
  revert Hi Hnil. unfold finalize.
  pose proof (fun now =>
                forward_pass_callbacks (fun _ => true) false
                  (fun x => set_curr_t (get_duration x) x) now s
                  (fun x => conj (conj eq_refl
                                    (conj eq_refl (conj eq_refl eq_refl)))
                                 (conj eq_refl eq_refl))
                  HP Hwf Hidx Hact) as H.
  destruct (scan_forward _ _ _ _ _) as [s3 na]. cbn [fst snd] in H.
  intros Hi Hnil.
  destruct (H (double_to_int_time
                 (_curr_t (set_curr_t (get_duration s3) s3)))) as [_ ->].
  rewrite Hi, Hnil, finish_callbacks_nil_r, app_nil_r.
  unfold events_between, events_ahead.
  now rewrite events_between_to_end.
Qed.

Lemma reverse_finalize_callbacks_of s :
  Inv s -> compiled_prefix (_defs s) (_events s) ->
  nonneg_durations (_defs s) -> active_ok s ->
  dispatched (reverse_finalize s)
  = dispatched s ++
    reverse_callbacks (_defs s) false (_active s) (events_behind s).
Proof.
  intros HI Hc Hn Hact.
  pose proof (prefix_paired _ _ Hc Hn) as HP.
  destruct (Inv_ground s HI Hc) as [Hwf _].
  pose proof (inv_index s HI) as Hidx.
  destruct (reverse_finalize_ok s HI Hc Hn Hact) as [_ Hf].
  pose proof (reverse_finalize_cursor s Hidx) as Hi.
  assert (Hnil : _active (reverse_finalize s) = []).
  { unfold active_ok, in_progress in Hf. rewrite Hi in Hf.
    apply (holds_empty _ _ Hf). intros a. apply spans_nil_l. }
  revert Hi Hnil. unfold reverse_finalize.
  pose proof (reverse_pass_callbacks (fun _ => true) false 0 s HP Hwf Hidx
                Hact) as H.
  destruct (scan_reverse _ _ _ _ _) as [s3 na]. cbn [fst snd] in H.
  cbn [_next_event_index _active set_curr_t]. intros Hi Hnil.
  destruct H as [_ H].
  replace (dispatched (set_curr_t double_zero
                         (finish_events_reverse 0 na s3)))
    with (dispatched (finish_events_reverse 0 na s3)) by reflexivity.
  rewrite H, Hi, Hnil, finish_callbacks_nil_r, app_nil_r.
  unfold events_between, events_behind.
  now rewrite events_between_from_start.
Qed.

Lemma initialize_callbacks_of t s :
  Inv s -> compiled_prefix (_defs s) (_events s) ->
  nonneg_durations (_defs s) ->
  dispatched (initialize t s)
  = dispatched s ++
    forward_callbacks (_defs (recompute s)) true []
      (firstn (_next_event_index (initialize t s)) (_events (recompute s))) ++
    map (start_dispatch ET_initialize (double_to_int_time t))
      (events_at_addrs (_events (recompute s)) (_active (initialize t s))).
Proof.
  intros HI Hc Hn.
  destruct (recompute_ground s 0%nat HI Hc) as [Hwf _].
  pose proof (prefix_paired _ _ (recompute_compiled_prefix s HI Hc)
                (proj1 (nonneg_durations_recompute s) Hn)) as HP.
  set (s0 := set_active [] (set_next_event_index 0 (recompute s))) in *.
  pose proof (forward_pass_callbacks
                (fun e => ev_time e <=? double_to_int_time t) true
                (fun x => x) (double_to_int_time t) s0 id_silent HP Hwf
                (Nat.le_0_l _) (active_ok_start s0 eq_refl eq_refl)) as H.
  unfold initialize. fold s0.
  destruct (scan_forward _ _ _ _ _) as [s3 na]. cbn [fst snd] in H.
  destruct H as [_ H].
  cbn [_next_event_index _active set_curr_t].
  replace (dispatched (set_curr_t t (finish_events_forward
                                       (double_to_int_time t) na s3)))
    with (dispatched (finish_events_forward (double_to_int_time t) na s3))
    by reflexivity.
  rewrite H. subst s0.
  cbn [_next_event_index _active _defs _events set_active
         set_next_event_index].
  replace (dispatched (set_active [] (set_next_event_index 0 (recompute s))))
    with (dispatched (recompute s)) by reflexivity.
  rewrite recompute_dispatched, finish_callbacks_nil_l.
  unfold events_between. now rewrite events_between_from_start.
Qed.

Lemma reverse_initialize_callbacks_of t s :
  Inv s -> compiled_prefix (_defs s) (_events s) ->
  nonneg_durations (_defs s) ->
  dispatched (reverse_initialize t s)
  = dispatched s ++
    reverse_callbacks (_defs (recompute s)) true []
      (rev (skipn (_next_event_index (reverse_initialize t s))
              (_events (recompute s)))) ++
    map (start_dispatch ET_reverse_initialize (double_to_int_time t))
      (events_at_addrs (_events (recompute s))
         (_active (reverse_initialize t s))).
Proof.
  intros HI Hc Hn.
  destruct (recompute_ground s (length (_events (recompute s))) HI Hc)
    as [Hwf _].
  pose proof (prefix_paired _ _ (recompute_compiled_prefix s HI Hc)
                (proj1 (nonneg_durations_recompute s) Hn)) as HP.
  set (s0 := set_active []
               (set_next_event_index (length (_events (recompute s)))
                  (recompute s))) in *.
  pose proof (reverse_pass_callbacks
                (fun e => double_to_int_time t <? ev_time e) true
                (double_to_int_time t) s0 HP Hwf (Nat.le_refl _)
                (active_ok_end s0 eq_refl eq_refl)) as H.
  unfold reverse_initialize. fold s0.
  destruct (scan_reverse _ _ _ _ _) as [s3 na]. cbn [fst snd] in H.
  destruct H as [_ H].
  cbn [_next_event_index _active set_curr_t].
  replace (dispatched (set_curr_t t (finish_events_reverse
                                       (double_to_int_time t) na s3)))
    with (dispatched (finish_events_reverse (double_to_int_time t) na s3))
    by reflexivity.
  rewrite H. subst s0.
  cbn [_next_event_index _active _defs _events set_active
         set_next_event_index].
  replace (dispatched (set_active []
                         (set_next_event_index
                            (length (_events (recompute s))) (recompute s))))
    with (dispatched (recompute s)) by reflexivity.
  rewrite recompute_dispatched, finish_callbacks_nil_l.
  unfold events_between. now rewrite events_between_to_end.
Qed.

End MethodCallbacks.

Section CallbackTheorems.
Context {TM : TimeModel}.


(** When no action has a negative quantized duration, the callbacks of a
    cold start are these, in this order.  [initialize] issues, for each
    event of the recompiled timeline that ends up behind the cursor, in
    timeline order, an instant callback if the event is not a begin and
    its action is open-ended, and then an initialize callback for each
    action left active, at the time since its begin.
    [reverse_initialize] issues, for each event that ends up at or ahead
    of the cursor, last one first, a reverse-instant callback if the
    event is not an end and its action is open-ended, and then a
    reverse-initialize callback for each action left active.  Neither
    issues a finalize or a step. *)
Theorem cold_start_callbacks (s : CMetaInterval) (t : double) :
  reachable s -> nonneg_durations (_defs s) ->
  dispatched (initialize t s)
  = dispatched s ++
    forward_callbacks (_defs (recompute s)) true []
      (firstn (_next_event_index (initialize t s)) (_events (recompute s))) ++
    map (start_dispatch ET_initialize (double_to_int_time t))
      (events_at_addrs (_events (recompute s)) (_active (initialize t s))) /\
  dispatched (reverse_initialize t s)
  = dispatched s ++
    reverse_callbacks (_defs (recompute s)) true []
      (rev (skipn (_next_event_index (reverse_initialize t s))
              (_events (recompute s)))) ++
    map (start_dispatch ET_reverse_initialize (double_to_int_time t))
      (events_at_addrs (_events (recompute s))
         (_active (reverse_initialize t s))).
Proof.
  intros Hr Hn.
  pose proof (reachable_Inv s Hr) as HI.
  pose proof (reachable_compiled_prefix s Hr) as Hc.
  split.
  - now apply initialize_callbacks_of.
  - now apply reverse_initialize_callbacks_of.
Qed.

(** When no action has a negative quantized duration, from a state
    whose active set is in step with the cursor, [reverse_finalize]
    issues one callback for each event behind the cursor that is not an
    end, last one first: a reverse-finalize for the begin of an action
    that was active, a reverse-instant for any other; it issues no step
    and no reverse-initialize.  [finalize] on an object that is not dirty
    issues one callback for each event ahead of the cursor that is not a
    begin, in timeline order: a finalize for the end of an action that was
    active, an instant for any other; it issues no step and no
    initialize. *)
Theorem finalize_callbacks (s : CMetaInterval) :
  reachable s -> nonneg_durations (_defs s) -> active_ok s ->
  dispatched (reverse_finalize s)
  = dispatched s ++
    reverse_callbacks (_defs s) false (_active s) (events_behind s) /\
  (_dirty s = false ->
   dispatched (finalize s)
   = dispatched s ++
     forward_callbacks (_defs s) false (_active s) (events_ahead s)).
Proof.
  intros Hr Hn Ha.
  pose proof (reachable_Inv s Hr) as HI.
  pose proof (reachable_compiled_prefix s Hr) as Hc.
  split.
  - now apply reverse_finalize_callbacks_of.
  - intros _. now apply finalize_callbacks_of.
Qed.

End CallbackTheorems.

Section CallbackWitnesses.
#[local] Existing Instance Q_time.


(** Scenario A begun at 1.5, forwards and backwards. *)
Lemma cold_start_callbacks_witness :
  reachable two_in_a_row /\
  nonneg_durations (_defs two_in_a_row) /\
  dispatched (initialize (3 # 2)%Q two_in_a_row)
  = dispatched two_in_a_row ++
    forward_callbacks (_defs (recompute two_in_a_row)) true []
      (firstn (_next_event_index (initialize (3 # 2)%Q two_in_a_row))
         (_events (recompute two_in_a_row))) ++
    map (start_dispatch ET_initialize (double_to_int_time (3 # 2)%Q))
      (events_at_addrs (_events (recompute two_in_a_row))
         (_active (initialize (3 # 2)%Q two_in_a_row))) /\
  dispatched (reverse_initialize (3 # 2)%Q two_in_a_row)
  = dispatched two_in_a_row ++
    reverse_callbacks (_defs (recompute two_in_a_row)) true []
      (rev (skipn (_next_event_index
                     (reverse_initialize (3 # 2)%Q two_in_a_row))
              (_events (recompute two_in_a_row)))) ++
    map (start_dispatch ET_reverse_initialize (double_to_int_time (3 # 2)%Q))
      (events_at_addrs (_events (recompute two_in_a_row))
         (_active (reverse_initialize (3 # 2)%Q two_in_a_row))).
Proof.
  assert (Hn : nonneg_durations (_defs two_in_a_row))
    by (now apply nonneg_two_in_a_row).
  split; [exact reachable_two_in_a_row|]. split; [exact Hn|].
  apply (cold_start_callbacks (TM := Q_time) _ _ reachable_two_in_a_row Hn).
Defined.

(** Scenario A begun at 0 and ended in either direction. *)
Lemma finalize_callbacks_witness :
  reachable (initialize 0%Q two_in_a_row) /\
  nonneg_durations (_defs (initialize 0%Q two_in_a_row)) /\
  active_ok (initialize 0%Q two_in_a_row) /\
  _dirty (initialize 0%Q two_in_a_row) = false /\
  dispatched (reverse_finalize (initialize 0%Q two_in_a_row))
  = dispatched (initialize 0%Q two_in_a_row) ++
    reverse_callbacks (_defs (initialize 0%Q two_in_a_row)) false
      (_active (initialize 0%Q two_in_a_row))
      (events_behind (initialize 0%Q two_in_a_row)) /\
  dispatched (finalize (initialize 0%Q two_in_a_row))
  = dispatched (initialize 0%Q two_in_a_row) ++
    forward_callbacks (_defs (initialize 0%Q two_in_a_row)) false
      (_active (initialize 0%Q two_in_a_row))
      (events_ahead (initialize 0%Q two_in_a_row)).
Proof.
  assert (Hr : reachable (initialize 0%Q two_in_a_row))
    by (apply R_initialize, reachable_two_in_a_row).
  assert (Hn : nonneg_durations (_defs (initialize 0%Q two_in_a_row)))
    by (apply nonneg_two_in_a_row; vm_compute; reflexivity).
  assert (Hd : _dirty (initialize 0%Q two_in_a_row) = false)
    by (vm_compute; reflexivity).
  destruct (finalize_callbacks (TM := Q_time) _ Hr Hn active_ok_begun)
    as [Hrev Hfin].
  split; [exact Hr|]. split; [exact Hn|]. split; [exact active_ok_begun|].
  split; [exact Hd|]. split; [exact Hrev|exact (Hfin Hd)].
Defined.

End CallbackWitnesses.

(** ** What a compilation depends on *)

Section CompileInputs.
Context {TM : TimeModel}.

(** Two entries with the same static members differ in the begin time
    only. *)
Lemma sync_def d1 d2 :
  with_actual_begin_time 0 d2 = with_actual_begin_time 0 d1 ->
  d2 = with_actual_begin_time (_actual_begin_time d2) d1.
Proof.
  destruct d1, d2. unfold with_actual_begin_time. simpl.
  intros H. inversion H. reflexivity.
Qed.

Lemma Some_eq {A} (x y : A) : Some x = Some y -> x = y.
Proof. now intros [= ->]. Qed.

Lemma nth_error_set_actual n t defs :
  nth_error (set_actual_begin_time n t defs) n
  = option_map (with_actual_begin_time t) (nth_error defs n).
Proof.
  revert n. induction defs as [|x defs IH]; intros [|n]; simpl; auto.
Qed.

Lemma sync_nth defs1 defs2 n :
  statics defs2 = statics defs1 ->
  option_map (with_actual_begin_time 0) (nth_error defs2 n)
  = option_map (with_actual_begin_time 0) (nth_error defs1 n).
Proof.
  intros H. apply (f_equal (fun l => nth_error l n)) in H.
  unfold statics in H. now rewrite !nth_error_map in H.
Qed.

Lemma set_actual_sync n t defs1 defs2 :
  statics defs2 = statics defs1 ->
  nth_error (set_actual_begin_time n t defs2) n
  = nth_error (set_actual_begin_time n t defs1) n.
Proof.
  intros H. rewrite !nth_error_set_actual.
  pose proof (sync_nth _ _ n H) as Hn.
  destruct (nth_error defs1 n) as [d1|], (nth_error defs2 n) as [d2|];
    simpl in *; try discriminate; auto.
  apply Some_eq in Hn. rewrite (sync_def _ _ Hn). reflexivity.
Qed.

Lemma walk_sync fuel :
  (forall n lb s1 s2 s1' n' le,
      recompute_level fuel n lb s1 = Some (s1', n', le) ->
      statics (_defs s2) = statics (_defs s1) -> _events s2 = _events s1 ->
      exists s2',
        recompute_level fuel n lb s2 = Some (s2', n', le) /\
        in_step n s1 s2 s1' s2' n' (S n')) /\
  (forall n lb pb pe le0 s1 s2 s1' n' le,
      recompute_loop fuel n lb pb pe le0 s1 = Some (s1', n', le) ->
      statics (_defs s2) = statics (_defs s1) -> _events s2 = _events s1 ->
      exists s2',
        recompute_loop fuel n lb pb pe le0 s2 = Some (s2', n', le) /\
        in_step n s1 s2 s1' s2' n' n').
Proof.
  induction fuel as [|fuel [IHlevel IHloop]]; [split; discriminate|].
  split.
  - intros n lb s1 s2 s1' n' le H Hst Hev. simpl in H |- *.
    destruct (recompute_loop fuel n lb lb lb lb s1) as [[[t1 n1] le1]|] eqn:E;
      [|discriminate].
    destruct (IHloop _ _ _ _ _ _ s2 _ _ _ E Hst Hev)
      as (t2 & E2 & Hst' & Hev' & Hle & Heq & Hf1 & Hf2).
    rewrite E2, (length_same_statics _ _ Hst').
    destruct (Nat.ltb_spec n1 (length (_defs t1))) as [Hlt|Hge];
      inversion H; subst.
    + eexists. split; [reflexivity|]. unfold in_step.
      cbn [_defs _events set_defs].
      split; [now rewrite !statics_set_actual|].
      split; [exact Hev'|]. split; [exact Hle|].
      split; [|split].
      * intros i Hi. destruct (Nat.eq_dec i n') as [->|Hne].
        -- now apply set_actual_sync.
        -- rewrite !nth_error_set_actual_neq by exact Hne.
           apply Heq. lia.
      * intros i Hi. rewrite nth_error_set_actual_neq by lia. now apply Hf1.
      * intros i Hi. rewrite nth_error_set_actual_neq by lia. now apply Hf2.
    + exists t2. split; [reflexivity|].
      split; [exact Hst'|]. split; [exact Hev'|]. split; [exact Hle|].
      split; [|split; assumption].
      intros i Hi. destruct (Nat.eq_dec i n') as [->|Hne].
      * pose proof (length_same_statics _ _ Hst') as Hlen.
        rewrite (proj2 (nth_error_None (_defs s1') n')) by exact Hge.
        apply nth_error_None. lia.
      * apply Heq. lia.
  - intros n lb pb pe le0 s1 s2 s1' n' le H Hst Hev. simpl in H |- *.
    pose proof (sync_nth _ _ n Hst) as Hn.
    destruct (nth_error (_defs s1) n) as [d1|] eqn:En;
      destruct (nth_error (_defs s2) n) as [d2|] eqn:En2;
      simpl in Hn; try discriminate.
    2:{ inversion H; subst. exists s2. split; [reflexivity|].
        split; [exact Hst|]. split; [exact Hev|]. split; [lia|].
        split; [intros i Hi; lia|]. split; auto. }
    apply Some_eq in Hn. rewrite (sync_def _ _ Hn).
    rewrite get_begin_time_actual.
    cbn [_type _c_interval _ext_duration with_actual_begin_time].
    set (bt := get_begin_time d1 lb pb pe) in *.
    assert (Hst1 : statics (set_actual_begin_time n bt (_defs s2))
                   = statics (set_actual_begin_time n bt (_defs s1)))
      by (now rewrite !statics_set_actual).
    assert (Hat : forall (u1 u2 : CMetaInterval),
               nth_error (_defs u1) n
               = nth_error (set_actual_begin_time n bt (_defs s1)) n ->
               nth_error (_defs u2) n
               = nth_error (set_actual_begin_time n bt (_defs s2)) n ->
               nth_error (_defs u2) n = nth_error (_defs u1) n).
    { intros u1 u2 -> ->. now apply set_actual_sync. }
    destruct (_type d1) eqn:Ety.
    + destruct (_c_interval d1) as [ci|] eqn:Eci; [|discriminate].
      match type of H with
      | recompute_loop _ _ _ _ _ _ ?a = _ => set (a1 := a) in *
      end.
      match goal with
      | |- exists _, recompute_loop _ _ _ _ _ _ ?a = _ /\ _ =>
          set (a2 := a)
      end.
      destruct (IHloop _ _ _ _ _ _ a2 _ _ _ H)
        as (t2 & E2 & Hst' & Hev' & Hle & Heq & Hf1 & Hf2).
      { exact Hst1. }
      { subst a1 a2. cbn [_events _defs set_events set_defs].
        now rewrite Hev. }
      exists t2. split; [exact E2|].
      split; [exact Hst'|]. split; [exact Hev'|]. split; [lia|].
      split; [|split].
      * intros i Hi. destruct (Nat.eq_dec i n) as [->|Hne].
        -- apply Hat; [apply Hf1|apply Hf2]; lia.
        -- apply Heq. lia.
      * intros i Hi. rewrite Hf1 by lia. subst a1.
        cbn [_defs set_events set_defs].
        apply nth_error_set_actual_neq. lia.
      * intros i Hi. rewrite Hf2 by lia. subst a2.
        cbn [_defs set_events set_defs].
        apply nth_error_set_actual_neq. lia.
    + match type of H with
      | recompute_loop _ _ _ _ _ _ ?a = _ => set (a1 := a) in *
      end.
      match goal with
      | |- exists _, recompute_loop _ _ _ _ _ _ ?a = _ /\ _ =>
          set (a2 := a)
      end.
      destruct (IHloop _ _ _ _ _ _ a2 _ _ _ H)
        as (t2 & E2 & Hst' & Hev' & Hle & Heq & Hf1 & Hf2).
      { exact Hst1. }
      { subst a1 a2. cbn [_events _defs set_events set_defs].
        now rewrite Hev. }
      exists t2. split; [exact E2|].
      split; [exact Hst'|]. split; [exact Hev'|]. split; [lia|].
      split; [|split].
      * intros i Hi. destruct (Nat.eq_dec i n) as [->|Hne].
        -- apply Hat; [apply Hf1|apply Hf2]; lia.
        -- apply Heq. lia.
      * intros i Hi. rewrite Hf1 by lia. subst a1.
        cbn [_defs set_events set_defs].
        apply nth_error_set_actual_neq. lia.
      * intros i Hi. rewrite Hf2 by lia. subst a2.
        cbn [_defs set_events set_defs].
        apply nth_error_set_actual_neq. lia.
    + match type of H with
      | match recompute_level _ _ _ ?a with _ => _ end = _ =>
          set (a1 := a) in *
      end.
      match goal with
      | |- exists _, match recompute_level _ _ _ ?a with _ => _ end = _ /\ _
        => set (a2 := a)
      end.
      destruct (recompute_level fuel (S n) bt a1) as [[[u1 n1] et]|] eqn:E;
        [|discriminate].
      destruct (IHlevel _ _ _ a2 _ _ _ E)
        as (u2 & E2 & Hst2 & Hev2 & Hle2 & Heq2 & Hg1 & Hg2).
      { exact Hst1. }
      { subst a1 a2. cbn [_events set_defs]. exact Hev. }
      rewrite E2.
      destruct (IHloop _ _ _ _ _ _ u2 _ _ _ H Hst2 Hev2)
        as (t2 & E3 & Hst' & Hev' & Hle & Heq & Hf1 & Hf2).
      exists t2. split; [exact E3|].
      split; [exact Hst'|]. split; [exact Hev'|]. split; [lia|].
      split; [|split].
      * intros i Hi. destruct (Nat.lt_ge_cases i (S n1)) as [Hlt|Hge].
        -- rewrite Hf1, Hf2 by exact Hlt.
           destruct (Nat.eq_dec i n) as [->|Hne].
           ++ apply Hat; [apply Hg1|apply Hg2]; lia.
           ++ apply Heq2. lia.
        -- apply Heq. lia.
      * intros i Hi. rewrite Hf1, Hg1 by lia. subst a1.
        cbn [_defs set_defs]. apply nth_error_set_actual_neq. lia.
      * intros i Hi. rewrite Hf2, Hg2 by lia. subst a2.
        cbn [_defs set_defs]. apply nth_error_set_actual_neq. lia.
    + inversion H; subst. exists s2. split; [reflexivity|].
      split; [exact Hst|]. split; [exact Hev|]. split; [lia|].
      split; [intros i Hi; lia|]. split; auto.
Qed.

End CompileInputs.

Section CompileTheorems.
Context {TM : TimeModel}.

(** Two lists with the same static members compile to the same
    result. *)
Lemma do_recompute_sync s1 s2 :
  no_null_children (_defs s1) -> well_nested (_defs s1) ->
  statics (_defs s2) = statics (_defs s1) ->
  _defs (do_recompute s2) = _defs (do_recompute s1) /\
  _events (do_recompute s2) = _events (do_recompute s1) /\
  _end_time (do_recompute s2) = _end_time (do_recompute s1) /\
  _duration (do_recompute s2) = _duration (do_recompute s1).
Proof.
  intros Hnn Hwn Hst.
  destruct (do_recompute_some s1 Hnn)
    as (t1 & n' & le & E1 & Hpost & -> & -> & -> & ->).
  pose proof (top_walk_index _ _ _ Hpost Hwn) as Hidx.
  pose proof (nesting_nonneg _ Hwn) as Hpos.
  cbn [clear_events set_active set_events set_dirty _defs] in Hidx, Hpos.
  destruct (proj1 (walk_sync
                     (recompute_fuel (clear_events (set_dirty false s1))))
              0%nat 0 (clear_events (set_dirty false s1))
              (clear_events (set_dirty false s2)) t1 n' le E1 Hst eq_refl)
    as (t2 & E2 & Hst' & Hev' & _ & Heq & _).
  assert (Hfuel : recompute_fuel (clear_events (set_dirty false s2))
                  = recompute_fuel (clear_events (set_dirty false s1))).
  { unfold recompute_fuel.
    cbn [clear_events set_active set_events set_dirty _defs].
    now rewrite (length_same_statics _ _ Hst). }
  rewrite <- Hfuel in E2.
  destruct (do_recompute_cases s2)
    as [[Hnone _]|(t2' & n2 & le2 & E2' & _ & ->)]; [congruence|].
  rewrite E2 in E2'. injection E2' as <- <- <-.
  cbn [_defs _events _end_time _duration].
  assert (Hdefs : _defs t2 = _defs t1).
  { apply nth_error_ext. intros i.
    destruct (Nat.lt_ge_cases i (S n')) as [Hlt|Hge].
    - apply Heq. lia.
    - destruct Hpost as (_ & Hst1 & _).
      apply length_same_statics in Hst1.
      cbn [clear_events set_active set_events set_dirty _defs] in Hst1.
      pose proof (length_same_statics _ _ Hst') as Hlen.
      rewrite (proj2 (nth_error_None (_defs t1) i)) by lia.
      apply nth_error_None. lia. }
  rewrite Hdefs, Hev'. repeat split.
Qed.

(** The result of a compilation is determined by the static members of
    the definitions: the kind of each entry, its child and the duration
    of the child, the data of an external entry, and the placement.  Two
    objects whose lists agree on them compile to the same definitions
    with the same begin times, the same timeline, the same end time and
    the same duration, whatever begin times, timeline, cursor and active
    set they held before. *)
Theorem compilation_depends_on_static_members (s1 s2 : CMetaInterval) :
  reachable s1 -> statics (_defs s2) = statics (_defs s1) ->
  _defs (do_recompute s2) = _defs (do_recompute s1) /\
  _events (do_recompute s2) = _events (do_recompute s1) /\
  _end_time (do_recompute s2) = _end_time (do_recompute s1) /\
  _duration (do_recompute s2) = _duration (do_recompute s1).
Proof.
  intros Hr Hst. pose proof (reachable_Inv s1 Hr) as HI.
  apply do_recompute_sync; auto.
  - exact (inv_children s1 HI).
  - exact (inv_nested s1 HI).
Qed.

(** Compiling twice in a row gives what compiling once gives: the same
    definitions, timeline, end time and duration.  Only the warning about
    pushes and pops is not idempotent: the second compilation of a
    schedule with an open group issues it again. *)
Theorem recompile_idempotent (s : CMetaInterval) :
  reachable s ->
  _defs (do_recompute (do_recompute s)) = _defs (do_recompute s) /\
  _events (do_recompute (do_recompute s)) = _events (do_recompute s) /\
  _end_time (do_recompute (do_recompute s)) = _end_time (do_recompute s) /\
  _duration (do_recompute (do_recompute s)) = _duration (do_recompute s) /\
  _diag (do_recompute (do_recompute s))
  = _diag (do_recompute s) ++
    if nesting (_defs s) =? 0 then []
    else [D_warning pushes_dont_match_pops].
Proof.
  intros Hr. pose proof (reachable_Inv s Hr) as HI.
  pose proof (do_recompute_statics s) as Hst.
  destruct (do_recompute_sync s (do_recompute s) (inv_children s HI)
              (inv_nested s HI) Hst) as (H1 & H2 & H3 & H4).
  do 4 (split; [assumption|]).
  destruct (do_recompute_full (do_recompute s))
    as (defs' & E & le & _ & _ & ->).
  - exact (no_null_children_statics _ _ Hst (inv_children s HI)).
  - exact (well_nested_same_statics _ _ Hst (inv_nested s HI)).
  - cbn [_diag]. now rewrite (nesting_same_statics _ _ Hst).
Qed.

End CompileTheorems.

(** ** The begin of a group *)

Section LevelFacts.
Context {TM : TimeModel}.

Lemma type_same_statics defs defs' i :
  statics defs' = statics defs ->
  option_map _type (nth_error defs' i) = option_map _type (nth_error defs i).
Proof.
  intros H. pose proof (sync_nth _ _ i H) as Hn.
  destruct (nth_error defs i) as [d|], (nth_error defs' i) as [d'|];
    simpl in *; try discriminate; auto.
  apply Some_eq in Hn. now rewrite (sync_def _ _ Hn).
Qed.

Lemma open_groups_same_statics defs defs' n :
  statics defs' = statics defs -> open_groups defs' n = open_groups defs n.
Proof.
  intros H. induction n as [|n IH]; simpl; auto.
  pose proof (type_same_statics _ _ n H) as Hn.
  destruct (nth_error defs n) as [d|], (nth_error defs' n) as [d'|];
    simpl in Hn; try discriminate; auto.
  apply Some_eq in Hn. now rewrite Hn, IH.
Qed.

Lemma In_tl {A} (x : A) l : In x (tl l) -> In x l.
Proof. destruct l; simpl; auto. Qed.

Lemma open_groups_lt defs n p : In p (open_groups defs n) -> (p < n)%nat.
Proof.
  induction n as [|n IH]; simpl; [intros []|].
  destruct (nth_error defs n) as [d|]; [|intros H; specialize (IH H); lia].
  destruct (_type d); simpl; intros H.
  - specialize (IH H). lia.
  - specialize (IH H). lia.
  - destruct H as [<-|H]; [lia|]. specialize (IH H). lia.
  - apply In_tl in H. specialize (IH H). lia.
Qed.

Lemma level_begin_at_frame defs defs' n :
  statics defs' = statics defs ->
  (forall j, (j < n)%nat -> nth_error defs' j = nth_error defs j) ->
  level_begin_at defs' n = level_begin_at defs n.
Proof.
  intros Hst Hfr. unfold level_begin_at.
  rewrite (open_groups_same_statics _ _ n Hst).
  pose proof (open_groups_lt defs n) as Hlt.
  destruct (open_groups defs n) as [|p l]; auto.
  rewrite Hfr; auto. apply Hlt. now left.
Qed.

Lemma level_rule_frame defs defs' i d :
  statics defs' = statics defs ->
  (forall j, (j < i)%nat -> nth_error defs' j = nth_error defs j) ->
  level_rule defs i d -> level_rule defs' i d.
Proof.
  intros Hst Hfr H Hrel. rewrite (level_begin_at_frame _ _ i Hst Hfr). auto.
Qed.

(** The stack of open groups past an entry. *)
Lemma open_groups_action defs n d :
  nth_error defs n = Some d ->
  _type d = DT_c_interval \/ _type d = DT_ext_index ->
  open_groups defs (S n) = open_groups defs n.
Proof. intros H [Ht|Ht]; simpl; now rewrite H, Ht. Qed.

Lemma open_groups_push defs n d :
  nth_error defs n = Some d -> _type d = DT_push_level ->
  open_groups defs (S n) = n :: open_groups defs n.
Proof. intros H Ht. simpl. now rewrite H, Ht. Qed.

Lemma open_groups_pop defs n d :
  nth_error defs n = Some d -> _type d = DT_pop_level ->
  open_groups defs (S n) = tl (open_groups defs n).
Proof. intros H Ht. simpl. now rewrite H, Ht. Qed.

Lemma level_begin_at_groups defs n m :
  open_groups defs n = open_groups defs m ->
  level_begin_at defs n = level_begin_at defs m.
Proof. unfold level_begin_at. now intros ->. Qed.

Lemma walk_frame fuel :
  (forall n lb s s' n' le,
      recompute_level fuel n lb s = Some (s', n', le) ->
      forall i, (i < n)%nat ->
                nth_error (_defs s') i = nth_error (_defs s) i) /\
  (forall n lb pb pe le0 s s' n' le,
      recompute_loop fuel n lb pb pe le0 s = Some (s', n', le) ->
      forall i, (i < n)%nat ->
                nth_error (_defs s') i = nth_error (_defs s) i).
Proof.
  split.
  - intros n lb s s' n' le H.
    destruct (proj1 (walk_sync fuel) _ _ _ s _ _ _ H eq_refl eq_refl)
      as (s2 & _ & _ & _ & _ & _ & Hf & _). exact Hf.
  - intros n lb pb pe le0 s s' n' le H.
    destruct (proj2 (walk_sync fuel) _ _ _ _ _ _ s _ _ _ H eq_refl eq_refl)
      as (s2 & _ & _ & _ & _ & _ & Hf & _). exact Hf.
Qed.

(** The rule at the entry the loop is at. *)
Lemma level_rule_here defs defs' n def bt lb pb pe :
  nth_error defs n = Some def ->
  bt = get_begin_time def lb pb pe ->
  level_ok defs n lb ->
  statics defs' = statics defs ->
  (forall j, (j < n)%nat -> nth_error defs' j = nth_error defs j) ->
  level_rule defs' n (with_actual_begin_time bt def).
Proof.
  intros Hn -> Hlv Hst Hfr Hrel. cbn in Hrel.
  rewrite (level_begin_at_frame _ _ n Hst Hfr).
  rewrite <- Hlv by (apply nth_error_Some; congruence).
  unfold get_begin_time, offset. rewrite Hrel. reflexivity.
Qed.

Lemma levels_post_action s n def bt lb pb pe defs1 s' n' :
  nth_error (_defs s) n = Some def ->
  _type def = DT_c_interval \/ _type def = DT_ext_index ->
  bt = get_begin_time def lb pb pe ->
  defs1 = set_actual_begin_time n bt (_defs s) ->
  (forall i, (i < S n)%nat -> nth_error (_defs s') i = nth_error defs1 i) ->
  statics (_defs s') = statics defs1 ->
  level_ok (_defs s) n lb ->
  (level_ok defs1 (S n) lb -> levels_post (S n) s' n') ->
  levels_post n s' n'.
Proof.
  intros Hn Hty Hbt -> Hfr Hst Hlv IH.
  assert (Hst0 : statics (_defs s') = statics (_defs s))
    by (now rewrite Hst, statics_set_actual).
  assert (Hfr0 : forall j, (j < n)%nat ->
                           nth_error (_defs s') j = nth_error (_defs s) j).
  { intros j Hj. rewrite Hfr by lia. apply nth_error_set_actual_neq. lia. }
  assert (Hn1 : nth_error (set_actual_begin_time n bt (_defs s)) n
                = Some (with_actual_begin_time bt def))
    by (now apply nth_error_set_actual_eq).
  assert (Hn' : nth_error (_defs s') n = Some (with_actual_begin_time bt def))
    by (rewrite Hfr by lia; exact Hn1).
  assert (Hty' : _type (with_actual_begin_time bt def) = DT_c_interval \/
                 _type (with_actual_begin_time bt def) = DT_ext_index)
    by exact Hty.
  destruct IH as [Ha Hb].
  { intros Hlt.
    rewrite (level_begin_at_groups _ (S n) n
               (open_groups_action _ _ _ Hn1 Hty')).
    rewrite (level_begin_at_frame (_defs s)).
    - apply Hlv. apply nth_error_Some. congruence.
    - apply statics_set_actual.
    - intros j Hj. apply nth_error_set_actual_neq. lia. }
  split.
  - intros i d Hi Hd Hnp. destruct (Nat.eq_dec i n) as [->|Hne].
    + rewrite Hn' in Hd. apply Some_eq in Hd. subst d.
      now apply (level_rule_here (_defs s) _ n def bt lb pb pe).
    + apply Ha; auto. lia.
  - intros Hlen. rewrite Hb by exact Hlen.
    now apply (open_groups_action _ _ _ Hn' Hty').
Qed.

Lemma levels_post_push s n def bt lb pb pe defs1 u n1 s' n' :
  nth_error (_defs s) n = Some def -> _type def = DT_push_level ->
  bt = get_begin_time def lb pb pe ->
  defs1 = set_actual_begin_time n bt (_defs s) ->
  (forall i, (i < S n)%nat -> nth_error (_defs u) i = nth_error defs1 i) ->
  statics (_defs u) = statics defs1 ->
  (forall d, nth_error (_defs u) n1 = Some d -> _type d = DT_pop_level) ->
  (forall i, (i < S n1)%nat ->
             nth_error (_defs s') i = nth_error (_defs u) i) ->
  statics (_defs s') = statics (_defs u) ->
  (S n <= n1)%nat ->
  level_ok (_defs s) n lb ->
  (level_ok defs1 (S n) bt -> levels_post (S n) u n1) ->
  (level_ok (_defs u) (S n1) lb -> levels_post (S n1) s' n') ->
  (S n1 <= n')%nat ->
  levels_post n s' n'.
Proof.
  intros Hn Hty Hbt -> Hfru Hstu Hpop Hfr Hst Hle Hlv IHin IHout Hle'.
  assert (Hstu0 : statics (_defs u) = statics (_defs s))
    by (now rewrite Hstu, statics_set_actual).
  assert (Hst0 : statics (_defs s') = statics (_defs s)) by congruence.
  assert (Hfru0 : forall j, (j < n)%nat ->
                            nth_error (_defs u) j = nth_error (_defs s) j).
  { intros j Hj. rewrite Hfru by lia. apply nth_error_set_actual_neq. lia. }
  assert (Hn1 : nth_error (set_actual_begin_time n bt (_defs s)) n
                = Some (with_actual_begin_time bt def))
    by (now apply nth_error_set_actual_eq).
  assert (Hnu : nth_error (_defs u) n = Some (with_actual_begin_time bt def))
    by (rewrite Hfru by lia; exact Hn1).
  assert (Hn' : nth_error (_defs s') n = Some (with_actual_begin_time bt def))
    by (rewrite Hfr by lia; exact Hnu).
  assert (Hty' : _type (with_actual_begin_time bt def) = DT_push_level)
    by exact Hty.
  destruct IHin as [Hain Hbin].
  { intros Hlt. unfold level_begin_at.
    rewrite (open_groups_push _ _ _ Hn1 Hty'), Hn1. reflexivity. }
  (* past the inner group the stack is back to what it was *)
  assert (Hback : forall defs, statics defs = statics (_defs s) ->
                               (n1 < length defs)%nat ->
                               open_groups defs (S n1) = open_groups defs n).
  { intros defs Hd Hlt.
    assert (Hlen : length defs = length (_defs u))
      by (apply length_same_statics; congruence).
    rewrite !(open_groups_same_statics (_defs u) defs) by congruence.
    destruct (nth_error (_defs u) n1) as [dp|] eqn:Ep.
    2:{ apply nth_error_None in Ep. lia. }
    rewrite (open_groups_pop _ _ _ Ep (Hpop _ eq_refl)).
    rewrite Hbin by lia.
    now rewrite (open_groups_push _ _ _ Hnu Hty'). }
  destruct IHout as [Ha Hb].
  { intros Hlt.
    rewrite (level_begin_at_groups _ (S n1) n (Hback _ Hstu0 ltac:(lia))).
    rewrite (level_begin_at_frame (_defs s)); auto.
    apply Hlv. apply nth_error_Some. congruence. }
  split.
  - intros i d Hi Hd Hnp. destruct (Nat.eq_dec i n) as [->|Hne].
    + rewrite Hn' in Hd. apply Some_eq in Hd. subst d.
      apply (level_rule_here (_defs s) _ n def bt lb pb pe); auto.
      intros j Hj. rewrite Hfr by lia. now apply Hfru0.
    + destruct (Nat.lt_ge_cases i n1) as [Hlt|Hge].
      * apply (level_rule_frame (_defs u)); auto.
        -- intros j Hj. apply Hfr. lia.
        -- apply Hain; auto; [lia|]. rewrite <- Hfr by lia. exact Hd.
      * destruct (Nat.eq_dec i n1) as [->|Hne1].
        -- exfalso. apply Hnp, Hpop. rewrite <- Hfr by lia. exact Hd.
        -- apply Ha; auto. lia.
  - intros Hlen. rewrite Hb by exact Hlen.
    apply Hback; auto. lia.
Qed.

Lemma levels_post_stop n s : levels_post n s n.
Proof. split; [intros i d Hi; lia|reflexivity]. Qed.

Lemma levels_post_epilogue n s1 n1 t :
  levels_post n s1 n1 -> (n <= n1)%nat ->
  levels_post n (set_defs (set_actual_begin_time n1 t (_defs s1)) s1) n1.
Proof.
  intros [Ha Hb] Hle. unfold levels_post. cbn [_defs set_defs].
  assert (Hst : statics (set_actual_begin_time n1 t (_defs s1))
                = statics (_defs s1)) by apply statics_set_actual.
  split.
  - intros i d Hi Hd Hnp.
    rewrite nth_error_set_actual_neq in Hd by lia.
    apply (level_rule_frame (_defs s1)); auto.
    intros j Hj. apply nth_error_set_actual_neq. lia.
  - intros Hlen. rewrite !(open_groups_same_statics _ _ _ Hst).
    apply Hb. now rewrite <- (length_same_statics _ _ Hst).
Qed.

Lemma walk_levels fuel :
  (forall n lb s s' n' le,
      recompute_level fuel n lb s = Some (s', n', le) ->
      level_ok (_defs s) n lb -> levels_post n s' n') /\
  (forall n lb pb pe le0 s s' n' le,
      recompute_loop fuel n lb pb pe le0 s = Some (s', n', le) ->
      level_ok (_defs s) n lb -> levels_post n s' n').
Proof.
  induction fuel as [|fuel [IHlevel IHloop]]; [split; discriminate|].
  destruct (walk_correct fuel) as [WClevel WCloop].
  destruct (walk_frame fuel) as [WFlevel WFloop].
  split.
  - intros n lb s s' n' le H Hlv. simpl in H.
    destruct (recompute_loop fuel n lb lb lb lb s) as [[[s1 n1] le1]|] eqn:E;
      [|discriminate].
    pose proof (WCloop _ _ _ _ _ _ _ _ _ E) as (_ & _ & Hle & _).
    pose proof (IHloop _ _ _ _ _ _ _ _ _ E Hlv) as Hp.
    destruct (Nat.ltb_spec n1 (length (_defs s1))) as [Hlt|Hge];
      inversion H; subst.
    + now apply levels_post_epilogue.
    + exact Hp.
  - intros n lb pb pe le0 s s' n' le H Hlv. simpl in H.
    destruct (nth_error (_defs s) n) as [def|] eqn:En.
    2:{ inversion H; subst. apply levels_post_stop. }
    destruct (_type def) eqn:Ety.
    + destruct (_c_interval def) as [ci|] eqn:Eci; [|discriminate].
      pose proof (WCloop _ _ _ _ _ _ _ _ _ H) as (_ & Hst & _).
      apply (levels_post_action s n def (get_begin_time def lb pb pe) lb pb
               pe _ s' n' En (or_introl Ety) eq_refl eq_refl).
      * exact (WFloop _ _ _ _ _ _ _ _ _ H).
      * exact Hst.
      * exact Hlv.
      * exact (IHloop _ _ _ _ _ _ _ _ _ H).
    + pose proof (WCloop _ _ _ _ _ _ _ _ _ H) as (_ & Hst & _).
      apply (levels_post_action s n def (get_begin_time def lb pb pe) lb pb
               pe _ s' n' En (or_intror Ety) eq_refl eq_refl).
      * exact (WFloop _ _ _ _ _ _ _ _ _ H).
      * exact Hst.
      * exact Hlv.
      * exact (IHloop _ _ _ _ _ _ _ _ _ H).
    + match type of H with
      | match ?r with _ => _ end = _ =>
          destruct r as [[[u n1] et]|] eqn:E; [|discriminate]
      end.
      pose proof (WClevel _ _ _ _ _ _ E) as (_ & Hstu & Hle1 & _ & Hpop & _).
      pose proof (WCloop _ _ _ _ _ _ _ _ _ H) as (_ & Hst & Hle2 & _).
      apply (levels_post_push s n def (get_begin_time def lb pb pe) lb pb pe
               _ u n1 s' n' En Ety eq_refl eq_refl).
      * exact (WFlevel _ _ _ _ _ _ E).
      * exact Hstu.
      * intros d Hd. apply (Hpop (with_actual_begin_time 0 d)).
        rewrite <- Hstu, nth_error_statics, Hd. reflexivity.
      * exact (WFloop _ _ _ _ _ _ _ _ _ H).
      * exact Hst.
      * exact Hle1.
      * exact Hlv.
      * exact (IHlevel _ _ _ _ _ _ E).
      * exact (IHloop _ _ _ _ _ _ _ _ _ H).
      * exact Hle2.
    + inversion H; subst. apply levels_post_stop.
Qed.

Lemma do_recompute_levels s i d :
  no_null_children (_defs s) -> well_nested (_defs s) ->
  nth_error (_defs (do_recompute s)) i = Some d ->
  _type d <> DT_pop_level ->
  level_rule (_defs (do_recompute s)) i d.
Proof.
  intros Hnn Hwn.
  destruct (do_recompute_some s Hnn)
    as (s1 & n' & le & Hrun & Hw & -> & _).
  pose proof (top_walk_index _ _ _ Hw Hwn) as Hidx.
  pose proof (nesting_nonneg _ Hwn) as Hpos.
  cbn [clear_events set_active set_events set_dirty _defs] in Hidx.
  destruct Hw as (_ & Hst & _).
  apply length_same_statics in Hst.
  cbn [clear_events set_active set_events set_dirty _defs] in Hst.
  destruct (proj1 (walk_levels _) _ _ _ _ _ _ Hrun) as [Ha _].
  { intros _. reflexivity. }
  intros Hd Hnp. apply Ha; auto.
  assert (i < length (_defs s1))%nat by (apply nth_error_Some; congruence).
  lia.
Qed.

End LevelFacts.

Section LevelTheorems.
Context {TM : TimeModel}.

(** After a compilation every action and every group that is placed
    relative to the begin of its level begins at its quantized offset
    after the begin time recorded for the innermost group that is open
    in front of it, wherever in the group it stands and however many
    closed groups come before it; outside every group it begins at its
    offset from zero. *)
Theorem level_begin_is_begin_of_group
  (s : CMetaInterval) (i : nat) (d : IntervalDef) :
  reachable s ->
  nth_error (_defs (do_recompute s)) i = Some d ->
  _type d <> DT_pop_level -> _rel_to d = RS_level_begin ->
  _actual_begin_time d
  = level_begin_at (_defs (do_recompute s)) i + offset d.
Proof.
  intros Hr Hd Hty Hrel. pose proof (reachable_Inv s Hr) as HI.
  exact (do_recompute_levels s i d (inv_children s HI) (inv_nested s HI)
           Hd Hty Hrel).
Qed.

End LevelTheorems.

Section CompileWitnesses.
#[local] Existing Instance Q_time.

(** Scenario A before and after it was begun at 0: the definitions have
    the same static members, and a compilation of the second gives what
    a compilation of the first gives. *)
Lemma compilation_depends_on_static_members_witness :
  reachable two_in_a_row /\
  statics (_defs (initialize 0%Q two_in_a_row))
  = statics (_defs two_in_a_row) /\
  _defs (do_recompute (initialize 0%Q two_in_a_row))
  = _defs (do_recompute two_in_a_row) /\
  _events (do_recompute (initialize 0%Q two_in_a_row))
  = _events (do_recompute two_in_a_row) /\
  _end_time (do_recompute (initialize 0%Q two_in_a_row))
  = _end_time (do_recompute two_in_a_row) /\
  _duration (do_recompute (initialize 0%Q two_in_a_row))
  = _duration (do_recompute two_in_a_row).
Proof.
  assert (Hst : statics (_defs (initialize 0%Q two_in_a_row))
                = statics (_defs two_in_a_row))
    by (vm_compute; reflexivity).
  split; [exact reachable_two_in_a_row|]. split; [exact Hst|].
  apply (compilation_depends_on_static_members (TM := Q_time) _ _
           reachable_two_in_a_row Hst).
Defined.

(** The open group of scenario D compiled twice: the warning is issued
    twice. *)
Lemma recompile_idempotent_witness :
  reachable open_group /\
  _defs (do_recompute (do_recompute open_group))
  = _defs (do_recompute open_group) /\
  _events (do_recompute (do_recompute open_group))
  = _events (do_recompute open_group) /\
  _end_time (do_recompute (do_recompute open_group))
  = _end_time (do_recompute open_group) /\
  _duration (do_recompute (do_recompute open_group))
  = _duration (do_recompute open_group) /\
  _diag (do_recompute (do_recompute open_group))
  = _diag (do_recompute open_group) ++
    if nesting (_defs open_group) =? 0 then []
    else [D_warning pushes_dont_match_pops].
Proof.
  assert (Hr : reachable open_group)
    by (apply R_add_c_interval, R_push_level, R_new).
  split; [exact Hr|].
  apply (recompile_idempotent (TM := Q_time) _ Hr).
Defined.

(** The second action of scenario F: half a unit after the begin of the
    group, which is at 2. *)
Lemma level_begin_is_begin_of_group_witness :
  reachable staggered_group /\
  nth_error (_defs (do_recompute staggered_group)) 2 = Some staggered_def /\
  _type staggered_def <> DT_pop_level /\
  _rel_to staggered_def = RS_level_begin /\
  _actual_begin_time staggered_def
  = level_begin_at (_defs (do_recompute staggered_group)) 2
    + offset staggered_def.
Proof.
  assert (Hr : reachable staggered_group)
    by (apply R_pop_level, R_add_c_interval, R_add_c_interval, R_push_level,
          R_new).
  assert (Hn : nth_error (_defs (do_recompute staggered_group)) 2
               = Some staggered_def) by (vm_compute; reflexivity).
  assert (Hty : _type staggered_def <> DT_pop_level) by discriminate.
  assert (Hrel : _rel_to staggered_def = RS_level_begin) by reflexivity.
  split; [exact Hr|]. split; [exact Hn|]. split; [exact Hty|].
  split; [exact Hrel|].
  apply (level_begin_is_begin_of_group (TM := Q_time) _ _ _ Hr Hn Hty Hrel).
Defined.

End CompileWitnesses.
